(** * The 2048 board engine of [game-2048.tsx]

    A shallow embedding of the game logic of the React component
    [Game2048]: tile spawning ([addNewTile]), move resolution ([move]),
    the terminal test ([isGameOverState]) and the achievement rules
    ([checkAchievements], [addAchievement], [addAchievements]).

    Conventions of the embedding.
    - A JavaScript number that holds a tile value, a coordinate, a score or a
      counter is an integer of [Z]; the code only ever adds, subtracts and
      doubles them.
    - A call of [Math.random()] is a binary64 number of the interval [0,1),
      see [Draw]; the product and the comparison that [addNewTile] makes
      with it are those of binary64 arithmetic ([round53], [point9]).
    - The tile objects that [move] creates live in an object store ([Heap]);
      arrays of tiles are lists of references into it, so that
      [sortedTiles] and [newBoard] share the objects they hold and the
      assignment [tile.row = newRow] is seen through both.
    - The React state of the component is the record [Session]; an event
      handler reads the state of the render it was created in and its
      [setX] calls take effect together when it returns.
    - The [while (true)] loop of [move] is run for a bounded number of
      rounds ([rounds]); [walk_enough] shows that they are always enough,
      and [move_total] that [move] returns in every state.
    - The data in [localStorage] is an [Item]: what [getItem] returns,
      seen through the keys that the component reads and writes
      ([saveGameData], [loadGameData], [updateSettings]).
    - What is drawn is given by its numbers: the offsets of the cells
      and of the tiles in rem, as rationals, and the classes of
      [cellColor].
    - Of the screens and dialogs, the model has the commands of their
      buttons and the states in which they are offered ([offered]).
    - Sounds and the timer are left out: they read the game state and
      never write it. *)

From Stdlib Require Import String DecimalString Ascii.
From Stdlib Require DecimalPos.
From Stdlib Require Import ZArith List Bool Lia QArith Qround.
From Stdlib Require Import Permutation Sorted.
Import ListNotations.
Open Scope Z_scope.

(* ------------------------------------------------------------------ *)
(** ** Types *)

(** [type Tile].  The optional field [mergedFrom] is never written by the
    component and is left out; the optional flags are [None] when absent. *)
Record Tile := mkTile {
  value : Z;
  id : string;
  justMerged : option bool;
  isNew : option bool;
  row : Z;
  col : Z
}.

(** [type GameState]. *)
Inductive GameState := start | playing | paused | gameOver | victory.

(** The argument of [move]. *)
Inductive Direction := Up | Down | Left | Right.

(** Truthiness of an optional boolean field: [undefined] is falsy. *)
Definition truthy (f : option bool) : bool :=
  match f with Some b => b | None => false end.

(** [a === b] on game states. *)
Definition GameState_eqb (a b : GameState) : bool :=
  match a, b with
  | start, start | playing, playing | paused, paused
  | gameOver, gameOver | victory, victory => true
  | _, _ => false
  end.

(** [achievements.includes(a)]. *)
Definition includes (l : list string) (a : string) : bool :=
  existsb (String.eqb a) l.

(** The component state that the game logic reads and writes; of the
    settings only [gridSize] reaches the logic. *)
Record Session := mkSession {
  board : list Tile;
  score : Z;
  bestScore : Z;
  moveCount : Z;
  gameState : GameState;
  achievements : list string;
  gridSize : Z
}.

(** What the handlers do besides setting state: the toast of an unlocked
    achievement and the calls of [setGameState], in the order made. *)
Inductive Call :=
| Toast (achievement : string)
| SetGameState (g : GameState).

(* ------------------------------------------------------------------ *)
(** ** Random draws and [addNewTile] *)

(** The numbers that [addNewTile] computes with are binary64 numbers
    that are not negative.  Such a number is [k / 2^1074] for a natural
    number [k] of at most 53 significant bits, and is given here by this
    [k]; 2^-1074 is the least positive binary64 number. *)
Definition scale : Z := 2 ^ 1074.

Definition scalePos : positive := 2 ^ 1074.

(** [k] has at most 53 significant bits, so that [k / 2^1074] is a
    binary64 number (the numbers here are far below the largest one). *)
Definition fits53 (k : Z) : Prop :=
  exists m e, 0 <= m < 2 ^ 53 /\ 0 <= e /\ k = m * 2 ^ e.

(** The largest binary64 number that is not above [k / 2^1074]: [k] cut
    to its 53 leading bits. *)
Definition truncate53 (k : Z) : Z :=
  let s := Z.log2 k - 52 in
  if s <=? 0 then k else k / 2 ^ s * 2 ^ s.

(** The binary64 number nearest to [k / 2^1074], of two that are
    equally near the one with the even significand: the result of an
    operation of binary64 arithmetic whose exact result is
    [k / 2^1074]. *)
Definition round53 (k : Z) : Z :=
  let s := Z.log2 k - 52 in
  if s <=? 0 then k
  else
    let m := k / 2 ^ s in
    let r := k mod 2 ^ s in
    let half := 2 ^ (s - 1) in
    (if r <? half then m
     else if half <? r then m + 1
     else if Z.even m then m else m + 1) * 2 ^ s.

(** A result of [Math.random()]: a binary64 number of [0,1).  It is
    named by a rational [num / (num + gap)] of [0,1), as the largest
    binary64 number that is not above this rational.  Every binary64
    number of [0,1) is named, by itself ([drawn_onto]), and nothing else
    is ([drawn_fits53], [drawQ_range]). *)
Record Draw := mkDraw { num : N; gap : positive }.

(** The denominator [num + gap] of the rational that names a draw. *)
Definition den (u : Draw) : positive :=
  match num u with
  | N0 => gap u
  | Npos p => (p + gap u)%positive
  end.

(** The number drawn, in units of 2^-1074. *)
Definition drawn (u : Draw) : Z :=
  truncate53 (Z.of_N (num u) * scale / Z.pos (den u)).

(** The number drawn. *)
Definition drawQ (u : Draw) : Q := Qmake (drawn u) scalePos.


(** The three inputs [addNewTile] takes from its environment: the two
    calls of [Math.random()] in the order they are made, and [Date.now()]. *)
Record Draws := mkDraws { cellDraw : Draw; valueDraw : Draw; now : Z }.

(** A number inside a template string. *)
Definition showZ (z : Z) : string := NilZero.string_of_int (Z.to_int z).

(** [board.some((tile) => tile.row === row && tile.col === col)]. *)
Definition occupied (board : list Tile) (r c : Z) : bool :=
  existsb (fun tile => (row tile =? r) && (col tile =? c)) board.

(** [0, 1, ..., n-1] as the loop counters of [addNewTile] take them. *)
Definition upto (n : Z) : list Z := map Z.of_nat (seq 0 (Z.to_nat n)).

(** The list [emptyTiles] built by the two nested loops. *)
Definition emptyTiles (gs : Z) (board : list Tile) : list (Z * Z) :=
  flat_map (fun r =>
    flat_map (fun c => if occupied board r c then [] else [(r, c)]) (upto gs))
    (upto gs).

(** [Math.floor(Math.random() * emptyTiles.length)].  The length of an
    array is an integer below 2^32 and so a binary64 number; the product
    is the exact product, rounded. *)
Definition pickIndex (u : Draw) (len : nat) : nat :=
  Z.to_nat (round53 (drawn u * Z.of_nat len) / scale).

(** The number [0.9] of the source, in units of 2^-1074: the binary64
    number nearest to 9/10 is 8106479329266893 / 2^53
    ([point9_nearest]). *)
Definition point9 : Z := 8106479329266893 * 2 ^ 1021.

(** [Math.random() < 0.9 ? 2 : 4]. *)
Definition pickValue (u : Draw) : Z :=
  if drawn u <? point9 then 2 else 4.


(** The tile that [addNewTile] pushes, if it pushes one. *)
Definition spawnTile (gs : Z) (board : list Tile) (d : Draws) : option Tile :=
  let empty := emptyTiles gs board in
  match empty with
  | [] => None
  | _ :: _ =>
    match nth_error empty (pickIndex (cellDraw d) (length empty)) with
    | Some (r, c) =>
      Some {| value := pickValue (valueDraw d);
              id := (showZ r ++ "-" ++ showZ c ++ "-" ++ showZ (now d))%string;
              justMerged := None;
              isNew := Some true;
              row := r;
              col := c |}
    | None => None
    end
  end.

(** [addNewTile(board)]: the array after the call. *)
Definition addNewTile (gs : Z) (board : list Tile) (d : Draws) : list Tile :=
  match spawnTile gs board d with
  | Some t => board ++ [t]
  | None => board
  end.

(* ------------------------------------------------------------------ *)
(** ** [isGameOverState] *)

(** [board.some((t) => t.row === r && t.col === c && t.value === v)]. *)
Definition someAt (board : list Tile) (r c v : Z) : bool :=
  existsb (fun t => (row t =? r) && (col t =? c) && (value t =? v)) board.

(** The condition of the [if] in the loop of [isGameOverState]. *)
Definition hasEqualNeighbour (gs : Z) (board : list Tile) (tile : Tile) : bool :=
  let r := row tile in
  let c := col tile in
  let v := value tile in
  ((0 <? r) && someAt board (r - 1) c v)
  || ((r <? gs - 1) && someAt board (r + 1) c v)
  || ((0 <? c) && someAt board r (c - 1) v)
  || ((c <? gs - 1) && someAt board r (c + 1) v).

Definition isGameOverState (gs : Z) (board : list Tile) : bool :=
  if Z.of_nat (length board) <? gs * gs then false
  else negb (existsb (hasEqualNeighbour gs board) board).

(* ------------------------------------------------------------------ *)
(** ** The object store of [move] *)

(** A reference to a tile object. *)
Abbreviation Ref := nat.

(** The tile objects by reference.  References are handed out in order,
    so a store is read only below the next free reference. *)
Definition Heap := Ref -> Tile.

(** What the store holds where no object has been made yet. *)
Definition blankTile : Tile :=
  {| value := 0; id := EmptyString; justMerged := None; isNew := None;
     row := 0; col := 0 |}.

(** The store with the object [r] made or written. *)
Definition store (h : Heap) (r : Ref) (t : Tile) : Heap :=
  fun r' => if Nat.eqb r' r then t else h r'.

(** [{ ...tile, justMerged: false, isNew: false }]. *)
Definition freshCopy (tile : Tile) : Tile :=
  {| value := value tile; id := id tile;
     justMerged := Some false; isNew := Some false;
     row := row tile; col := col tile |}.

(** The objects made by [board.map(...)]: the copy of the tile at index
    [i] is the object [i]. *)
Definition copies (board : list Tile) : Heap :=
  fun r => nth r (map freshCopy board) blankTile.

(** [tile.row = newRow; tile.col = newCol]. *)
Definition setPosition (tile : Tile) (r c : Z) : Tile :=
  {| value := value tile; id := id tile;
     justMerged := justMerged tile; isNew := isNew tile;
     row := r; col := c |}.

(** The tiles an array of references holds. *)
Definition tilesOf (h : Heap) (refs : list Ref) : list Tile := map h refs.

(* ------------------------------------------------------------------ *)
(** ** Sorting *)

(** The comparator given to [sort]. *)
Definition compareTiles (d : Direction) (a b : Tile) : Z :=
  match d with
  | Up => row a - row b
  | Down => row b - row a
  | Left => col a - col b
  | Right => col b - col a
  end.

Section Sort.
Context {A : Type} (cmp : A -> A -> Z).

(** [x] goes in front of the first element it does not come after, so
    elements that compare equal keep their order. *)
Fixpoint insertSorted (x : A) (l : list A) : list A :=
  match l with
  | [] => [x]
  | y :: l' => if cmp x y <=? 0 then x :: l else y :: insertSorted x l'
  end.

(** [Array.prototype.sort] with a comparator: a stable sort. *)
Definition sortBy (l : list A) : list A := fold_right insertSorted [] l.
End Sort.

(* ------------------------------------------------------------------ *)
(** ** The loop of [move] *)

(** The step a tile takes in a direction:
    [direction === "up" ? -1 : direction === "down" ? 1 : 0] for the row, *)
Definition dRow (d : Direction) : Z :=
  match d with Up => -1 | Down => 1 | _ => 0 end.

(** [direction === "left" ? -1 : direction === "right" ? 1 : 0] for the
    column. *)
Definition dCol (d : Direction) : Z :=
  match d with Left => -1 | Right => 1 | _ => 0 end.

(** [newRow < 0 || newRow >= gridSize || newCol < 0 || newCol >= gridSize]. *)
Definition outside (gs r c : Z) : bool :=
  (r <? 0) || (gs <=? r) || (c <? 0) || (gs <=? c).

(** [newBoard.find((t) => t.row === newRow && t.col === newCol)]. *)
Definition findAt (h : Heap) (newBoard : list Ref) (r c : Z) : option Ref :=
  find (fun t => (row (h t) =? r) && (col (h t) =? c)) newBoard.

(** How the [while (true)] loop is left. *)
Inductive Halt :=
| Merge (target : Ref) (newRow newCol : Z)
| Rest (newRow newCol : Z).

(** The [while (true)] loop for a tile of value [v], entered with
    [(newRow, newCol)]; [None] when [fuel] rounds were not enough to
    leave it (see [walk_enough]). *)
Fixpoint walk (fuel : nat) (h : Heap) (newBoard : list Ref) (d : Direction)
    (gs v newRow newCol : Z) : option Halt :=
  match fuel with
  | O => None
  | S fuel' =>
    let newRow := newRow + dRow d in
    let newCol := newCol + dCol d in
    if outside gs newRow newCol then
      Some (Rest (newRow - dRow d) (newCol - dCol d))
    else
      match findAt h newBoard newRow newCol with
      | Some targetTile =>
        if (value (h targetTile) =? v) && negb (truthy (justMerged (h targetTile)))
        then Some (Merge targetTile newRow newCol)
        else Some (Rest (newRow - dRow d) (newCol - dCol d))
      | None => walk fuel' h newBoard d gs v newRow newCol
      end
  end.

(** A merge the loop made: the tile found, the tile moved and the tile
    pushed.  The code keeps no such list; it is recorded for the
    statements about merges. *)
Record Merger := mkMerger { found : Ref; moved : Ref; pushed : Ref }.

(** The variables of [move] while its [for] loop runs.  [setAchievements]
    and [setGameState] hold the last value set, or the state of the
    render when none was. *)
Record Vars := mkVars {
  heap : Heap;
  next : Ref;
  newBoard : list Ref;
  changed : bool;
  newScore : Z;
  mergeHappened : bool;
  nextAchievements : list string;
  nextGameState : GameState;
  calls : list Call;
  mergers : list Merger
}.

(** [addAchievement(achievement)] called from a handler of the render
    with state [s]. *)
Definition addAchievement (s : Session) (achievement : string) (v : Vars) : Vars :=
  if negb (includes (achievements s) achievement) then
    {| heap := heap v; next := next v; newBoard := newBoard v;
       changed := changed v; newScore := newScore v;
       mergeHappened := mergeHappened v;
       nextAchievements := achievements s ++ [achievement];
       nextGameState := nextGameState v;
       calls := calls v ++ [Toast achievement];
       mergers := mergers v |}
  else v.

(** [setGameState(g)] called from [move]. *)
Definition setGameState (g : GameState) (v : Vars) : Vars :=
  {| heap := heap v; next := next v; newBoard := newBoard v;
     changed := changed v; newScore := newScore v;
     mergeHappened := mergeHappened v;
     nextAchievements := nextAchievements v;
     nextGameState := g;
     calls := calls v ++ [SetGameState g];
     mergers := mergers v |}.

(** The branch of the loop body that merges [tile] into [targetTile]. *)
Definition mergeInto (s : Session) (tile targetTile : Ref) (newRow newCol : Z)
    (v : Vars) : Vars :=
  let merged :=
    {| value := value (heap v tile) * 2; id := id (heap v tile);
       justMerged := Some true; isNew := None;
       row := newRow; col := newCol |} in
  let v1 :=
    {| heap := store (heap v) (next v) merged;
       next := S (next v);
       newBoard :=
         filter (fun t => negb (Nat.eqb t targetTile) && negb (Nat.eqb t tile))
                (newBoard v) ++ [next v];
       changed := true;
       newScore := newScore v + value (heap v tile) * 2;
       mergeHappened := true;
       nextAchievements := nextAchievements v;
       nextGameState := nextGameState v;
       calls := calls v;
       mergers := mergers v ++ [mkMerger targetTile tile (next v)] |} in
  if (value (heap v tile) * 2 =? 2048) && negb (includes (achievements s) "reach2048")
  then setGameState victory (addAchievement s "reach2048" v1)
  else v1.

(** The [if] that closes the loop body. *)
Definition settle (tile : Ref) (r c newRow newCol : Z) (v : Vars) : Vars :=
  if negb (newRow =? r) || negb (newCol =? c) then
    {| heap := store (heap v) tile (setPosition (heap v tile) newRow newCol);
       next := next v; newBoard := newBoard v;
       changed := true; newScore := newScore v;
       mergeHappened := mergeHappened v;
       nextAchievements := nextAchievements v;
       nextGameState := nextGameState v;
       calls := calls v;
       mergers := mergers v |}
  else v.

(** One round of [for (const tile of sortedTiles)]. *)
Definition moveTile (s : Session) (d : Direction) (fuel : nat) (v : Vars)
    (tile : Ref) : option Vars :=
  let r := row (heap v tile) in
  let c := col (heap v tile) in
  match walk fuel (heap v) (newBoard v) d (gridSize s) (value (heap v tile)) r c with
  | None => None
  | Some (Merge targetTile newRow newCol) =>
    Some (settle tile r c newRow newCol (mergeInto s tile targetTile newRow newCol v))
  | Some (Rest newRow newCol) => Some (settle tile r c newRow newCol v)
  end.

(** [for (const tile of sortedTiles) { ... }]. *)
Fixpoint forEachTile (s : Session) (d : Direction) (fuel : nat) (v : Vars)
    (sortedTiles : list Ref) : option Vars :=
  match sortedTiles with
  | [] => Some v
  | tile :: rest =>
    match moveTile s d fuel v tile with
    | Some v' => forEachTile s d fuel v' rest
    | None => None
    end
  end.

(** The variables when the loop is entered. *)
Definition enter (s : Session) : Vars :=
  {| heap := copies (board s);
     next := length (board s);
     newBoard := seq 0 (length (board s));
     changed := false;
     newScore := score s;
     mergeHappened := false;
     nextAchievements := achievements s;
     nextGameState := gameState s;
     calls := [];
     mergers := [] |}.

(** [sortedTiles]: the references of [newBoard], sorted on the objects
    they point to. *)
Definition sortedTiles (s : Session) (d : Direction) : list Ref :=
  sortBy (fun a b => compareTiles d (copies (board s) a) (copies (board s) b))
         (seq 0 (length (board s))).

(** Rounds of the [while] loop that are always enough on a grid of
    size [gs]. *)
Definition rounds (gs : Z) : nat := S (Z.to_nat gs).

(** The move resolver: [move] up to the end of its [for] loop. *)
Definition resolve (s : Session) (d : Direction) : option Vars :=
  forEachTile s d (rounds (gridSize s)) (enter s) (sortedTiles s d).

(** The tiles of [newBoard] when the loop is left: the board the
    resolver leaves, before any tile is spawned. *)
Definition resolvedBoard (v : Vars) : list Tile := tilesOf (heap v) (newBoard v).

(** What a handler returns: the state of the next render and the calls
    it made. *)
Definition Outcome := (Session * list Call)%type.

(** The part of [move] after the loop. *)
Definition finish (s : Session) (v : Vars) (dr : Draws) : Outcome :=
  if changed v then
    let newBoard := addNewTile (gridSize s) (resolvedBoard v) dr in
    let over := isGameOverState (gridSize s) newBoard in
    ({| board := newBoard;
        score := newScore v;
        bestScore := bestScore s;
        moveCount := moveCount s + 1;
        gameState := if over then gameOver else nextGameState v;
        achievements := nextAchievements v;
        gridSize := gridSize s |},
     if over then calls v ++ [SetGameState gameOver] else calls v)
  else
    let over := isGameOverState (gridSize s) (resolvedBoard v) in
    ({| board := board s;
        score := score s;
        bestScore := bestScore s;
        moveCount := moveCount s;
        gameState := if over then gameOver else nextGameState v;
        achievements := nextAchievements v;
        gridSize := gridSize s |},
     if over then calls v ++ [SetGameState gameOver] else calls v).

(** [move(direction)]. *)
Definition move (s : Session) (d : Direction) (dr : Draws) : option Outcome :=
  if negb (GameState_eqb (gameState s) playing) then Some (s, [])
  else
    match resolve s d with
    | Some v => Some (finish s v dr)
    | None => None
    end.

(* ------------------------------------------------------------------ *)
(** ** Achievements *)

(** [Math.max(...board.map((tile) => tile.value), 0)]. *)
Definition maxTile (board : list Tile) : Z :=
  fold_right Z.max 0 (map value board).

(** One [if] of [checkAchievements]. *)
Definition unlockWhen (cond : bool) (unlocked : list string) (a : string) : list string :=
  if cond && negb (includes unlocked a) then [a] else [].

(** The array [newAchievements] that [checkAchievements] builds from the
    score, the move count, the largest tile and the unlocked
    achievements. *)
Definition newAchievements (score moveCount maxTile : Z) (unlocked : list string)
    : list string :=
  unlockWhen (1000 <=? score) unlocked "score1000"
  ++ unlockWhen (10000 <=? score) unlocked "score10000"
  ++ unlockWhen (100 <=? moveCount) unlocked "moves100"
  ++ unlockWhen (512 <=? maxTile) unlocked "tile512"
  ++ unlockWhen (1024 <=? maxTile) unlocked "tile1024".

(** The state after [setAchievements(l)]. *)
Definition withAchievements (s : Session) (l : list string) : Session :=
  {| board := board s; score := score s; bestScore := bestScore s;
     moveCount := moveCount s; gameState := gameState s;
     achievements := l; gridSize := gridSize s |}.

(** [addAchievements(newAchievements)]. *)
Definition addAchievements (s : Session) (new : list string) : Outcome :=
  let filteredAchievements :=
    filter (fun a => negb (includes (achievements s) a)) new in
  match filteredAchievements with
  | [] => (s, [])
  | first :: _ =>
    (withAchievements s (achievements s ++ filteredAchievements), [Toast first])
  end.

(** [checkAchievements()]. *)
Definition checkAchievements (s : Session) : Outcome :=
  let new :=
    newAchievements (score s) (moveCount s) (maxTile (board s)) (achievements s) in
  match new with
  | [] => (s, [])
  | _ :: _ => addAchievements s new
  end.

(** The effect that runs after a render in which [score] or [bestScore]
    changed. *)
Definition scoreEffect (s : Session) : Outcome :=
  let '(s', cs) := checkAchievements s in
  ({| board := board s'; score := score s';
      bestScore := if bestScore s <? score s then score s else bestScore s;
      moveCount := moveCount s'; gameState := gameState s';
      achievements := achievements s'; gridSize := gridSize s' |}, cs).

(* ------------------------------------------------------------------ *)
(** ** The other handlers *)

(** The state after [setGameState(g)]. *)
Definition withGameState (s : Session) (g : GameState) : Session :=
  {| board := board s; score := score s; bestScore := bestScore s;
     moveCount := moveCount s; gameState := g;
     achievements := achievements s; gridSize := gridSize s |}.

(** [initializeGame()]; [resetGame] calls nothing else. *)
Definition initializeGame (s : Session) (d1 d2 : Draws) : Session :=
  {| board := addNewTile (gridSize s) (addNewTile (gridSize s) [] d1) d2;
     score := 0;
     bestScore := bestScore s;
     moveCount := 0;
     gameState := playing;
     achievements := achievements s;
     gridSize := gridSize s |}.

(** [resetGame()]. *)
Definition resetGame := initializeGame.

(** [continueAfterVictory()]. *)
Definition continueAfterVictory (s : Session) : Session :=
  withGameState s playing.

(** The button that leaves a paused game for the menu:
    [setGameState("start"); setBoard([])]. *)
Definition returnToMenu (s : Session) : Session :=
  {| board := []; score := score s; bestScore := bestScore s;
     moveCount := moveCount s; gameState := start;
     achievements := achievements s; gridSize := gridSize s |}.

(* ------------------------------------------------------------------ *)
(** ** Commands *)

(** What the player and the component do.  [NewGame] is [initializeGame]
    (Play Game, the restart button, Play Again, New Game), [KeepPlaying]
    is [continueAfterVictory], [Pause] and [Resume] set the state to
    paused and to playing, the two menu buttons leave a paused game and
    a finished one, [ScoreEffect] is the effect on the score. *)
Inductive Command :=
| Move (d : Direction) (dr : Draws)
| NewGame (d1 d2 : Draws)
| KeepPlaying
| Pause
| Resume
| MenuFromPause
| MenuFromGameOver
| ScoreEffect.

(** A command, run whether or not its button is on the screen. *)
Definition step (s : Session) (c : Command) : option Outcome :=
  match c with
  | Move d dr => move s d dr
  | NewGame d1 d2 => Some (resetGame s d1 d2, [])
  | KeepPlaying => Some (continueAfterVictory s, [])
  | Pause => Some (withGameState s paused, [])
  | Resume => Some (withGameState s playing, [])
  | MenuFromPause => Some (returnToMenu s, [])
  | MenuFromGameOver => Some (withGameState s start, [])
  | ScoreEffect => Some (scoreEffect s)
  end.

(** A sequence of commands: the last state and the calls of each. *)
Fixpoint run (s : Session) (cmds : list Command)
    : option (Session * list (list Call)) :=
  match cmds with
  | [] => Some (s, [])
  | c :: rest =>
    match step s c with
    | Some (s1, cs) =>
      match run s1 rest with
      | Some (s2, log) => Some (s2, cs :: log)
      | None => None
      end
    | None => None
    end
  end.

(* ------------------------------------------------------------------ *)
(** ** Notions used in the statements *)

(** The cell a tile is on. *)
Definition cell (t : Tile) : Z * Z := (row t, col t).

(** The coordinates [(r, c)] name a cell of the grid. *)
Definition onGrid (gs r c : Z) : Prop := 0 <= r < gs /\ 0 <= c < gs.

(** A cell of the grid that no tile of the board is on. *)
Definition emptyCell (gs : Z) (board : list Tile) (r c : Z) : Prop :=
  onGrid gs r c /\ forall t, In t board -> cell t <> (r, c).

(** The two invariants of a board: no two tiles on one cell, every tile
    on the grid. *)
Definition wellFormed (gs : Z) (board : list Tile) : Prop :=
  NoDup (map cell board) /\ Forall (fun t => onGrid gs (row t) (col t)) board.

(** Two tiles are neighbours: one step apart in a row or in a column. *)
Definition neighbours (a b : Tile) : Prop :=
  (row a = row b /\ (col a = col b + 1 \/ col a = col b - 1))
  \/ (col a = col b /\ (row a = row b + 1 \/ row a = row b - 1)).

(** The sum of the tile values of a board. *)
Definition total (board : list Tile) : Z :=
  fold_right Z.add 0 (map value board).

(** The state in which only the resolver has run: its board and score,
    no spawn, the move not counted. *)
Definition resolvedOnly (s : Session) (v : Vars) : Session :=
  {| board := resolvedBoard v; score := newScore v; bestScore := bestScore s;
     moveCount := moveCount s; gameState := gameState s;
     achievements := achievements s; gridSize := gridSize s |}.

(** The cell next to [(r, c)] in a direction. *)
Definition ahead (d : Direction) (rc : Z * Z) : Z * Z :=
  (fst rc + dRow d, snd rc + dCol d).

(** The tile [t] can neither slide nor merge in direction [d]: the cell
    ahead of it is off the grid, or a tile is on that cell and no tile on
    it has the value of [t]. *)
Definition blockedTile (gs : Z) (board : list Tile) (d : Direction) (t : Tile) : Prop :=
  outside gs (fst (ahead d (cell t))) (snd (ahead d (cell t))) = true
  \/ ((exists u, In u board /\ cell u = ahead d (cell t))
      /\ forall u, In u board -> cell u = ahead d (cell t) -> value u <> value t).

(** No legal slide in direction [d]: no tile of the board can slide or
    merge. *)
Definition noLegalSlide (gs : Z) (board : list Tile) (d : Direction) : Prop :=
  forall t, In t board -> blockedTile gs board d t.

(** The place of a tile in the order of a move: smaller is nearer to
    the wall the tiles move to. *)
Definition key (d : Direction) (rc : Z * Z) : Z :=
  match d with
  | Up => fst rc
  | Down => - fst rc
  | Left => snd rc
  | Right => - snd rc
  end.

(** Two tiles on one line of the move: the same row for a move to the
    left or right, the same column for a move up or down. *)
Definition sameLine (d : Direction) (a b : Tile) : Prop :=
  match d with
  | Left | Right => row a = row b
  | Up | Down => col a = col b
  end.

(** The rows of the table of [checkAchievements]. *)
Definition earned (score moveCount maxTile : Z) (a : string) : Prop :=
  (a = "score1000"%string /\ 1000 <= score)
  \/ (a = "score10000"%string /\ 10000 <= score)
  \/ (a = "moves100"%string /\ 100 <= moveCount)
  \/ (a = "tile512"%string /\ 512 <= maxTile)
  \/ (a = "tile1024"%string /\ 1024 <= maxTile).

(** The tiles that took part in the mergers: found or moved. *)
Definition participants (ms : list Merger) : list Ref :=
  flat_map (fun m => [found m; moved m]) ms.

(** The sum of the values of the tiles the mergers pushed. *)
Definition mergedValues (h : Heap) (ms : list Merger) : Z :=
  fold_right Z.add 0 (map (fun m => value (h (pushed m))) ms).

(** The tiles of a board as (row, column, value). *)
Definition layout (board : list Tile) : list (Z * Z * Z) :=
  map (fun t => (row t, col t, value t)) board.

(** What the resolver returns: the resolved board, the score gained and
    [changed]. *)
Definition resolveLayout (s : Session) (d : Direction)
    : option (list (Z * Z * Z) * Z * bool) :=
  match resolve s d with
  | Some v => Some (layout (resolvedBoard v), newScore v - score s, changed v)
  | None => None
  end.

(** The call [setGameState("victory")]. *)
Definition isVictory (c : Call) : bool :=
  match c with SetGameState victory => true | _ => false end.

(** The handler set the state to [victory]. *)
Definition firesVictory (cs : list Call) : bool := existsb isVictory cs.

(** The number of commands that set the state to [victory]. *)
Definition victories (log : list (list Call)) : nat :=
  length (filter firesVictory log).

(** The states of a session: a game starts with [initializeGame], in
    whatever state the component was, and goes on with commands.  The
    grid size is chosen on the start screen only. *)
Inductive reachable : Session -> Prop :=
| reach_start s d1 d2 : reachable (initializeGame s d1 d2)
| reach_step s c s' cs :
    reachable s -> step s c = Some (s', cs) -> reachable s'.

(** The tile [u] is on the cell [rc]. *)
Definition cellIs (rc : Z * Z) (u : Tile) : bool :=
  (row u =? fst rc) && (col u =? snd rc).

(** [blockedTile], decided. *)
Definition blockedTileb (gs : Z) (board : list Tile) (d : Direction) (t : Tile) : bool :=
  outside gs (fst (ahead d (cell t))) (snd (ahead d (cell t)))
  || (existsb (cellIs (ahead d (cell t))) board
      && forallb (fun u => negb (cellIs (ahead d (cell t)) u)
                           || negb (value u =? value t)) board).

(** [noLegalSlide], decided. *)
Definition noLegalSlideb (gs : Z) (board : list Tile) (d : Direction) : bool :=
  forallb (blockedTileb gs board d) board.

(* ------------------------------------------------------------------ *)
(** ** Boards and draws of the examples *)

(** A tile of value [v] on the cell [(r, c)]. *)
Definition tileAt (r c v : Z) : Tile :=
  {| value := v; id := (showZ r ++ "-" ++ showZ c)%string;
     justMerged := Some false; isNew := Some false; row := r; col := c |}.

(** The tiles of a row of values from column [c] on; 0 is an empty cell. *)
Fixpoint rowTiles (r c : Z) (vs : list Z) : list Tile :=
  match vs with
  | [] => []
  | v :: vs' =>
    (if v =? 0 then [] else [tileAt r c v]) ++ rowTiles r (c + 1) vs'
  end.

(** The tiles of rows of values from row [r] on. *)
Fixpoint gridTiles (r : Z) (rows : list (list Z)) : list Tile :=
  match rows with
  | [] => []
  | vs :: rows' => rowTiles r 0 vs ++ gridTiles (r + 1) rows'
  end.

(** The board drawn by its rows of values. *)
Definition picture (rows : list (list Z)) : list Tile := gridTiles 0 rows.

(** A full 4x4 board without equal neighbours. *)
Definition checkerboard : list Tile :=
  picture [[2; 4; 2; 4]; [4; 2; 4; 2]; [2; 4; 2; 4]; [4; 2; 4; 2]].

(** A session on a 4x4 grid, in play, with the given board. *)
Definition playingOn (board : list Tile) (unlocked : list string) : Session :=
  {| board := board; score := 0; bestScore := 0; moveCount := 0;
     gameState := playing; achievements := unlocked; gridSize := 4 |}.

(** The draws next below 1/3, and 1/2, at time 17. *)
Definition someDraws : Draws := mkDraws (mkDraw 1 2) (mkDraw 1 1) 17.

(** A new game on the 4x4 grid. *)
Definition freshGame : Session :=
  initializeGame (playingOn [] []) someDraws (mkDraws (mkDraw 3 1) (mkDraw 19 1) 18).

(** The new game after a first move to the left. *)
Definition afterFirstMove : Session :=
  match move freshGame Left (mkDraws (mkDraw 0 1) (mkDraw 1 3) 19) with
  | Some (s', _) => s'
  | None => freshGame
  end.

(* ------------------------------------------------------------------ *)
(** ** Invariants of the loops *)

(** The tile found blocks a tile of value [v]: it has another value or
    has merged in this move. *)
Definition blocks (h : Heap) (v : Z) (target : Ref) : Prop :=
  (value (h target) =? v) && negb (truthy (justMerged (h target))) = false.

(** What the loop has established when it is left after [k] steps
    from [(r, c)]. *)
Definition halted (h : Heap) (refs : list Ref) (d : Direction) (gs v r c : Z)
    (halt : Halt) : Prop :=
  match halt with
  | Rest r' c' =>
    exists k, 0 <= k /\ r' = r + k * dRow d /\ c' = c + k * dCol d
      /\ (0 < k -> onGrid gs r' c' /\ findAt h refs r' c' = None)
      /\ (outside gs (r' + dRow d) (c' + dCol d) = true
          \/ (onGrid gs (r' + dRow d) (c' + dCol d)
              /\ exists target,
                   findAt h refs (r' + dRow d) (c' + dCol d) = Some target
                   /\ blocks h v target))
  | Merge target r' c' =>
    exists k, 0 < k /\ r' = r + k * dRow d /\ c' = c + k * dCol d
      /\ onGrid gs r' c'
      /\ findAt h refs r' c' = Some target
      /\ value (h target) = v
      /\ truthy (justMerged (h target)) = false
  end.

(** The references.  The tiles still to come are sorted, are on the
    board and are as they were when the loop was entered; the board
    holds each of its objects once. *)
Definition refsInv (s : Session) (d : Direction) (v : Vars) (rest : list Ref) : Prop :=
  StronglySorted
    (fun a b => key d (cell (copies (board s) a)) <= key d (cell (copies (board s) b)))
    rest
  /\ NoDup rest
  /\ (forall u, In u rest ->
        (u < length (board s))%nat /\ In u (newBoard v)
        /\ heap v u = copies (board s) u)
  /\ (length (board s) <= next v)%nat
  /\ (forall t, In t (newBoard v) -> (t < next v)%nat)
  /\ NoDup (newBoard v).

(** The tiles.  A tile of the board that the loop was entered with is
    not flagged, has its value and has stayed on its line; a tile pushed
    since is flagged.  The values of the board add up to what they did. *)
Definition tilesInv (s : Session) (d : Direction) (v : Vars) : Prop :=
  (forall t, In t (newBoard v) ->
     ((t < length (board s))%nat ->
        justMerged (heap v t) = Some false
        /\ value (heap v t) = value (copies (board s) t)
        /\ sameLine d (copies (board s) t) (heap v t))
     /\ ((length (board s) <= t)%nat -> justMerged (heap v t) = Some true))
  /\ total (resolvedBoard v) = total (board s).

(** The mergers.  Each merger took two tiles of the entered board, of
    one value and on one line, off the board and pushed a flagged tile of
    twice the value on that line, which is still on the board; no tile
    took part in two mergers; the score grew by the values pushed. *)
Definition mergersInv (s : Session) (d : Direction) (v : Vars) : Prop :=
  (forall m, In m (mergers v) ->
     (found m < length (board s))%nat /\ (moved m < length (board s))%nat
     /\ (length (board s) <= pushed m)%nat
     /\ In (pushed m) (newBoard v)
     /\ ~ In (found m) (newBoard v) /\ ~ In (moved m) (newBoard v)
     /\ value (copies (board s) (found m)) = value (copies (board s) (moved m))
     /\ value (heap v (pushed m)) = value (copies (board s) (moved m)) * 2
     /\ sameLine d (copies (board s) (found m)) (heap v (pushed m))
     /\ sameLine d (copies (board s) (moved m)) (heap v (pushed m)))
  /\ NoDup (participants (mergers v))
  /\ (forall t, In t (newBoard v) -> (length (board s) <= t)%nat ->
        exists m, In m (mergers v) /\ pushed m = t)
  /\ newScore v = score s + mergedValues (heap v) (mergers v)
  /\ mergeHappened v = negb (match mergers v with [] => true | _ :: _ => false end)
  /\ (mergers v = [] -> newBoard v = seq 0 (length (board s))).

(** The board.  When the board the loop was entered with keeps the
    invariants of a board, so does the board of the loop; once a tile
    has moved or merged, the board has room for a new tile. *)
Definition wfInv (s : Session) (v : Vars) : Prop :=
  wellFormed (gridSize s) (resolvedBoard v)
  /\ (changed v = true ->
      0 < gridSize s /\ Z.of_nat (length (newBoard v)) < gridSize s * gridSize s).

(** All the invariants of the [for] loop. *)
Definition loopInv (s : Session) (d : Direction) (v : Vars) (rest : list Ref) : Prop :=
  refsInv s d v rest /\ tilesInv s d v /\ mergersInv s d v
  /\ (wellFormed (gridSize s) (board s) -> wfInv s v).

(** While no tile has merged, every tile the loop is done with rests
    against the wall or against a tile of another value that the loop is
    done with too. *)
Definition settledInv (s : Session) (d : Direction) (v : Vars) (rest : list Ref) : Prop :=
  mergers v = [] ->
  forall u, In u (newBoard v) -> ~ In u rest ->
    outside (gridSize s) (fst (ahead d (cell (heap v u))))
            (snd (ahead d (cell (heap v u)))) = true
    \/ exists w, In w (newBoard v) /\ ~ In w rest
         /\ cell (heap v w) = ahead d (cell (heap v u))
         /\ value (heap v w) <> value (heap v u).

(** The calls.  Either the loop has called nothing and no merger has
    pushed a 2048 while reach2048 was locked, or it has unlocked reach2048
    and set the state to [victory] for a merger that pushed a 2048. *)
Definition callsInv (s : Session) (v : Vars) : Prop :=
  (calls v = []
   /\ nextAchievements v = achievements s
   /\ nextGameState v = gameState s
   /\ forall m, In m (mergers v) ->
        value (copies (board s) (moved m)) * 2 = 2048 ->
        In "reach2048"%string (achievements s))
  \/ (firesVictory (calls v) = true
      /\ nextAchievements v = achievements s ++ ["reach2048"%string]
      /\ nextGameState v = victory
      /\ ~ In "reach2048"%string (achievements s)
      /\ exists m, In m (mergers v)
           /\ value (copies (board s) (moved m)) * 2 = 2048).

(* ------------------------------------------------------------------ *)
(** ** Notions of the further statements *)

(** A board is packed towards [d]: every tile has the wall or a tile on
    the cell ahead of it. *)
Definition packed (gs : Z) (board : list Tile) (d : Direction) : Prop :=
  forall t, In t board ->
    outside gs (fst (ahead d (cell t))) (snd (ahead d (cell t))) = true
    \/ exists u, In u board /\ cell u = ahead d (cell t).

(** Every tile the loop is done with has the wall or a tile the loop is
    done with on the cell ahead of it. *)
Definition packedInv (s : Session) (d : Direction) (v : Vars) (rest : list Ref) : Prop :=
  forall u, In u (newBoard v) -> ~ In u rest ->
    outside (gridSize s) (fst (ahead d (cell (heap v u))))
            (snd (ahead d (cell (heap v u)))) = true
    \/ exists w, In w (newBoard v) /\ ~ In w rest
         /\ cell (heap v w) = ahead d (cell (heap v u)).

(** Every merger has taken one tile off the board. *)
Definition countInv (s : Session) (v : Vars) : Prop :=
  (length (newBoard v) + length (mergers v) = length (board s))%nat.

(** A tile value of the game: a power of two, from 2 on. *)
Definition tileValue (x : Z) : Prop := exists k, 0 < k /\ x = 2 ^ k.

(** The numbers of a session are those of a game: the tiles hold powers
    of two, the score is a multiple of four and no counter is negative. *)
Definition valuesInv (s : Session) : Prop :=
  Forall (fun t => tileValue (value t)) (board s)
  /\ 0 <= score s /\ (4 | score s) /\ 0 <= moveCount s.

(** A tile of 2048 or more is on the board only when reach2048 is
    unlocked. *)
Definition unlockedInv (s : Session) : Prop :=
  2048 <= maxTile (board s) -> In "reach2048"%string (achievements s).

(** The calls of the loop of [move] are those of a victory. *)
Definition toastsInv (v : Vars) : Prop :=
  Forall (fun c => c = Toast "reach2048" \/ c = SetGameState victory) (calls v).

(** What a lookup in the object [descriptions] or the [||] after it
    yields: a text, or a property that every object inherits. *)
Inductive Description :=
| Text (text : string)
| Inherited (property : string).

(** The object [descriptions] of [getAchievementDescription]. *)
Definition descriptions : list (string * string) :=
  [("reach2048", "Reached the 2048 tile!");
   ("score1000", "Scored 1,000 points");
   ("score10000", "Scored 10,000 points");
   ("moves100", "Made 100 moves in a single game");
   ("tile512", "Created a 512 tile");
   ("tile1024", "Created a 1024 tile")]%string.

(** The properties an object literal inherits from [Object.prototype];
    a lookup of one of these names does not yield [undefined]. *)
Definition objectPrototype : list string :=
  ["constructor"; "hasOwnProperty"; "isPrototypeOf"; "propertyIsEnumerable";
   "toLocaleString"; "toString"; "valueOf"; "__proto__";
   "__defineGetter__"; "__defineSetter__"; "__lookupGetter__";
   "__lookupSetter__"]%string.

(** The own property [name] of an object literal. *)
Fixpoint ownProperty (name : string) (object : list (string * string)) : option string :=
  match object with
  | [] => None
  | (k, x) :: rest => if String.eqb name k then Some x else ownProperty name rest
  end.

(** [descriptions[achievement] || "New achievement unlocked!"]. *)
Definition getAchievementDescription (achievement : string) : Description :=
  match ownProperty achievement descriptions with
  | Some text =>
    if String.eqb text EmptyString then Text "New achievement unlocked!" else Text text
  | None =>
    if includes objectPrototype achievement then Inherited achievement
    else Text "New achievement unlocked!"
  end.

(** [handleKeyDown(e)] for [e.key = pressed]; the draws are those of the
    tile that a move may spawn. *)
Definition handleKeyDown (s : Session) (pressed : string) (dr : Draws)
    : option Outcome :=
  if negb (GameState_eqb (gameState s) playing) then Some (s, [])
  else if String.eqb pressed "ArrowUp" then move s Up dr
  else if String.eqb pressed "ArrowDown" then move s Down dr
  else if String.eqb pressed "ArrowLeft" then move s Left dr
  else if String.eqb pressed "ArrowRight" then move s Right dr
  else if String.eqb pressed "Escape" then Some (withGameState s paused, [])
  else Some (s, []).

(** Keys pressed one after the other. *)
Fixpoint pressKeys (s : Session) (keys : list (string * Draws))
    : option (Session * list (list Call)) :=
  match keys with
  | [] => Some (s, [])
  | (pressed, dr) :: rest =>
    match handleKeyDown s pressed dr with
    | Some (s1, cs) =>
      match pressKeys s1 rest with
      | Some (s2, log) => Some (s2, cs :: log)
      | None => None
      end
    | None => None
    end
  end.

(* ------------------------------------------------------------------ *)
(** ** [formatTime] *)

(** The first [n] characters of [pad] repeated without end, read from
    [rest] on; nothing when [pad] is empty. *)
Fixpoint filler (n : nat) (pad rest : string) : string :=
  match n with
  | O => EmptyString
  | S n' =>
    match rest with
    | String a rest' => String a (filler n' pad rest')
    | EmptyString =>
      match pad with
      | String a rest' => String a (filler n' pad rest')
      | EmptyString => EmptyString
      end
    end
  end.

(** [s.padStart(targetLength, pad)]. *)
Definition padStart (targetLength : nat) (pad s : string) : string :=
  if (targetLength <=? String.length s)%nat then s
  else (filler (targetLength - String.length s) pad pad ++ s)%string.

(** [formatTime(seconds)] for a whole number of seconds:
    [Math.floor(seconds / 60)] rounds down and [seconds % 60] has the
    sign of [seconds]. *)
Definition formatTime (seconds : Z) : string :=
  let mins := seconds / 60 in
  let secs := Z.rem seconds 60 in
  (padStart 2 "0" (showZ mins) ++ ":" ++ padStart 2 "0" (showZ secs))%string.

(** The character of a decimal digit. *)
Definition digit (d : Z) : ascii := ascii_of_nat (48 + Z.to_nat d).

(** The number that a string of decimal digits writes; 0 for any other
    string. *)
Definition readNat (s : string) : Z :=
  match NilEmpty.uint_of_string s with
  | Some d => Z.of_uint d
  | None => 0
  end.

(* ------------------------------------------------------------------ *)
(** ** Settings and the data in [localStorage] *)

(** [type GameSettings]. *)
Record GameSettings := mkSettings {
  settingsGridSize : Z;
  animationSpeed : Z;
  soundEnabled : bool;
  darkMode : bool
}.

(** [Partial<GameSettings>]: a field that is absent is [None]. *)
Record SettingsPatch := mkPatch {
  patchGridSize : option Z;
  patchAnimationSpeed : option Z;
  patchSoundEnabled : option bool;
  patchDarkMode : option bool
}.

(** The later of two optional fields of a spread: [b] when it is there. *)
Definition later {A : Type} (a b : option A) : option A :=
  match b with Some _ => b | None => a end.

(** [{ ...prev, ...patch }] on settings. *)
Definition spreadSettings (prev : GameSettings) (patch : SettingsPatch) : GameSettings :=
  {| settingsGridSize :=
       match patchGridSize patch with Some x => x | None => settingsGridSize prev end;
     animationSpeed :=
       match patchAnimationSpeed patch with Some x => x | None => animationSpeed prev end;
     soundEnabled :=
       match patchSoundEnabled patch with Some x => x | None => soundEnabled prev end;
     darkMode :=
       match patchDarkMode patch with Some x => x | None => darkMode prev end |}.

(** A settings object where a partial one is expected. *)
Definition allOf (settings : GameSettings) : SettingsPatch :=
  {| patchGridSize := Some (settingsGridSize settings);
     patchAnimationSpeed := Some (animationSpeed settings);
     patchSoundEnabled := Some (soundEnabled settings);
     patchDarkMode := Some (darkMode settings) |}.

(** The object kept under the key game2048Data, and the argument of
    [saveGameData], by the four keys that the component reads or writes;
    a key that is absent is [None].  The values have the types that the
    component writes. *)
Record GameData := mkData {
  dataBestScore : option Z;
  dataLastScore : option Z;
  dataSettings : option SettingsPatch;
  dataAchievements : option (list string)
}.

(** [{}]. *)
Definition noData : GameData := mkData None None None None.

(** What [localStorage.getItem("game2048Data")] returns: nothing (null
    or the empty string, both falsy), a text that [JSON.parse] throws on,
    the text null, or a text that parses to any other value, seen through
    the four keys. *)
Inductive Item :=
| Missing
| Broken
| Null
| Holds (data : GameData).

(** [{ ...parsedData, ...data, settings, achievements }]. *)
Definition spreadData (parsedData data : GameData) (settings : GameSettings)
    (achievements : list string) : GameData :=
  {| dataBestScore := later (dataBestScore parsedData) (dataBestScore data);
     dataLastScore := later (dataLastScore parsedData) (dataLastScore data);
     dataSettings := Some (allOf settings);
     dataAchievements := Some achievements |}.

(** [saveGameData(data)], called from a render with the state [settings]
    and [achievements]: the item afterwards.  When [JSON.parse] throws,
    the [catch] logs the error and nothing is written. *)
Definition saveGameData (settings : GameSettings) (achievements : list string)
    (item : Item) (data : GameData) : Item :=
  match item with
  | Broken => Broken
  | Missing | Null => Holds (spreadData noData data settings achievements)
  | Holds parsedData => Holds (spreadData parsedData data settings achievements)
  end.

(** What [loadGameData] sets: the best score, the settings and the
    achievements. *)
Record Loaded := mkLoaded {
  loadedBestScore : Z;
  loadedSettings : GameSettings;
  loadedAchievements : list string
}.

(** [loadGameData()] with the state [prev] before it.  Reading a key of
    null throws, and the [catch] leaves the state as it is. *)
Definition loadGameData (item : Item) (prev : Loaded) : Loaded :=
  match item with
  | Holds data =>
    {| loadedBestScore :=
         match dataBestScore data with
         | Some b => if b =? 0 then 0 else b
         | None => 0
         end;
       loadedSettings :=
         match dataSettings data with
         | Some patch => spreadSettings (loadedSettings prev) patch
         | None => loadedSettings prev
         end;
       loadedAchievements :=
         match dataAchievements data with
         | Some l => l
         | None => []
         end |}
  | Missing | Broken | Null => prev
  end.

(** The state of a component that has just been mounted. *)
Definition mounted : Loaded :=
  {| loadedBestScore := 0;
     loadedSettings := mkSettings 4 150 true false;
     loadedAchievements := [] |}.

(** [updateSettings(newSettings)], called from a render with the state
    [settings] and [achievements], when the settings to update are
    [prev]: the settings set and the item afterwards. *)
Definition updateSettings (settings : GameSettings) (achievements : list string)
    (prev : GameSettings) (newSettings : SettingsPatch) (item : Item)
    : GameSettings * Item :=
  let updated := spreadSettings prev newSettings in
  (updated,
   saveGameData settings achievements item
     (mkData None None (Some (allOf updated)) None)).

(** The saving in [addAchievement(achievement)]. *)
Definition addAchievementSaved (settings : GameSettings) (achievements : list string)
    (achievement : string) (item : Item) : Item :=
  if negb (includes achievements achievement) then
    saveGameData settings achievements item
      (mkData None None None (Some (achievements ++ [achievement])))
  else item.

(** The saving in [addAchievements(newAchievements)]. *)
Definition addAchievementsSaved (settings : GameSettings) (achievements : list string)
    (newAchievements : list string) (item : Item) : Item :=
  let filteredAchievements :=
    filter (fun a => negb (includes achievements a)) newAchievements in
  match filteredAchievements with
  | [] => item
  | _ :: _ =>
    saveGameData settings achievements item
      (mkData None None None (Some (achievements ++ filteredAchievements)))
  end.

(* ------------------------------------------------------------------ *)
(** ** The board on the screen *)

(** [DEFAULT_CELL_SIZE] and [DEFAULT_CELL_GAP], in rem. *)
Definition DEFAULT_CELL_SIZE : Q := 6.
Definition DEFAULT_CELL_GAP : Q := 1 # 2.

(** The width, and the height, of the element that holds the cells and
    the tiles:
    [gridSize * DEFAULT_CELL_SIZE + DEFAULT_CELL_GAP * (gridSize - 1)]. *)
Definition boardWidth (gs : Z) : Q :=
  (inject_Z gs * DEFAULT_CELL_SIZE + DEFAULT_CELL_GAP * (inject_Z gs - 1))%Q.

(** The indices of [Array.from({ length: gridSize * gridSize })]. *)
Definition cellIndices (gs : Z) : list Z := upto (gs * gs).

(** [left] of the background cell [index]:
    [(index % gridSize) * (DEFAULT_CELL_SIZE + DEFAULT_CELL_GAP)]. *)
Definition cellLeft (gs index : Z) : Q :=
  (inject_Z (Z.rem index gs) * (DEFAULT_CELL_SIZE + DEFAULT_CELL_GAP))%Q.

(** [top] of the background cell [index]:
    [Math.floor(index / gridSize) * (DEFAULT_CELL_SIZE + DEFAULT_CELL_GAP)]. *)
Definition cellTop (gs index : Z) : Q :=
  (inject_Z (index / gs) * (DEFAULT_CELL_SIZE + DEFAULT_CELL_GAP))%Q.

(** [x] of a tile: [tile.col * (DEFAULT_CELL_SIZE + DEFAULT_CELL_GAP)]. *)
Definition tileX (tile : Tile) : Q :=
  (inject_Z (col tile) * (DEFAULT_CELL_SIZE + DEFAULT_CELL_GAP))%Q.

(** [y] of a tile: [tile.row * (DEFAULT_CELL_SIZE + DEFAULT_CELL_GAP)]. *)
Definition tileY (tile : Tile) : Q :=
  (inject_Z (row tile) * (DEFAULT_CELL_SIZE + DEFAULT_CELL_GAP))%Q.

(** The object [baseColors] of [cellColor]. *)
Definition baseColors : list (Z * string) :=
  [(2, "bg-[#eee4da] text-[#776e65]");
   (4, "bg-[#ede0c8] text-[#776e65]");
   (8, "bg-[#f2b179] text-white");
   (16, "bg-[#f59563] text-white");
   (32, "bg-[#f67c5f] text-white");
   (64, "bg-[#f65e3b] text-white");
   (128, "bg-[#edcf72] text-white");
   (256, "bg-[#edcc61] text-white");
   (512, "bg-[#edc850] text-white");
   (1024, "bg-[#edc53f] text-white");
   (2048, "bg-[#edc22e] text-white");
   (4096, "bg-[#3c3a32] text-white");
   (8192, "bg-[#3c3a32] text-white")]%string.

(** [baseColors[value]]. *)
Fixpoint colorOf (value : Z) (colors : list (Z * string)) : option string :=
  match colors with
  | [] => None
  | (k, c) :: rest => if value =? k then Some c else colorOf value rest
  end.

(** The class of the background cells. *)
Definition emptyColor : string := "bg-[#cdc1b4]".

(** [cellColor(value)]: [baseColors[value] || "bg-[#cdc1b4]"]. *)
Definition cellColor (value : Z) : string :=
  match colorOf value baseColors with
  | Some c => if String.eqb c EmptyString then "bg-[#cdc1b4]"%string else c
  | None => "bg-[#cdc1b4]"%string
  end.

(* ------------------------------------------------------------------ *)
(** ** The lines of a move *)

(** The line of a move that a cell is on: its row for a move to the left
    or right, its column for a move up or down. *)
Definition lineOf (d : Direction) (rc : Z * Z) : Z :=
  match d with
  | Left | Right => fst rc
  | Up | Down => snd rc
  end.

(** How far a cell is from the wall that the tiles move to. *)
Definition distance (d : Direction) (gs : Z) (rc : Z * Z) : Z :=
  match d with
  | Left => snd rc
  | Right => gs - 1 - snd rc
  | Up => fst rc
  | Down => gs - 1 - fst rc
  end.

(** The cell of the line [line] at the distance [j] from the wall. *)
Definition lineCell (d : Direction) (gs line j : Z) : Z * Z :=
  match d with
  | Left => (line, j)
  | Right => (line, gs - 1 - j)
  | Up => (j, line)
  | Down => (gs - 1 - j, line)
  end.

(** The values of the tiles on a line, read from the wall on; empty
    cells are passed over. *)
Definition lineValues (d : Direction) (gs : Z) (board : list Tile) (line : Z) : list Z :=
  flat_map (fun j => map value (filter (cellIs (lineCell d gs line j)) board))
           (upto gs).

(** The rule of the game for one line, on the values read from the
    wall on: a value and the next one merge when they are equal, and a
    merged value does not merge again.  The code has no such function;
    it is what the loop of [move] is compared with. *)
Fixpoint collapse (l : list Z) : list Z :=
  match l with
  | [] => []
  | x :: tl =>
    match tl with
    | [] => [x]
    | y :: rest => if x =? y then x * 2 :: collapse rest else x :: collapse tl
    end
  end.

(** A tile of value [x] arrives at the tiles that have come to rest on
    its line, the last of them first, each with its flag [justMerged]. *)
Definition arrive (settled : list (Z * bool)) (x : Z) : list (Z * bool) :=
  match settled with
  | (y, false) :: before =>
    if y =? x then (x * 2, true) :: before else (x, false) :: settled
  | _ => (x, false) :: settled
  end.

(** The tile [r] of the board that the loop was entered with is on the
    line [line]. *)
Definition onLine (s : Session) (d : Direction) (line : Z) (r : Ref) : bool :=
  lineOf d (cell (copies (board s) r)) =? line.

(** The tiles at rest on a line after the tiles [done] have been moved,
    the first at the wall. *)
Definition atRest (s : Session) (d : Direction) (line : Z) (done : list Ref)
    : list (Z * bool) :=
  rev (fold_left arrive
         (map (fun r => value (copies (board s) r)) (filter (onLine s d line) done))
         []).

(** The tiles that the loop is done with on the line [line] are the
    tiles [out], cell by cell from the wall on. *)
Definition lineAt (s : Session) (d : Direction) (v : Vars) (rest : list Ref)
    (line : Z) (out : list (Z * bool)) : Prop :=
  (forall j y f,
     nth_error out j = Some (y, f) ->
     exists u, In u (newBoard v) /\ ~ In u rest
       /\ cell (heap v u) = lineCell d (gridSize s) line (Z.of_nat j)
       /\ value (heap v u) = y
       /\ truthy (justMerged (heap v u)) = f)
  /\ (forall u, In u (newBoard v) -> ~ In u rest ->
        lineOf d (cell (heap v u)) = line ->
        exists j, (j < length out)%nat
          /\ cell (heap v u) = lineCell d (gridSize s) line (Z.of_nat j)).

(** What [sort] may return for the tiles of the board: the tiles, each
    once, in an order in which the comparison of [move] puts no tile
    behind a later one.  Tiles that compare equal may come in any order. *)
Definition sortsTo (s : Session) (d : Direction) (order : list Ref) : Prop :=
  Permutation (seq 0 (length (board s))) order
  /\ StronglySorted
       (fun a b => compareTiles d (copies (board s) a) (copies (board s) b) <= 0)
       order.

(** The lines.  On every line the tiles that the loop is done with are
    the tiles at rest after the tiles moved so far, the loop taking the
    tiles in the order [order]. *)
Definition linesInv (s : Session) (d : Direction) (order : list Ref) (v : Vars)
    (rest : list Ref) : Prop :=
  exists done,
    order = done ++ rest
    /\ forall line, lineAt s d v rest line (atRest s d line done).

(** What the [while] loop has passed: the cells between the cell it was
    entered from and the cell it stopped at hold no tile. *)
Definition passed (h : Heap) (refs : list Ref) (d : Direction) (r c : Z)
    (halt : Halt) : Prop :=
  forall i, 0 < i ->
    match halt with
    | Rest r' c' => key d (r', c') <= key d (r, c) - i
    | Merge _ r' c' => key d (r', c') < key d (r, c) - i
    end ->
    findAt h refs (r + i * dRow d) (c + i * dCol d) = None.

(* ------------------------------------------------------------------ *)
(** ** The identifiers of the tiles *)

(** The identifier that [addNewTile] gives a tile:
    [`${row}-${col}-${Date.now()}`]. *)
Definition tileId (r c time : Z) : string :=
  (showZ r ++ "-" ++ showZ c ++ "-" ++ showZ time)%string.

(** No character of the string is a dash. *)
Fixpoint noDash (s : string) : bool :=
  match s with
  | EmptyString => true
  | String a rest => negb (Ascii.eqb a "-") && noDash rest
  end.

(** The identifiers of a board are those of tiles spawned up to the time
    [clock], and no two tiles have the same. *)
Definition idsInv (clock : Z) (s : Session) : Prop :=
  0 <= clock
  /\ NoDup (map id (board s))
  /\ forall t, In t (board s) ->
       exists r c time,
         id t = tileId r c time /\ 0 <= r /\ 0 <= c /\ 0 <= time <= clock.

(** The clock goes on between the commands that spawn a tile: [Date.now()]
    is later at every move than at the spawn before, and is not earlier
    at the second spawn of a new game than at the first. *)
Fixpoint inTime (clock : Z) (cmds : list Command) : Prop :=
  match cmds with
  | [] => True
  | Move _ dr :: rest => clock < now dr /\ inTime (now dr) rest
  | NewGame d1 d2 :: rest => 0 <= now d1 <= now d2 /\ inTime (now d2) rest
  | _ :: rest => inTime clock rest
  end.

(** The identifiers.  The tiles of the loop have identifiers of the
    board that the loop was entered with, each its own. *)
Definition idsLoopInv (s : Session) (v : Vars) : Prop :=
  NoDup (map (fun r => id (heap v r)) (newBoard v))
  /\ forall u, In u (newBoard v) -> exists t, In t (board s) /\ id (heap v u) = id t.

(* ------------------------------------------------------------------ *)
(** ** A command and the effect after it *)

(** A command as React runs it.  The effect on the score has the
    dependencies [score] and [bestScore]: it runs after the render that
    follows the command when one of the two has changed.  When the effect
    has set [bestScore] it runs once more in the next render, where it
    changes nothing (see [scoreEffect_settles]). *)
Definition render (s : Session) (c : Command) : option Outcome :=
  match step s c with
  | Some (s1, cs) =>
    if (score s1 =? score s) && (bestScore s1 =? bestScore s) then Some (s1, cs)
    else Some (fst (scoreEffect s1), cs ++ snd (scoreEffect s1))
  | None => None
  end.

(** What the screen shows is up to date: the best score is not below
    the score, and the achievements for the score and for the largest
    tile are unlocked as soon as they are earned. *)
Definition shownInv (s : Session) : Prop :=
  score s <= bestScore s
  /\ (1000 <= score s -> In "score1000"%string (achievements s))
  /\ (10000 <= score s -> In "score10000"%string (achievements s))
  /\ (512 <= maxTile (board s) -> In "tile512"%string (achievements s))
  /\ (1024 <= maxTile (board s) -> In "tile1024"%string (achievements s)).

(** The flags [isNew] of the loop: no tile of the loop is flagged. *)
Definition isNewInv (v : Vars) : Prop :=
  forall u, In u (newBoard v) -> truthy (isNew (heap v u)) = false.

(** A tile as the board shows it: its cell, its value and whether it
    is flagged [justMerged]. *)
Definition face (t : Tile) : Z * Z * Z * bool :=
  (row t, col t, value t, truthy (justMerged t)).

Definition faces (board : list Tile) : list (Z * Z * Z * bool) := map face board.

(** The values of the tiles of a board that are flagged [justMerged]. *)
Definition mergedNow (board : list Tile) : list Z :=
  map value (filter (fun t => truthy (justMerged t)) board).

(** The tiles pushed.  The tiles that the mergers pushed are the tiles
    of [newBoard] that the loop was not entered with, in the order of
    the mergers. *)
Definition pushedInv (s : Session) (v : Vars) : Prop :=
  map pushed (mergers v)
  = filter (fun u => (length (board s) <=? u)%nat) (newBoard v).

(** What the loop calls for a merger that pushes the value [y]. *)
Definition victoryCalls (s : Session) (y : Z) : list Call :=
  if (y =? 2048) && negb (includes (achievements s) "reach2048")
  then [Toast "reach2048"; SetGameState victory]
  else [].

(** The calls of the loop, merger by merger. *)
Definition callsLogInv (s : Session) (v : Vars) : Prop :=
  calls v
  = flat_map (fun m => victoryCalls s (value (copies (board s) (moved m)) * 2))
             (mergers v).

(** The commands that the screen offers in a state.  The board, with
    its pause button, is drawn in the state [playing] only, and the keys
    are read in that state only; each dialog is open in its own state
    only: [Resume] and the menu button of the pause dialog need
    [paused], the menu button of the game-over dialog needs [gameOver],
    [KeepPlaying] needs [victory].  Every screen has a button for a new
    game, [move] looks at the state itself, and the effect runs when
    React runs it. *)
Definition offered (s : Session) (c : Command) : bool :=
  match c with
  | Move _ _ | NewGame _ _ | ScoreEffect => true
  | KeepPlaying => GameState_eqb (gameState s) victory
  | Pause => GameState_eqb (gameState s) playing
  | Resume | MenuFromPause => GameState_eqb (gameState s) paused
  | MenuFromGameOver => GameState_eqb (gameState s) gameOver
  end.

(** Every command of a sequence is offered when its turn comes. *)
Fixpoint offeredAll (s : Session) (cmds : list Command) : bool :=
  match cmds with
  | [] => true
  | c :: rest =>
    offered s c
    && match step s c with
       | Some (s1, _) => offeredAll s1 rest
       | None => false
       end
  end.

(** A game that is on has a move left, and a game that is over has
    none. *)
Definition liveInv (s : Session) : Prop :=
  2 <= gridSize s
  /\ wellFormed (gridSize s) (board s)
  /\ (gameState s = playing \/ gameState s = paused \/ gameState s = victory ->
      board s <> [] /\ isGameOverState (gridSize s) (board s) = false)
  /\ (gameState s = gameOver ->
      board s <> [] /\ isGameOverState (gridSize s) (board s) = true).

(* ------------------------------------------------------------------ *)
(** ** Lists, cells and draws *)

Lemma upto_In n x : In x (upto n) <-> 0 <= x < n.
Proof.
  unfold upto. rewrite in_map_iff. split.
  - intros [k [<- Hk]]. apply in_seq in Hk. lia.
  - intros H. exists (Z.to_nat x). split; [lia | apply in_seq; lia].
Qed.

Lemma upto_NoDup n : NoDup (upto n).
Proof.
  unfold upto. apply NoDup_map_NoDup_ForallPairs.
  - intros a b _ _ H. lia.
  - apply seq_NoDup.
Qed.

Lemma upto_length n : length (upto n) = Z.to_nat n.
Proof. unfold upto. now rewrite length_map, length_seq. Qed.

Lemma occupied_true board r c :
  occupied board r c = true <-> exists t, In t board /\ cell t = (r, c).
Proof.
  unfold occupied, cell. rewrite existsb_exists. split.
  - intros [t [Hin Ht]]. exists t. split; [assumption |].
    apply andb_prop in Ht. destruct Ht as [Hr Hc].
    apply Z.eqb_eq in Hr, Hc. now subst.
  - intros [t [Hin Ht]]. exists t. split; [assumption |].
    inversion Ht; subst. now rewrite !Z.eqb_refl.
Qed.

Lemma occupied_false board r c :
  occupied board r c = false <-> forall t, In t board -> cell t <> (r, c).
Proof.
  split.
  - intros H t Hin Ht.
    assert (occupied board r c = true) by (apply occupied_true; eauto).
    congruence.
  - intros H. destruct (occupied board r c) eqn:E; [| reflexivity].
    apply occupied_true in E. destruct E as [t [Hin Ht]].
    exfalso. eapply H; eauto.
Qed.

Lemma emptyTiles_In gs board r c :
  In (r, c) (emptyTiles gs board) <-> emptyCell gs board r c.
Proof.
  unfold emptyTiles, emptyCell, onGrid. rewrite in_flat_map. split.
  - intros [r' [Hr Hin]]. apply in_flat_map in Hin.
    destruct Hin as [c' [Hc Hin]].
    destruct (occupied board r' c') eqn:E; simpl in Hin; [contradiction |].
    destruct Hin as [Heq | []]. inversion Heq; subst.
    apply upto_In in Hr, Hc.
    pose proof (proj1 (occupied_false _ _ _) E). tauto.
  - intros [[Hr Hc] Hfree]. exists r. split; [now apply upto_In |].
    apply in_flat_map. exists c. split; [now apply upto_In |].
    apply (proj2 (occupied_false _ _ _)) in Hfree. rewrite Hfree. now left.
Qed.

Lemma flat_map_NoDup {A B : Type} (f : A -> list B) (l : list A) :
  NoDup l ->
  (forall a, In a l -> NoDup (f a)) ->
  (forall a a' b, In a l -> In a' l -> In b (f a) -> In b (f a') -> a = a') ->
  NoDup (flat_map f l).
Proof.
  induction l as [| a l IH]; intros Hl Hf Hinj; simpl; [constructor |].
  inversion Hl as [| ? ? Hnotin Hl']; subst.
  assert (Hrest : NoDup (flat_map f l)).
  { apply IH; auto.
    - intros; apply Hf; now right.
    - intros a1 a2 b H1 H2; apply Hinj; now right. }
  assert (Hhead : NoDup (f a)) by (apply Hf; now left).
  revert Hhead.
  assert (Hsep : forall b, In b (f a) -> ~ In b (flat_map f l)).
  { intros b Hb Hb'. apply in_flat_map in Hb'. destruct Hb' as [a' [Ha' Hb']].
    assert (a = a') by (apply (Hinj a a' b); simpl; auto).
    subst. contradiction. }
  revert Hsep. generalize (f a) as k.
  induction k as [| b k IHk]; intros Hsep Hk; simpl; [assumption |].
  inversion Hk; subst. constructor.
  - rewrite in_app_iff. intros [H | H]; [contradiction |].
    apply (Hsep b); simpl; auto.
  - apply IHk; [| assumption]. intros b' Hb'. apply Hsep. now right.
Qed.

Lemma emptyTiles_NoDup gs board : NoDup (emptyTiles gs board).
Proof.
  unfold emptyTiles. apply flat_map_NoDup.
  - apply upto_NoDup.
  - intros r _. apply flat_map_NoDup.
    + apply upto_NoDup.
    + intros c _. destruct (occupied board r c); constructor; [intros [] | constructor].
    + intros c c' b _ _ H1 H2.
      destruct (occupied board r c); simpl in H1; [contradiction |].
      destruct (occupied board r c'); simpl in H2; [contradiction |].
      destruct H1 as [<- | []]. destruct H2 as [H2 | []]. congruence.
  - intros r r' b _ _ H1 H2.
    apply in_flat_map in H1, H2.
    destruct H1 as [c [_ H1]]. destruct H2 as [c' [_ H2]].
    destruct (occupied board r c); simpl in H1; [contradiction |].
    destruct (occupied board r' c'); simpl in H2; [contradiction |].
    destruct H1 as [<- | []]. destruct H2 as [H2 | []]. congruence.
Qed.

(* ------------------------------------------------------------------ *)
(** ** Binary64 numbers and draws *)

(** The binade of a number with more than 53 bits. *)
Lemma binade k :
  0 < Z.log2 k - 52 ->
  0 < 2 ^ (Z.log2 k - 52)
  /\ 2 ^ (Z.log2 k - 52) * 2 ^ 52 <= k < 2 ^ (Z.log2 k - 52) * 2 ^ 53.
Proof.
  intros Hs.
  assert (Hk : 0 < k).
  { destruct (Z.lt_ge_cases 0 k) as [H | H]; [assumption |].
    rewrite (Z.log2_nonpos k H) in Hs. lia. }
  pose proof (Z.log2_spec k Hk) as [Hlo Hhi].
  split; [apply Z.pow_pos_nonneg; lia |].
  rewrite <- !Z.pow_add_r by lia.
  replace (Z.log2 k - 52 + 52) with (Z.log2 k) by lia.
  replace (Z.log2 k - 52 + 53) with (Z.succ (Z.log2 k)) by lia.
  split; assumption.
Qed.

Lemma truncate53_le k : 0 <= k -> 0 <= truncate53 k <= k.
Proof.
  intros Hk. unfold truncate53.
  destruct (Z.log2 k - 52 <=? 0) eqn:E; [lia |].
  apply Z.leb_gt in E. destruct (binade k E) as [HB _].
  pose proof (Z.div_mod k (2 ^ (Z.log2 k - 52)) ltac:(lia)) as Hdm.
  pose proof (Z.mod_pos_bound k (2 ^ (Z.log2 k - 52)) HB) as Hr.
  pose proof (Z.div_pos k (2 ^ (Z.log2 k - 52)) Hk HB). nia.
Qed.


Lemma round53_near k :
  0 <= k ->
  k * (2 ^ 53 - 1) <= round53 k * 2 ^ 53 <= k * (2 ^ 53 + 1).
Proof.
  intros Hk. unfold round53.
  destruct (Z.log2 k - 52 <=? 0) eqn:E; [lia |].
  apply Z.leb_gt in E. destruct (binade k E) as [HB [Hlo _]].
  assert (Hhalf : 2 ^ (Z.log2 k - 52) = 2 * 2 ^ (Z.log2 k - 52 - 1)).
  { rewrite <- Z.pow_succ_r by lia. f_equal. lia. }
  remember (2 ^ (Z.log2 k - 52 - 1)) as H.
  remember (2 ^ (Z.log2 k - 52)) as B.
  pose proof (Z.div_mod k B ltac:(lia)) as Hdm.
  pose proof (Z.mod_pos_bound k B HB) as Hr.
  remember (k / B) as m. remember (k mod B) as r.
  assert (E53 : 2 ^ 53 = 2 * 2 ^ 52) by reflexivity.
  rewrite E53. remember (2 ^ 52) as P.
  assert (HP : 0 < P) by (subst P; reflexivity).
  destruct (r <? H) eqn:E1; [apply Z.ltb_lt in E1; nia |].
  apply Z.ltb_ge in E1.
  destruct (H <? r) eqn:E2; [apply Z.ltb_lt in E2; nia |].
  apply Z.ltb_ge in E2.
  destruct (Z.even m); nia.
Qed.

(** A binary64 number is its own cut and its own rounding. *)
Lemma fits53_exact k :
  fits53 k -> truncate53 k = k /\ round53 k = k.
Proof.
  intros [m [e [Hm [He ->]]]]. unfold truncate53, round53.
  destruct (Z.log2 (m * 2 ^ e) - 52 <=? 0) eqn:E; [split; reflexivity |].
  apply Z.leb_gt in E. destruct (binade _ E) as [HB [Hlo Hhi]].
  set (s := Z.log2 (m * 2 ^ e) - 52) in *.
  assert (Hse : s <= e).
  { destruct (Z.le_gt_cases s e) as [H | H]; [assumption | exfalso].
    assert (Hpow : 2 ^ s = 2 ^ (s - e) * 2 ^ e)
      by (rewrite <- Z.pow_add_r by lia; f_equal; lia).
    assert (H1 : 2 <= 2 ^ (s - e)).
    { change 2 with (2 ^ 1) at 1. apply Z.pow_le_mono_r; lia. }
    assert (He' : 0 < 2 ^ e) by (apply Z.pow_pos_nonneg; lia).
    rewrite Hpow in Hlo.
    assert (E52 : 2 ^ 53 = 2 * 2 ^ 52) by reflexivity.
    assert (HP : 0 < 2 ^ 52) by reflexivity.
    remember (2 ^ 52) as P. remember (2 ^ e) as Q. remember (2 ^ (s - e)) as R.
    nia. }
  assert (Hpow : 2 ^ e = 2 ^ (e - s) * 2 ^ s)
    by (rewrite <- Z.pow_add_r by lia; f_equal; lia).
  assert (Hdiv : m * 2 ^ e / 2 ^ s = m * 2 ^ (e - s)).
  { rewrite Hpow, Z.mul_assoc. apply Z.div_mul. lia. }
  assert (Hmod : (m * 2 ^ e) mod 2 ^ s = 0).
  { rewrite Hpow, Z.mul_assoc. apply Z.mod_mul. lia. }
  rewrite Hdiv, Hmod.
  assert (Hhalf : 0 < 2 ^ (s - 1)) by (apply Z.pow_pos_nonneg; lia).
  replace (0 <? 2 ^ (s - 1)) with true by (symmetry; apply Z.ltb_lt; lia).
  rewrite Hpow. split; ring.
Qed.

(** What is cut to 53 bits is a binary64 number. *)
Lemma truncate53_fits53 k : 0 <= k -> fits53 (truncate53 k).
Proof.
  intros Hk. unfold truncate53.
  destruct (Z.log2 k - 52 <=? 0) eqn:E.
  - apply Z.leb_le in E. exists k, 0. split; [| split; [lia | ring]].
    split; [assumption |].
    destruct (Z.eq_dec k 0) as [-> | Hnz]; [reflexivity |].
    pose proof (Z.log2_spec k ltac:(lia)) as [_ Hhi].
    apply (Z.lt_le_trans _ _ _ Hhi). apply Z.pow_le_mono_r; lia.
  - apply Z.leb_gt in E. destruct (binade k E) as [HB [_ Hhi]].
    exists (k / 2 ^ (Z.log2 k - 52)), (Z.log2 k - 52).
    split; [| split; [lia | reflexivity]].
    split; [apply Z.div_pos; lia |].
    apply Z.div_lt_upper_bound; lia.
Qed.


Lemma den_spec u : Z.pos (den u) = Z.of_N (num u) + Z.pos (gap u).
Proof. unfold den. destruct (num u); simpl; lia. Qed.

Lemma scale_split : scale = 2 ^ 53 * 2 ^ 1021.
Proof. reflexivity. Qed.

Lemma scale_pos : 0 < scale.
Proof. reflexivity. Qed.

(** A number drawn is a multiple of 2^1021 below the scale, or is below
    half the scale. *)
Lemma drawn_cases u :
  (exists q, 0 <= q < 2 ^ 53 /\ drawn u = q * 2 ^ 1021)
  \/ 0 <= drawn u < 2 ^ 1073.
Proof.
  unfold drawn.
  set (k := Z.of_N (num u) * scale / Z.pos (den u)).
  assert (Hk : 0 <= k < scale).
  { subst k. pose proof (den_spec u) as Hden. split.
    - apply Z.div_pos; [| lia]. pose proof scale_pos; nia.
    - apply Z.div_lt_upper_bound; [lia |].
      assert (0 < scale) by reflexivity. nia. }
  pose proof (truncate53_le k (proj1 Hk)) as Hle.
  unfold truncate53 in *.
  destruct (Z.log2 k - 52 <=? 0) eqn:E.
  - right. apply Z.leb_le in E. split; [lia |].
    destruct (Z.eq_dec k 0) as [-> | Hnz]; [reflexivity |].
    pose proof (Z.log2_spec k ltac:(lia)) as [_ Hhi].
    apply (Z.lt_le_trans _ _ _ Hhi). apply Z.pow_le_mono_r; lia.
  - apply Z.leb_gt in E. destruct (binade k E) as [HB [Hlo Hhi]].
    set (s := Z.log2 k - 52) in *.
    assert (Hs : s <= 1021).
    { assert (H : 2 ^ (s + 52) < 2 ^ 1074).
      { rewrite Z.pow_add_r by lia. unfold scale in Hk. lia. }
      apply Z.pow_lt_mono_r_iff in H; lia. }
    destruct (Z.eq_dec s 1021) as [Es | Hne].
    + left. rewrite Es in *. exists (k / 2 ^ 1021).
      split; [| reflexivity]. split; [apply Z.div_pos; lia |].
      apply Z.div_lt_upper_bound; lia.
    + right. split; [lia |].
      apply (Z.le_lt_trans _ k); [lia |].
      apply (Z.lt_le_trans _ _ _ Hhi).
      rewrite <- Z.pow_add_r by lia. apply Z.pow_le_mono_r; lia.
Qed.

(** [Math.random()] is less than 1 by a unit in the last place at
    least. *)
Lemma drawn_range u : 0 <= drawn u <= scale - 2 ^ 1021.
Proof.
  destruct (drawn_cases u) as [[q [Hq ->]] | H].
  - rewrite scale_split. assert (0 < 2 ^ 1021) by reflexivity.
    remember (2 ^ 1021) as T. remember (2 ^ 53) as P. nia.
  - split; [lia |]. apply (Z.le_trans _ (2 ^ 1073)); [lia |].
    apply Z.leb_le. reflexivity.
Qed.

Lemma drawn_fits53 u : fits53 (drawn u).
Proof.
  apply truncate53_fits53. pose proof (den_spec u).
  apply Z.div_pos; [| lia]. pose proof scale_pos; nia.
Qed.

(** Every binary64 number of [0,1) is drawn. *)
Lemma drawn_onto k :
  fits53 k -> k < scale -> exists u, drawn u = k.
Proof.
  intros Hb Hk.
  assert (H0 : 0 <= k).
  { destruct Hb as [m [e [Hm [He ->]]]].
    apply Z.mul_nonneg_nonneg; [lia | apply Z.pow_nonneg; lia]. }
  exists (mkDraw (Z.to_N k) (Z.to_pos (scale - k))).
  unfold drawn. rewrite den_spec. cbn [num gap].
  rewrite Z2N.id, Z2Pos.id by lia.
  replace (k + (scale - k)) with scale by lia.
  rewrite Z.div_mul by (intros F; discriminate F).
  now apply fits53_exact.
Qed.

Lemma pickIndex_spec u len :
  Z.of_nat (pickIndex u len) = round53 (drawn u * Z.of_nat len) / scale.
Proof.
  unfold pickIndex. apply Z2Nat.id. apply Z.div_pos; [| reflexivity].
  pose proof (drawn_range u).
  pose proof (round53_near (drawn u * Z.of_nat len) ltac:(nia)).
  assert (0 < 2 ^ 53) by reflexivity. nia.
Qed.

Lemma pickIndex_lt u len : (0 < len)%nat -> (pickIndex u len < len)%nat.
Proof.
  intros Hlen. apply Nat2Z.inj_lt. rewrite pickIndex_spec.
  apply Z.div_lt_upper_bound; [reflexivity |].
  pose proof (drawn_range u) as Hu.
  pose proof (round53_near (drawn u * Z.of_nat len) ltac:(nia)) as [_ Hr].
  rewrite scale_split in *.
  assert (HT : 0 < 2 ^ 1021) by reflexivity.
  assert (HP : 2 <= 2 ^ 53) by (apply Z.leb_le; reflexivity).
  remember (2 ^ 1021) as T. remember (2 ^ 53) as P.
  remember (round53 (drawn u * Z.of_nat len)) as R.
  remember (drawn u) as D. remember (Z.of_nat len) as n.
  assert (H1 : D * n * (P + 1) <= (P * T - T) * n * (P + 1)) by nia.
  assert (H2 : (P * T - T) * n * (P + 1) < P * T * n * P) by nia.
  nia.
Qed.



(** The number 0.9 of the source is the binary64 number nearest to
    9/10. *)
Lemma point9_nearest m :
  Z.abs (10 * 8106479329266893 - 9 * 2 ^ 53) <= Z.abs (10 * m - 9 * 2 ^ 53).
Proof.
  assert (E : 9 * 2 ^ 53 = 81064793292668928) by reflexivity.
  rewrite E. lia.
Qed.






Lemma scalePos_spec : Z.pos scalePos = scale.
Proof. reflexivity. Qed.

(** A draw is a number of [0,1). *)
Lemma drawQ_range u : (0 <= drawQ u)%Q /\ (drawQ u < 1)%Q.
Proof.
  pose proof (drawn_range u) as H. assert (0 < 2 ^ 1021) by reflexivity.
  unfold drawQ, Qle, Qlt. cbn [Qnum Qden]. rewrite scalePos_spec. lia.
Qed.







(* ------------------------------------------------------------------ *)
(** ** Spawning *)

Lemma spawnTile_none gs board d :
  spawnTile gs board d = None <-> emptyTiles gs board = [].
Proof.
  unfold spawnTile. destruct (emptyTiles gs board) as [| p l] eqn:E.
  - tauto.
  - split; [| discriminate].
    destruct (nth_error (p :: l) (pickIndex (cellDraw d) (length (p :: l)))) as [[r c] |] eqn:N.
    + discriminate.
    + apply nth_error_None in N.
      pose proof (pickIndex_lt (cellDraw d) (length (p :: l))) as H.
      simpl in *. lia.
Qed.

Lemma spawnTile_some gs board d t :
  spawnTile gs board d = Some t ->
  nth_error (emptyTiles gs board)
            (pickIndex (cellDraw d) (length (emptyTiles gs board))) = Some (cell t)
  /\ value t = pickValue (valueDraw d)
  /\ isNew t = Some true.
Proof.
  unfold spawnTile. destruct (emptyTiles gs board) as [| p l] eqn:E; [discriminate |].
  destruct (nth_error (p :: l) (pickIndex (cellDraw d) (length (p :: l)))) as [[r c] |] eqn:N;
    [| discriminate].
  intros H. inversion H; subst. unfold cell. simpl. auto.
Qed.

Lemma spawnTile_emptyCell gs board d t :
  spawnTile gs board d = Some t -> emptyCell gs board (row t) (col t).
Proof.
  intros H. apply spawnTile_some in H. destruct H as [H _].
  apply nth_error_In in H. now apply emptyTiles_In in H.
Qed.

Lemma pickValue_cases u : pickValue u = 2 \/ pickValue u = 4.
Proof. unfold pickValue. destruct (drawn u <? point9); auto. Qed.

(* ------------------------------------------------------------------ *)
(** ** The size of a board *)

Lemma flat_map_length_const {A B : Type} (f : A -> list B) (l : list A) (k : nat) :
  (forall a, length (f a) = k) -> length (flat_map f l) = (length l * k)%nat.
Proof.
  intros Hf. induction l as [| a l IH]; simpl; [reflexivity |].
  now rewrite length_app, Hf, IH.
Qed.

(** The cells of the grid are the empty cells of the empty board. *)
Lemma cells_length gs :
  length (emptyTiles gs []) = (Z.to_nat gs * Z.to_nat gs)%nat.
Proof.
  unfold emptyTiles.
  rewrite (flat_map_length_const _ _ (Z.to_nat gs)).
  - now rewrite upto_length.
  - intros r. rewrite (flat_map_length_const _ _ 1%nat).
    + rewrite upto_length. lia.
    + reflexivity.
Qed.

Lemma cells_In gs r c : In (r, c) (emptyTiles gs []) <-> onGrid gs r c.
Proof.
  rewrite emptyTiles_In. unfold emptyCell. simpl. tauto.
Qed.

Lemma wellFormed_length gs board :
  wellFormed gs board -> Z.of_nat (length board) <= gs * gs.
Proof.
  intros [Hnd Hin].
  assert (Hincl : incl (map cell board) (emptyTiles gs [])).
  { intros [r c] H. apply in_map_iff in H. destruct H as [t [Ht Hb]].
    rewrite Forall_forall in Hin. specialize (Hin t Hb).
    unfold cell in Ht. inversion Ht; subst. now apply cells_In. }
  apply NoDup_incl_length in Hincl; [| assumption].
  rewrite length_map, cells_length in Hincl.
  destruct (Z_lt_le_dec gs 0) as [Hneg | Hpos].
  - replace (Z.to_nat gs) with 0%nat in Hincl by lia. nia.
  - assert (Z.of_nat (Z.to_nat gs * Z.to_nat gs) = gs * gs) by nia. lia.
Qed.

(** A cell that is off the board leaves room: the board is not full. *)
Lemma emptyCell_length gs board r c :
  wellFormed gs board -> emptyCell gs board r c ->
  Z.of_nat (length board) < gs * gs.
Proof.
  intros [Hnd Hin] [Hgrid Hfree].
  pose (ghost := {| value := 0; id := EmptyString; justMerged := None;
                    isNew := None; row := r; col := c |}).
  assert (H : wellFormed gs (ghost :: board)).
  { split.
    - simpl. constructor; [| assumption].
      intros H. apply in_map_iff in H. destruct H as [t [Ht Hb]].
      apply (Hfree t Hb). exact Ht.
    - constructor; assumption. }
  apply wellFormed_length in H. simpl length in H. lia.
Qed.

(** A board that is not full has an empty cell. *)
Lemma emptyTiles_room gs board :
  0 <= gs -> Z.of_nat (length board) < gs * gs -> emptyTiles gs board <> [].
Proof.
  intros Hgs Hlen Hnil.
  assert (Hall : incl (emptyTiles gs []) (map cell board)).
  { intros [r c] H. apply cells_In in H.
    destruct (occupied board r c) eqn:E.
    - apply occupied_true in E. destruct E as [t [Ht Hcell]].
      apply in_map_iff. eauto.
    - exfalso. assert (Hin : In (r, c) (emptyTiles gs board)).
      { apply emptyTiles_In. split; [assumption |].
        now apply occupied_false. }
      rewrite Hnil in Hin. contradiction. }
  apply NoDup_incl_length in Hall; [| apply emptyTiles_NoDup].
  rewrite length_map, cells_length in Hall. nia.
Qed.

(* ------------------------------------------------------------------ *)
(** ** [addNewTile]: what is spawned, and where *)





(* ------------------------------------------------------------------ *)
(** ** [isGameOverState] *)

Lemma someAt_true board r c v :
  someAt board r c v = true <->
  exists u, In u board /\ row u = r /\ col u = c /\ value u = v.
Proof.
  unfold someAt. rewrite existsb_exists. split.
  - intros [u [Hin Hu]]. exists u. split; [assumption |].
    apply andb_prop in Hu. destruct Hu as [Hu Hv].
    apply andb_prop in Hu. destruct Hu as [Hr Hc].
    apply Z.eqb_eq in Hr, Hc, Hv. auto.
  - intros [u [Hin [Hr [Hc Hv]]]]. exists u. split; [assumption |].
    subst. now rewrite !Z.eqb_refl.
Qed.

Lemma hasEqualNeighbour_true gs board t :
  Forall (fun t => onGrid gs (row t) (col t)) board ->
  hasEqualNeighbour gs board t = true <->
  exists u, In u board /\ neighbours t u /\ value u = value t.
Proof.
  intros Hgrid. rewrite Forall_forall in Hgrid.
  unfold hasEqualNeighbour, neighbours. rewrite !orb_true_iff, !andb_true_iff.
  rewrite !someAt_true, !Z.ltb_lt. split.
  - intros [[[[_ H] | [_ H]] | [_ H]] | [_ H]];
      destruct H as [u [Hin [Hr [Hc Hv]]]]; exists u;
      (split; [assumption |]); (split; [lia | assumption]).
  - intros [u [Hin [Hn Hv]]]. specialize (Hgrid u Hin). unfold onGrid in Hgrid.
    destruct Hn as [[Hr [Hc | Hc]] | [Hc [Hr | Hr]]].
    + left. right. split; [lia |]. exists u. repeat split; auto; lia.
    + right. split; [lia |]. exists u. repeat split; auto; lia.
    + left. left. left. split; [lia |]. exists u. repeat split; auto; lia.
    + left. left. right. split; [lia |]. exists u. repeat split; auto; lia.
Qed.

(** C3.  On a board of the data model, that is of at most
    gridSize * gridSize tiles, every one on the grid, [isGameOverState] is
    true exactly when the board is full (it holds gridSize * gridSize
    tiles) and no tile has a neighbour (above, below, left or right) of
    its own value; on every board of fewer tiles it is false.  A board
    with one tile to a cell and every tile on the grid is such a board
    ([wellFormed_length]). *)
Theorem isGameOverState_iff gs board :
  Forall (fun t => onGrid gs (row t) (col t)) board ->
  Z.of_nat (length board) <= gs * gs ->
  (isGameOverState gs board = true <->
   Z.of_nat (length board) = gs * gs
   /\ forall t u, In t board -> In u board -> neighbours t u -> value u <> value t)
  /\ (Z.of_nat (length board) < gs * gs -> isGameOverState gs board = false).
Proof.
  intros Hgrid Hlen. unfold isGameOverState.
  destruct (Z.of_nat (length board) <? gs * gs) eqn:E.
  - apply Z.ltb_lt in E. split; [| reflexivity].
    split; [discriminate | lia].
  - apply Z.ltb_ge in E. split; [| lia].
    rewrite negb_true_iff. split.
    + intros H. split; [lia |]. intros t u Ht Hu Hn Hv.
      assert (existsb (hasEqualNeighbour gs board) board = true); [| congruence].
      apply existsb_exists. exists t. split; [assumption |].
      apply hasEqualNeighbour_true; eauto.
    + intros [_ H].
      destruct (existsb (hasEqualNeighbour gs board) board) eqn:X; [| reflexivity].
      apply existsb_exists in X. destruct X as [t [Ht X]].
      apply hasEqualNeighbour_true in X; [| assumption].
      destruct X as [u [Hu [Hn Hv]]]. exfalso. exact (H t u Ht Hu Hn Hv).
Qed.

Ltac concrete_wellFormed :=
  split;
  [ repeat constructor; simpl; intuition discriminate
  | repeat constructor; simpl; lia ].

(** The terminal test on the full checkerboard. *)
Lemma isGameOverState_iff_witness :
  (isGameOverState 4 checkerboard = true <->
   Z.of_nat (length checkerboard) = 4 * 4
   /\ forall t u, In t checkerboard -> In u checkerboard ->
                  neighbours t u -> value u <> value t)
  /\ (Z.of_nat (length checkerboard) < 4 * 4 ->
      isGameOverState 4 checkerboard = false).
Proof.
  apply (isGameOverState_iff 4 checkerboard).
  - unfold checkerboard, picture. simpl. repeat constructor; simpl; lia.
  - simpl. lia.
Defined.

(** The scenarios of the terminal test: the full checkerboard is game
    over, the same board with one pair of equal neighbours is not, and
    neither is a board with an empty cell. *)
Example isGameOverState_checkerboard :
  isGameOverState 4 checkerboard = true
  /\ isGameOverState 4
       (picture [[2; 4; 2; 4]; [4; 2; 4; 2]; [2; 4; 2; 4]; [4; 2; 2; 2]]) = false
  /\ isGameOverState 4
       (picture [[2; 4; 2; 4]; [4; 2; 4; 2]; [2; 4; 2; 4]; [4; 2; 4; 0]]) = false.
Proof. repeat split; reflexivity. Qed.

(* ------------------------------------------------------------------ *)
(** ** [checkAchievements] *)

Lemma includes_In l a : includes l a = true <-> In a l.
Proof.
  unfold includes. rewrite existsb_exists. split.
  - intros [x [Hin Hx]]. apply String.eqb_eq in Hx. now subst.
  - intros H. exists a. split; [assumption | apply String.eqb_refl].
Qed.

Lemma includes_false l a : includes l a = false <-> ~ In a l.
Proof.
  rewrite <- includes_In. destruct (includes l a); split; congruence.
Qed.

Lemma unlockWhen_In cond unlocked a x :
  In x (unlockWhen cond unlocked a) <-> x = a /\ cond = true /\ ~ In a unlocked.
Proof.
  unfold unlockWhen. rewrite <- includes_false.
  destruct cond, (includes unlocked a); simpl; intuition congruence.
Qed.

Lemma unlockWhen_again cond unlocked new a :
  (cond = true -> In a unlocked \/ In a new) ->
  unlockWhen cond (unlocked ++ new) a = [].
Proof.
  intros H. unfold unlockWhen. destruct cond; [| reflexivity].
  assert (Hin : In a (unlocked ++ new)) by (apply in_app_iff; auto).
  apply includes_In in Hin. now rewrite Hin.
Qed.

Lemma newAchievements_In sc mc mt unlocked a :
  In a (newAchievements sc mc mt unlocked) <->
  earned sc mc mt a /\ ~ In a unlocked.
Proof.
  unfold newAchievements, earned.
  rewrite !in_app_iff, !unlockWhen_In, !Z.leb_le.
  intuition (subst; auto).
Qed.

Lemma newAchievements_NoDup sc mc mt unlocked :
  NoDup (newAchievements sc mc mt unlocked).
Proof.
  unfold newAchievements, unlockWhen.
  destruct ((1000 <=? sc) && negb (includes unlocked "score1000"));
  destruct ((10000 <=? sc) && negb (includes unlocked "score10000"));
  destruct ((100 <=? mc) && negb (includes unlocked "moves100"));
  destruct ((512 <=? mt) && negb (includes unlocked "tile512"));
  destruct ((1024 <=? mt) && negb (includes unlocked "tile1024"));
  simpl; repeat constructor; simpl; intuition discriminate.
Qed.

Lemma newAchievements_again sc mc mt unlocked :
  newAchievements sc mc mt (unlocked ++ newAchievements sc mc mt unlocked) = [].
Proof.
  assert (H : forall a, earned sc mc mt a ->
            In a unlocked \/ In a (newAchievements sc mc mt unlocked)).
  { intros a Ha. destruct (includes unlocked a) eqn:E.
    - left. now apply includes_In.
    - right. apply newAchievements_In. split; [assumption |].
      now apply includes_false. }
  unfold newAchievements at 1.
  rewrite !unlockWhen_again; [reflexivity | | | | |];
    intros Hc; apply Z.leb_le in Hc; apply H; unfold earned; auto 10.
Qed.

Lemma addAchievements_new s new :
  (forall a, In a new -> ~ In a (achievements s)) ->
  fst (addAchievements s new) = withAchievements s (achievements s ++ new).
Proof.
  intros H. unfold addAchievements.
  assert (E : filter (fun a => negb (includes (achievements s) a)) new = new).
  { clear - H. induction new as [| a new IH]; simpl; [reflexivity |].
    assert (Ha : includes (achievements s) a = false).
    { apply includes_false. apply H. now left. }
    rewrite Ha. simpl. f_equal. apply IH. intros; apply H; now right. }
  rewrite E. destruct new; simpl; [| reflexivity].
  rewrite app_nil_r. now destruct s.
Qed.

Lemma checkAchievements_state s :
  fst (checkAchievements s) =
  withAchievements s
    (achievements s
     ++ newAchievements (score s) (moveCount s) (maxTile (board s)) (achievements s)).
Proof.
  unfold checkAchievements.
  destruct (newAchievements (score s) (moveCount s) (maxTile (board s)) (achievements s))
    as [| a l] eqn:E.
  - simpl. rewrite app_nil_r. now destruct s.
  - rewrite <- E. apply addAchievements_new.
    intros x Hx. now apply newAchievements_In in Hx.
Qed.

(** C8 (amended).  [checkAchievements] changes nothing but the list of
    achievements, to which it appends [newAchievements] of the score, the
    move count, the largest tile value and the list itself.  An id is
    appended exactly when it is not in the list yet and its row of the
    table of five holds: score1000 (score >= 1000), score10000
    (score >= 10000), moves100 (moveCount >= 100), tile512
    (maxTile >= 512), tile1024 (maxTile >= 1024); reach2048 is not in the
    table ([move] unlocks it).  No id is appended twice, an id already in
    the list is not appended whatever the state, and checking again in
    the same state appends nothing. *)
Theorem checkAchievements_table s :
  let unlocked := achievements s in
  let new := newAchievements (score s) (moveCount s) (maxTile (board s)) unlocked in
  fst (checkAchievements s) = withAchievements s (unlocked ++ new)
  /\ (forall a, In a new <->
        earned (score s) (moveCount s) (maxTile (board s)) a /\ ~ In a unlocked)
  /\ NoDup new
  /\ (forall sc mc mt a,
        In a (unlocked ++ new) -> ~ In a (newAchievements sc mc mt (unlocked ++ new)))
  /\ checkAchievements (fst (checkAchievements s)) = (fst (checkAchievements s), []).
Proof.
  intros unlocked new. subst unlocked new.
  split; [apply checkAchievements_state |].
  split; [intros a; apply newAchievements_In |].
  split; [apply newAchievements_NoDup |].
  split.
  - intros sc mc mt a Hin Hnew. apply newAchievements_In in Hnew. tauto.
  - rewrite checkAchievements_state. unfold checkAchievements. simpl.
    now rewrite newAchievements_again.
Qed.

(** With a 2048 tile on the board and nothing unlocked, [checkAchievements]
    unlocks tile512 and tile1024 and leaves reach2048 locked, although the
    largest tile has reached the winning value. *)
Lemma checkAchievements_no_reach2048 :
  maxTile [tileAt 0 0 2048] = 2048
  /\ achievements
       (fst (checkAchievements
               (mkSession [tileAt 0 0 2048] 0 0 0 playing [] 4)))
     = ["tile512"; "tile1024"]%string.
Proof. split; reflexivity. Qed.

(* ------------------------------------------------------------------ *)
(** ** The object store *)

Lemma store_same h r t : store h r t r = t.
Proof. unfold store. now rewrite Nat.eqb_refl. Qed.

Lemma store_other h r t r' : r' <> r -> store h r t r' = h r'.
Proof. unfold store. intros H. apply Nat.eqb_neq in H. now rewrite H. Qed.

Lemma tilesOf_store h r t refs :
  ~ In r refs -> tilesOf (store h r t) refs = tilesOf h refs.
Proof.
  intros H. unfold tilesOf. apply map_ext_in. intros r' Hr'.
  apply store_other. intros ->. contradiction.
Qed.

Lemma copies_nth board r t :
  nth_error board r = Some t -> copies board r = freshCopy t.
Proof.
  intros H. unfold copies.
  apply (nth_error_nth (map freshCopy board) r blankTile).
  now rewrite nth_error_map, H.
Qed.

Lemma map_nth_seq {A : Type} (l : list A) (d : A) :
  map (fun r => nth r l d) (seq 0 (length l)) = l.
Proof.
  induction l as [| a l IH]; simpl; [reflexivity |].
  f_equal. rewrite <- seq_shift, map_map. exact IH.
Qed.

Lemma tilesOf_copies board :
  tilesOf (copies board) (seq 0 (length board)) = map freshCopy board.
Proof.
  unfold tilesOf, copies.
  rewrite <- (length_map freshCopy board). apply map_nth_seq.
Qed.

(* ------------------------------------------------------------------ *)
(** ** The [while] loop *)

Lemma findAt_some h refs r c t :
  findAt h refs r c = Some t -> In t refs /\ cell (h t) = (r, c).
Proof.
  unfold findAt. intros H. apply find_some in H. destruct H as [Hin H].
  apply andb_prop in H. destruct H as [Hr Hc]. apply Z.eqb_eq in Hr, Hc.
  unfold cell. now subst.
Qed.

Lemma findAt_none h refs r c :
  findAt h refs r c = None -> forall t, In t refs -> cell (h t) <> (r, c).
Proof.
  unfold findAt. intros H t Hin Hcell.
  pose proof (find_none _ _ H t Hin) as Hf. simpl in Hf.
  unfold cell in Hcell. inversion Hcell; subst.
  now rewrite !Z.eqb_refl in Hf.
Qed.

Lemma findAt_ext h h' refs r c :
  (forall t, In t refs -> h' t = h t) -> findAt h' refs r c = findAt h refs r c.
Proof.
  unfold findAt. induction refs as [| t refs IH]; intros H; simpl; [reflexivity |].
  rewrite (H t) by now left.
  destruct ((row (h t) =? r) && (col (h t) =? c)); [reflexivity |].
  apply IH. intros; apply H; now right.
Qed.

Lemma outside_false gs r c : outside gs r c = false <-> onGrid gs r c.
Proof.
  unfold outside, onGrid.
  rewrite !orb_false_iff, !Z.ltb_ge, !Z.leb_gt. lia.
Qed.

Lemma walk_halted fuel h refs d gs v : forall r c halt,
  walk fuel h refs d gs v r c = Some halt -> halted h refs d gs v r c halt.
Proof.
  induction fuel as [| fuel IH]; intros r c halt H; simpl in H; [discriminate |].
  destruct (outside gs (r + dRow d) (c + dCol d)) eqn:Eout.
  - inversion H; subst. exists 0. repeat split; try lia.
    left. rewrite <- Eout. f_equal; lia.
  - pose proof (proj1 (outside_false _ _ _) Eout) as Hgrid.
    destruct (findAt h refs (r + dRow d) (c + dCol d)) as [target |] eqn:Efind.
    + destruct ((value (h target) =? v) && negb (truthy (justMerged (h target)))) eqn:Eb.
      * inversion H; subst. exists 1. apply andb_prop in Eb. destruct Eb as [Ev Ej].
        apply Z.eqb_eq in Ev. apply negb_true_iff in Ej.
        repeat split; try lia; try assumption.
        all: unfold onGrid in Hgrid; lia.
      * inversion H; subst. exists 0. repeat split; try lia.
        right. replace (r + dRow d - dRow d + dRow d) with (r + dRow d) by lia.
        replace (c + dCol d - dCol d + dCol d) with (c + dCol d) by lia.
        split; [assumption |]. exists target. split; assumption.
    + apply IH in H. destruct halt as [target r' c' | r' c']; simpl in H |- *.
      * destruct H as [k [Hk [Hr [Hc Hrest]]]].
        exists (k + 1). split; [lia |]. split; [lia |]. split; [lia |]. exact Hrest.
      * destruct H as [k [Hk [Hr [Hc [Hfree Hahead]]]]].
        exists (k + 1). split; [lia |]. split; [lia |]. split; [lia |].
        split; [| assumption].
        intros _. destruct (Z.eq_dec k 0) as [-> | Hne].
        -- replace r' with (r + dRow d) by lia.
           replace c' with (c + dCol d) by lia. auto.
        -- apply Hfree. lia.
Qed.

(** The loop is left within [rounds gs] rounds, wherever it is entered. *)
Lemma walk_enough h refs d gs v r c :
  exists halt, walk (rounds gs) h refs d gs v r c = Some halt.
Proof.
  pose (toWall := fun r c : Z =>
    match d with Up => r | Down => gs - 1 - r | Left => c | Right => gs - 1 - c end).
  assert (H : forall fuel r c,
    (1 <= fuel)%nat ->
    (onGrid gs (r + dRow d) (c + dCol d) ->
       toWall (r + dRow d) (c + dCol d) + 2 <= Z.of_nat fuel) ->
    exists halt, walk fuel h refs d gs v r c = Some halt).
  { induction fuel as [| fuel IH]; intros r0 c0 Hfuel Hroom; [lia |].
    simpl. destruct (outside gs (r0 + dRow d) (c0 + dCol d)) eqn:Eout; [eauto |].
    apply outside_false in Eout. specialize (Hroom Eout).
    destruct (findAt h refs (r0 + dRow d) (c0 + dCol d)) as [target |].
    - destruct ((value (h target) =? v) && negb (truthy (justMerged (h target)))); eauto.
    - assert (0 <= toWall (r0 + dRow d) (c0 + dCol d)).
      { unfold toWall, onGrid in *. destruct d; simpl in *; lia. }
      apply IH; [lia |]. intros Hgrid'.
      unfold toWall, onGrid in *. destruct d; simpl in *; lia. }
  apply H.
  - unfold rounds. lia.
  - intros Hgrid. unfold rounds, toWall, onGrid in *. destruct d; simpl in *; lia.
Qed.

(* ------------------------------------------------------------------ *)
(** ** Sorting *)

Section SortFacts.
Context {A : Type} (key : A -> Z) (cmp : A -> A -> Z).
Hypothesis cmp_key : forall a b, cmp a b = key a - key b.

Lemma insertSorted_perm x l : Permutation (x :: l) (insertSorted cmp x l).
Proof.
  induction l as [| y l IH]; simpl; [apply Permutation_refl |].
  destruct (cmp x y <=? 0); [apply Permutation_refl |].
  eapply perm_trans; [apply perm_swap |]. now apply perm_skip.
Qed.

Lemma sortBy_perm l : Permutation l (sortBy cmp l).
Proof.
  induction l as [| x l IH]; simpl; [apply perm_nil |].
  eapply perm_trans; [| apply insertSorted_perm]. now apply perm_skip.
Qed.

Lemma insertSorted_sorted x l :
  StronglySorted (fun a b => key a <= key b) l ->
  StronglySorted (fun a b => key a <= key b) (insertSorted cmp x l).
Proof.
  induction l as [| y l IH]; intros Hl; simpl.
  - constructor; constructor.
  - inversion Hl as [| ? ? Hl' Hy]; subst.
    destruct (cmp x y <=? 0) eqn:E.
    + apply Z.leb_le in E. rewrite cmp_key in E.
      constructor; [assumption |]. constructor; [lia |].
      rewrite Forall_forall in Hy |- *. intros z Hz. specialize (Hy z Hz). lia.
    + apply Z.leb_gt in E. rewrite cmp_key in E.
      constructor; [now apply IH |].
      rewrite Forall_forall in Hy |- *. intros z Hz.
      apply (Permutation_in _ (Permutation_sym (insertSorted_perm x l))) in Hz.
      destruct Hz as [<- | Hz]; [lia | now apply Hy].
Qed.

Lemma sortBy_sorted l : StronglySorted (fun a b => key a <= key b) (sortBy cmp l).
Proof.
  induction l as [| x l IH]; simpl; [constructor |].
  now apply insertSorted_sorted.
Qed.
End SortFacts.

Lemma compareTiles_key d a b :
  compareTiles d a b = key d (cell a) - key d (cell b).
Proof. destruct d; unfold compareTiles, key, cell; simpl; lia. Qed.

Lemma key_step d r c k :
  key d (r + k * dRow d, c + k * dCol d) = key d (r, c) - k.
Proof. destruct d; unfold key; simpl; lia. Qed.

Lemma sortedTiles_perm s d :
  Permutation (seq 0 (length (board s))) (sortedTiles s d).
Proof. apply sortBy_perm. Qed.

Lemma sortedTiles_sorted s d :
  StronglySorted
    (fun a b => key d (cell (copies (board s) a)) <= key d (cell (copies (board s) b)))
    (sortedTiles s d).
Proof.
  unfold sortedTiles.
  apply (sortBy_sorted (fun a => key d (cell (copies (board s) a)))).
  intros a b. apply compareTiles_key.
Qed.

(* ------------------------------------------------------------------ *)
(** ** The loop body, field by field *)

Lemma settle_newBoard t r c r' c' v : newBoard (settle t r c r' c' v) = newBoard v.
Proof. unfold settle. now destruct (negb (r' =? r) || negb (c' =? c)). Qed.

Lemma settle_next t r c r' c' v : next (settle t r c r' c' v) = next v.
Proof. unfold settle. now destruct (negb (r' =? r) || negb (c' =? c)). Qed.

Lemma settle_newScore t r c r' c' v : newScore (settle t r c r' c' v) = newScore v.
Proof. unfold settle. now destruct (negb (r' =? r) || negb (c' =? c)). Qed.

Lemma settle_mergeHappened t r c r' c' v :
  mergeHappened (settle t r c r' c' v) = mergeHappened v.
Proof. unfold settle. now destruct (negb (r' =? r) || negb (c' =? c)). Qed.

Lemma settle_mergers t r c r' c' v : mergers (settle t r c r' c' v) = mergers v.
Proof. unfold settle. now destruct (negb (r' =? r) || negb (c' =? c)). Qed.

Lemma settle_calls t r c r' c' v : calls (settle t r c r' c' v) = calls v.
Proof. unfold settle. now destruct (negb (r' =? r) || negb (c' =? c)). Qed.

Lemma settle_nextAchievements t r c r' c' v :
  nextAchievements (settle t r c r' c' v) = nextAchievements v.
Proof. unfold settle. now destruct (negb (r' =? r) || negb (c' =? c)). Qed.

Lemma settle_nextGameState t r c r' c' v :
  nextGameState (settle t r c r' c' v) = nextGameState v.
Proof. unfold settle. now destruct (negb (r' =? r) || negb (c' =? c)). Qed.

Lemma settle_changed t r c r' c' v :
  changed (settle t r c r' c' v)
  = changed v || negb (r' =? r) || negb (c' =? c).
Proof.
  unfold settle. destruct (negb (r' =? r)), (negb (c' =? c)); simpl;
    now rewrite ?orb_true_r, ?orb_false_r.
Qed.

Lemma settle_heap_other t r c r' c' v u :
  u <> t -> heap (settle t r c r' c' v) u = heap v u.
Proof.
  intros H. unfold settle.
  destruct (negb (r' =? r) || negb (c' =? c)); [| reflexivity].
  simpl. now apply store_other.
Qed.

Lemma settle_heap_self t r' c' v :
  heap (settle t (row (heap v t)) (col (heap v t)) r' c' v) t
  = setPosition (heap v t) r' c'.
Proof.
  unfold settle.
  destruct (negb (r' =? row (heap v t)) || negb (c' =? col (heap v t))) eqn:E.
  - simpl. apply store_same.
  - apply orb_false_elim in E. destruct E as [Er Ec].
    apply negb_false_iff in Er, Ec. apply Z.eqb_eq in Er, Ec. subst.
    unfold setPosition. now destruct (heap v t).
Qed.

(** The fields of [mergeInto] that the victory branch leaves alone. *)
Ltac merge_field :=
  unfold mergeInto, setGameState, addAchievement;
  repeat match goal with
         | |- context [if ?b then _ else _] => destruct b
         end;
  reflexivity.

Lemma mergeInto_heap s t target r' c' v :
  heap (mergeInto s t target r' c' v)
  = store (heap v) (next v)
      {| value := value (heap v t) * 2; id := id (heap v t);
         justMerged := Some true; isNew := None; row := r'; col := c' |}.
Proof. merge_field. Qed.

Lemma mergeInto_next s t target r' c' v :
  next (mergeInto s t target r' c' v) = S (next v).
Proof. merge_field. Qed.

Lemma mergeInto_newBoard s t target r' c' v :
  newBoard (mergeInto s t target r' c' v)
  = filter (fun u => negb (Nat.eqb u target) && negb (Nat.eqb u t)) (newBoard v)
    ++ [next v].
Proof. merge_field. Qed.

Lemma mergeInto_newScore s t target r' c' v :
  newScore (mergeInto s t target r' c' v) = newScore v + value (heap v t) * 2.
Proof. merge_field. Qed.

Lemma mergeInto_changed s t target r' c' v :
  changed (mergeInto s t target r' c' v) = true.
Proof. merge_field. Qed.

Lemma mergeInto_mergeHappened s t target r' c' v :
  mergeHappened (mergeInto s t target r' c' v) = true.
Proof. merge_field. Qed.

Lemma mergeInto_mergers s t target r' c' v :
  mergers (mergeInto s t target r' c' v)
  = mergers v ++ [mkMerger target t (next v)].
Proof. merge_field. Qed.

(** The two ways a round of the [for] loop ends. *)
Lemma moveTile_cases s d fuel v t v' :
  moveTile s d fuel v t = Some v' ->
  exists halt,
    halted (heap v) (newBoard v) d (gridSize s) (value (heap v t))
           (row (heap v t)) (col (heap v t)) halt
    /\ match halt with
       | Rest r' c' =>
         v' = settle t (row (heap v t)) (col (heap v t)) r' c' v
       | Merge target r' c' =>
         v' = settle t (row (heap v t)) (col (heap v t)) r' c'
                (mergeInto s t target r' c' v)
       end.
Proof.
  unfold moveTile. intros H.
  destruct (walk fuel (heap v) (newBoard v) d (gridSize s) (value (heap v t))
                 (row (heap v t)) (col (heap v t))) as [halt |] eqn:W; [| discriminate].
  exists halt. split; [now apply walk_halted in W |].
  destruct halt; now inversion H.
Qed.

Lemma moveTile_total s d v t :
  exists v', moveTile s d (rounds (gridSize s)) v t = Some v'.
Proof.
  unfold moveTile.
  destruct (walk_enough (heap v) (newBoard v) d (gridSize s) (value (heap v t))
                        (row (heap v t)) (col (heap v t))) as [halt ->].
  destruct halt; eauto.
Qed.

Lemma forEachTile_total s d v l :
  exists v', forEachTile s d (rounds (gridSize s)) v l = Some v'.
Proof.
  revert v. induction l as [| t l IH]; intros v; simpl; [eauto |].
  destruct (moveTile_total s d v t) as [v1 ->]. apply IH.
Qed.

(** The resolver returns, on every board. *)
Lemma resolve_total s d : exists v, resolve s d = Some v.
Proof. apply forEachTile_total. Qed.

(** [move] returns, in every state. *)
Lemma move_total s d dr : exists o, move s d dr = Some o.
Proof.
  unfold move. destruct (negb (GameState_eqb (gameState s) playing)); [eauto |].
  destruct (resolve_total s d) as [v ->]. eauto.
Qed.

(** Induction over the rounds of the [for] loop, with the tiles still
    to come. *)
Lemma forEachTile_inv s d fuel (P : Vars -> list Ref -> Prop) :
  (forall v t rest v',
     P v (t :: rest) -> moveTile s d fuel v t = Some v' -> P v' rest) ->
  forall l v v', P v l -> forEachTile s d fuel v l = Some v' -> P v' [].
Proof.
  intros Hstep. induction l as [| t l IH]; intros v v' HP H; simpl in H.
  - now inversion H; subst.
  - destruct (moveTile s d fuel v t) as [v1 |] eqn:E; [| discriminate].
    apply (IH v1); [| assumption]. eapply Hstep; eauto.
Qed.

(* ------------------------------------------------------------------ *)
(** ** Invariants of the [for] loop *)

Section Resolver.
Variables (s : Session) (d : Direction) (fuel : nat).

Local Abbreviation n := (length (board s)).
Local Abbreviation orig := (copies (board s)).
Local Abbreviation gs := (gridSize s).

Lemma refsInv_enter : refsInv s d (enter s) (sortedTiles s d).
Proof.
  pose proof (sortedTiles_perm s d) as Hperm.
  unfold refsInv, enter. simpl.
  split; [apply sortedTiles_sorted |].
  split; [apply (Permutation_NoDup Hperm), seq_NoDup |].
  split.
  - intros u Hu. apply (Permutation_in _ (Permutation_sym Hperm)) in Hu.
    split; [apply in_seq in Hu; lia | auto].
  - split; [lia |]. split; [| apply seq_NoDup].
    intros t Ht. apply in_seq in Ht. lia.
Qed.

(** The tile the loop finds ahead of the current tile is not one of
    the tiles still to come, nor the current tile. *)
Lemma target_settled v t rest target r' c' k :
  refsInv s d v (t :: rest) ->
  0 < k ->
  r' = row (heap v t) + k * dRow d ->
  c' = col (heap v t) + k * dCol d ->
  cell (heap v target) = (r', c') ->
  target <> t /\ ~ In target rest.
Proof.
  intros [Hsort [Hnd [Hrest _]]] Hk Hr Hc Hcell.
  assert (Hkey : key d (cell (heap v target)) < key d (cell (heap v t))).
  { rewrite Hcell, Hr, Hc, key_step. unfold cell. lia. }
  split.
  - intros ->. lia.
  - intros Hin.
    inversion Hsort as [| ? ? _ Hle]; subst.
    rewrite Forall_forall in Hle. specialize (Hle target Hin).
    destruct (Hrest t (or_introl eq_refl)) as [_ [_ Et]].
    destruct (Hrest target (or_intror Hin)) as [_ [_ Etarget]].
    rewrite Et, Etarget in Hkey. lia.
Qed.

Lemma refsInv_step v t rest v' :
  refsInv s d v (t :: rest) -> moveTile s d fuel v t = Some v' -> refsInv s d v' rest.
Proof.
  intros Hinv Hmove.
  apply moveTile_cases in Hmove. destruct Hmove as [halt [Hhalt Hv']].
  pose proof Hinv as [Hsort [Hnd [Hrest [Hn [Hlt Hnb]]]]].
  inversion Hsort as [| ? ? Hsort' _]; subst.
  inversion Hnd as [| ? ? Hnotin Hnd']; subst.
  destruct (Hrest t (or_introl eq_refl)) as [Htn [Htin Et]].
  assert (Hne : forall u, In u rest -> u <> t) by (intros u Hu ->; contradiction).
  destruct halt as [target r' c' | r' c']; subst v'.
  - destruct Hhalt as [k [Hk [Hr [Hc [Hgrid [Hfind [Hval Hflag]]]]]]].
    apply findAt_some in Hfind. destruct Hfind as [Htarget Hcell].
    destruct (target_settled v t rest target r' c' k Hinv Hk Hr Hc Hcell)
      as [Hneq Hnotrest].
    unfold refsInv.
    rewrite settle_newBoard, settle_next, mergeInto_newBoard, mergeInto_next.
    split; [assumption |]. split; [assumption |]. split.
    + intros u Hu. destruct (Hrest u (or_intror Hu)) as [Hun [Huin Eu]].
      split; [assumption |]. split.
      * apply in_app_iff. left. apply filter_In. split; [assumption |].
        apply andb_true_intro. split; apply negb_true_iff, Nat.eqb_neq.
        -- intros ->. contradiction.
        -- now apply Hne.
      * rewrite settle_heap_other by now apply Hne.
        rewrite mergeInto_heap, store_other; [assumption | lia].
    + split; [lia |]. split.
      * intros u Hu. apply in_app_iff in Hu. destruct Hu as [Hu | [<- | []]]; [| lia].
        apply filter_In in Hu. destruct Hu as [Hu _]. specialize (Hlt u Hu). lia.
      * apply NoDup_app; [now apply NoDup_filter | repeat constructor; intros [] |].
        intros u Hu [<- | []]. apply filter_In in Hu. destruct Hu as [Hu _].
        specialize (Hlt _ Hu). lia.
  - unfold refsInv. rewrite settle_newBoard, settle_next.
    split; [assumption |]. split; [assumption |]. split; [| auto].
    intros u Hu. destruct (Hrest u (or_intror Hu)) as [Hun [Huin Eu]].
    split; [assumption |]. split; [assumption |].
    rewrite settle_heap_other by now apply Hne. assumption.
Qed.

Lemma total_app a b : total (a ++ b) = total a + total b.
Proof.
  unfold total. induction a as [| x a IH]; simpl; [reflexivity |].
  rewrite IH. lia.
Qed.

Lemma total_ext h h' refs :
  (forall u, In u refs -> value (h' u) = value (h u)) ->
  total (tilesOf h' refs) = total (tilesOf h refs).
Proof.
  unfold total, tilesOf. induction refs as [| u refs IH]; intros H; simpl; [reflexivity |].
  rewrite (H u) by now left. rewrite IH; [reflexivity |].
  intros; apply H; now right.
Qed.

Lemma filter_keep_all (a b : Ref) refs :
  ~ In a refs -> ~ In b refs ->
  filter (fun u => negb (Nat.eqb u a) && negb (Nat.eqb u b)) refs = refs.
Proof.
  induction refs as [| u refs IH]; intros Ha Hb; simpl; [reflexivity |].
  simpl in Ha, Hb.
  assert (Hua : Nat.eqb u a = false) by (apply Nat.eqb_neq; intuition).
  assert (Hub : Nat.eqb u b = false) by (apply Nat.eqb_neq; intuition).
  rewrite Hua, Hub. simpl. f_equal. apply IH; intuition.
Qed.

Lemma total_filter_one h (a b : Ref) refs :
  NoDup refs -> In a refs -> ~ In b refs ->
  total (tilesOf h (filter (fun u => negb (Nat.eqb u a) && negb (Nat.eqb u b)) refs))
  = total (tilesOf h refs) - value (h a).
Proof.
  induction refs as [| u refs IH]; intros Hnd Ha Hb; simpl; [contradiction |].
  inversion Hnd as [| ? ? Hnotin Hnd']; subst. simpl in Hb.
  assert (Hub : Nat.eqb u b = false) by (apply Nat.eqb_neq; intuition).
  rewrite Hub, andb_true_r.
  destruct Ha as [-> | Ha].
  - rewrite Nat.eqb_refl. simpl.
    rewrite filter_keep_all by intuition.
    unfold total. simpl. lia.
  - assert (Hua : Nat.eqb u a = false) by (apply Nat.eqb_neq; intros ->; contradiction).
    rewrite Hua. simpl. unfold total in *. simpl.
    rewrite IH by intuition. lia.
Qed.

(** Taking two tiles off the board takes their values off its sum. *)
Lemma total_filter_two h (a b : Ref) refs :
  NoDup refs -> In a refs -> In b refs -> a <> b ->
  total (tilesOf h (filter (fun u => negb (Nat.eqb u a) && negb (Nat.eqb u b)) refs))
  = total (tilesOf h refs) - value (h a) - value (h b).
Proof.
  induction refs as [| u refs IH]; intros Hnd Ha Hb Hab; simpl; [contradiction |].
  inversion Hnd as [| ? ? Hnotin Hnd']; subst.
  destruct Ha as [-> | Ha]; destruct Hb as [-> | Hb]; try congruence.
  - rewrite Nat.eqb_refl. simpl.
    assert (E : filter (fun u => negb (Nat.eqb u a) && negb (Nat.eqb u b)) refs
                = filter (fun u => negb (Nat.eqb u b) && negb (Nat.eqb u a)) refs).
    { apply filter_ext. intros; apply andb_comm. }
    rewrite E, total_filter_one by assumption.
    unfold total. simpl. lia.
  - rewrite Nat.eqb_refl, andb_false_r.
    rewrite total_filter_one by assumption.
    unfold total. simpl. lia.
  - assert (Hua : Nat.eqb u a = false) by (apply Nat.eqb_neq; intros ->; contradiction).
    assert (Hub : Nat.eqb u b = false) by (apply Nat.eqb_neq; intros ->; contradiction).
    rewrite Hua, Hub. simpl. unfold total in *. simpl.
    rewrite IH by assumption. lia.
Qed.

Lemma sameLine_refl a : sameLine d a a.
Proof. unfold sameLine. now destruct d. Qed.

Lemma sameLine_step a b r c k :
  sameLine d a b -> r = row b + k * dRow d -> c = col b + k * dCol d ->
  forall t, row t = r -> col t = c -> sameLine d a t.
Proof. unfold sameLine. intros H Hr Hc t Ht1 Ht2. destruct d; simpl in *; lia. Qed.

Lemma copies_flag r : (r < n)%nat -> justMerged (orig r) = Some false.
Proof.
  intros H. destruct (nth_error (board s) r) as [t |] eqn:E.
  - now rewrite (copies_nth _ _ _ E).
  - apply nth_error_None in E. lia.
Qed.

Lemma total_freshCopy board : total (map freshCopy board) = total board.
Proof.
  unfold total. induction board as [| t board IH]; simpl; [reflexivity |].
  now rewrite IH.
Qed.

Lemma tilesInv_enter : tilesInv s d (enter s).
Proof.
  unfold tilesInv, enter, resolvedBoard. simpl. split.
  - intros t Ht. apply in_seq in Ht. split; [| lia].
    intros Hlt. split; [now apply copies_flag |]. split; [reflexivity |].
    apply sameLine_refl.
  - rewrite tilesOf_copies. apply total_freshCopy.
Qed.

Lemma tilesInv_step v t rest v' :
  refsInv s d v (t :: rest) -> tilesInv s d v ->
  moveTile s d fuel v t = Some v' -> tilesInv s d v'.
Proof.
  intros Hinv [Htiles Htotal] Hmove.
  apply moveTile_cases in Hmove. destruct Hmove as [halt [Hhalt Hv']].
  pose proof Hinv as [_ [_ [Hrest [Hn [Hlt Hnb]]]]].
  destruct (Hrest t (or_introl eq_refl)) as [Htn [Htin Et]].
  destruct halt as [target r' c' | r' c']; subst v'.
  - destruct Hhalt as [k [Hk [Hr [Hc [Hgrid [Hfind [Hval Hflag]]]]]]].
    apply findAt_some in Hfind. destruct Hfind as [Htarget Hcell].
    destruct (target_settled v t rest target r' c' k Hinv Hk Hr Hc Hcell)
      as [Hneq _].
    unfold tilesInv, resolvedBoard.
    rewrite settle_newBoard, mergeInto_newBoard. split.
    + intros u Hu. apply in_app_iff in Hu. destruct Hu as [Hu | [<- | []]].
      * apply filter_In in Hu. destruct Hu as [Hu Hf].
        apply andb_prop in Hf. destruct Hf as [_ Hf].
        apply negb_true_iff, Nat.eqb_neq in Hf.
        rewrite settle_heap_other, mergeInto_heap, store_other; auto.
        specialize (Hlt u Hu). lia.
      * rewrite settle_heap_other, mergeInto_heap, store_same by lia.
        split; [lia | auto].
    + unfold tilesOf. rewrite map_app, total_app. simpl map.
      rewrite settle_heap_other, mergeInto_heap, store_same by lia.
      fold (tilesOf (heap (settle t (row (heap v t)) (col (heap v t)) r' c'
                             (mergeInto s t target r' c' v)))
                    (filter (fun u => negb (Nat.eqb u target) && negb (Nat.eqb u t))
                            (newBoard v))).
      rewrite (total_ext (heap v)).
      * rewrite total_filter_two by auto.
        unfold resolvedBoard in Htotal. unfold total at 2. simpl. lia.
      * intros u Hu. apply filter_In in Hu. destruct Hu as [Hu Hf].
        apply andb_prop in Hf. destruct Hf as [_ Hf].
        apply negb_true_iff, Nat.eqb_neq in Hf.
        rewrite settle_heap_other, mergeInto_heap, store_other; auto.
        specialize (Hlt u Hu). lia.
  - destruct Hhalt as [k [Hk [Hr [Hc _]]]].
    unfold tilesInv, resolvedBoard. rewrite settle_newBoard. split.
    + intros u Hu. destruct (Nat.eq_dec u t) as [-> | Hne].
      * rewrite settle_heap_self. simpl.
        destruct (Htiles t Hu) as [Hold Hnew]. split; [| assumption].
        intros Hlt'. destruct (Hold Hlt') as [Hf [Hv Hl]].
        split; [assumption |]. split; [assumption |].
        eapply sameLine_step; eauto.
      * rewrite settle_heap_other by assumption. auto.
    + rewrite <- Htotal. apply total_ext. intros u Hu.
      destruct (Nat.eq_dec u t) as [-> | Hne].
      * now rewrite settle_heap_self.
      * now rewrite settle_heap_other.
Qed.

Lemma mergedValues_app h a b :
  mergedValues h (a ++ b) = mergedValues h a + mergedValues h b.
Proof.
  unfold mergedValues. induction a as [| m a IH]; simpl; [reflexivity |].
  rewrite IH. lia.
Qed.

Lemma mergedValues_ext h h' ms :
  (forall m, In m ms -> h' (pushed m) = h (pushed m)) ->
  mergedValues h' ms = mergedValues h ms.
Proof.
  unfold mergedValues. induction ms as [| m ms IH]; intros H; simpl; [reflexivity |].
  rewrite (H m) by now left. rewrite IH; [reflexivity |].
  intros; apply H; now right.
Qed.

Lemma participants_app a b : participants (a ++ b) = participants a ++ participants b.
Proof. unfold participants. apply flat_map_app. Qed.

Lemma participants_In ms x :
  In x (participants ms) <-> exists m, In m ms /\ (x = found m \/ x = moved m).
Proof.
  unfold participants. rewrite in_flat_map. split.
  - intros [m [Hm Hx]]. exists m. simpl in Hx. intuition.
  - intros [m [Hm Hx]]. exists m. simpl. intuition.
Qed.

Lemma mergersInv_enter : mergersInv s d (enter s).
Proof.
  unfold mergersInv, enter. simpl.
  split; [intros m [] |]. split; [constructor |]. split.
  - intros t Ht Hn. apply in_seq in Ht. lia.
  - split; [unfold mergedValues; simpl; lia |]. split; reflexivity.
Qed.

Lemma mergersInv_step v t rest v' :
  refsInv s d v (t :: rest) -> tilesInv s d v -> mergersInv s d v ->
  moveTile s d fuel v t = Some v' -> mergersInv s d v'.
Proof.
  intros Hinv [Htiles _] [Hms [Hpart [Hnew [Hscore [Hflag Hnone]]]]] Hmove.
  apply moveTile_cases in Hmove. destruct Hmove as [halt [Hhalt Hv']].
  pose proof Hinv as [_ [_ [Hrest [Hn [Hlt Hnb]]]]].
  destruct (Hrest t (or_introl eq_refl)) as [Htn [Htin Et]].
  destruct halt as [target r' c' | r' c']; subst v'.
  - destruct Hhalt as [k [Hk [Hr [Hc [Hgrid [Hfind [Hval Hflagt]]]]]]].
    apply findAt_some in Hfind. destruct Hfind as [Htarget Hcell].
    destruct (target_settled v t rest target r' c' k Hinv Hk Hr Hc Hcell)
      as [Hneq _].
    assert (Htargetn : (target < n)%nat).
    { destruct (Nat.lt_ge_cases target n) as [H | H]; [assumption |].
      destruct (Htiles target Htarget) as [_ Hpushed].
      rewrite (Hpushed H) in Hflagt. discriminate. }
    assert (Hkeep : forall u, In u (newBoard v) -> u <> target -> u <> t ->
              In u (filter (fun u => negb (Nat.eqb u target) && negb (Nat.eqb u t))
                           (newBoard v))).
    { intros u Hu H1 H2. apply filter_In. split; [assumption |].
      apply andb_true_intro. split; now apply negb_true_iff, Nat.eqb_neq. }
    assert (Hheap : forall u, In u (newBoard v) -> u <> t ->
              heap (settle t (row (heap v t)) (col (heap v t)) r' c'
                      (mergeInto s t target r' c' v)) u = heap v u).
    { intros u Hu Hne. rewrite settle_heap_other, mergeInto_heap, store_other; auto.
      specialize (Hlt u Hu). lia. }
    assert (Hpushed : heap (settle t (row (heap v t)) (col (heap v t)) r' c'
                              (mergeInto s t target r' c' v)) (next v)
                      = {| value := value (heap v t) * 2; id := id (heap v t);
                           justMerged := Some true; isNew := None;
                           row := r'; col := c' |}).
    { rewrite settle_heap_other, mergeInto_heap, store_same by lia. reflexivity. }
    unfold mergersInv.
    rewrite settle_newBoard, settle_mergers, settle_newScore, settle_mergeHappened.
    rewrite mergeInto_newBoard, mergeInto_mergers, mergeInto_newScore,
      mergeInto_mergeHappened.
    split; [| split; [| split; [| split; [| split]]]].
    + intros m Hm. apply in_app_iff in Hm. destruct Hm as [Hm | [<- | []]].
      * destruct (Hms m Hm) as [H1 [H2 [H3 [H4 [H5 [H6 [H7 [H8 [H9 H10]]]]]]]]].
        assert (Hpt : pushed m <> target).
        { intros E. destruct (Htiles _ H4) as [_ Hp].
          rewrite E in Hp. rewrite (Hp ltac:(lia)) in Hflagt. discriminate. }
        assert (Hpm : pushed m <> t) by lia.
        rewrite (Hheap _ H4 Hpm).
        repeat split; try assumption.
        -- apply in_app_iff. left. now apply Hkeep.
        -- rewrite in_app_iff. intros [H | [H | []]].
           ++ apply filter_In in H. tauto.
           ++ lia.
        -- rewrite in_app_iff. intros [H | [H | []]].
           ++ apply filter_In in H. tauto.
           ++ lia.
      * simpl. rewrite Hpushed. simpl.
        destruct (Htiles target Htarget) as [Hold _].
        destruct (Hold Htargetn) as [_ [Hvt Hline]].
        repeat split; try assumption.
        -- apply in_app_iff. right. now left.
        -- rewrite in_app_iff. intros [H | [H | []]].
           ++ apply filter_In in H. destruct H as [_ H].
              rewrite Nat.eqb_refl in H. discriminate.
           ++ lia.
        -- rewrite in_app_iff. intros [H | [H | []]].
           ++ apply filter_In in H. destruct H as [_ H].
              rewrite Nat.eqb_refl, andb_false_r in H. discriminate.
           ++ lia.
        -- rewrite <- Hvt, <- Et. assumption.
        -- now rewrite Et.
        -- unfold cell in Hcell. inversion Hcell.
           apply (sameLine_step _ _ _ _ 0 Hline eq_refl eq_refl); simpl; lia.
        -- rewrite <- Et.
           apply (sameLine_step _ _ _ _ k (sameLine_refl _) Hr Hc); reflexivity.
    + rewrite participants_app. apply NoDup_app; [assumption | |].
      * unfold participants. simpl. repeat constructor; simpl; intuition.
      * intros x Hx Hx'. apply participants_In in Hx.
        destruct Hx as [m [Hm Hx]].
        destruct (Hms m Hm) as [_ [_ [_ [_ [H5 [H6 _]]]]]].
        unfold participants in Hx'. simpl in Hx'.
        destruct Hx as [-> | ->]; destruct Hx' as [E | [E | []]];
          rewrite <- E in *; contradiction.
    + intros u Hu Hun. apply in_app_iff in Hu. destruct Hu as [Hu | [<- | []]].
      * apply filter_In in Hu. destruct Hu as [Hu _].
        destruct (Hnew u Hu Hun) as [m [Hm Hp]].
        exists m. split; [apply in_app_iff; now left | assumption].
      * exists (mkMerger target t (next v)). split; [| reflexivity].
        apply in_app_iff. right. now left.
    + rewrite mergedValues_app. unfold mergedValues at 2. simpl.
      rewrite Hpushed. simpl.
      rewrite (mergedValues_ext (heap v)); [lia |].
      intros m Hm. destruct (Hms m Hm) as [_ [_ [H3 [H4 _]]]].
      apply Hheap; [assumption | lia].
    + now destruct (mergers v).
    + intros E. destruct (mergers v); discriminate.
  - unfold mergersInv.
    rewrite settle_newBoard, settle_mergers, settle_newScore, settle_mergeHappened.
    split; [| split; [| split; [| split; [| split]]]]; try assumption.
    + intros m Hm.
      destruct (Hms m Hm) as [H1 [H2 [H3 [H4 [H5 [H6 [H7 [H8 [H9 H10]]]]]]]]].
      rewrite settle_heap_other by lia. repeat split; assumption.
    + rewrite Hscore. f_equal. symmetry. apply mergedValues_ext.
      intros m Hm. destruct (Hms m Hm) as [_ [_ [H3 _]]].
      apply settle_heap_other. lia.
Qed.

Lemma NoDup_map_eq {A B : Type} (f : A -> B) (l : list A) a b :
  NoDup (map f l) -> In a l -> In b l -> f a = f b -> a = b.
Proof.
  induction l as [| x l IH]; intros Hnd Ha Hb Hf; simpl in *; [contradiction |].
  inversion Hnd as [| ? ? Hnotin Hnd']; subst.
  destruct Ha as [-> | Ha]; destruct Hb as [-> | Hb]; auto.
  - exfalso. apply Hnotin. rewrite Hf. now apply in_map.
  - exfalso. apply Hnotin. rewrite <- Hf. now apply in_map.
Qed.

Lemma filter_keeps_distinct {X Y : Type} (keep : X -> bool) (g : X -> Y)
    (xs : list X) (Hxs : NoDup (map g xs)) :
  NoDup (map g (filter keep xs)).
Proof.
  induction xs as [| x xs IH]; simpl in *; [constructor |].
  inversion Hxs as [| ? ? Hnotin Hxs']; subst.
  destruct (keep x); simpl; [| now apply IH].
  constructor; [| now apply IH].
  intros H. apply Hnotin. apply in_map_iff in H. destruct H as [y [Hy Hin]].
  apply filter_In in Hin. rewrite <- Hy. apply in_map. tauto.
Qed.

(** Moving one object of the board to a cell that no tile of the board
    is on keeps the tiles on cells of their own. *)
Lemma NoDup_cells_move (h h' : Heap) (t : Ref) (p : Z * Z) refs :
  NoDup refs ->
  NoDup (map cell (tilesOf h refs)) ->
  (forall u, In u refs -> cell (h u) <> p) ->
  (forall u, u <> t -> h' u = h u) ->
  cell (h' t) = p ->
  NoDup (map cell (tilesOf h' refs)).
Proof.
  unfold tilesOf. intros Hrefs Hcells Hfree Hother <-.
  revert Hrefs Hcells Hfree.
  induction refs as [| u refs IH]; intros Hrefs Hcells Hfree; simpl in *;
    [constructor |].
  inversion Hrefs as [| ? ? Hnotin Hrefs']; subst.
  inversion Hcells as [| ? ? Hcnotin Hcells']; subst.
  constructor.
  - intros H. apply in_map_iff in H. destruct H as [x [Hx Hin]].
    apply in_map_iff in Hin. destruct Hin as [w [<- Hw]].
    destruct (Nat.eq_dec u t) as [-> | Hut].
    + rewrite Hother in Hx by (intros ->; contradiction).
      apply (Hfree w); auto.
    + rewrite (Hother u Hut) in Hx.
      destruct (Nat.eq_dec w t) as [-> | Hwt].
      * apply (Hfree u); auto.
      * rewrite (Hother w Hwt) in Hx. apply Hcnotin.
        rewrite <- Hx. apply in_map_iff. exists (h w). split; [reflexivity |].
        now apply in_map.
  - apply IH; auto.
Qed.

Lemma settle_same t r c v : settle t r c r c v = v.
Proof. unfold settle. now rewrite !Z.eqb_refl. Qed.

Lemma filter_length_two (a b : Ref) refs :
  NoDup refs -> In a refs -> In b refs -> a <> b ->
  (length (filter (fun u => negb (Nat.eqb u a) && negb (Nat.eqb u b)) refs) + 2
   = length refs)%nat.
Proof.
  intros Hnd Ha Hb Hab.
  pose (one := fun _ : Ref => {| value := 1; id := EmptyString; justMerged := None;
                                 isNew := None; row := 0; col := 0 |}).
  assert (Hlen : forall l : list Ref, total (tilesOf one l) = Z.of_nat (length l)).
  { clear. induction l as [| x l IH]; [reflexivity |].
    unfold total, tilesOf in *. cbn -[Z.add Z.of_nat] in *.
    rewrite IH, Nat2Z.inj_succ. lia. }
  pose proof (total_filter_two one a b refs Hnd Ha Hb Hab) as H.
  rewrite !Hlen in H. unfold one in H. cbn [value] in H. lia.
Qed.

Lemma wellFormed_freshCopy board :
  wellFormed gs board -> wellFormed gs (map freshCopy board).
Proof.
  intros [Hnd Hgrid]. split.
  - rewrite map_map. simpl. exact Hnd.
  - rewrite Forall_forall in *. intros t Ht. apply in_map_iff in Ht.
    destruct Ht as [t0 [<- Ht0]]. simpl. now apply Hgrid.
Qed.

Lemma wfInv_enter : wellFormed gs (board s) -> wfInv s (enter s).
Proof.
  intros H. unfold wfInv, enter, resolvedBoard. simpl.
  split; [| discriminate]. rewrite tilesOf_copies. now apply wellFormed_freshCopy.
Qed.

Lemma wfInv_step v t rest v' :
  refsInv s d v (t :: rest) -> wfInv s v ->
  moveTile s d fuel v t = Some v' -> wfInv s v'.
Proof.
  intros Hinv [[Hcells Hgrid] Hroom] Hmove.
  apply moveTile_cases in Hmove. destruct Hmove as [halt [Hhalt Hv']].
  pose proof Hinv as [_ [_ [Hrest [Hn [Hlt Hnb]]]]].
  destruct (Hrest t (or_introl eq_refl)) as [Htn [Htin Et]].
  unfold resolvedBoard in *.
  pose proof (wellFormed_length gs (tilesOf (heap v) (newBoard v))
                (conj Hcells Hgrid)) as Hlen.
  unfold tilesOf in Hlen. rewrite length_map in Hlen.
  assert (Hgs : 0 < gs).
  { rewrite Forall_forall in Hgrid.
    specialize (Hgrid (heap v t) (in_map _ _ _ Htin)). unfold onGrid in Hgrid. lia. }
  destruct halt as [target r' c' | r' c']; subst v'.
  - destruct Hhalt as [k [Hk [Hr [Hc [Hon [Hfind [Hval Hflagt]]]]]]].
    apply findAt_some in Hfind. destruct Hfind as [Htarget Hcell].
    destruct (target_settled v t rest target r' c' k Hinv Hk Hr Hc Hcell)
      as [Hneq _].
    assert (Hheap : forall u,
              In u (filter (fun u => negb (Nat.eqb u target) && negb (Nat.eqb u t))
                           (newBoard v)) ->
              heap (settle t (row (heap v t)) (col (heap v t)) r' c'
                      (mergeInto s t target r' c' v)) u = heap v u).
    { intros u Hu. apply filter_In in Hu. destruct Hu as [Hu Hf].
      apply andb_prop in Hf. destruct Hf as [_ Hf].
      apply negb_true_iff, Nat.eqb_neq in Hf.
      rewrite settle_heap_other, mergeInto_heap, store_other; auto.
      specialize (Hlt u Hu). lia. }
    unfold wfInv, resolvedBoard.
    rewrite settle_newBoard, mergeInto_newBoard.
    unfold tilesOf. rewrite map_app. simpl map.
    rewrite (map_ext_in _ (heap v) _ Hheap).
    rewrite settle_heap_other, mergeInto_heap, store_same by lia.
    split; [split |].
    + rewrite map_app. simpl. apply NoDup_app.
      * rewrite map_map. apply filter_keeps_distinct.
        unfold tilesOf in Hcells. rewrite map_map in Hcells. exact Hcells.
      * repeat constructor. intros [].
      * intros p Hp [<- | []]. apply in_map_iff in Hp. destruct Hp as [x [Hx Hin]].
        apply in_map_iff in Hin. destruct Hin as [u [<- Hu]].
        apply filter_In in Hu. destruct Hu as [Hu Hf].
        apply andb_prop in Hf. destruct Hf as [Hf _].
        apply negb_true_iff, Nat.eqb_neq in Hf. apply Hf.
        apply (NoDup_map_eq (fun u => cell (heap v u)) (newBoard v)); auto.
        -- unfold tilesOf in Hcells. now rewrite map_map in Hcells.
        -- unfold cell at 1. simpl. now rewrite Hcell.
    + apply Forall_app. split.
      * rewrite Forall_forall in *. intros x Hx. apply in_map_iff in Hx.
        destruct Hx as [u [<- Hu]]. apply filter_In in Hu.
        apply Hgrid. apply in_map. tauto.
      * constructor; [exact Hon | constructor].
    + intros _. split; [assumption |]. rewrite length_app. simpl length.
      pose proof (filter_length_two target t (newBoard v) Hnb Htarget Htin Hneq).
      lia.
  - destruct Hhalt as [k [Hk [Hr [Hc [Hfree _]]]]].
    destruct (Z.eq_dec k 0) as [-> | Hk0].
    + replace r' with (row (heap v t)) by lia.
      replace c' with (col (heap v t)) by lia.
      rewrite settle_same. split; [split |]; assumption.
    + destruct Hfree as [Hon Hnone]; [lia |].
      pose proof (findAt_none _ _ _ _ Hnone) as Hnot.
      unfold wfInv, resolvedBoard. rewrite settle_newBoard.
      split; [split |].
      * apply (NoDup_cells_move (heap v) _ t (r', c')); auto.
        -- intros u Hu. now apply settle_heap_other.
        -- now rewrite settle_heap_self.
      * rewrite Forall_forall in *. intros x Hx. apply in_map_iff in Hx.
        destruct Hx as [u [<- Hu]]. destruct (Nat.eq_dec u t) as [-> | Hne].
        -- rewrite settle_heap_self. exact Hon.
        -- rewrite settle_heap_other by assumption.
           apply Hgrid. now apply in_map.
      * intros _. split; [assumption |].
        assert (Hempty : emptyCell gs (tilesOf (heap v) (newBoard v)) r' c').
        { split; [assumption |]. intros x Hx. apply in_map_iff in Hx.
          destruct Hx as [u [<- Hu]]. now apply Hnot. }
        pose proof (emptyCell_length _ _ _ _ (conj Hcells Hgrid) Hempty) as H.
        unfold tilesOf in H. now rewrite length_map in H.
Qed.

Lemma loopInv_enter : loopInv s d (enter s) (sortedTiles s d).
Proof.
  split; [apply refsInv_enter |]. split; [apply tilesInv_enter |].
  split; [apply mergersInv_enter | apply wfInv_enter].
Qed.

Lemma loopInv_step v t rest v' :
  loopInv s d v (t :: rest) -> moveTile s d fuel v t = Some v' -> loopInv s d v' rest.
Proof.
  intros [Hrefs [Htiles [Hms Hwf]]] Hmove.
  split; [eapply refsInv_step; eauto |].
  split; [eapply tilesInv_step; eauto |].
  split; [eapply mergersInv_step; eauto |].
  intros H. eapply wfInv_step; eauto.
Qed.

End Resolver.

Lemma resolve_loopInv s d v :
  resolve s d = Some v -> loopInv s d v [].
Proof.
  unfold resolve. intros H.
  eapply (forEachTile_inv s d _ (loopInv s d)); [| apply loopInv_enter | exact H].
  intros v0 t rest v' Hinv Hmove. eapply loopInv_step; eauto.
Qed.

(* ------------------------------------------------------------------ *)
(** ** The sum of the tile values *)

Lemma addNewTile_total gs board dr :
  total (addNewTile gs board dr)
  = total board + match spawnTile gs board dr with
                  | Some t => value t
                  | None => 0
                  end.
Proof.
  unfold addNewTile. destruct (spawnTile gs board dr) as [t |].
  - rewrite total_app. unfold total at 2. simpl. lia.
  - lia.
Qed.

(** C2 (amended).  A merger replaces two tiles of value x by one of value
    2x, so the resolver leaves the sum of the tile values as it was, and
    the sum after an effective move is the sum before it plus the value of
    the tile spawned; the score gained is no part of it.  On a board that
    keeps its invariants an effective move does spawn a tile, of value 2
    or 4. *)
Theorem move_total_conserved s d dr :
  gameState s = playing ->
  exists v s' cs,
    resolve s d = Some v
    /\ move s d dr = Some (s', cs)
    /\ total (resolvedBoard v) = total (board s)
    /\ (changed v = true ->
        board s' = addNewTile (gridSize s) (resolvedBoard v) dr
        /\ score s' = newScore v
        /\ total (board s')
           = total (board s)
             + match spawnTile (gridSize s) (resolvedBoard v) dr with
               | Some t => value t
               | None => 0
               end
        /\ (wellFormed (gridSize s) (board s) ->
            exists t,
              spawnTile (gridSize s) (resolvedBoard v) dr = Some t
              /\ (value t = 2 \/ value t = 4)
              /\ board s' = resolvedBoard v ++ [t]
              /\ total (board s') = total (board s) + value t)).
Proof.
  intros Hplay. destruct (resolve_total s d) as [v Hv].
  exists v, (fst (finish s v dr)), (snd (finish s v dr)).
  split; [assumption |]. split.
  { unfold move. rewrite Hplay, Hv. simpl. now destruct (finish s v dr). }
  destruct (resolve_loopInv _ _ _ Hv) as [_ [[_ Htotal] [_ Hwf]]].
  split; [assumption |]. intros Hch.
  unfold finish. rewrite Hch. simpl.
  split; [reflexivity |]. split; [reflexivity |].
  split; [rewrite addNewTile_total; lia |].
  intros Hboard. destruct (Hwf Hboard) as [_ Hroom].
  destruct (Hroom Hch) as [Hgs Hlen].
  destruct (spawnTile (gridSize s) (resolvedBoard v) dr) as [t |] eqn:E.
  - exists t. split; [reflexivity |]. split.
    + apply spawnTile_some in E. destruct E as [_ [E _]]. rewrite E.
      apply pickValue_cases.
    + unfold addNewTile. rewrite E. split; [reflexivity |].
      rewrite total_app. unfold total at 2. simpl. lia.
  - exfalso. apply spawnTile_none in E. revert E.
    apply emptyTiles_room; [lia |].
    unfold resolvedBoard, tilesOf. now rewrite length_map.
Qed.

(** The row 2 2 4 moved left: an effective move; the sum stays 8 until
    a 2 is spawned and is 10 after. *)
Lemma move_total_conserved_witness :
  exists v s' cs t,
    resolve (playingOn (picture [[2; 2; 4; 0]]) []) Left = Some v
    /\ move (playingOn (picture [[2; 2; 4; 0]]) []) Left someDraws = Some (s', cs)
    /\ changed v = true
    /\ total (picture [[2; 2; 4; 0]]) = 8
    /\ total (resolvedBoard v) = 8
    /\ spawnTile 4 (resolvedBoard v) someDraws = Some t
    /\ board s' = resolvedBoard v ++ [t]
    /\ total (board s') = 8 + value t.
Proof.
  destruct (move_total_conserved (playingOn (picture [[2; 2; 4; 0]]) []) Left
              someDraws eq_refl)
    as [v [s' [cs [Hv [Hmove [Htotal Heffective]]]]]].
  assert (Hchanged : changed v = true).
  { vm_compute in Hv. inversion Hv. reflexivity. }
  destruct (Heffective Hchanged) as [_ [_ [_ Hspawn]]].
  destruct Hspawn as [t [Ht [_ [Hboard Hsum]]]].
  { unfold playingOn, picture. simpl. concrete_wellFormed. }
  exists v, s', cs, t. repeat split; assumption.
Defined.

(** The row 2 2 moved left: the two tiles merge into a 4, the score
    grows by 4 and a 2 is spawned.  The sum of the values goes from 4 to
    6, the old sum plus the spawned value, and not to 10, the old sum
    plus the score gained plus the spawned value. *)
Lemma move_total_counterexample :
  exists s' cs merged spawned,
    move (playingOn (picture [[2; 2; 0; 0]]) []) Left someDraws = Some (s', cs)
    /\ board s' = [merged; spawned]
    /\ value merged = 4 /\ justMerged merged = Some true
    /\ value spawned = 2 /\ isNew spawned = Some true
    /\ total (picture [[2; 2; 0; 0]]) = 4
    /\ score s' - 0 = 4
    /\ total (board s') = 6
    /\ total (board s') <> total (picture [[2; 2; 0; 0]]) + (score s' - 0) + value spawned.
Proof.
  eexists. eexists. eexists. eexists.
  split; [vm_compute; reflexivity |].
  split; [reflexivity |].
  vm_compute. repeat split; discriminate.
Qed.

(* ------------------------------------------------------------------ *)
(** ** Mergers *)

(** C4.  In one pass of the resolver no tile takes part in two mergers.
    The tiles found and the tiles moved by the mergers are pairwise
    distinct tiles of the board the pass was entered with, all unflagged
    and, in each merger, of one value; the tile a merger pushes is new,
    flagged, of twice that value, and is neither found nor moved by any
    merger of the pass.  The flagged tiles of the resulting board are the
    tiles pushed, and the score grows by their values. *)
Theorem merge_once s d :
  exists v,
    resolve s d = Some v
    /\ NoDup (participants (mergers v))
    /\ (forall m, In m (mergers v) ->
          (found m < length (board s))%nat
          /\ (moved m < length (board s))%nat
          /\ (length (board s) <= pushed m)%nat
          /\ justMerged (copies (board s) (found m)) = Some false
          /\ justMerged (copies (board s) (moved m)) = Some false
          /\ value (copies (board s) (found m)) = value (copies (board s) (moved m))
          /\ In (pushed m) (newBoard v)
          /\ justMerged (heap v (pushed m)) = Some true
          /\ value (heap v (pushed m)) = value (copies (board s) (moved m)) * 2)
    /\ (forall m m', In m (mergers v) -> In m' (mergers v) ->
          pushed m <> found m' /\ pushed m <> moved m')
    /\ (forall t, In t (newBoard v) ->
          (justMerged (heap v t) = Some true <->
           exists m, In m (mergers v) /\ pushed m = t))
    /\ newScore v = score s + mergedValues (heap v) (mergers v).
Proof.
  destruct (resolve_total s d) as [v Hv]. exists v. split; [assumption |].
  destruct (resolve_loopInv _ _ _ Hv)
    as [_ [[Htiles _] [[Hms [Hpart [Hnew [Hscore _]]]] _]]].
  split; [assumption |]. split; [| split; [| split]].
  - intros m Hm.
    destruct (Hms m Hm) as [H1 [H2 [H3 [H4 [_ [_ [H7 [H8 _]]]]]]]].
    destruct (Htiles _ H4) as [_ Hflag].
    repeat split; auto using copies_flag.
  - intros m m' Hm Hm'.
    destruct (Hms m Hm) as [_ [_ [H3 _]]].
    destruct (Hms m' Hm') as [H1 [H2 _]]. lia.
  - intros t Ht. destruct (Htiles t Ht) as [Hold Hpushed]. split.
    + intros Hflag. apply Hnew; [assumption |].
      destruct (Nat.lt_ge_cases t (length (board s))) as [Hlt | Hge]; [| assumption].
      destruct (Hold Hlt) as [E _]. congruence.
    + intros [m [Hm <-]]. destruct (Hms m Hm) as [_ [_ [H3 _]]]. auto.
  - assumption.
Qed.

(** The row 2 2 4 moved left gives 4 4 and 4 points: the 4 that was
    there stops beside the 4 just pushed.  Three and four equal tiles do
    not chain either. *)
Example resolve_2_2_4 :
  resolveLayout (playingOn (picture [[2; 2; 4; 0]]) []) Left
  = Some ([(0, 1, 4); (0, 0, 4)], 4, true).
Proof. reflexivity. Qed.

Example resolve_2_2_2 :
  resolveLayout (playingOn (picture [[2; 2; 2; 0]]) []) Left
  = Some ([(0, 1, 2); (0, 0, 4)], 4, true).
Proof. reflexivity. Qed.

Example resolve_2_2_2_2 :
  resolveLayout (playingOn (picture [[2; 2; 2; 2]]) []) Right
  = Some ([(0, 3, 4); (0, 2, 4)], 8, true).
Proof. reflexivity. Qed.

Example resolve_4_2_2_down :
  resolveLayout (playingOn (picture [[4]; [2]; [2]; [0]]) []) Down
  = Some ([(2, 0, 4); (3, 0, 4)], 4, true).
Proof. reflexivity. Qed.

(* ------------------------------------------------------------------ *)
(** ** Tiles stay on their line *)

Lemma sameLine_copy d board i tile x :
  nth_error board i = Some tile ->
  sameLine d (copies board i) x <-> sameLine d tile x.
Proof.
  intros H. rewrite (copies_nth _ _ _ H). unfold sameLine. now destruct d.
Qed.

(** C10.  The resolver moves a tile along the line of the move only.  A
    tile of the board that is still on the resolved board has kept its
    row in a move to the left or right and its column in a move up or
    down; a tile pushed by a merger lies in the row, or column, that both
    of the tiles it was merged from had when the move started; and the
    resolved board holds no other tiles. *)
Theorem move_keeps_line s d :
  exists v,
    resolve s d = Some v
    /\ (forall i tile,
          nth_error (board s) i = Some tile -> In i (newBoard v) ->
          sameLine d tile (heap v i))
    /\ (forall m, In m (mergers v) ->
          exists a b,
            nth_error (board s) (found m) = Some a
            /\ nth_error (board s) (moved m) = Some b
            /\ In (pushed m) (newBoard v)
            /\ sameLine d a (heap v (pushed m))
            /\ sameLine d b (heap v (pushed m)))
    /\ (forall t, In t (newBoard v) ->
          (t < length (board s))%nat \/ exists m, In m (mergers v) /\ pushed m = t).
Proof.
  destruct (resolve_total s d) as [v Hv]. exists v. split; [assumption |].
  destruct (resolve_loopInv _ _ _ Hv)
    as [_ [[Htiles _] [[Hms [_ [Hnew _]]] _]]].
  split; [| split].
  - intros i tile Hnth Hin. destruct (Htiles i Hin) as [Hold _].
    assert (Hlt : (i < length (board s))%nat).
    { apply nth_error_Some. congruence. }
    destruct (Hold Hlt) as [_ [_ Hline]].
    now apply (sameLine_copy d _ _ _ _ Hnth).
  - intros m Hm.
    destruct (Hms m Hm) as [H1 [H2 [_ [H4 [_ [_ [_ [_ [H9 H10]]]]]]]]].
    destruct (nth_error (board s) (found m)) as [a |] eqn:Ea;
      [| apply nth_error_None in Ea; lia].
    destruct (nth_error (board s) (moved m)) as [b |] eqn:Eb;
      [| apply nth_error_None in Eb; lia].
    exists a, b. repeat split; try assumption.
    + now apply (sameLine_copy d _ _ _ _ Ea).
    + now apply (sameLine_copy d _ _ _ _ Eb).
  - intros t Ht. destruct (Nat.lt_ge_cases t (length (board s))); auto.
Qed.

(* ------------------------------------------------------------------ *)
(** ** The invariants of the board *)

Lemma addNewTile_wellFormed gs board dr :
  wellFormed gs board -> wellFormed gs (addNewTile gs board dr).
Proof.
  intros [Hcells Hgrid]. unfold addNewTile.
  destruct (spawnTile gs board dr) as [t |] eqn:E; [| now split].
  apply spawnTile_emptyCell in E. destruct E as [Hon Hfree]. split.
  - rewrite map_app. apply NoDup_app; [assumption | repeat constructor; intros [] |].
    intros p Hp [<- | []]. apply in_map_iff in Hp. destruct Hp as [u [Hu Hin]].
    now apply (Hfree u Hin).
  - apply Forall_app. split; [assumption |]. repeat constructor; apply Hon.
Qed.

Lemma wellFormed_nil gs : wellFormed gs [].
Proof. split; constructor. Qed.

Lemma move_wellFormed s d dr s' cs :
  wellFormed (gridSize s) (board s) -> move s d dr = Some (s', cs) ->
  gridSize s' = gridSize s /\ wellFormed (gridSize s') (board s').
Proof.
  intros Hwf. unfold move.
  destruct (negb (GameState_eqb (gameState s) playing)).
  - intros H. inversion H; subst. auto.
  - destruct (resolve s d) as [v |] eqn:Hv; [| discriminate].
    intros H. inversion H as [Hfin]. clear H.
    destruct (resolve_loopInv _ _ _ Hv) as [_ [_ [_ Hinv]]].
    destruct (Hinv Hwf) as [Hres _].
    unfold finish in Hfin. destruct (changed v); inversion Hfin; subst; simpl.
    + split; [reflexivity |]. now apply addNewTile_wellFormed.
    + auto.
Qed.

Lemma scoreEffect_board s :
  board (fst (scoreEffect s)) = board s
  /\ gridSize (fst (scoreEffect s)) = gridSize s.
Proof.
  unfold scoreEffect. destruct (checkAchievements s) as [s' cs] eqn:E.
  pose proof (checkAchievements_state s) as H. rewrite E in H. simpl in H.
  subst s'. simpl. auto.
Qed.

(** C9.  In every state of a session the board keeps its invariants: no
    two tiles are on one cell, and the row and the column of every tile
    lie in [0, gridSize).  This holds in particular at the end of every
    move, after the tiles have been resolved and the new tile spawned. *)
Theorem reachable_wellFormed s :
  reachable s -> wellFormed (gridSize s) (board s).
Proof.
  induction 1 as [s d1 d2 | s c s' cs _ IH Hstep].
  - simpl. apply addNewTile_wellFormed, addNewTile_wellFormed, wellFormed_nil.
  - destruct c; simpl in Hstep;
      try (inversion Hstep; subst; simpl; first [exact IH | apply wellFormed_nil]).
    + now apply (move_wellFormed s d dr s' cs IH).
    + inversion Hstep; subst. simpl.
      apply addNewTile_wellFormed, addNewTile_wellFormed, wellFormed_nil.
    + inversion Hstep as [E]. destruct (scoreEffect_board s) as [Hb Hg].
      rewrite E in Hb, Hg. simpl in Hb, Hg. rewrite Hb, Hg. exact IH.
Qed.

(** The board of a new game after its first move. *)
Lemma reachable_wellFormed_witness :
  layout (board afterFirstMove) = [(1, 0, 2); (3, 0, 4); (0, 0, 2)]
  /\ wellFormed (gridSize afterFirstMove) (board afterFirstMove).
Proof.
  split; [reflexivity |].
  apply (reachable_wellFormed afterFirstMove).
  apply (reach_step freshGame (Move Left (mkDraws (mkDraw 0 1) (mkDraw 1 3) 19))
           afterFirstMove []).
  - apply reach_start.
  - reflexivity.
Defined.

(* ------------------------------------------------------------------ *)
(** ** A move that changes nothing *)

Lemma findAt_copies_some board r c target :
  findAt (copies board) (seq 0 (length board)) r c = Some target ->
  exists u, nth_error board target = Some u /\ In u board /\ cell u = (r, c).
Proof.
  intros H. apply findAt_some in H. destruct H as [Hin Hcell].
  apply in_seq in Hin.
  destruct (nth_error board target) as [u |] eqn:E;
    [| apply nth_error_None in E; lia].
  exists u. split; [reflexivity |]. split; [eapply nth_error_In; eauto |].
  now rewrite (copies_nth _ _ _ E) in Hcell.
Qed.

Lemma findAt_copies_none board r c :
  findAt (copies board) (seq 0 (length board)) r c = None ->
  forall u, In u board -> cell u <> (r, c).
Proof.
  intros H u Hu Hcell. apply In_nth_error in Hu. destruct Hu as [i Hi].
  apply (findAt_none _ _ _ _ H i).
  - apply in_seq. assert (i < length board)%nat by (apply nth_error_Some; congruence).
    lia.
  - now rewrite (copies_nth _ _ _ Hi).
Qed.

Lemma moveTile_blocked s d fuel t b :
  nth_error (board s) t = Some b ->
  blockedTile (gridSize s) (board s) d b ->
  moveTile s d (S fuel) (enter s) t = Some (enter s).
Proof.
  intros Hnth Hblocked. unfold moveTile. simpl heap. simpl newBoard.
  rewrite (copies_nth _ _ _ Hnth). simpl row. simpl col. simpl value.
  simpl walk.
  assert (Hsame : forall v, settle t (row b) (col b) (row b + dRow d - dRow d)
                              (col b + dCol d - dCol d) v = v).
  { intros v. replace (row b + dRow d - dRow d) with (row b) by lia.
    replace (col b + dCol d - dCol d) with (col b) by lia. apply settle_same. }
  unfold blockedTile, ahead, cell in Hblocked. simpl in Hblocked.
  destruct (outside (gridSize s) (row b + dRow d) (col b + dCol d)) eqn:Eout.
  - now rewrite Hsame.
  - destruct Hblocked as [Hout | [[u [Hu Hcell]] Hvalues]]; [discriminate |].
    destruct (findAt (copies (board s)) (seq 0 (length (board s)))
                (row b + dRow d) (col b + dCol d)) as [target |] eqn:Efind.
    + destruct (findAt_copies_some _ _ _ _ Efind) as [w [Hw [Hwin Hwcell]]].
      rewrite (copies_nth _ _ _ Hw). simpl value.
      specialize (Hvalues w Hwin Hwcell).
      apply Z.eqb_neq in Hvalues. rewrite Hvalues. simpl.
      now rewrite Hsame.
    + exfalso. exact (findAt_copies_none _ _ _ Efind u Hu Hcell).
Qed.

(** With no legal slide the loop leaves its variables as they were
    when it was entered. *)
Lemma resolve_blocked s d :
  noLegalSlide (gridSize s) (board s) d -> resolve s d = Some (enter s).
Proof.
  intros Hblocked. unfold resolve, rounds.
  assert (H : forall l, (forall t, In t l -> (t < length (board s))%nat) ->
            forEachTile s d (S (Z.to_nat (gridSize s))) (enter s) l = Some (enter s)).
  { induction l as [| t l IH]; intros Hl; [reflexivity |].
    simpl forEachTile.
    destruct (nth_error (board s) t) as [b |] eqn:E.
    - rewrite (moveTile_blocked s d _ t b E).
      + apply IH. intros; apply Hl; now right.
      + apply Hblocked. eapply nth_error_In; eauto.
    - apply nth_error_None in E. specialize (Hl t (or_introl eq_refl)). lia. }
  apply H. intros t Ht.
  apply (Permutation_in _ (Permutation_sym (sortedTiles_perm s d))) in Ht.
  apply in_seq in Ht. lia.
Qed.

Lemma enter_board s : resolvedBoard (enter s) = map freshCopy (board s).
Proof. unfold resolvedBoard, enter. simpl. apply tilesOf_copies. Qed.

Lemma enter_layout s : layout (resolvedBoard (enter s)) = layout (board s).
Proof. rewrite enter_board. unfold layout. now rewrite map_map. Qed.

(** C5.  When no tile of the board can slide or merge in the direction
    asked for, the resolver leaves its variables as it found them: the
    tiles where they were, [changed] false, the score as it was.  [move]
    then keeps the board of the state, spawns nothing and counts no
    move. *)
Theorem move_blocked s d dr :
  noLegalSlide (gridSize s) (board s) d ->
  exists v s' cs,
    resolve s d = Some v
    /\ changed v = false
    /\ newScore v - score s = 0
    /\ resolvedBoard v = map freshCopy (board s)
    /\ layout (resolvedBoard v) = layout (board s)
    /\ move s d dr = Some (s', cs)
    /\ board s' = board s
    /\ score s' = score s
    /\ moveCount s' = moveCount s.
Proof.
  intros Hblocked. pose proof (resolve_blocked s d Hblocked) as Hv.
  exists (enter s), (fst (match move s d dr with Some o => o | None => (s, []) end)),
    (snd (match move s d dr with Some o => o | None => (s, []) end)).
  split; [assumption |]. split; [reflexivity |].
  split; [simpl; lia |].
  split; [apply enter_board |]. split; [apply enter_layout |].
  unfold move. rewrite Hv.
  destruct (negb (GameState_eqb (gameState s) playing)); simpl; auto.
Qed.

Lemma cellIs_true rc u : cellIs rc u = true <-> cell u = rc.
Proof.
  unfold cellIs, cell. rewrite andb_true_iff, !Z.eqb_eq. destruct rc as [r c].
  simpl. split; [intros [-> ->]; reflexivity | intros H; inversion H; auto].
Qed.

Lemma noLegalSlideb_true gs board d :
  noLegalSlideb gs board d = true -> noLegalSlide gs board d.
Proof.
  unfold noLegalSlideb, noLegalSlide. rewrite forallb_forall.
  intros H t Ht. specialize (H t Ht). unfold blockedTileb in H.
  apply orb_prop in H. destruct H as [H | H]; [now left | right].
  apply andb_prop in H. destruct H as [Hex Hall]. split.
  - apply existsb_exists in Hex. destruct Hex as [u [Hu Hc]].
    exists u. split; [assumption | now apply cellIs_true].
  - rewrite forallb_forall in Hall. intros u Hu Hc.
    specialize (Hall u Hu). apply cellIs_true in Hc. rewrite Hc in Hall.
    simpl in Hall. now apply negb_true_iff, Z.eqb_neq in Hall.
Qed.

(** The row 2 4 2 cannot move left. *)
Lemma move_blocked_witness :
  exists v s' cs,
    resolve (playingOn (picture [[2; 4; 2; 0]]) []) Left = Some v
    /\ changed v = false
    /\ newScore v - 0 = 0
    /\ resolvedBoard v = map freshCopy (picture [[2; 4; 2; 0]])
    /\ layout (resolvedBoard v) = [(0, 0, 2); (0, 1, 4); (0, 2, 2)]
    /\ move (playingOn (picture [[2; 4; 2; 0]]) []) Left someDraws = Some (s', cs)
    /\ board s' = picture [[2; 4; 2; 0]]
    /\ score s' = 0
    /\ moveCount s' = 0.
Proof.
  apply (move_blocked (playingOn (picture [[2; 4; 2; 0]]) []) Left someDraws).
  apply noLegalSlideb_true. reflexivity.
Defined.

(* ------------------------------------------------------------------ *)
(** ** A second move in the same direction *)

Lemma settledInv_enter s d : settledInv s d (enter s) (sortedTiles s d).
Proof.
  intros _ u Hu Hnot. exfalso. apply Hnot.
  apply (Permutation_in _ (sortedTiles_perm s d)). exact Hu.
Qed.

Lemma settledInv_step s d fuel v t rest v' :
  loopInv s d v (t :: rest) -> settledInv s d v (t :: rest) ->
  moveTile s d fuel v t = Some v' -> settledInv s d v' rest.
Proof.
  intros [Hrefs [[Htiles _] [Hms _]]] Hsettled Hmove.
  apply moveTile_cases in Hmove. destruct Hmove as [halt [Hhalt Hv']].
  pose proof Hrefs as [_ [Hnd [Hrest _]]].
  inversion Hnd as [| ? ? Hnotin _]; subst.
  destruct (Hrest t (or_introl eq_refl)) as [Htn [Htin Et]].
  destruct Hms as [_ [_ [_ [_ [_ Hseq]]]]].
  destruct halt as [target r' c' | r' c']; subst v'.
  - intros Hnone. rewrite settle_mergers, mergeInto_mergers in Hnone.
    destruct (mergers v); discriminate.
  - intros Hnone. rewrite settle_mergers in Hnone. rewrite settle_newBoard.
    specialize (Hsettled Hnone). specialize (Hseq Hnone).
    destruct Hhalt as [k [Hk [Hr [Hc [_ Hahead]]]]].
    intros u Hu Hnot. destruct (Nat.eq_dec u t) as [-> | Hut].
    + rewrite settle_heap_self. unfold ahead, cell. simpl.
      destruct Hahead as [Hout | [_ [target [Hfind Hblocks]]]]; [now left | right].
      apply findAt_some in Hfind. destruct Hfind as [Htarget Hcell].
      destruct (target_settled s d v t rest target (r' + dRow d) (c' + dCol d)
                  (k + 1) Hrefs ltac:(lia) ltac:(lia) ltac:(lia) Hcell)
        as [Hneq Hnotrest].
      exists target. split; [assumption |]. split; [assumption |].
      rewrite settle_heap_other by assumption. split; [assumption |].
      unfold blocks in Hblocks.
      assert (Hflag : justMerged (heap v target) = Some false).
      { destruct (Htiles target Htarget) as [Hold _]. apply Hold.
        rewrite Hseq in Htarget. apply in_seq in Htarget. lia. }
      rewrite Hflag in Hblocks. simpl in Hblocks. rewrite andb_true_r in Hblocks.
      now apply Z.eqb_neq in Hblocks.
    + rewrite settle_heap_other by assumption.
      destruct (Hsettled u Hu) as [Hout | [w [Hw [Hwnot [Hcell Hval]]]]].
      * intros [E | E]; [congruence | contradiction].
      * now left.
      * right. exists w.
        assert (Hwt : w <> t) by (intros E; apply Hwnot; now left).
        split; [assumption |]. split; [intros E; apply Hwnot; now right |].
        now rewrite settle_heap_other by assumption.
Qed.

Lemma resolve_settled s d v :
  resolve s d = Some v -> loopInv s d v [] /\ settledInv s d v [].
Proof.
  unfold resolve. intros H.
  refine (forEachTile_inv s d _
            (fun v rest => loopInv s d v rest /\ settledInv s d v rest)
            _ (sortedTiles s d) (enter s) v _ H).
  - intros v0 t rest v' [Hinv Hsettled] Hmove. split.
    + eapply loopInv_step; eauto.
    + eapply settledInv_step; eauto.
  - split; [apply loopInv_enter | apply settledInv_enter].
Qed.

(** After a pass that merged nothing, no tile of a board that keeps its
    invariants can slide or merge in the direction of the pass. *)
Lemma resolve_noLegalSlide s d v :
  wellFormed (gridSize s) (board s) ->
  resolve s d = Some v -> mergeHappened v = false ->
  noLegalSlide (gridSize s) (resolvedBoard v) d.
Proof.
  intros Hwf Hv Hflag.
  destruct (resolve_settled _ _ _ Hv) as [[_ [_ [Hms Hinv]]] Hsettled].
  destruct (Hinv Hwf) as [[Hcells _] _].
  destruct Hms as [_ [_ [_ [_ [Hhappened _]]]]].
  assert (Hnone : mergers v = []).
  { rewrite Hflag in Hhappened. destruct (mergers v); [reflexivity | discriminate]. }
  specialize (Hsettled Hnone).
  intros x Hx. unfold resolvedBoard, tilesOf in Hx.
  apply in_map_iff in Hx. destruct Hx as [u [<- Hu]].
  destruct (Hsettled u Hu (fun F => F)) as [Hout | [w [Hw [_ [Hcell Hval]]]]];
    [now left | right].
  split.
  - exists (heap v w). split; [| assumption].
    unfold resolvedBoard, tilesOf. now apply in_map.
  - intros y Hy Hycell. unfold resolvedBoard, tilesOf in Hy.
    apply in_map_iff in Hy. destruct Hy as [w' [<- Hw']].
    assert (w' = w); [| now subst].
    apply (NoDup_map_eq (fun r => cell (heap v r)) (newBoard v)); auto.
    + unfold resolvedBoard, tilesOf in Hcells. now rewrite map_map in Hcells.
    + congruence.
Qed.

(* ------------------------------------------------------------------ *)
(** ** [changed] is false only when no tile can move *)

Lemma moveTile_unchanged s d fuel v t v' :
  moveTile s d fuel v t = Some v' -> changed v' = false -> v' = v.
Proof.
  intros Hmove Hch. apply moveTile_cases in Hmove.
  destruct Hmove as [halt [_ Hv']].
  destruct halt as [target r' c' | r' c']; subst v'; rewrite settle_changed in Hch.
  - rewrite mergeInto_changed in Hch. discriminate.
  - apply orb_false_elim in Hch. destruct Hch as [Hch Hc].
    apply orb_false_elim in Hch. destruct Hch as [_ Hr].
    apply negb_false_iff, Z.eqb_eq in Hr, Hc. subst. apply settle_same.
Qed.

Lemma forEachTile_unchanged s d fuel l : forall v v',
  forEachTile s d fuel v l = Some v' -> changed v' = false -> v' = v.
Proof.
  induction l as [| t l IH]; intros v v' H Hch; simpl in H.
  - now inversion H.
  - destruct (moveTile s d fuel v t) as [v1 |] eqn:E; [| discriminate].
    pose proof (IH _ _ H Hch) as ->.
    exact (moveTile_unchanged _ _ _ _ _ _ E Hch).
Qed.

Lemma blockedTile_freshCopy gs board d t :
  blockedTile gs (map freshCopy board) d (freshCopy t) -> blockedTile gs board d t.
Proof.
  unfold blockedTile. intros [Hout | [[u [Hu Hcell]] Hval]]; [now left | right].
  apply in_map_iff in Hu. destruct Hu as [u0 [<- Hu0]]. split.
  - exists u0. split; assumption.
  - intros w Hw Hwcell.
    exact (Hval (freshCopy w) (in_map freshCopy _ _ Hw) Hwcell).
Qed.

(** On a board that keeps its invariants the resolver reports
    [changed] false exactly when no tile can slide or merge. *)
Lemma noLegalSlide_iff s d :
  wellFormed (gridSize s) (board s) ->
  noLegalSlide (gridSize s) (board s) d <->
  exists v, resolve s d = Some v /\ changed v = false.
Proof.
  intros Hwf. split.
  - intros H. exists (enter s). split; [now apply resolve_blocked | reflexivity].
  - intros [v [Hv Hch]].
    assert (E : v = enter s) by (eapply forEachTile_unchanged; eauto).
    subst v.
    pose proof (resolve_noLegalSlide s d (enter s) Hwf Hv eq_refl) as H.
    rewrite enter_board in H.
    intros t Ht. apply blockedTile_freshCopy. apply H. now apply in_map.
Qed.

(* ------------------------------------------------------------------ *)
(** ** Victory *)

Lemma mergeInto_victory s t target r' c' v :
  (value (heap v t) * 2 =? 2048) && negb (includes (achievements s) "reach2048") = true ->
  calls (mergeInto s t target r' c' v)
  = calls v ++ [Toast "reach2048"; SetGameState victory]
  /\ nextAchievements (mergeInto s t target r' c' v)
     = achievements s ++ ["reach2048"%string]
  /\ nextGameState (mergeInto s t target r' c' v) = victory.
Proof.
  intros H. unfold mergeInto. rewrite H.
  apply andb_prop in H. destruct H as [_ H].
  unfold setGameState, addAchievement. rewrite H. simpl.
  rewrite <- app_assoc. auto.
Qed.

Lemma mergeInto_quiet s t target r' c' v :
  (value (heap v t) * 2 =? 2048) && negb (includes (achievements s) "reach2048") = false ->
  calls (mergeInto s t target r' c' v) = calls v
  /\ nextAchievements (mergeInto s t target r' c' v) = nextAchievements v
  /\ nextGameState (mergeInto s t target r' c' v) = nextGameState v.
Proof. intros H. unfold mergeInto. rewrite H. simpl. auto. Qed.

Lemma firesVictory_app a b :
  firesVictory (a ++ b) = firesVictory a || firesVictory b.
Proof. apply existsb_app. Qed.

Lemma callsInv_enter s : callsInv s (enter s).
Proof. left. unfold enter. simpl. repeat split. intros m []. Qed.

Lemma callsInv_step s d fuel v t rest v' :
  refsInv s d v (t :: rest) -> callsInv s v ->
  moveTile s d fuel v t = Some v' -> callsInv s v'.
Proof.
  intros Hrefs Hinv Hmove.
  apply moveTile_cases in Hmove. destruct Hmove as [halt [_ Hv']].
  destruct Hrefs as [_ [_ [Hrest _]]].
  destruct (Hrest t (or_introl eq_refl)) as [_ [_ Et]].
  destruct halt as [target r' c' | r' c']; subst v'; unfold callsInv;
    rewrite settle_calls, settle_nextAchievements, settle_nextGameState,
      settle_mergers.
  - rewrite mergeInto_mergers.
    destruct ((value (heap v t) * 2 =? 2048)
              && negb (includes (achievements s) "reach2048")) eqn:E.
    + destruct (mergeInto_victory s t target r' c' v E) as [-> [-> ->]].
      apply andb_prop in E. destruct E as [Ev Ea].
      apply Z.eqb_eq in Ev. apply negb_true_iff, includes_false in Ea.
      right. split; [rewrite firesVictory_app; simpl; apply orb_true_r |].
      split; [reflexivity |]. split; [reflexivity |]. split; [assumption |].
      exists (mkMerger target t (next v)). split.
      * apply in_app_iff. right. now left.
      * simpl. now rewrite <- Et.
    + destruct (mergeInto_quiet s t target r' c' v E) as [-> [-> ->]].
      destruct Hinv as [[Hc [Ha [Hg Hm]]] | [Hc [Ha [Hg [Hn [m [Hm Hv]]]]]]].
      * left. repeat split; try assumption.
        intros m Hin Hv. apply in_app_iff in Hin.
        destruct Hin as [Hin | [<- | []]]; [now apply (Hm m) |].
        simpl in Hv. rewrite <- Et in Hv. apply Z.eqb_eq in Hv.
        rewrite Hv in E. simpl in E. apply negb_false_iff in E.
        now apply includes_In.
      * right. repeat split; try assumption.
        exists m. split; [apply in_app_iff; now left | assumption].
  - exact Hinv.
Qed.

Lemma resolve_callsInv s d v : resolve s d = Some v -> callsInv s v.
Proof.
  unfold resolve. intros H.
  refine (proj2 (forEachTile_inv s d _
            (fun v rest => refsInv s d v rest /\ callsInv s v)
            _ (sortedTiles s d) (enter s) v _ H)).
  - intros v0 t rest v' [Hrefs Hcalls] Hmove. split.
    + eapply refsInv_step; eauto.
    + eapply callsInv_step; eauto.
  - split; [apply refsInv_enter | apply callsInv_enter].
Qed.

Lemma finish_calls s v dr :
  firesVictory (snd (finish s v dr)) = firesVictory (calls v).
Proof.
  unfold finish.
  destruct (changed v); simpl;
    match goal with |- context [if ?b then _ else _] => destruct b end;
    try reflexivity; rewrite firesVictory_app; simpl; apply orb_false_r.
Qed.

Lemma finish_achievements s v dr :
  achievements (fst (finish s v dr)) = nextAchievements v.
Proof. unfold finish. now destruct (changed v). Qed.

Lemma finish_gameState s v dr :
  nextGameState v = victory ->
  gameState (fst (finish s v dr)) = victory
  \/ gameState (fst (finish s v dr)) = gameOver.
Proof.
  intros H. unfold finish.
  destruct (changed v); simpl;
    match goal with |- context [if ?b then _ else _] => destruct b end; auto.
Qed.

(** When [move] sets the state to [victory]. *)
Lemma move_victory s d dr :
  exists v s' cs,
    resolve s d = Some v
    /\ move s d dr = Some (s', cs)
    /\ (firesVictory cs = true <->
        gameState s = playing
        /\ ~ In "reach2048"%string (achievements s)
        /\ exists m, In m (mergers v) /\ value (heap v (pushed m)) = 2048)
    /\ (firesVictory cs = true ->
        In "reach2048"%string (achievements s')
        /\ (gameState s' = victory \/ gameState s' = gameOver))
    /\ (In "reach2048"%string (achievements s) ->
        In "reach2048"%string (achievements s')).
Proof.
  destruct (resolve_total s d) as [v Hv]. exists v.
  destruct (resolve_loopInv _ _ _ Hv) as [_ [_ [[Hms _] _]]].
  pose proof (resolve_callsInv _ _ _ Hv) as Hcalls.
  unfold move. rewrite Hv.
  destruct (GameState_eqb (gameState s) playing) eqn:Eg; simpl.
  - assert (Hplay : gameState s = playing) by (destruct (gameState s); now inversion Eg).
    exists (fst (finish s v dr)), (snd (finish s v dr)).
    split; [reflexivity |]. split; [now destruct (finish s v dr) |].
    rewrite finish_calls, finish_achievements.
    destruct Hcalls as [[Hc [Ha [Hg Hm]]] | [Hc [Ha [Hg [Hn [m [Hm Hval]]]]]]].
    + rewrite Hc, Ha. simpl. split; [| split; [discriminate | auto]].
      split; [discriminate |]. intros [_ [Hn [m [Hin Hval]]]].
      destruct (Hms m Hin) as [_ [_ [_ [_ [_ [_ [_ [H8 _]]]]]]]].
      exfalso. apply Hn, (Hm m Hin). lia.
    + rewrite Hc, Ha. split; [| split].
      * split; [| reflexivity]. intros _. split; [assumption |].
        split; [assumption |]. exists m. split; [assumption |].
        destruct (Hms m Hm) as [_ [_ [_ [_ [_ [_ [_ [H8 _]]]]]]]]. lia.
      * intros _. split; [apply in_app_iff; right; now left |].
        now apply finish_gameState.
      * intros H. apply in_app_iff. now left.
  - exists s, []. split; [reflexivity |]. split; [reflexivity |]. simpl.
    split; [| split; [discriminate | auto]].
    split; [discriminate |]. intros [Hplay _]. rewrite Hplay in Eg. discriminate.
Qed.

(** The state that a move which sets the state to [victory] leaves:
    the move has changed the board, a tile is spawned, and the state is
    [gameOver] when the terminal test holds of the new board and
    [victory] otherwise. *)
Lemma move_victory_state s d dr v :
  resolve s d = Some v -> firesVictory (calls v) = true ->
  changed v = true
  /\ board (fst (finish s v dr)) = addNewTile (gridSize s) (resolvedBoard v) dr
  /\ gameState (fst (finish s v dr))
     = (if isGameOverState (gridSize s) (addNewTile (gridSize s) (resolvedBoard v) dr)
        then gameOver else victory).
Proof.
  intros Hv Hfires.
  destruct (resolve_callsInv _ _ _ Hv)
    as [[Hc _] | [_ [_ [Hg [_ [m [Hm _]]]]]]];
    [rewrite Hc in Hfires; discriminate |].
  assert (Hch : changed v = true).
  { destruct (changed v) eqn:E; [reflexivity |].
    assert (Ev : v = enter s) by (eapply forEachTile_unchanged; eauto).
    subst v. destruct Hm. }
  split; [assumption |].
  unfold finish. rewrite Hch, Hg. simpl. split; reflexivity.
Qed.

Lemma scoreEffect_calls s : firesVictory (snd (scoreEffect s)) = false.
Proof.
  unfold scoreEffect, checkAchievements, addAchievements.
  destruct (newAchievements (score s) (moveCount s) (maxTile (board s)) (achievements s));
    [reflexivity |].
  match goal with |- context [filter ?f ?l] => destruct (filter f l) end; reflexivity.
Qed.

Lemma scoreEffect_achievements s a :
  In a (achievements s) -> In a (achievements (fst (scoreEffect s))).
Proof.
  intros H. unfold scoreEffect.
  pose proof (checkAchievements_state s) as E.
  destruct (checkAchievements s) as [s' cs]. simpl in E. subst s'. simpl.
  apply in_app_iff. now left.
Qed.

Lemma step_total s c : exists o, step s c = Some o.
Proof. destruct c; simpl; eauto. apply move_total. Qed.

(** A command sets the state to [victory] only while reach2048 is
    locked, and unlocks it when it does; nothing locks it again. *)
Lemma step_victory s c s' cs :
  step s c = Some (s', cs) ->
  (In "reach2048"%string (achievements s) ->
   firesVictory cs = false /\ In "reach2048"%string (achievements s'))
  /\ (firesVictory cs = true -> In "reach2048"%string (achievements s')).
Proof.
  destruct c; simpl; intros H;
    try (inversion H; subst; simpl; split; [auto | discriminate]).
  - destruct (move_victory s d dr) as [v [s1 [cs1 [_ [Hmove [Hiff [Hfire Hmono]]]]]]].
    rewrite Hmove in H. inversion H; subst. split; [| apply Hfire].
    intros Hin. split; [| now apply Hmono].
    destruct (firesVictory cs) eqn:E; [| reflexivity].
    exfalso. destruct (proj1 Hiff eq_refl) as [_ [Hn _]]. contradiction.
  - pose proof (scoreEffect_calls s) as Hc.
    pose proof (scoreEffect_achievements s "reach2048") as Ha.
    inversion H as [E]. rewrite E in Hc, Ha. simpl in Hc, Ha.
    rewrite Hc. split; [auto | discriminate].
Qed.

Lemma run_victories cmds : forall s,
  exists s' log,
    run s cmds = Some (s', log)
    /\ (victories log <= 1)%nat
    /\ (In "reach2048"%string (achievements s) ->
        victories log = 0%nat /\ In "reach2048"%string (achievements s'))
    /\ (victories log = 1%nat -> In "reach2048"%string (achievements s')).
Proof.
  induction cmds as [| c cmds IH]; intros s.
  - exists s, []. unfold victories. simpl. split; [reflexivity |]. split; [lia |].
    split; [auto | discriminate].
  - destruct (step_total s c) as [[s1 cs] Hstep].
    destruct (IH s1) as [s2 [log [Hrun [Hle [Hlocked Hone]]]]].
    exists s2, (cs :: log). simpl. rewrite Hstep, Hrun.
    split; [reflexivity |].
    destruct (step_victory _ _ _ _ Hstep) as [Hkeep Hfire].
    unfold victories in *. simpl.
    destruct (firesVictory cs) eqn:E; simpl.
    + destruct (Hlocked (Hfire eq_refl)) as [H0 Hin].
      split; [lia |]. split; [| auto].
      intros Hin0. destruct (Hkeep Hin0). discriminate.
    + split; [assumption |]. split; [| assumption].
      intros Hin0. destruct (Hkeep Hin0) as [_ Hin1]. auto.
Qed.

(** C1 (amended).  Victory fires at most once in the life of the list of
    achievements, which a new game does not clear.  In any sequence of
    commands at most one sets the state to [victory], and none does when
    reach2048 is unlocked at its start; the one that does unlocks
    reach2048.  A move sets the state to [victory] exactly when the game
    is in play, reach2048 is locked and one of its mergers pushes a tile
    of value 2048.  Such a move has changed the board and spawned a tile,
    and the state it leaves is [gameOver] when the terminal test holds of
    the new board, and [victory] when it does not.  Victory does not end
    the game: [continueAfterVictory] puts it in play again with the
    board, the score and the move count as they were. *)
Theorem victory_once s cmds :
  (exists s' log,
     run s cmds = Some (s', log)
     /\ (victories log <= 1)%nat
     /\ (In "reach2048"%string (achievements s) -> victories log = 0%nat)
     /\ (victories log = 1%nat -> In "reach2048"%string (achievements s')))
  /\ (forall d dr,
        exists v s' cs,
          resolve s d = Some v
          /\ move s d dr = Some (s', cs)
          /\ (firesVictory cs = true <->
              gameState s = playing
              /\ ~ In "reach2048"%string (achievements s)
              /\ exists m, In m (mergers v) /\ value (heap v (pushed m)) = 2048)
          /\ (firesVictory cs = true ->
              In "reach2048"%string (achievements s')
              /\ changed v = true
              /\ board s' = addNewTile (gridSize s) (resolvedBoard v) dr
              /\ gridSize s' = gridSize s
              /\ gameState s'
                 = (if isGameOverState (gridSize s') (board s')
                    then gameOver else victory)))
  /\ (forall d1 d2, achievements (initializeGame s d1 d2) = achievements s)
  /\ gameState (continueAfterVictory s) = playing
  /\ board (continueAfterVictory s) = board s
  /\ score (continueAfterVictory s) = score s
  /\ moveCount (continueAfterVictory s) = moveCount s.
Proof.
  split.
  - destruct (run_victories cmds s) as [s' [log [Hrun [Hle [Hlocked Hone]]]]].
    exists s', log. repeat split; try assumption. intros H. now apply Hlocked.
  - split; [| repeat split].
    intros d dr.
    destruct (move_victory s d dr) as [v [s' [cs [Hv [Hmove [Hiff [Hfire _]]]]]]].
    exists v, s', cs.
    split; [assumption |]. split; [assumption |]. split; [assumption |].
    intros Hfires. split; [exact (proj1 (Hfire Hfires)) |].
    destruct (proj1 Hiff Hfires) as [Hplay _].
    unfold move in Hmove. rewrite Hplay, Hv in Hmove. simpl in Hmove.
    inversion Hmove as [E].
    assert (Es : s' = fst (finish s v dr)) by now rewrite E.
    assert (Ec : cs = snd (finish s v dr)) by now rewrite E.
    rewrite Ec, finish_calls in Hfires.
    destruct (move_victory_state s d dr v Hv Hfires) as [Hch [Hboard Hstate]].
    assert (Hgs : gridSize s' = gridSize s)
      by (rewrite Es; unfold finish; now destruct (changed v)).
    split; [assumption |]. split; [now rewrite Es |].
    split; [assumption |].
    rewrite Hgs, Es, Hboard. exact Hstate.
Qed.

(** A game played with reach2048 already unlocked, by an earlier game or
    from storage: the row 1024 1024 moved left makes the first 2048 of
    this game, and [move] neither sets the state to [victory] nor calls
    anything; the game stays in play. *)
Lemma victory_counterexample :
  exists s' cs,
    move (playingOn (picture [[1024; 1024; 0; 0]]) ["reach2048"%string])
         Left someDraws = Some (s', cs)
    /\ maxTile (picture [[1024; 1024; 0; 0]]) = 1024
    /\ maxTile (board s') = 2048
    /\ cs = []
    /\ firesVictory cs = false
    /\ gameState s' = playing.
Proof.
  eexists. eexists.
  split; [vm_compute; reflexivity |].
  repeat split.
Qed.

(** With reach2048 locked the same move does fire, and the game can go
    on from the victory state. *)
Example victory_fires :
  exists s' cs,
    move (playingOn (picture [[1024; 1024; 0; 0]]) []) Left someDraws = Some (s', cs)
    /\ cs = [Toast "reach2048"; SetGameState victory]
    /\ gameState s' = victory
    /\ achievements s' = ["reach2048"%string]
    /\ gameState (continueAfterVictory s') = playing.
Proof.
  eexists. eexists.
  split; [vm_compute; reflexivity |].
  repeat split.
Qed.

(** A move that makes the first 2048 and leaves a full board without
    equal neighbours: [move] sets the state to [victory] and then to
    [gameOver], and the game is over. *)
Example victory_and_game_over :
  exists s' cs,
    move (playingOn (picture [[1024; 1024; 2; 4]; [4; 8; 2; 4];
                              [2; 4; 8; 2]; [4; 2; 4; 8]]) [])
         Left someDraws = Some (s', cs)
    /\ cs = [Toast "reach2048"; SetGameState victory; SetGameState gameOver]
    /\ maxTile (board s') = 2048
    /\ length (board s') = 16%nat
    /\ isGameOverState 4 (board s') = true
    /\ gameState s' = gameOver.
Proof.
  eexists. eexists.
  split; [vm_compute; reflexivity |].
  repeat split.
Qed.

(** Two mergers of one move that each push a 2048 both run the victory
    branch: the handler reads the achievements of its render. *)
Example victory_twice_in_one_move :
  exists s' cs,
    move (playingOn (picture [[1024; 1024; 1024; 1024]]) []) Left someDraws
    = Some (s', cs)
    /\ cs = [Toast "reach2048"; SetGameState victory;
             Toast "reach2048"; SetGameState victory]
    /\ achievements s' = ["reach2048"%string].
Proof.
  eexists. eexists.
  split; [vm_compute; reflexivity |].
  repeat split.
Qed.

(* ------------------------------------------------------------------ *)
(** ** Tiles slide as far as they can *)

Lemma packedInv_enter s d : packedInv s d (enter s) (sortedTiles s d).
Proof.
  intros u Hu Hnot. exfalso. apply Hnot.
  apply (Permutation_in _ (sortedTiles_perm s d)). exact Hu.
Qed.

Lemma ahead_moves d rc : ahead d rc <> rc.
Proof.
  destruct rc as [r c]. unfold ahead. simpl. intros H. inversion H.
  destruct d; simpl in *; lia.
Qed.

Lemma packedInv_step s d fuel v t rest v' :
  refsInv s d v (t :: rest) -> packedInv s d v (t :: rest) ->
  moveTile s d fuel v t = Some v' -> packedInv s d v' rest.
Proof.
  intros Hrefs Hpacked Hmove.
  apply moveTile_cases in Hmove. destruct Hmove as [halt [Hhalt Hv']].
  pose proof Hrefs as [_ [Hnd [Hrest [Hnext [Hbound Hnd']]]]].
  inversion Hnd as [| ? ? Hnotin _]; subst.
  destruct (Hrest t (or_introl eq_refl)) as [Htn [Htin Et]].
  assert (Hfresh : ~ In (next v) rest).
  { intros F. destruct (Hrest _ (or_intror F)) as [F' _]. lia. }
  destruct halt as [target r' c' | r' c']; subst v'.
  - destruct Hhalt as [k [Hk [Hr [Hc [Hon [Hfind [Hval Hflag]]]]]]].
    apply findAt_some in Hfind. destruct Hfind as [Htarget Hcell].
    destruct (target_settled s d v t rest target r' c' k Hrefs Hk Hr Hc Hcell)
      as [Hneq Hnotrest].
    assert (Hnt : next v <> t) by lia.
    assert (Hmerged : cell (heap (settle t (row (heap v t)) (col (heap v t)) r' c'
                                    (mergeInto s t target r' c' v)) (next v)) = (r', c')).
    { rewrite settle_heap_other by (rewrite mergeInto_next || idtac; assumption).
      rewrite mergeInto_heap, store_same. reflexivity. }
    assert (Hkeep : forall w, In w (newBoard v) -> w <> target -> w <> t ->
              In w (newBoard (settle t (row (heap v t)) (col (heap v t)) r' c'
                                (mergeInto s t target r' c' v)))
              /\ heap (settle t (row (heap v t)) (col (heap v t)) r' c'
                         (mergeInto s t target r' c' v)) w = heap v w).
    { intros w Hw Hwtarget Hwt. split.
      - rewrite settle_newBoard, mergeInto_newBoard. apply in_or_app. left.
        apply filter_In. split; [assumption |].
        apply Nat.eqb_neq in Hwtarget, Hwt. now rewrite Hwtarget, Hwt.
      - rewrite settle_heap_other by assumption.
        rewrite mergeInto_heap. apply store_other.
        specialize (Hbound w Hw). lia. }
    assert (Hpushed : In (next v)
              (newBoard (settle t (row (heap v t)) (col (heap v t)) r' c'
                           (mergeInto s t target r' c' v)))).
    { rewrite settle_newBoard, mergeInto_newBoard. apply in_or_app. right. now left. }
    intros u Hu Hnot.
    rewrite settle_newBoard, mergeInto_newBoard in Hu.
    apply in_app_or in Hu. destruct Hu as [Hu | [<- | []]].
    + apply filter_In in Hu. destruct Hu as [Hu Hkept].
      apply andb_true_iff in Hkept. destruct Hkept as [Hut Hutile].
      apply negb_true_iff, Nat.eqb_neq in Hut, Hutile.
      destruct (Hkeep u Hu Hut Hutile) as [_ ->].
      destruct (Hpacked u Hu) as [Hout | [w [Hw [Hwnot Hwcell]]]].
      * intros [E | E]; [congruence | contradiction].
      * now left.
      * right. destruct (Nat.eq_dec w target) as [-> | Hwtarget].
        -- exists (next v). split; [assumption |]. split; [assumption |].
           rewrite Hmerged. congruence.
        -- assert (Hwt : w <> t) by (intros E; apply Hwnot; now left).
           destruct (Hkeep w Hw Hwtarget Hwt) as [Hin Heq].
           exists w. split; [assumption |].
           split; [intros E; apply Hwnot; now right |].
           now rewrite Heq.
    + rewrite Hmerged.
      destruct (Hpacked target Htarget) as [Hout | [w [Hw [Hwnot Hwcell]]]].
      * intros [E | E]; [congruence | contradiction].
      * left. now rewrite Hcell in Hout.
      * right. rewrite Hcell in Hwcell.
        assert (Hwtarget : w <> target).
        { intros ->. rewrite Hcell in Hwcell. symmetry in Hwcell.
          now apply ahead_moves in Hwcell. }
        assert (Hwt : w <> t) by (intros E; apply Hwnot; now left).
        destruct (Hkeep w Hw Hwtarget Hwt) as [Hin Heq].
        exists w. split; [assumption |].
        split; [intros E; apply Hwnot; now right |].
        now rewrite Heq.
  - unfold packedInv. rewrite settle_newBoard.
    destruct Hhalt as [k [Hk [Hr [Hc [_ Hahead]]]]].
    intros u Hu Hnot. destruct (Nat.eq_dec u t) as [-> | Hut].
    + rewrite settle_heap_self. unfold ahead, cell. simpl.
      destruct Hahead as [Hout | [_ [target [Hfind _]]]]; [now left | right].
      apply findAt_some in Hfind. destruct Hfind as [Htarget Hcell].
      destruct (target_settled s d v t rest target (r' + dRow d) (c' + dCol d)
                  (k + 1) Hrefs ltac:(lia) ltac:(lia) ltac:(lia) Hcell)
        as [Hneq Hnotrest].
      exists target. split; [assumption |]. split; [assumption |].
      now rewrite settle_heap_other by assumption.
    + rewrite settle_heap_other by assumption.
      destruct (Hpacked u Hu) as [Hout | [w [Hw [Hwnot Hcell]]]].
      * intros [E | E]; [congruence | contradiction].
      * now left.
      * right. exists w.
        assert (Hwt : w <> t) by (intros E; apply Hwnot; now left).
        split; [assumption |]. split; [intros E; apply Hwnot; now right |].
        now rewrite settle_heap_other by assumption.
Qed.

Lemma resolve_packedInv s d v :
  resolve s d = Some v -> packedInv s d v [].
Proof.
  unfold resolve. intros H.
  refine (proj2 (forEachTile_inv s d _
            (fun v rest => refsInv s d v rest /\ packedInv s d v rest)
            _ (sortedTiles s d) (enter s) v _ H)).
  - intros v0 t rest v' [Hrefs Hpacked] Hmove. split.
    + eapply refsInv_step; eauto.
    + eapply packedInv_step; eauto.
  - split; [apply refsInv_enter | apply packedInv_enter].
Qed.

(** X1.  Whatever the board, the resolver leaves it packed towards the
    direction of the move: every tile of the resolved board has the wall
    or another tile on the cell ahead of it, so no tile stops short of
    where it could slide to, also in a move that merges. *)
Theorem resolve_packed s d :
  exists v, resolve s d = Some v /\ packed (gridSize s) (resolvedBoard v) d.
Proof.
  destruct (resolve_total s d) as [v Hv]. exists v. split; [assumption |].
  pose proof (resolve_packedInv s d v Hv) as Hpacked.
  intros x Hx. unfold resolvedBoard, tilesOf in Hx.
  apply in_map_iff in Hx. destruct Hx as [u [<- Hu]].
  destruct (Hpacked u Hu (fun F => F)) as [Hout | [w [Hw [_ Hcell]]]];
    [now left | right].
  exists (heap v w). split; [| assumption].
  unfold resolvedBoard, tilesOf. now apply in_map.
Qed.

(* ------------------------------------------------------------------ *)
(** ** A second move in the same direction, after any pass *)

(** On a packed board no tile can slide, so that no tile can slide or
    merge exactly when no tile has a tile of its value on the cell ahead
    of it. *)
Lemma packed_noLegalSlide gs board d :
  wellFormed gs board -> packed gs board d ->
  noLegalSlide gs board d <->
  (forall t u, In t board -> In u board ->
     cell u = ahead d (cell t) -> value u <> value t).
Proof.
  intros [_ Hgrid] Hpacked. split.
  - intros Hblocked t u Ht Hu Hcell.
    destruct (Hblocked t Ht) as [Hout | [_ Hdiffer]]; [| now apply Hdiffer].
    rewrite Forall_forall in Hgrid. specialize (Hgrid u Hu).
    apply outside_false in Hgrid. rewrite <- Hcell in Hout.
    unfold cell in Hout. simpl in Hout. congruence.
  - intros Hdiffer t Ht.
    destruct (Hpacked t Ht) as [Hout | Hsome]; [now left | right].
    split; [assumption |]. intros u Hu Hcell. now apply (Hdiffer t u).
Qed.

(** C6 (amended).  On a board that keeps its invariants, a second pass
    of the resolver in the same direction, with no tile spawned in
    between, changes nothing exactly when the first pass has left no
    tile with a tile of its value on the cell ahead of it; the tiles
    then stay where they are.  This is so in particular after every pass
    that merged nothing.  (A pass that merges can leave two equal tiles
    side by side, one of them just merged, and these merge in the second
    pass.) *)
Theorem resolve_twice s d :
  wellFormed (gridSize s) (board s) ->
  exists v v2,
    resolve s d = Some v
    /\ resolve (resolvedOnly s v) d = Some v2
    /\ (changed v2 = false <->
        forall t u, In t (resolvedBoard v) -> In u (resolvedBoard v) ->
          cell u = ahead d (cell t) -> value u <> value t)
    /\ (changed v2 = false ->
        layout (resolvedBoard v2) = layout (resolvedBoard v))
    /\ (mergeHappened v = false -> changed v2 = false).
Proof.
  intros Hwf. destruct (resolve_total s d) as [v Hv].
  destruct (resolve_total (resolvedOnly s v) d) as [v2 Hv2].
  exists v, v2. split; [assumption |]. split; [assumption |].
  destruct (resolve_loopInv _ _ _ Hv) as [_ [_ [_ Hinv]]].
  destruct (Hinv Hwf) as [Hwf' _].
  assert (Hpacked : packed (gridSize s) (resolvedBoard v) d).
  { pose proof (resolve_packedInv s d v Hv) as Hp.
    intros x Hx. unfold resolvedBoard, tilesOf in Hx.
    apply in_map_iff in Hx. destruct Hx as [u [<- Hu]].
    destruct (Hp u Hu (fun F => F)) as [Hout | [w [Hw [_ Hcell]]]];
      [now left | right].
    exists (heap v w). split; [| assumption].
    unfold resolvedBoard, tilesOf. now apply in_map. }
  assert (Hiff : changed v2 = false <->
                 noLegalSlide (gridSize s) (resolvedBoard v) d).
  { rewrite (noLegalSlide_iff (resolvedOnly s v) d Hwf'). split.
    - intros Hch. now exists v2.
    - intros [v2' [Hv2' Hch]]. congruence. }
  split; [| split].
  - rewrite Hiff. now apply packed_noLegalSlide.
  - intros Hch.
    assert (E : v2 = enter (resolvedOnly s v))
      by (eapply forEachTile_unchanged; eauto).
    rewrite E. apply enter_layout.
  - intros Hflag. apply Hiff. now apply (resolve_noLegalSlide s d v Hwf Hv).
Qed.

(** The rows 2 2 and 2 4 moved left: the first pass merges the two 2
    into a 4, and the second pass changes nothing, since no two equal
    tiles are side by side. *)
Lemma resolve_twice_witness :
  exists v v2,
    resolve (playingOn (picture [[2; 2; 0; 0]; [0; 2; 0; 4]]) []) Left = Some v
    /\ changed v = true
    /\ mergeHappened v = true
    /\ layout (resolvedBoard v) = [(1, 0, 2); (1, 1, 4); (0, 0, 4)]
    /\ resolve (resolvedOnly (playingOn (picture [[2; 2; 0; 0]; [0; 2; 0; 4]]) []) v)
               Left = Some v2
    /\ changed v2 = false
    /\ layout (resolvedBoard v2) = layout (resolvedBoard v).
Proof.
  destruct (resolve_twice (playingOn (picture [[2; 2; 0; 0]; [0; 2; 0; 4]]) []) Left)
    as [v [v2 [Hv [Hv2 [Hiff [Hlayout _]]]]]].
  { unfold playingOn, picture. simpl. concrete_wellFormed. }
  assert (Hfirst : changed v = true /\ mergeHappened v = true
                   /\ layout (resolvedBoard v) = [(1, 0, 2); (1, 1, 4); (0, 0, 4)]).
  { vm_compute in Hv. inversion Hv. repeat split; reflexivity. }
  destruct Hfirst as [Hchanged [Hmerged Hboard]].
  assert (Hch2 : changed v2 = false).
  { apply Hiff. intros t u Ht Hu Hcell.
    unfold layout in Hboard.
    destruct (resolvedBoard v) as [| a [| b [| c [| ? ?]]]]; try discriminate.
    inversion Hboard.
    simpl in Ht, Hu. unfold cell, ahead in Hcell. simpl in Hcell.
    inversion Hcell.
    destruct Ht as [<- | [<- | [<- | []]]], Hu as [<- | [<- | [<- | []]]]; lia. }
  exists v, v2. repeat split; auto.
Defined.

(** A pass that merges nothing is followed by a pass that changes
    nothing: three tiles slide left without meeting a tile of their
    value. *)
Example resolve_twice_sliding :
  exists v v2,
    resolve (playingOn (picture [[0; 2; 0; 4]; [0; 0; 2; 0]]) []) Left = Some v
    /\ changed v = true
    /\ mergeHappened v = false
    /\ resolve (resolvedOnly (playingOn (picture [[0; 2; 0; 4]; [0; 0; 2; 0]]) []) v)
               Left = Some v2
    /\ changed v2 = false.
Proof.
  eexists. eexists.
  split; [vm_compute; reflexivity |].
  split; [reflexivity |]. split; [reflexivity |].
  split; [vm_compute; reflexivity | reflexivity].
Qed.

(** The row 2 2 4 moved left twice with no spawn in between: the first
    pass gives 4 4, and the second pass merges these into an 8, so it
    changes the board. *)
Lemma resolve_twice_counterexample :
  exists v v2,
    resolve (playingOn (picture [[2; 2; 4; 0]]) []) Left = Some v
    /\ layout (resolvedBoard v) = [(0, 1, 4); (0, 0, 4)]
    /\ resolve (resolvedOnly (playingOn (picture [[2; 2; 4; 0]]) []) v) Left = Some v2
    /\ changed v2 = true
    /\ layout (resolvedBoard v2) = [(0, 0, 8)].
Proof.
  eexists. eexists.
  split; [vm_compute; reflexivity |].
  split; [reflexivity |].
  split; [vm_compute; reflexivity |].
  split; reflexivity.
Qed.

(* ------------------------------------------------------------------ *)
(** ** The game is over exactly when no move is left *)

Lemma neighbours_ahead t u :
  neighbours t u <-> exists d, cell u = ahead d (cell t).
Proof.
  unfold neighbours, ahead, cell. simpl. split.
  - intros [[Hr [Hc | Hc]] | [Hc [Hr | Hr]]].
    + exists Left. simpl. f_equal; lia.
    + exists Right. simpl. f_equal; lia.
    + exists Up. simpl. f_equal; lia.
    + exists Down. simpl. f_equal; lia.
  - intros [d H]. inversion H. destruct d; simpl in *; lia.
Qed.

Lemma full_occupied gs board r c :
  wellFormed gs board -> Z.of_nat (length board) = gs * gs -> onGrid gs r c ->
  exists t, In t board /\ cell t = (r, c).
Proof.
  intros Hwf Hlen Hon. destruct (occupied board r c) eqn:E.
  - now apply occupied_true in E.
  - exfalso. pose proof (proj1 (occupied_false _ _ _) E) as Hfree.
    assert (Hroom : Z.of_nat (length board) < gs * gs).
    { apply (emptyCell_length gs board r c Hwf). now split. }
    lia.
Qed.

(** From a tile, the tiles of a board that is packed towards [d] reach
    as far as the grid does. *)
Lemma packed_line gs board d : packed gs board d ->
  forall (k : nat) r c,
    onGrid gs r c ->
    onGrid gs (r + Z.of_nat k * dRow d) (c + Z.of_nat k * dCol d) ->
    (exists t, In t board /\ cell t = (r, c)) ->
    exists t, In t board
      /\ cell t = (r + Z.of_nat k * dRow d, c + Z.of_nat k * dCol d).
Proof.
  intros Hpacked. induction k as [| k IH]; intros r c Hon Hend Hhere.
  - simpl. now rewrite !Z.add_0_r.
  - destruct Hhere as [t [Ht Hcell]].
    assert (Hstep : onGrid gs (r + dRow d) (c + dCol d)).
    { unfold onGrid in *. destruct d; simpl in *; lia. }
    destruct (Hpacked t Ht) as [Hout | Hnext].
    + exfalso. rewrite Hcell in Hout. unfold ahead in Hout. simpl in Hout.
      apply outside_false in Hstep. congruence.
    + rewrite Hcell in Hnext. unfold ahead in Hnext. simpl in Hnext.
      specialize (IH (r + dRow d) (c + dCol d) Hstep).
      replace (r + dRow d + Z.of_nat k * dRow d)
        with (r + Z.of_nat (S k) * dRow d) in IH by lia.
      replace (c + dCol d + Z.of_nat k * dCol d)
        with (c + Z.of_nat (S k) * dCol d) in IH by lia.
      now apply IH.
Qed.

(** A board that is packed towards all four walls and has a tile has a
    tile on every cell. *)
Lemma packed_full gs board :
  (forall d, packed gs board d) ->
  Forall (fun t => onGrid gs (row t) (col t)) board -> board <> [] ->
  forall r c, onGrid gs r c -> exists t, In t board /\ cell t = (r, c).
Proof.
  intros Hpacked Hgrid Hsome r c Hon.
  destruct board as [| t0 rest] eqn:Eb; [congruence |]. rewrite <- Eb in *.
  assert (Ht0 : In t0 board) by (rewrite Eb; now left).
  assert (Hon0 : onGrid gs (row t0) (col t0)).
  { rewrite Forall_forall in Hgrid. now apply Hgrid. }
  assert (Hrow : exists t, In t board /\ cell t = (row t0, c)).
  { destruct (Z_le_gt_dec (col t0) c) as [Hle | Hgt].
    - pose proof (packed_line gs board Right (Hpacked Right)
                    (Z.to_nat (c - col t0)) (row t0) (col t0)) as H.
      simpl in H. replace (row t0 + Z.of_nat (Z.to_nat (c - col t0)) * 0)
        with (row t0) in H by lia.
      replace (col t0 + Z.of_nat (Z.to_nat (c - col t0)) * 1) with c in H by lia.
      apply H; [assumption | unfold onGrid in *; lia | eauto].
    - pose proof (packed_line gs board Left (Hpacked Left)
                    (Z.to_nat (col t0 - c)) (row t0) (col t0)) as H.
      simpl in H. replace (row t0 + Z.of_nat (Z.to_nat (col t0 - c)) * 0)
        with (row t0) in H by lia.
      replace (col t0 + Z.of_nat (Z.to_nat (col t0 - c)) * -1) with c in H by lia.
      apply H; [assumption | unfold onGrid in *; lia | eauto]. }
  assert (Honrow : onGrid gs (row t0) c) by (unfold onGrid in *; lia).
  destruct (Z_le_gt_dec (row t0) r) as [Hle | Hgt].
  - pose proof (packed_line gs board Down (Hpacked Down)
                  (Z.to_nat (r - row t0)) (row t0) c) as H.
    simpl in H. replace (row t0 + Z.of_nat (Z.to_nat (r - row t0)) * 1)
      with r in H by lia.
    replace (c + Z.of_nat (Z.to_nat (r - row t0)) * 0) with c in H by lia.
    now apply H.
  - pose proof (packed_line gs board Up (Hpacked Up)
                  (Z.to_nat (row t0 - r)) (row t0) c) as H.
    simpl in H. replace (row t0 + Z.of_nat (Z.to_nat (row t0 - r)) * -1)
      with r in H by lia.
    replace (c + Z.of_nat (Z.to_nat (row t0 - r)) * 0) with c in H by lia.
    now apply H.
Qed.

Lemma noLegalSlide_packed gs board d :
  noLegalSlide gs board d -> packed gs board d.
Proof.
  intros H t Ht. destruct (H t Ht) as [Hout | [Hsome _]]; [now left | now right].
Qed.

(** On a board that keeps its invariants and has a tile,
    [isGameOverState] holds exactly when no tile can slide or merge in
    any direction. *)
Lemma isGameOverState_noLegalSlide gs board :
  wellFormed gs board -> board <> [] ->
  isGameOverState gs board = true <-> forall d, noLegalSlide gs board d.
Proof.
  intros Hwf Hsome. pose proof Hwf as [Hcells Hgrid].
  pose proof (wellFormed_length gs board Hwf) as Hmost.
  unfold isGameOverState. split.
  - destruct (Z.of_nat (length board) <? gs * gs) eqn:Elen; [discriminate |].
    apply Z.ltb_ge in Elen. intros Hnone d t Ht.
    apply negb_true_iff in Hnone.
    destruct (outside gs (fst (ahead d (cell t))) (snd (ahead d (cell t)))) eqn:Eout;
      [now left | right].
    apply outside_false in Eout.
    assert (Hfull : Z.of_nat (length board) = gs * gs) by lia.
    destruct (full_occupied gs board _ _ Hwf Hfull Eout) as [u [Hu Hcell]].
    rewrite <- surjective_pairing in Hcell.
    split; [eauto |]. intros w Hw Hwcell Hval.
    assert (Hyes : existsb (hasEqualNeighbour gs board) board = true); [| congruence].
    apply existsb_exists. exists t. split; [assumption |].
    apply hasEqualNeighbour_true; [assumption |].
    exists w. split; [assumption |]. split; [| assumption].
    apply neighbours_ahead. eauto.
  - intros Hblocked.
    assert (Hfull : forall r c, onGrid gs r c -> exists t, In t board /\ cell t = (r, c)).
    { apply packed_full; auto. intros d. apply noLegalSlide_packed, Hblocked. }
    assert (Hgs : 0 <= gs).
    { destruct board as [| t0 rest]; [congruence |].
      inversion Hgrid as [| ? ? Hon _]; subst. unfold onGrid in Hon. lia. }
    assert (Elen : (Z.of_nat (length board) <? gs * gs) = false).
    { apply Z.ltb_ge. destruct (Z_lt_le_dec (Z.of_nat (length board)) (gs * gs))
        as [Hlt | Hge]; [| assumption].
      exfalso. pose proof (emptyTiles_room gs board Hgs Hlt) as Hroom.
      destruct (emptyTiles gs board) as [| [r c] rest] eqn:E; [congruence |].
      assert (Hin : In (r, c) (emptyTiles gs board)) by (rewrite E; now left).
      apply emptyTiles_In in Hin. destruct Hin as [Hon Hfree].
      destruct (Hfull r c Hon) as [t [Ht Hcell]]. exact (Hfree t Ht Hcell). }
    rewrite Elen. apply negb_true_iff.
    destruct (existsb (hasEqualNeighbour gs board) board) eqn:E; [| reflexivity].
    exfalso. apply existsb_exists in E. destruct E as [t [Ht Hnb]].
    apply hasEqualNeighbour_true in Hnb; [| assumption].
    destruct Hnb as [u [Hu [Hnb Hval]]].
    apply neighbours_ahead in Hnb. destruct Hnb as [d Hcell].
    destruct (Hblocked d t Ht) as [Hout | [_ Hdiffer]].
    + rewrite <- Hcell in Hout. unfold cell in Hout. simpl in Hout.
      rewrite Forall_forall in Hgrid. specialize (Hgrid u Hu).
      apply outside_false in Hgrid. congruence.
    + exact (Hdiffer u Hu Hcell Hval).
Qed.

(** X2.  The terminal test is exact.  On a board that keeps its
    invariants and has a tile, [isGameOverState] returns true exactly when
    the resolver reports [changed] false in each of the four directions:
    the game is never declared over while a move would change the board,
    and always when none would. *)
Theorem isGameOverState_exact s :
  wellFormed (gridSize s) (board s) -> board s <> [] ->
  isGameOverState (gridSize s) (board s) = true <->
  forall d, exists v, resolve s d = Some v /\ changed v = false.
Proof.
  intros Hwf Hsome.
  rewrite (isGameOverState_noLegalSlide _ _ Hwf Hsome).
  split; intros H d; now apply (noLegalSlide_iff s d Hwf).
Qed.

Lemma isGameOverState_exact_witness :
  isGameOverState 4 checkerboard = true <->
  forall d, exists v,
    resolve (playingOn checkerboard []) d = Some v /\ changed v = false.
Proof.
  apply (isGameOverState_exact (playingOn checkerboard [])).
  - unfold playingOn, checkerboard, picture. simpl. concrete_wellFormed.
  - discriminate.
Defined.

(* ------------------------------------------------------------------ *)
(** ** How [move] ends *)

Lemma move_cases s d dr s' cs :
  move s d dr = Some (s', cs) ->
  (gameState s <> playing /\ s' = s /\ cs = [])
  \/ (gameState s = playing
      /\ exists v, resolve s d = Some v /\ finish s v dr = (s', cs)).
Proof.
  unfold move. destruct (gameState s) eqn:E; simpl; intros H;
    try (left; inversion H; subst; repeat split; congruence).
  right. split; [reflexivity |].
  destruct (resolve s d) as [v |]; [| discriminate].
  exists v. split; [reflexivity |]. now inversion H.
Qed.

Lemma finish_board s v dr :
  board (fst (finish s v dr))
  = if changed v then addNewTile (gridSize s) (resolvedBoard v) dr else board s.
Proof. unfold finish. now destruct (changed v). Qed.

Lemma finish_score s v dr :
  score (fst (finish s v dr)) = if changed v then newScore v else score s.
Proof. unfold finish. now destruct (changed v). Qed.

Lemma finish_moveCount s v dr :
  moveCount (fst (finish s v dr))
  = if changed v then moveCount s + 1 else moveCount s.
Proof. unfold finish. now destruct (changed v). Qed.

Lemma finish_kept s v dr :
  bestScore (fst (finish s v dr)) = bestScore s
  /\ gridSize (fst (finish s v dr)) = gridSize s.
Proof. unfold finish. now destruct (changed v). Qed.

(** After a move that changed a board that keeps its invariants, there
    is room for the new tile. *)
Lemma spawn_after_change s d v dr :
  wellFormed (gridSize s) (board s) -> resolve s d = Some v -> changed v = true ->
  exists t, spawnTile (gridSize s) (resolvedBoard v) dr = Some t
    /\ addNewTile (gridSize s) (resolvedBoard v) dr = resolvedBoard v ++ [t].
Proof.
  intros Hboard Hv Hch.
  destruct (resolve_loopInv _ _ _ Hv) as [_ [_ [_ Hwf]]].
  destruct (Hwf Hboard) as [_ Hroom]. destruct (Hroom Hch) as [Hgs Hlen].
  unfold addNewTile.
  destruct (spawnTile (gridSize s) (resolvedBoard v) dr) as [t |] eqn:E; [eauto |].
  exfalso. apply spawnTile_none in E. revert E.
  apply emptyTiles_room; [lia |].
  unfold resolvedBoard, tilesOf. now rewrite length_map.
Qed.

(* ------------------------------------------------------------------ *)
(** ** The number of tiles *)

Lemma countInv_enter s : countInv s (enter s).
Proof. unfold countInv, enter. simpl. rewrite length_seq. lia. Qed.

Lemma countInv_step s d fuel v t rest v' :
  refsInv s d v (t :: rest) -> countInv s v ->
  moveTile s d fuel v t = Some v' -> countInv s v'.
Proof.
  intros Hrefs Hcount Hmove. unfold countInv in *.
  apply moveTile_cases in Hmove. destruct Hmove as [halt [Hhalt Hv']].
  pose proof Hrefs as [_ [Hnd [Hrest [_ [_ Hnd']]]]].
  destruct (Hrest t (or_introl eq_refl)) as [_ [Htin _]].
  destruct halt as [target r' c' | r' c']; subst v'.
  - rewrite settle_newBoard, settle_mergers, mergeInto_newBoard, mergeInto_mergers.
    destruct Hhalt as [k [Hk [Hr [Hc [_ [Hfind _]]]]]].
    apply findAt_some in Hfind. destruct Hfind as [Htarget Hcell].
    destruct (target_settled s d v t rest target r' c' k Hrefs Hk Hr Hc Hcell)
      as [Hneq _].
    pose proof (filter_length_two target t (newBoard v) Hnd' Htarget Htin Hneq) as H.
    rewrite !length_app. simpl. lia.
  - now rewrite settle_newBoard, settle_mergers.
Qed.

Lemma resolve_countInv s d v : resolve s d = Some v -> countInv s v.
Proof.
  unfold resolve. intros H.
  refine (proj2 (forEachTile_inv s d _
            (fun v rest => refsInv s d v rest /\ countInv s v)
            _ (sortedTiles s d) (enter s) v _ H)).
  - intros v0 t rest v' [Hrefs Hcount] Hmove. split.
    + eapply refsInv_step; eauto.
    + eapply countInv_step; eauto.
  - split; [apply refsInv_enter | apply countInv_enter].
Qed.

Lemma participants_length ms : length (participants ms) = (2 * length ms)%nat.
Proof.
  unfold participants. induction ms as [| m ms IH]; simpl; [reflexivity |].
  rewrite IH. lia.
Qed.

(** X3.  The number of tiles.  A move takes one tile off the board for
    each merger, merges at most half of the tiles, and an effective move
    on a board that keeps its invariants puts exactly one new tile on it;
    a move that changes nothing leaves the number of tiles as it was. *)
Theorem move_tile_count s d dr :
  wellFormed (gridSize s) (board s) -> gameState s = playing ->
  exists v s' cs,
    resolve s d = Some v
    /\ move s d dr = Some (s', cs)
    /\ (2 * length (mergers v) <= length (board s))%nat
    /\ (length (resolvedBoard v) + length (mergers v) = length (board s))%nat
    /\ (length (board s') + length (mergers v)
        = length (board s) + (if changed v then 1 else 0))%nat.
Proof.
  intros Hwf Hplay. destruct (resolve_total s d) as [v Hv].
  exists v, (fst (finish s v dr)), (snd (finish s v dr)).
  split; [assumption |]. split.
  { unfold move. rewrite Hplay, Hv. simpl. now destruct (finish s v dr). }
  pose proof (resolve_countInv s d v Hv) as Hcount. unfold countInv in Hcount.
  destruct (resolve_loopInv _ _ _ Hv) as [_ [_ [Hms _]]].
  destruct Hms as [Hm [Hnd _]].
  assert (Hres : length (resolvedBoard v) = length (newBoard v)).
  { unfold resolvedBoard, tilesOf. apply length_map. }
  split; [| split].
  - assert (Hincl : incl (participants (mergers v)) (seq 0 (length (board s)))).
    { intros x Hx. apply participants_In in Hx. destruct Hx as [m [Hin Hx]].
      destruct (Hm m Hin) as [Hf [Hmv _]]. apply in_seq. destruct Hx; subst; lia. }
    apply NoDup_incl_length in Hincl; [| assumption].
    rewrite participants_length, length_seq in Hincl. exact Hincl.
  - lia.
  - rewrite finish_board. destruct (changed v) eqn:Hch.
    + destruct (spawn_after_change s d v dr Hwf Hv Hch) as [t [_ ->]].
      rewrite length_app. simpl. lia.
    + assert (E : v = enter s) by (eapply forEachTile_unchanged; eauto).
      subst v. simpl in *. rewrite length_seq in Hcount. lia.
Qed.

Lemma move_tile_count_witness :
  exists v s' cs,
    resolve (playingOn (picture [[2; 2; 4; 4]; [0; 2; 0; 2]]) []) Left = Some v
    /\ move (playingOn (picture [[2; 2; 4; 4]; [0; 2; 0; 2]]) []) Left someDraws
       = Some (s', cs)
    /\ length (mergers v) = 3%nat
    /\ length (resolvedBoard v) = 3%nat
    /\ length (board s') = 4%nat.
Proof.
  destruct (move_tile_count (playingOn (picture [[2; 2; 4; 4]; [0; 2; 0; 2]]) [])
              Left someDraws) as [v [s' [cs [Hv [Hmove [_ [Hres Hboard]]]]]]].
  { unfold playingOn, picture. simpl. concrete_wellFormed. }
  { reflexivity. }
  assert (Hflags : length (mergers v) = 3%nat /\ changed v = true).
  { vm_compute in Hv. inversion Hv. split; reflexivity. }
  destruct Hflags as [Hms Hch]. rewrite Hms, Hch in Hboard. rewrite Hms in Hres.
  exists v, s', cs. repeat split; try assumption.
  - simpl in Hres. lia.
  - simpl in Hboard. lia.
Defined.

(* ------------------------------------------------------------------ *)
(** ** The values of the tiles and the score *)

Lemma tileValue_two : tileValue 2.
Proof. exists 1. split; [lia | reflexivity]. Qed.

Lemma tileValue_four : tileValue 4.
Proof. exists 2. split; [lia | reflexivity]. Qed.

Lemma tileValue_double x : tileValue x -> tileValue (x * 2).
Proof.
  intros [k [Hk ->]]. exists (k + 1). split; [lia |].
  rewrite Z.pow_add_r by lia. reflexivity.
Qed.

Lemma tileValue_even x : tileValue x -> 2 <= x /\ (2 | x).
Proof.
  intros [k [Hk ->]]. replace k with (1 + (k - 1)) by lia.
  rewrite Z.pow_add_r by lia. change (2 ^ 1) with 2.
  assert (0 < 2 ^ (k - 1)) by (apply Z.pow_pos_nonneg; lia).
  split; [lia |]. exists (2 ^ (k - 1)). lia.
Qed.

(** A tile value whose double is 2048 or more is 1024, or is itself
    2048 or more. *)
Lemma tileValue_1024 x : tileValue x -> 2048 <= x * 2 -> x * 2 = 2048 \/ 2048 <= x.
Proof.
  intros [k [Hk ->]] H. destruct (Z_le_gt_dec 11 k) as [Hbig | Hsmall].
  - right. change 2048 with (2 ^ 11). apply Z.pow_le_mono_r; lia.
  - left. destruct (Z.eq_dec k 10) as [-> | Hne]; [reflexivity |].
    exfalso. assert (2 ^ k <= 2 ^ 9) by (apply Z.pow_le_mono_r; lia).
    change (2 ^ 9) with 512 in *. lia.
Qed.

Lemma copies_In board r :
  (r < length board)%nat ->
  exists tile, In tile board /\ copies board r = freshCopy tile.
Proof.
  intros Hr. destruct (nth_error board r) as [tile |] eqn:E.
  - exists tile. split; [eapply nth_error_In; eauto | now apply copies_nth].
  - apply nth_error_None in E. lia.
Qed.

(** The values of the resolved board: a tile of the board that the loop
    was entered with has its value, a tile pushed by a merger twice the
    value of a tile of that board. *)
Lemma resolve_values s d v x :
  resolve s d = Some v -> In x (resolvedBoard v) ->
  exists tile, In tile (board s)
    /\ (value x = value tile
        \/ (value x = value tile * 2
            /\ exists m, In m (mergers v) /\ value (heap v (pushed m)) = value x)).
Proof.
  intros Hv Hx.
  destruct (resolve_loopInv _ _ _ Hv) as [_ [[Htiles _] [[Hm [_ [Hpushed _]]] _]]].
  unfold resolvedBoard, tilesOf in Hx. apply in_map_iff in Hx.
  destruct Hx as [u [<- Hu]].
  destruct (Nat.lt_ge_cases u (length (board s))) as [Hold | Hnew].
  - destruct (Htiles u Hu) as [H _]. destruct (H Hold) as [_ [Hval _]].
    destruct (copies_In (board s) u Hold) as [tile [Hin E]].
    exists tile. split; [assumption |]. left. rewrite Hval, E. reflexivity.
  - destruct (Hpushed u Hu Hnew) as [m [Hin <-]].
    destruct (Hm m Hin) as [_ [Hmoved [_ [_ [_ [_ [_ [Hval _]]]]]]]].
    destruct (copies_In (board s) (moved m) Hmoved) as [tile [Htile E]].
    exists tile. split; [assumption |]. right. rewrite Hval, E. simpl.
    split; [reflexivity |]. exists m. split; [assumption |].
    rewrite Hval, E. reflexivity.
Qed.

Lemma mergedValues_fours h ms :
  (forall m, In m ms -> 0 <= value (h (pushed m)) /\ (4 | value (h (pushed m)))) ->
  0 <= mergedValues h ms /\ (4 | mergedValues h ms).
Proof.
  unfold mergedValues. induction ms as [| m ms IH]; intros H; simpl.
  - split; [lia | apply Z.divide_0_r].
  - destruct (H m (or_introl eq_refl)) as [Hpos Hdiv].
    destruct IH as [IHpos IHdiv]; [intros; apply H; now right |].
    split; [lia | now apply Z.divide_add_r].
Qed.

(** The score that the resolver leaves, on a board of tile values. *)
Lemma resolve_score s d v :
  Forall (fun t => tileValue (value t)) (board s) ->
  resolve s d = Some v ->
  0 <= newScore v - score s /\ (4 | newScore v - score s).
Proof.
  intros Hvals Hv.
  destruct (resolve_loopInv _ _ _ Hv) as [_ [_ [[Hm [_ [_ [Hscore _]]]] _]]].
  replace (newScore v - score s) with (mergedValues (heap v) (mergers v)) by lia.
  apply mergedValues_fours. intros m Hin.
  destruct (Hm m Hin) as [_ [Hmoved [_ [_ [_ [_ [_ [Hval _]]]]]]]].
  destruct (copies_In (board s) (moved m) Hmoved) as [tile [Htile E]].
  rewrite Hval, E. simpl.
  rewrite Forall_forall in Hvals.
  destruct (tileValue_even _ (Hvals tile Htile)) as [Hge [q Hq]].
  split; [lia |]. exists q. lia.
Qed.

Lemma addNewTile_values gs board dr :
  Forall (fun t => tileValue (value t)) board ->
  Forall (fun t => tileValue (value t)) (addNewTile gs board dr).
Proof.
  intros H. unfold addNewTile.
  destruct (spawnTile gs board dr) as [t |] eqn:E; [| assumption].
  apply Forall_app. split; [assumption |]. constructor; [| constructor].
  apply spawnTile_some in E. destruct E as [_ [-> _]].
  destruct (pickValue_cases (valueDraw dr)) as [-> | ->];
    [apply tileValue_two | apply tileValue_four].
Qed.

Lemma scoreEffect_fields s :
  fst (scoreEffect s)
  = {| board := board s; score := score s;
       bestScore := if bestScore s <? score s then score s else bestScore s;
       moveCount := moveCount s; gameState := gameState s;
       achievements :=
         achievements s
         ++ newAchievements (score s) (moveCount s) (maxTile (board s)) (achievements s);
       gridSize := gridSize s |}.
Proof.
  unfold scoreEffect. destruct (checkAchievements s) as [s' cs] eqn:E.
  pose proof (checkAchievements_state s) as H. rewrite E in H. simpl in H.
  subst s'. reflexivity.
Qed.

Lemma move_valuesInv s d dr s' cs :
  valuesInv s -> move s d dr = Some (s', cs) ->
  valuesInv s' /\ 0 <= score s' - score s /\ (4 | score s' - score s).
Proof.
  intros [Hvals [Hscore [Hdiv Hcount]]] Hmove.
  apply move_cases in Hmove.
  destruct Hmove as [[_ [-> _]] | [_ [v [Hv Hfin]]]].
  { split; [repeat split; assumption |].
    rewrite Z.sub_diag. split; [lia | apply Z.divide_0_r]. }
  pose proof (resolve_score s d v Hvals Hv) as [Hgain Hfours].
  assert (E : s' = fst (finish s v dr)) by now rewrite Hfin. subst s'.
  unfold valuesInv.
  rewrite finish_board, finish_score, finish_moveCount.
  destruct (changed v).
  - split; [split; [| split; [| split]] |]; [| lia | | lia | split; assumption].
    + apply addNewTile_values. apply Forall_forall. intros x Hx.
      destruct (resolve_values s d v x Hv Hx) as [tile [Htile [-> | [-> _]]]];
        rewrite Forall_forall in Hvals.
      * now apply Hvals.
      * apply tileValue_double. now apply Hvals.
    + replace (newScore v) with (score s + (newScore v - score s)) by lia.
      now apply Z.divide_add_r.
  - split; [repeat split; assumption |].
    rewrite Z.sub_diag. split; [lia | apply Z.divide_0_r].
Qed.

Lemma initializeGame_valuesInv s d1 d2 : valuesInv (initializeGame s d1 d2).
Proof.
  unfold valuesInv, initializeGame. simpl.
  split; [| split; [lia | split; [apply Z.divide_0_r | lia]]].
  apply addNewTile_values, addNewTile_values. constructor.
Qed.

Lemma step_valuesInv s c s' cs :
  valuesInv s -> step s c = Some (s', cs) -> valuesInv s'.
Proof.
  intros Hinv Hstep. destruct c; simpl in Hstep;
    try (inversion Hstep; subst; exact Hinv).
  - now apply (move_valuesInv s d dr s' cs Hinv).
  - inversion Hstep; subst. apply initializeGame_valuesInv.
  - inversion Hstep; subst. destruct Hinv as [_ H].
    split; [constructor | exact H].
  - inversion Hstep as [E].
    assert (E' : s' = fst (scoreEffect s)) by now rewrite E.
    rewrite scoreEffect_fields in E'. subst s'. exact Hinv.
Qed.

(** An invariant of [step] is an invariant of [run], and [run] returns. *)
Lemma run_inv (P : Session -> Prop) :
  (forall s c s' cs, P s -> step s c = Some (s', cs) -> P s') ->
  forall cmds s, P s -> exists s' log, run s cmds = Some (s', log) /\ P s'.
Proof.
  intros Hstep. induction cmds as [| c cmds IH]; intros s Hs; simpl.
  - eauto.
  - destruct (step_total s c) as [[s1 cs] E]. rewrite E.
    destruct (IH s1 (Hstep _ _ _ _ Hs E)) as [s2 [log [Hrun Hs2]]].
    rewrite Hrun. eauto.
Qed.

(** X4.  The numbers of a game.  When the tiles of the board hold powers
    of two from 2 on, the score is a non-negative multiple of four and
    the move count is not negative, this is so after every sequence of
    commands; a new game starts in such a state, whatever the state
    before. *)
Theorem run_valuesInv s cmds :
  valuesInv s ->
  exists s' log,
    run s cmds = Some (s', log)
    /\ Forall (fun t => exists k, 0 < k /\ value t = 2 ^ k) (board s')
    /\ 0 <= score s' /\ (4 | score s') /\ 0 <= moveCount s'
    /\ forall d1 d2, valuesInv (initializeGame s' d1 d2).
Proof.
  intros Hs.
  destruct (run_inv valuesInv step_valuesInv cmds s Hs) as [s' [log [Hrun Hs']]].
  exists s', log. split; [assumption |].
  destruct Hs' as [Hvals [Hscore [Hdiv Hcount]]].
  split; [assumption |]. split; [assumption |]. split; [assumption |].
  split; [assumption |]. intros d1 d2. apply initializeGame_valuesInv.
Qed.

Lemma run_valuesInv_witness :
  exists s' log,
    run freshGame [Move Left (mkDraws (mkDraw 0 1) (mkDraw 1 3) 19);
                   Move Up someDraws; ScoreEffect; Move Right someDraws]
    = Some (s', log)
    /\ Forall (fun t => exists k, 0 < k /\ value t = 2 ^ k) (board s')
    /\ 0 <= score s' /\ (4 | score s') /\ 0 <= moveCount s'.
Proof.
  destruct (run_valuesInv freshGame
              [Move Left (mkDraws (mkDraw 0 1) (mkDraw 1 3) 19);
               Move Up someDraws; ScoreEffect; Move Right someDraws])
    as [s' [log [Hrun [Hvals [Hscore [Hdiv [Hcount _]]]]]]].
  { apply initializeGame_valuesInv. }
  exists s', log. repeat split; assumption.
Defined.

(** X5.  The score never goes down in a move: on a board of tile
    values, a move adds a non-negative multiple of four to the score,
    the sum of the values of the tiles its mergers pushed, and leaves the
    values of the board powers of two. *)
Theorem move_score_grows s d dr :
  valuesInv s ->
  exists v s' cs,
    resolve s d = Some v
    /\ move s d dr = Some (s', cs)
    /\ valuesInv s'
    /\ score s <= score s'
    /\ (4 | score s' - score s)
    /\ (gameState s = playing ->
        score s' = score s + mergedValues (heap v) (mergers v)).
Proof.
  intros Hinv. destruct (resolve_total s d) as [v Hv].
  destruct (move_total s d dr) as [[s' cs] Hmove].
  exists v, s', cs. split; [assumption |]. split; [assumption |].
  destruct (move_valuesInv s d dr s' cs Hinv Hmove) as [Hinv' [Hgain Hdiv]].
  split; [assumption |]. split; [lia |]. split; [assumption |].
  intros Hplay. apply move_cases in Hmove.
  destruct Hmove as [[Hnot _] | [_ [v' [Hv' Hfin]]]]; [congruence |].
  assert (v' = v) by congruence. subst v'.
  assert (E : s' = fst (finish s v dr)) by now rewrite Hfin. subst s'.
  rewrite finish_score.
  destruct (resolve_loopInv _ _ _ Hv) as [_ [_ [[_ [_ [_ [Hscore _]]]] _]]].
  destruct (changed v) eqn:Hch; [assumption |].
  assert (E : v = enter s) by (eapply forEachTile_unchanged; eauto).
  subst v. simpl. unfold mergedValues. simpl. lia.
Qed.

Lemma move_score_grows_witness :
  exists s' cs,
    move (playingOn (picture [[2; 2; 4; 4]; [0; 8; 0; 8]]) []) Left someDraws
    = Some (s', cs)
    /\ score s' = 28 /\ valuesInv s'.
Proof.
  destruct (move_score_grows (playingOn (picture [[2; 2; 4; 4]; [0; 8; 0; 8]]) [])
              Left someDraws) as [v [s' [cs [Hv [Hmove [Hinv [_ [_ Hscore]]]]]]]].
  { unfold valuesInv, playingOn, picture. simpl.
    split; [| split; [lia | split; [apply Z.divide_0_r | lia]]].
    repeat constructor;
      first [exists 1; split; [lia | reflexivity]
            | exists 2; split; [lia | reflexivity]
            | exists 3; split; [lia | reflexivity]]. }
  exists s', cs. split; [assumption |]. split; [| assumption].
  rewrite (Hscore eq_refl). vm_compute in Hv. inversion Hv. reflexivity.
Defined.

(* ------------------------------------------------------------------ *)
(** ** A tile of 2048 is an unlocked achievement *)

Lemma maxTile_ge board x :
  0 < x -> x <= maxTile board <-> exists t, In t board /\ x <= value t.
Proof.
  intros Hx. unfold maxTile. induction board as [| t board IH]; simpl.
  - split; [lia | intros [t [[] _]]].
  - split.
    + intros H. destruct (Z_le_gt_dec x (value t)) as [Hle | Hgt].
      * exists t. auto.
      * assert (H' : x <= fold_right Z.max 0 (map value board)) by lia.
        apply IH in H'. destruct H' as [u [Hu Hle]]. exists u. auto.
    + intros [u [[<- | Hu] Hle]]; [lia |].
      assert (x <= fold_right Z.max 0 (map value board)) by (apply IH; eauto).
      lia.
Qed.

Lemma addNewTile_In gs board dr t :
  In t (addNewTile gs board dr) ->
  In t board \/ (value t = 2 \/ value t = 4).
Proof.
  unfold addNewTile. destruct (spawnTile gs board dr) as [u |] eqn:E; [| now left].
  intros H. apply in_app_or in H. destruct H as [H | [<- | []]]; [now left | right].
  apply spawnTile_some in E. destruct E as [_ [-> _]]. apply pickValue_cases.
Qed.

Lemma resolve_achievements s d v :
  resolve s d = Some v ->
  nextAchievements v = achievements s
  \/ (nextAchievements v = achievements s ++ ["reach2048"%string]
      /\ ~ In "reach2048"%string (achievements s)).
Proof.
  intros Hv. destruct (resolve_callsInv s d v Hv) as [[_ [H _]] | [_ [H [_ [Hnot _]]]]];
    [now left | now right].
Qed.

Lemma resolve_achievements_incl s d v a :
  resolve s d = Some v -> In a (achievements s) -> In a (nextAchievements v).
Proof.
  intros Hv Ha. destruct (resolve_achievements s d v Hv) as [-> | [-> _]];
    [assumption | apply in_or_app; now left].
Qed.

Lemma move_unlockedInv s d dr s' cs :
  valuesInv s -> unlockedInv s -> move s d dr = Some (s', cs) -> unlockedInv s'.
Proof.
  intros [Hvals _] Hunl Hmove. apply move_cases in Hmove.
  destruct Hmove as [[_ [-> _]] | [_ [v [Hv Hfin]]]]; [assumption |].
  assert (E : s' = fst (finish s v dr)) by now rewrite Hfin. subst s'.
  unfold unlockedInv in *. rewrite finish_achievements, finish_board.
  assert (Hold : forall tile, In tile (board s) -> 2048 <= value tile ->
                   In "reach2048"%string (nextAchievements v)).
  { intros tile Htile Hbig. apply (resolve_achievements_incl s d v _ Hv).
    apply Hunl. apply maxTile_ge; [lia | eauto]. }
  destruct (changed v).
  - intros Hmax. apply maxTile_ge in Hmax; [| lia].
    destruct Hmax as [x [Hx Hbig]].
    apply addNewTile_In in Hx. destruct Hx as [Hx | Hx]; [| lia].
    destruct (resolve_values s d v x Hv Hx)
      as [tile [Htile [E | [E [m [Hm Hpushed]]]]]].
    + apply (Hold tile Htile). lia.
    + rewrite Forall_forall in Hvals.
      destruct (tileValue_1024 _ (Hvals tile Htile)) as [Hexact | Hbigger]; [lia | |].
      * destruct (resolve_callsInv s d v Hv)
          as [[_ [Hsame [_ Hlocked]]] | [_ [Hnew _]]].
        -- rewrite Hsame. apply (Hlocked m Hm).
           destruct (resolve_loopInv _ _ _ Hv) as [_ [_ [[Hms _] _]]].
           destruct (Hms m Hm) as [_ [_ [_ [_ [_ [_ [_ [Hval _]]]]]]]]. lia.
        -- rewrite Hnew. apply in_or_app. right. now left.
      * now apply (Hold tile Htile).
  - intros Hmax. apply maxTile_ge in Hmax; [| lia].
    destruct Hmax as [x [Hx Hbig]]. now apply (Hold x Hx).
Qed.

Lemma initializeGame_unlockedInv s d1 d2 : unlockedInv (initializeGame s d1 d2).
Proof.
  unfold unlockedInv, initializeGame. simpl. intros Hmax.
  apply maxTile_ge in Hmax; [| lia]. destruct Hmax as [x [Hx Hbig]].
  apply addNewTile_In in Hx. destruct Hx as [Hx | Hx]; [| lia].
  apply addNewTile_In in Hx. destruct Hx as [[] | Hx]. lia.
Qed.

Lemma step_unlockedInv s c s' cs :
  valuesInv s /\ unlockedInv s -> step s c = Some (s', cs) ->
  valuesInv s' /\ unlockedInv s'.
Proof.
  intros [Hvals Hunl] Hstep.
  split; [exact (step_valuesInv s c s' cs Hvals Hstep) |].
  destruct c; simpl in Hstep; try (inversion Hstep; subst; exact Hunl).
  - now apply (move_unlockedInv s d dr s' cs Hvals Hunl).
  - inversion Hstep; subst. apply initializeGame_unlockedInv.
  - inversion Hstep; subst. unfold unlockedInv, maxTile. simpl. lia.
  - inversion Hstep as [E].
    assert (E' : s' = fst (scoreEffect s)) by now rewrite E.
    rewrite scoreEffect_fields in E'. subst s'. unfold unlockedInv in *. simpl.
    intros Hmax. apply in_or_app. left. now apply Hunl.
Qed.

(** X6.  A tile of 2048 or more is never on the board without the
    achievement reach2048.  In a state whose tiles hold powers of two
    (see [valuesInv]) and in which this is so, it is so after every
    sequence of commands: a tile can only pass 2048 by a merger that
    pushes exactly 2048, which unlocks reach2048 unless it is unlocked.
    A new game starts in such a state. *)
Theorem run_reach2048 s cmds :
  valuesInv s -> unlockedInv s ->
  exists s' log,
    run s cmds = Some (s', log)
    /\ (2048 <= maxTile (board s') -> In "reach2048"%string (achievements s'))
    /\ forall d1 d2,
         valuesInv (initializeGame s' d1 d2)
         /\ maxTile (board (initializeGame s' d1 d2)) < 2048.
Proof.
  intros Hvals Hunl.
  destruct (run_inv (fun s => valuesInv s /\ unlockedInv s) step_unlockedInv
              cmds s (conj Hvals Hunl)) as [s' [log [Hrun [_ Hunl']]]].
  exists s', log. split; [assumption |]. split; [exact Hunl' |].
  intros d1 d2. split; [apply initializeGame_valuesInv |].
  destruct (Z_lt_le_dec (maxTile (board (initializeGame s' d1 d2))) 2048)
    as [Hlt | Hge]; [assumption |].
  exfalso. apply maxTile_ge in Hge; [| lia]. destruct Hge as [x [Hx Hbig]].
  unfold initializeGame in Hx. simpl in Hx.
  apply addNewTile_In in Hx. destruct Hx as [Hx | Hx]; [| lia].
  apply addNewTile_In in Hx. destruct Hx as [[] | Hx]. lia.
Qed.

Lemma run_reach2048_witness :
  exists s' log,
    run (playingOn (picture [[1024; 1024; 2; 0]]) [])
        [Move Left someDraws; ScoreEffect] = Some (s', log)
    /\ maxTile (board s') = 2048
    /\ In "reach2048"%string (achievements s').
Proof.
  destruct (run_reach2048 (playingOn (picture [[1024; 1024; 2; 0]]) [])
              [Move Left someDraws; ScoreEffect])
    as [s' [log [Hrun [Hunl _]]]].
  { unfold valuesInv, playingOn, picture. simpl.
    split; [| split; [lia | split; [apply Z.divide_0_r | lia]]].
    repeat constructor;
      first [exists 10; split; [lia | reflexivity]
            | exists 1; split; [lia | reflexivity]]. }
  { intros H. vm_compute in H. exfalso. apply H. reflexivity. }
  assert (Hmax : maxTile (board s') = 2048).
  { vm_compute in Hrun. inversion Hrun. reflexivity. }
  exists s', log. split; [assumption |]. split; [assumption |].
  apply Hunl. lia.
Defined.

(* ------------------------------------------------------------------ *)
(** ** The state a move leaves is [gameOver] exactly when no move is left *)

Lemma someAt_freshCopy board r c x :
  someAt (map freshCopy board) r c x = someAt board r c x.
Proof.
  unfold someAt. induction board as [| t board IH]; simpl; [reflexivity |].
  now rewrite IH.
Qed.

Lemma isGameOverState_freshCopy gs board :
  isGameOverState gs (map freshCopy board) = isGameOverState gs board.
Proof.
  unfold isGameOverState. rewrite length_map.
  destruct (Z.of_nat (length board) <? gs * gs); [reflexivity |]. f_equal.
  assert (H : forall l,
            existsb (hasEqualNeighbour gs (map freshCopy board)) (map freshCopy l)
            = existsb (hasEqualNeighbour gs board) l).
  { induction l as [| t l IH]; simpl; [reflexivity |]. rewrite IH. f_equal.
    unfold hasEqualNeighbour. simpl. now rewrite !someAt_freshCopy. }
  apply H.
Qed.

Lemma resolve_nextGameState s d v :
  resolve s d = Some v -> nextGameState v = gameState s \/ nextGameState v = victory.
Proof.
  intros Hv. destruct (resolve_callsInv s d v Hv) as [[_ [_ [H _]]] | [_ [_ [H _]]]];
    [now left | now right].
Qed.

Lemma finish_over s v dr :
  nextGameState v <> gameOver ->
  gameState (fst (finish s v dr)) = gameOver <->
  isGameOverState (gridSize s)
    (if changed v then addNewTile (gridSize s) (resolvedBoard v) dr
     else resolvedBoard v) = true.
Proof.
  intros Hnot. unfold finish. destruct (changed v); simpl.
  - destruct (isGameOverState (gridSize s)
                (addNewTile (gridSize s) (resolvedBoard v) dr)); simpl;
      split; congruence.
  - destruct (isGameOverState (gridSize s) (resolvedBoard v)); simpl;
      split; congruence.
Qed.

(** X7.  A game in play on a board that keeps its invariants and has a
    tile: the state after a move is [gameOver] exactly when no move in any
    of the four directions would change the board the move leaves.  In
    the state [gameOver] a move does nothing. *)
Theorem move_gameOver_exact s d dr :
  wellFormed (gridSize s) (board s) -> board s <> [] -> gameState s = playing ->
  exists s' cs,
    move s d dr = Some (s', cs)
    /\ (gameState s' = gameOver <->
        forall d', exists v', resolve s' d' = Some v' /\ changed v' = false)
    /\ (gameState s' = gameOver ->
        forall d' dr', move s' d' dr' = Some (s', [])).
Proof.
  intros Hwf Hsome Hplay. destruct (resolve_total s d) as [v Hv].
  exists (fst (finish s v dr)), (snd (finish s v dr)).
  split.
  { unfold move. rewrite Hplay, Hv. simpl. now destruct (finish s v dr). }
  split.
  - assert (Hnot : nextGameState v <> gameOver).
    { destruct (resolve_nextGameState s d v Hv) as [E | E]; rewrite E; congruence. }
    rewrite (finish_over s v dr Hnot).
    assert (Hgs : gridSize (fst (finish s v dr)) = gridSize s)
      by apply finish_kept.
    assert (Hb : board (fst (finish s v dr))
                 = if changed v then addNewTile (gridSize s) (resolvedBoard v) dr
                   else board s) by apply finish_board.
    assert (Hsame : isGameOverState (gridSize s)
                      (if changed v then addNewTile (gridSize s) (resolvedBoard v) dr
                       else resolvedBoard v)
                    = isGameOverState (gridSize (fst (finish s v dr)))
                        (board (fst (finish s v dr)))).
    { rewrite Hgs, Hb. destruct (changed v) eqn:Hch; [reflexivity |].
      assert (E : v = enter s) by (eapply forEachTile_unchanged; eauto).
      subst v. rewrite enter_board. apply isGameOverState_freshCopy. }
    rewrite Hsame.
    assert (Hwf' : wellFormed (gridSize (fst (finish s v dr)))
                     (board (fst (finish s v dr)))).
    { rewrite Hgs, Hb. destruct (changed v); [| assumption].
      apply addNewTile_wellFormed.
      destruct (resolve_loopInv _ _ _ Hv) as [_ [_ [_ Hinv]]].
      now destruct (Hinv Hwf). }
    assert (Hsome' : board (fst (finish s v dr)) <> []).
    { rewrite Hb. destruct (changed v) eqn:Hch; [| assumption].
      destruct (spawn_after_change s d v dr Hwf Hv Hch) as [t [_ ->]].
      intros F. apply app_eq_nil in F. destruct F as [_ F]. discriminate. }
    rewrite (isGameOverState_noLegalSlide _ _ Hwf' Hsome').
    split; intros H d'; now apply (noLegalSlide_iff _ d' Hwf').
  - intros Hover d' dr'. unfold move. rewrite Hover. reflexivity.
Qed.

Lemma move_gameOver_exact_witness :
  exists s' cs,
    move (playingOn (picture [[0; 2; 4; 2]; [4; 2; 4; 8]; [2; 4; 2; 4]; [4; 2; 4; 2]]) [])
         Left (mkDraws (mkDraw 0 1) (mkDraw 19 1) 17) = Some (s', cs)
    /\ gameState s' = gameOver
    /\ forall d', exists v', resolve s' d' = Some v' /\ changed v' = false.
Proof.
  destruct (move_gameOver_exact
              (playingOn (picture [[0; 2; 4; 2]; [4; 2; 4; 8]; [2; 4; 2; 4]; [4; 2; 4; 2]]) [])
              Left (mkDraws (mkDraw 0 1) (mkDraw 19 1) 17))
    as [s' [cs [Hmove [Hiff _]]]].
  { unfold playingOn, picture. simpl. concrete_wellFormed. }
  { discriminate. }
  { reflexivity. }
  assert (Hover : gameState s' = gameOver).
  { vm_compute in Hmove. inversion Hmove. reflexivity. }
  exists s', cs. split; [assumption |]. split; [assumption |].
  now apply Hiff.
Defined.

(* ------------------------------------------------------------------ *)
(** ** A new game *)

Lemma spawn_room gs board dr :
  0 <= gs -> Z.of_nat (length board) < gs * gs ->
  exists t, spawnTile gs board dr = Some t /\ addNewTile gs board dr = board ++ [t].
Proof.
  intros Hgs Hlen. unfold addNewTile.
  destruct (spawnTile gs board dr) as [t |] eqn:E; [eauto |].
  exfalso. apply spawnTile_none in E. revert E. now apply emptyTiles_room.
Qed.

Lemma spawn_full gs board dr :
  gs * gs <= Z.of_nat (length board) -> wellFormed gs board ->
  addNewTile gs board dr = board.
Proof.
  intros Hlen Hwf. unfold addNewTile.
  destruct (spawnTile gs board dr) as [t |] eqn:E; [| reflexivity].
  exfalso. apply spawnTile_emptyCell in E.
  pose proof (emptyCell_length gs board _ _ Hwf E). lia.
Qed.

(** X8.  A new game.  [initializeGame] leaves a board that keeps its
    invariants, with tiles of value 2 or 4 that are flagged as new; on a
    grid of two rows or more there are exactly two of them, on two cells.
    On a grid of one cell there is one tile and the board is full at once,
    although the state is [playing]; on a grid without cells the board is
    empty. *)
Theorem initializeGame_board s d1 d2 :
  wellFormed (gridSize s) (board (initializeGame s d1 d2))
  /\ Forall (fun t => (value t = 2 \/ value t = 4) /\ isNew t = Some true)
            (board (initializeGame s d1 d2))
  /\ gameState (initializeGame s d1 d2) = playing
  /\ (2 <= gridSize s ->
      exists a b, board (initializeGame s d1 d2) = [a; b] /\ cell a <> cell b)
  /\ (gridSize s = 1 ->
      exists a, board (initializeGame s d1 d2) = [a] /\ cell a = (0, 0)
        /\ isGameOverState 1 (board (initializeGame s d1 d2)) = true)
  /\ (gridSize s <= 0 -> board (initializeGame s d1 d2) = []).
Proof.
  unfold initializeGame. simpl.
  assert (Hwf1 : wellFormed (gridSize s) (addNewTile (gridSize s) [] d1))
    by apply addNewTile_wellFormed, wellFormed_nil.
  assert (Hwf2 : wellFormed (gridSize s)
                   (addNewTile (gridSize s) (addNewTile (gridSize s) [] d1) d2))
    by now apply addNewTile_wellFormed.
  assert (Hspawned : forall board dr t,
            spawnTile (gridSize s) board dr = Some t ->
            (value t = 2 \/ value t = 4) /\ isNew t = Some true).
  { intros board dr t E. apply spawnTile_some in E. destruct E as [_ [-> E]].
    split; [apply pickValue_cases | assumption]. }
  split; [assumption |]. split; [| split; [reflexivity |]].
  - unfold addNewTile.
    destruct (spawnTile (gridSize s) [] d1) as [a |] eqn:Ea.
    + destruct (spawnTile (gridSize s) ([] ++ [a]) d2) as [b |] eqn:Eb;
        simpl; repeat (apply Forall_cons; [eauto |]); apply Forall_nil.
    + destruct (spawnTile (gridSize s) [] d2) as [b |] eqn:Eb;
        simpl; repeat (apply Forall_cons; [eauto |]); apply Forall_nil.
  - split; [| split].
    + intros Hgs.
      destruct (spawn_room (gridSize s) [] d1) as [a [_ Ea]]; [lia | simpl; nia |].
      rewrite Ea. simpl.
      destruct (spawn_room (gridSize s) [a] d2) as [b [Eb Eab]]; [lia | simpl; nia |].
      rewrite Eab. simpl. exists a, b. split; [reflexivity |].
      apply spawnTile_emptyCell in Eb. destruct Eb as [_ Hfree].
      intros E. apply (Hfree a (or_introl eq_refl)). now rewrite E.
    + intros Hgs. rewrite Hgs in *.
      destruct (spawn_room 1 [] d1) as [a [Ea Eadd]]; [lia | simpl; lia |].
      rewrite Eadd in *. simpl in *.
      rewrite (spawn_full 1 [a] d2); [| simpl; lia | assumption].
      exists a. split; [reflexivity |].
      apply spawnTile_emptyCell in Ea. destruct Ea as [[Hr Hc] _].
      assert (Hcell : cell a = (0, 0)) by (unfold cell; f_equal; lia).
      split; [assumption |].
      unfold isGameOverState, hasEqualNeighbour. simpl.
      replace (row a) with 0 by lia. replace (col a) with 0 by lia. reflexivity.
    + intros Hgs.
      unfold addNewTile, spawnTile, emptyTiles, upto.
      replace (Z.to_nat (gridSize s)) with 0%nat by lia. reflexivity.
Qed.

(* ------------------------------------------------------------------ *)
(** ** What no command takes away *)

Lemma NoDup_snoc {A : Type} (l : list A) (a : A) :
  NoDup l -> ~ In a l -> NoDup (l ++ [a]).
Proof.
  intros Hl Ha. apply NoDup_app; [assumption | repeat constructor; intros [] |].
  intros x Hx [<- | []]. contradiction.
Qed.

Lemma step_keeps s c s' cs :
  step s c = Some (s', cs) ->
  bestScore s <= bestScore s' /\ gridSize s' = gridSize s
  /\ incl (achievements s) (achievements s')
  /\ (NoDup (achievements s) -> NoDup (achievements s')).
Proof.
  intros Hstep. destruct c; simpl in Hstep;
    try (inversion Hstep; subst; simpl;
         repeat split; [lia | apply incl_refl | auto]).
  - apply move_cases in Hstep.
    destruct Hstep as [[_ [-> _]] | [_ [v [Hv Hfin]]]];
      [repeat split; [lia | apply incl_refl | auto] |].
    assert (E : s' = fst (finish s v dr)) by now rewrite Hfin. subst s'.
    destruct (finish_kept s v dr) as [-> ->]. rewrite finish_achievements.
    split; [lia |]. split; [reflexivity |].
    destruct (resolve_achievements s d v Hv) as [-> | [-> Hnot]].
    + split; [apply incl_refl | auto].
    + split; [apply incl_appl, incl_refl |]. intros Hnd. now apply NoDup_snoc.
  - inversion Hstep as [E].
    assert (E' : s' = fst (scoreEffect s)) by now rewrite E.
    rewrite scoreEffect_fields in E'. subst s'. simpl.
    split; [destruct (bestScore s <? score s) eqn:Hlt; [apply Z.ltb_lt in Hlt |]; lia |].
    split; [reflexivity |]. split; [apply incl_appl, incl_refl |].
    intros Hnd. apply NoDup_app; [assumption | apply newAchievements_NoDup |].
    intros a Ha Hnew. apply newAchievements_In in Hnew. now destruct Hnew.
Qed.

(** X9.  What no command takes away.  Over every sequence of commands
    the best score never goes down, no unlocked achievement is lost, also
    across new games, and the list of achievements never holds an
    identifier twice when it did not before. *)
Theorem run_keeps cmds : forall s,
  exists s' log,
    run s cmds = Some (s', log)
    /\ bestScore s <= bestScore s'
    /\ incl (achievements s) (achievements s')
    /\ (NoDup (achievements s) -> NoDup (achievements s')).
Proof.
  induction cmds as [| c cmds IH]; intros s; simpl.
  - exists s, []. repeat split; [lia | apply incl_refl | auto].
  - destruct (step_total s c) as [[s1 cs] E]. rewrite E.
    destruct (step_keeps s c s1 cs E) as [Hb [Hg [Hincl Hnd]]].
    destruct (IH s1) as [s2 [log [Hrun [Hb' [Hincl' Hnd']]]]].
    rewrite Hrun. exists s2, (cs :: log).
    split; [reflexivity |]. split; [lia |].
    split; [eapply incl_tran; eauto | auto].
Qed.

(** X10.  The effect on the score settles.  It raises the best score to
    the score when the score is higher, so that afterwards the score is
    at most the best score; run again in the state it leaves, as React
    does when [bestScore] has changed, it changes nothing and shows no
    toast. *)
Theorem scoreEffect_settles s :
  bestScore (fst (scoreEffect s)) = Z.max (bestScore s) (score s)
  /\ score (fst (scoreEffect s)) <= bestScore (fst (scoreEffect s))
  /\ scoreEffect (fst (scoreEffect s)) = (fst (scoreEffect s), []).
Proof.
  rewrite scoreEffect_fields. simpl.
  assert (Hmax : (if bestScore s <? score s then score s else bestScore s)
                 = Z.max (bestScore s) (score s)).
  { destruct (bestScore s <? score s) eqn:Hlt;
      [apply Z.ltb_lt in Hlt | apply Z.ltb_ge in Hlt]; lia. }
  rewrite Hmax. split; [reflexivity |]. split; [lia |].
  unfold scoreEffect, checkAchievements. simpl.
  rewrite newAchievements_again. simpl.
  assert (Hle : (Z.max (bestScore s) (score s) <? score s) = false)
    by (apply Z.ltb_ge; lia).
  now rewrite Hle.
Qed.

(* ------------------------------------------------------------------ *)
(** ** The toasts *)

Lemma toastsInv_step s d fuel v t v' :
  toastsInv v -> moveTile s d fuel v t = Some v' -> toastsInv v'.
Proof.
  intros Hinv Hmove. unfold toastsInv in *.
  apply moveTile_cases in Hmove. destruct Hmove as [halt [_ Hv']].
  destruct halt as [target r' c' | r' c']; subst v'; rewrite settle_calls;
    [| assumption].
  destruct ((value (heap v t) * 2 =? 2048)
            && negb (includes (achievements s) "reach2048")) eqn:E.
  - destruct (mergeInto_victory s t target r' c' v E) as [-> _].
    apply Forall_app. split; [assumption |].
    constructor; [now left | constructor; [now right | constructor]].
  - now destruct (mergeInto_quiet s t target r' c' v E) as [-> _].
Qed.

Lemma resolve_toastsInv s d v : resolve s d = Some v -> toastsInv v.
Proof.
  unfold resolve. intros H.
  refine (forEachTile_inv s d _ (fun v _ => toastsInv v)
            _ (sortedTiles s d) (enter s) v _ H).
  - intros v0 t rest v' Hinv Hmove. eapply toastsInv_step; eauto.
  - constructor.
Qed.

Lemma move_toasts s d dr s' cs a :
  move s d dr = Some (s', cs) -> In (Toast a) cs ->
  a = "reach2048"%string /\ ~ In a (achievements s) /\ In a (achievements s').
Proof.
  intros Hmove Ha. apply move_cases in Hmove.
  destruct Hmove as [[_ [_ ->]] | [_ [v [Hv Hfin]]]]; [contradiction |].
  assert (Es : s' = fst (finish s v dr)) by now rewrite Hfin.
  assert (Ec : cs = snd (finish s v dr)) by now rewrite Hfin.
  subst s' cs. rewrite finish_achievements.
  assert (Hcalls : In (Toast a) (calls v)).
  { unfold finish in Ha.
    destruct (changed v);
      [destruct (isGameOverState (gridSize s)
                   (addNewTile (gridSize s) (resolvedBoard v) dr))
      | destruct (isGameOverState (gridSize s) (resolvedBoard v))];
      simpl in Ha; try assumption;
      apply in_app_or in Ha; destruct Ha as [Ha | [Ha | []]];
      try assumption; discriminate. }
  pose proof (resolve_toastsInv s d v Hv) as Hshape. unfold toastsInv in Hshape.
  rewrite Forall_forall in Hshape.
  destruct (Hshape _ Hcalls) as [E | E]; [| discriminate].
  inversion E; subst a. split; [reflexivity |].
  destruct (resolve_callsInv s d v Hv) as [[Hnone _] | [_ [Hnew [_ [Hnot _]]]]].
  - rewrite Hnone in Hcalls. contradiction.
  - split; [assumption |]. rewrite Hnew. apply in_or_app. right. now left.
Qed.

Lemma filter_locked unlocked (new : list string) :
  (forall a, In a new -> ~ In a unlocked) ->
  filter (fun a => negb (includes unlocked a)) new = new.
Proof.
  induction new as [| a new IH]; intros H; simpl; [reflexivity |].
  assert (E : includes unlocked a = false).
  { apply includes_false. apply H. now left. }
  rewrite E. simpl. f_equal. apply IH. intros b Hb. apply H. now right.
Qed.

Lemma checkAchievements_calls s :
  snd (checkAchievements s)
  = match newAchievements (score s) (moveCount s) (maxTile (board s)) (achievements s)
    with
    | [] => []
    | first :: _ => [Toast first]
    end.
Proof.
  unfold checkAchievements.
  destruct (newAchievements (score s) (moveCount s) (maxTile (board s))
              (achievements s)) as [| first rest] eqn:E; [reflexivity |].
  unfold addAchievements. rewrite filter_locked; [reflexivity |].
  intros a Ha. rewrite <- E in Ha. apply newAchievements_In in Ha. now destruct Ha.
Qed.

Lemma scoreEffect_toasts s a :
  In (Toast a) (snd (scoreEffect s)) ->
  earned (score s) (moveCount s) (maxTile (board s)) a
  /\ ~ In a (achievements s) /\ In a (achievements (fst (scoreEffect s))).
Proof.
  intros Ha. rewrite scoreEffect_fields. simpl.
  assert (Hcalls : snd (scoreEffect s) = snd (checkAchievements s)).
  { unfold scoreEffect. now destruct (checkAchievements s). }
  rewrite Hcalls, checkAchievements_calls in Ha.
  destruct (newAchievements (score s) (moveCount s) (maxTile (board s))
              (achievements s)) as [| first rest] eqn:E; [contradiction |].
  destruct Ha as [Ha | []]. inversion Ha; subst first.
  assert (Hin : In a (newAchievements (score s) (moveCount s) (maxTile (board s))
                        (achievements s))) by (rewrite E; now left).
  pose proof Hin as Hearned. apply newAchievements_In in Hearned.
  destruct Hearned as [Hearned Hnot].
  split; [assumption |]. split; [assumption |].
  apply in_or_app. right. now rewrite <- E.
Qed.

(** X11.  Every toast has its own text.  An achievement that a command
    shows a toast for was locked before the command and is unlocked
    after it, and it is one of the six that [getAchievementDescription]
    has a text for: the text shown is never the fallback "New achievement
    unlocked!". *)
Theorem toast_described s c s' cs a :
  step s c = Some (s', cs) -> In (Toast a) cs ->
  ~ In a (achievements s) /\ In a (achievements s')
  /\ exists text,
       ownProperty a descriptions = Some text
       /\ getAchievementDescription a = Text text
       /\ text <> "New achievement unlocked!"%string.
Proof.
  intros Hstep Ha.
  assert (H : (a = "reach2048"%string \/ earned (score s) (moveCount s)
                                           (maxTile (board s)) a)
              /\ ~ In a (achievements s) /\ In a (achievements s')).
  { destruct c; simpl in Hstep; try (inversion Hstep; subst; contradiction).
    - destruct (move_toasts s d dr s' cs a Hstep Ha) as [E H]. auto.
    - inversion Hstep as [E].
      assert (Es : s' = fst (scoreEffect s)) by now rewrite E.
      assert (Ec : cs = snd (scoreEffect s)) by now rewrite E.
      subst s' cs. destruct (scoreEffect_toasts s a Ha) as [He H]. auto. }
  destruct H as [Hid [Hnot Hin]]. split; [assumption |]. split; [assumption |].
  destruct Hid as [-> | [[-> _] | [[-> _] | [[-> _] | [[-> _] | [-> _]]]]]];
    eexists; (split; [reflexivity |]); (split; [reflexivity | discriminate]).
Qed.

Lemma toast_described_witness :
  exists s' cs,
    step (playingOn (picture [[1024; 1024; 0; 0]]) []) (Move Left someDraws)
    = Some (s', cs)
    /\ In (Toast "reach2048") cs
    /\ In "reach2048"%string (achievements s')
    /\ getAchievementDescription "reach2048" = Text "Reached the 2048 tile!".
Proof.
  destruct (step_total (playingOn (picture [[1024; 1024; 0; 0]]) [])
              (Move Left someDraws)) as [[s' cs] Hstep].
  assert (Hcs : In (Toast "reach2048") cs).
  { vm_compute in Hstep. inversion Hstep. now left. }
  destruct (toast_described _ _ _ _ _ Hstep Hcs) as [_ [Hin _]].
  exists s', cs. repeat split; assumption || reflexivity.
Defined.

(* ------------------------------------------------------------------ *)
(** ** The keyboard *)

Lemma handleKeyDown_idle s pressed dr :
  gameState s <> playing -> handleKeyDown s pressed dr = Some (s, []).
Proof.
  intros H. unfold handleKeyDown. destruct (gameState s); simpl; congruence.
Qed.

Lemma pressKeys_idle keys : forall s,
  gameState s <> playing ->
  pressKeys s keys = Some (s, repeat [] (length keys)).
Proof.
  induction keys as [| [pressed dr] keys IH]; intros s H; simpl; [reflexivity |].
  rewrite (handleKeyDown_idle s pressed dr H), (IH s H). reflexivity.
Qed.

(* ------------------------------------------------------------------ *)
(** ** The time shown *)

Lemma length_append (a b : string) :
  String.length (a ++ b) = (String.length a + String.length b)%nat.
Proof. induction a as [| c a IH]; simpl; [reflexivity | now rewrite IH]. Qed.

Lemma append_same_suffix (a a' b b' : string) :
  (a ++ b)%string = (a' ++ b')%string -> String.length b = String.length b' ->
  a = a' /\ b = b'.
Proof.
  revert a'. induction a as [| c a IH]; intros [| c' a'] H Hlen; simpl in H.
  - auto.
  - exfalso. rewrite H in Hlen. simpl in Hlen. rewrite length_append in Hlen. lia.
  - exfalso. rewrite <- H in Hlen. simpl in Hlen. rewrite length_append in Hlen. lia.
  - inversion H as [[Hc Hrest]]. destruct (IH a' Hrest Hlen) as [-> ->]. auto.
Qed.

Lemma readNat_uint d : readNat (NilZero.string_of_uint d) = Z.of_uint d.
Proof.
  unfold readNat. destruct d; [reflexivity | ..];
    unfold NilZero.string_of_uint; now rewrite NilEmpty.usu.
Qed.

Lemma readNat_showZ z : 0 <= z -> readNat (showZ z) = z.
Proof.
  intros Hz. unfold showZ. destruct z as [| p | p]; [reflexivity | | lia].
  simpl. rewrite readNat_uint. unfold Z.of_uint.
  now rewrite DecimalPos.Unsigned.of_to.
Qed.

Lemma readNat_zero s : readNat (String "0" s) = readNat s.
Proof.
  unfold readNat. simpl. destruct (NilEmpty.uint_of_string s); reflexivity.
Qed.

Lemma padStart_zero s :
  padStart 2 "0" s = s \/ padStart 2 "0" s = String "0" s
  \/ (s = EmptyString /\ padStart 2 "0" s = "00"%string).
Proof.
  unfold padStart. destruct s as [| a [| b s]]; simpl; auto.
Qed.

Lemma readNat_padStart s : readNat (padStart 2 "0" s) = readNat s.
Proof.
  destruct (padStart_zero s) as [-> | [-> | [-> ->]]];
    [reflexivity | apply readNat_zero | reflexivity].
Qed.

Lemma padStart_length s :
  String.length (padStart 2 "0" s) = Nat.max 2 (String.length s).
Proof.
  unfold padStart. destruct s as [| a [| b s]]; reflexivity.
Qed.

(** The two digits of a number below 100. *)
Lemma padStart_digits z :
  0 <= z < 100 ->
  padStart 2 "0" (showZ z) = String (digit (z / 10)) (String (digit (z mod 10)) "").
Proof.
  intros Hz.
  assert (H : forallb (fun n =>
                String.eqb (padStart 2 "0" (showZ (Z.of_nat n)))
                  (String (digit (Z.of_nat n / 10))
                     (String (digit (Z.of_nat n mod 10)) "")))
                (seq 0 100) = true) by (vm_compute; reflexivity).
  rewrite forallb_forall in H. specialize (H (Z.to_nat z)).
  rewrite Z2Nat.id in H by lia. apply String.eqb_eq, H. apply in_seq. lia.
Qed.

(** A number written with at most two digits is below 100. *)
Lemma short_number z :
  0 <= z -> (String.length (showZ z) <= 2)%nat -> z < 100.
Proof.
  intros Hz Hlen. rewrite <- (readNat_showZ z Hz).
  destruct (showZ z) as [| a [| b [| c s]]]; simpl in Hlen; try lia;
    unfold readNat; cbn [NilEmpty.uint_of_string].
  - reflexivity.
  - destruct (uint_of_char a (Some Decimal.Nil)) as [d |] eqn:Ea; [| reflexivity].
    apply uint_of_char_spec in Ea.
    decompose [or and] Ea; subst; reflexivity.
  - destruct (uint_of_char b (Some Decimal.Nil)) as [d |] eqn:Eb; [| reflexivity].
    apply uint_of_char_spec in Eb.
    destruct (uint_of_char a (Some d)) as [e |] eqn:Ea; [| reflexivity].
    apply uint_of_char_spec in Ea.
    decompose [or and] Eb; decompose [or and] Ea; subst; reflexivity.
Qed.

(** X13.  The time shown.  Below 100 minutes [formatTime] writes a whole
    number of seconds as five characters, two digits of minutes, a colon
    and two digits of seconds.  From 100 minutes on the minutes take the
    digits they need, so the text is longer than mm:ss and nothing is cut
    off.  No two numbers of seconds from 0 on are shown as the same
    text. *)
Theorem formatTime_shown seconds :
  (0 <= seconds < 6000 ->
   formatTime seconds
   = String (digit (seconds / 600))
       (String (digit ((seconds / 60) mod 10))
          (String ":"
             (String (digit ((seconds mod 60) / 10))
                (String (digit (seconds mod 10)) "")))))
  /\ (6000 <= seconds -> (5 < String.length (formatTime seconds))%nat)
  /\ (forall other,
        0 <= seconds -> 0 <= other ->
        formatTime other = formatTime seconds -> other = seconds).
Proof.
  assert (Hsecs : forall z, 0 <= z ->
            padStart 2 "0" (showZ (Z.rem z 60))
            = String (digit ((z mod 60) / 10)) (String (digit (z mod 10)) "")).
  { intros z Hz. rewrite Z.rem_mod_nonneg by lia.
    pose proof (Z.mod_pos_bound z 60 ltac:(lia)) as Hb.
    rewrite padStart_digits by lia.
    now rewrite Z.mod_mod_divide by (exists 6; reflexivity). }
  split; [| split].
  - intros Hs. unfold formatTime. rewrite Hsecs by lia.
    assert (Hm : 0 <= seconds / 60 < 100).
    { split; [apply Z.div_pos; lia | apply Z.div_lt_upper_bound; lia]. }
    rewrite padStart_digits by assumption. simpl.
    rewrite Z.div_div by lia. reflexivity.
  - intros Hs. unfold formatTime. rewrite Hsecs by lia.
    rewrite length_append, padStart_length. cbn [String.length String.append].
    assert (Hm : 100 <= seconds / 60) by (apply Z.div_le_lower_bound; lia).
    destruct (Nat.le_gt_cases (String.length (showZ (seconds / 60))) 2) as [Hshort | Hlong].
    + pose proof (short_number (seconds / 60) ltac:(lia) Hshort). lia.
    + lia.
  - intros other Hs Ho H. unfold formatTime in H.
    rewrite (Hsecs seconds Hs), (Hsecs other Ho) in H.
    apply append_same_suffix in H; [| reflexivity].
    destruct H as [Hmins Hsec].
    assert (Em : other / 60 = seconds / 60).
    { rewrite <- (readNat_showZ (other / 60)) by (apply Z.div_pos; lia).
      rewrite <- (readNat_showZ (seconds / 60)) by (apply Z.div_pos; lia).
      rewrite <- (readNat_padStart (showZ (other / 60))), Hmins.
      apply readNat_padStart. }
    assert (Es : other mod 60 = seconds mod 60).
    { pose proof (Z.mod_pos_bound other 60 ltac:(lia)) as Hbo.
      pose proof (Z.mod_pos_bound seconds 60 ltac:(lia)) as Hbs.
      rewrite <- (readNat_showZ (other mod 60)) by lia.
      rewrite <- (readNat_showZ (seconds mod 60)) by lia.
      rewrite <- (readNat_padStart (showZ (other mod 60))).
      rewrite <- (readNat_padStart (showZ (seconds mod 60))).
      rewrite <- !Z.rem_mod_nonneg by lia.
      rewrite !Hsecs by lia. simpl in Hsec. inversion Hsec as [Hsec'].
      now rewrite Hsec'. }
    rewrite (Z.div_mod other 60), (Z.div_mod seconds 60) by lia. lia.
Qed.

Example formatTime_examples :
  formatTime 0 = "00:00"%string
  /\ formatTime 75 = "01:15"%string
  /\ formatTime 5999 = "99:59"%string
  /\ formatTime 6000 = "100:00"%string
  /\ formatTime (-1) = "-1:-1"%string.
Proof. repeat split; reflexivity. Qed.

(* ------------------------------------------------------------------ *)
(** ** What is saved and what is read back *)

Lemma spreadSettings_allOf prev settings :
  spreadSettings prev (allOf settings) = settings.
Proof. now destruct settings. Qed.

Lemma saveGameData_holds settings achievements item data :
  item <> Broken ->
  exists parsedData,
    saveGameData settings achievements item data
    = Holds (spreadData parsedData data settings achievements)
    /\ (item = Holds parsedData \/ parsedData = noData).
Proof.
  intros H. destruct item as [| | | parsedData]; simpl; eauto. congruence.
Qed.

(** X14.  What [saveGameData] writes.  Unless the item is a text that
    does not parse, the item written holds the settings and the
    achievements of the render that the call comes from, whatever the
    argument holds under these two keys, and the best score and last
    score of the argument or else of the item before.  So the list that
    [addAchievement] and [addAchievements] pass, with the achievement just
    unlocked, is not what is stored, and neither are the settings that
    [updateSettings] passes: read back, the data gives the achievements
    and the settings as they were before the update. *)
Theorem saveGameData_written settings achievements item :
  item <> Broken ->
  (forall data prev,
     loadedSettings (loadGameData (saveGameData settings achievements item data) prev)
     = settings
     /\ loadedAchievements
          (loadGameData (saveGameData settings achievements item data) prev)
        = achievements
     /\ (forall b, dataBestScore data = Some b ->
           loadedBestScore
             (loadGameData (saveGameData settings achievements item data) prev) = b))
  /\ (forall achievement prev,
        ~ In achievement achievements ->
        loadedAchievements
          (loadGameData (addAchievementSaved settings achievements achievement item) prev)
        = achievements)
  /\ (forall newAchievements prev,
        (exists a, In a newAchievements /\ ~ In a achievements) ->
        loadedAchievements
          (loadGameData
             (addAchievementsSaved settings achievements newAchievements item) prev)
        = achievements)
  /\ (forall newSettings prev,
        fst (updateSettings settings achievements settings newSettings item)
        = spreadSettings settings newSettings
        /\ loadedSettings
             (loadGameData
                (snd (updateSettings settings achievements settings newSettings item))
                prev)
           = settings).
Proof.
  intros Hitem.
  assert (Hsave : forall data prev,
            loadedSettings
              (loadGameData (saveGameData settings achievements item data) prev)
            = settings
            /\ loadedAchievements
                 (loadGameData (saveGameData settings achievements item data) prev)
               = achievements
            /\ (forall b, dataBestScore data = Some b ->
                  loadedBestScore
                    (loadGameData (saveGameData settings achievements item data) prev)
                  = b)).
  { intros data prev.
    destruct (saveGameData_holds settings achievements item data Hitem)
      as [parsedData [-> _]].
    simpl. split; [apply spreadSettings_allOf |]. split; [reflexivity |].
    intros b Hb. rewrite Hb. simpl. destruct (Z.eqb_spec b 0); congruence. }
  split; [exact Hsave |]. split; [| split].
  - intros achievement prev Hnot. unfold addAchievementSaved.
    apply includes_false in Hnot. rewrite Hnot. simpl. apply Hsave.
  - intros newAchievements prev [a [Ha Hnot]]. unfold addAchievementsSaved.
    destruct (filter (fun a => negb (includes achievements a)) newAchievements)
      as [| first rest] eqn:E.
    + exfalso. assert (Hin : In a []); [| contradiction].
      rewrite <- E. apply filter_In. split; [assumption |].
      apply includes_false in Hnot. now rewrite Hnot.
    + apply Hsave.
  - intros newSettings prev. split; [reflexivity |]. apply Hsave.
Qed.

Lemma saveGameData_written_witness :
  loadedSettings
    (loadGameData
       (snd (updateSettings (mkSettings 4 150 true false) [] (mkSettings 4 150 true false)
               (mkPatch (Some 5) None None None) Missing))
       mounted)
  = mkSettings 4 150 true false
  /\ loadedAchievements
       (loadGameData
          (addAchievementSaved (mkSettings 4 150 true false) [] "reach2048" Missing)
          mounted)
     = [].
Proof.
  assert (H : Missing <> Broken) by discriminate.
  destruct (saveGameData_written (mkSettings 4 150 true false) [] Missing H)
    as [_ [Hadd [_ Hupdate]]].
  split.
  - apply (Hupdate (mkPatch (Some 5) None None None) mounted).
  - apply (Hadd "reach2048"%string mounted). intros [].
Defined.

(* ------------------------------------------------------------------ *)
(** ** Where the tiles are drawn *)

Lemma offset_spec k :
  (inject_Z k * (DEFAULT_CELL_SIZE + DEFAULT_CELL_GAP) == (13 * k) # 2)%Q.
Proof.
  unfold DEFAULT_CELL_SIZE, DEFAULT_CELL_GAP, Qeq, Qmult, Qplus, inject_Z.
  cbn [Qnum Qden]. lia.
Qed.

Lemma boardWidth_spec gs : (boardWidth gs == (13 * gs - 1) # 2)%Q.
Proof.
  unfold boardWidth, DEFAULT_CELL_SIZE, DEFAULT_CELL_GAP, Qeq, Qminus.
  unfold Qmult, Qplus, Qopp, inject_Z. cbn [Qnum Qden]. lia.
Qed.

Lemma cell_of_index gs r c :
  0 < gs -> onGrid gs r c ->
  In (r * gs + c) (cellIndices gs)
  /\ (r * gs + c) / gs = r /\ Z.rem (r * gs + c) gs = c.
Proof.
  intros Hgs [Hr Hc]. split; [| split].
  - apply upto_In. nia.
  - rewrite Z.div_add_l by lia. rewrite Z.div_small by lia. lia.
  - rewrite Z.rem_mod_nonneg by nia.
    rewrite Z.add_comm, Z.mod_add by lia. apply Z.mod_small. lia.
Qed.

Lemma index_of_cell gs index :
  0 < gs -> In index (cellIndices gs) ->
  onGrid gs (index / gs) (Z.rem index gs)
  /\ index = (index / gs) * gs + Z.rem index gs.
Proof.
  intros Hgs Hin. apply upto_In in Hin.
  rewrite Z.rem_mod_nonneg by lia.
  pose proof (Z.mod_pos_bound index gs Hgs) as Hm.
  pose proof (Z.div_mod index gs ltac:(lia)) as Hd.
  assert (0 <= index / gs) by (apply Z.div_pos; lia).
  assert (index / gs < gs) by (apply Z.div_lt_upper_bound; lia).
  unfold onGrid. lia.
Qed.

(** X16.  Where the tiles are drawn.  On a grid with cells, the
    background cells are the cells of the grid, each drawn once; a tile
    of a board that keeps its invariants is drawn at the place of the
    background cell of its row and column, inside the element that holds
    the board, and two tiles on different cells are drawn a cell and a gap
    apart in one of the two directions, so that no tile covers another. *)
Theorem tiles_on_cells gs board :
  0 < gs -> wellFormed gs board ->
  (forall index, In index (cellIndices gs) ->
     onGrid gs (index / gs) (Z.rem index gs)
     /\ forall other, In other (cellIndices gs) ->
          (cellLeft gs other == cellLeft gs index)%Q ->
          (cellTop gs other == cellTop gs index)%Q -> other = index)
  /\ (forall t, In t board ->
        In (row t * gs + col t) (cellIndices gs)
        /\ (cellLeft gs (row t * gs + col t) == tileX t)%Q
        /\ (cellTop gs (row t * gs + col t) == tileY t)%Q
        /\ (0 <= tileX t)%Q /\ (tileX t + DEFAULT_CELL_SIZE <= boardWidth gs)%Q
        /\ (0 <= tileY t)%Q /\ (tileY t + DEFAULT_CELL_SIZE <= boardWidth gs)%Q)
  /\ (forall a b, In a board -> In b board -> cell a <> cell b ->
        (tileX a + DEFAULT_CELL_SIZE + DEFAULT_CELL_GAP <= tileX b)%Q
        \/ (tileX b + DEFAULT_CELL_SIZE + DEFAULT_CELL_GAP <= tileX a)%Q
        \/ (tileY a + DEFAULT_CELL_SIZE + DEFAULT_CELL_GAP <= tileY b)%Q
        \/ (tileY b + DEFAULT_CELL_SIZE + DEFAULT_CELL_GAP <= tileY a)%Q).
Proof.
  intros Hgs [_ Hgrid]. rewrite Forall_forall in Hgrid.
  split; [| split].
  - intros index Hin. destruct (index_of_cell gs index Hgs Hin) as [Hon Hindex].
    split; [assumption |]. intros other Hother Hleft Htop.
    destruct (index_of_cell gs other Hgs Hother) as [_ Hother'].
    unfold cellLeft, cellTop in Hleft, Htop.
    rewrite !offset_spec in Hleft, Htop.
    unfold Qeq in Hleft, Htop. cbn [Qnum Qden] in Hleft, Htop. lia.
  - intros t Ht. specialize (Hgrid t Ht).
    destruct (cell_of_index gs (row t) (col t) Hgs Hgrid) as [Hin [Hdiv Hrem]].
    split; [assumption |]. unfold cellLeft, cellTop, tileX, tileY.
    rewrite Hdiv, Hrem. split; [reflexivity |]. split; [reflexivity |].
    rewrite !offset_spec, boardWidth_spec.
    unfold DEFAULT_CELL_SIZE, Qle, Qplus, onGrid, inject_Z in *. cbn [Qnum Qden]. lia.
  - intros a b Ha Hb Hcell. unfold tileX, tileY. rewrite !offset_spec.
    unfold DEFAULT_CELL_SIZE, DEFAULT_CELL_GAP, Qle, Qplus, inject_Z. cbn [Qnum Qden].
    assert (Hne : row a <> row b \/ col a <> col b).
    { destruct (Z.eq_dec (row a) (row b)) as [Er | Nr]; [| now left].
      right. intros Ec. apply Hcell. unfold cell. congruence. }
    lia.
Qed.

Lemma tiles_on_cells_witness :
  (forall t, In t checkerboard ->
     In (row t * 4 + col t) (cellIndices 4)
     /\ (cellLeft 4 (row t * 4 + col t) == tileX t)%Q
     /\ (cellTop 4 (row t * 4 + col t) == tileY t)%Q
     /\ (0 <= tileX t)%Q /\ (tileX t + DEFAULT_CELL_SIZE <= boardWidth 4)%Q
     /\ (0 <= tileY t)%Q /\ (tileY t + DEFAULT_CELL_SIZE <= boardWidth 4)%Q)
  /\ (boardWidth 4 == 51 # 2)%Q.
Proof.
  assert (Hgs : 0 < 4) by lia.
  assert (Hwf : wellFormed 4 checkerboard).
  { unfold checkerboard, picture. simpl. concrete_wellFormed. }
  destruct (tiles_on_cells 4 checkerboard Hgs Hwf) as [_ [H _]].
  split; [exact H | reflexivity].
Defined.

(* ------------------------------------------------------------------ *)
(** ** The colours of the tiles *)

Lemma colorOf_none x colors :
  (forall k c, In (k, c) colors -> k <> x) -> colorOf x colors = None.
Proof.
  induction colors as [| [k c] colors IH]; intros H; simpl; [reflexivity |].
  destruct (Z.eqb_spec x k) as [-> | _].
  - exfalso. now apply (H k c (or_introl eq_refl)).
  - apply IH. intros k' c' Hin. apply (H k' c'). now right.
Qed.

(** X17.  The colours of the tiles.  A tile value up to 8192 has the
    class that [baseColors] gives it; a tile value above 8192 has the
    class of the empty background cells.  (The tile values are the powers
    of two from 2 on, see [valuesInv].) *)
Theorem cellColor_tiles x :
  tileValue x ->
  (x <= 8192 -> In (x, cellColor x) baseColors /\ cellColor x <> emptyColor)
  /\ (8192 < x -> cellColor x = emptyColor).
Proof.
  intros [k [Hk ->]]. destruct (Z_le_gt_dec k 13) as [Hsmall | Hbig].
  - assert (Hcases : k = 1 \/ k = 2 \/ k = 3 \/ k = 4 \/ k = 5 \/ k = 6 \/ k = 7
                     \/ k = 8 \/ k = 9 \/ k = 10 \/ k = 11 \/ k = 12 \/ k = 13) by lia.
    split.
    + intros _.
      repeat (destruct Hcases as [-> | Hcases];
              [split; [simpl; tauto | discriminate] |]).
      subst k. split; [simpl; tauto | discriminate].
    + intros H. exfalso.
      assert (2 ^ k <= 2 ^ 13) by (apply Z.pow_le_mono_r; lia).
      change (2 ^ 13) with 8192 in *. lia.
  - assert (Hlarge : 2 ^ 14 <= 2 ^ k) by (apply Z.pow_le_mono_r; lia).
    change (2 ^ 14) with 16384 in Hlarge.
    split; [lia |]. intros _. unfold cellColor.
    rewrite colorOf_none; [reflexivity |].
    intros key c Hin E. subst key. simpl in Hin.
    repeat (destruct Hin as [Hin | Hin]; [inversion Hin; lia |]). contradiction.
Qed.

Lemma cellColor_tiles_witness :
  cellColor 2048 = "bg-[#edc22e] text-white"%string
  /\ cellColor 16384 = emptyColor.
Proof.
  split; [reflexivity |].
  apply (cellColor_tiles 16384); [| lia].
  exists 14. split; [lia | reflexivity].
Defined.

(* ------------------------------------------------------------------ *)
(** ** The rule of the game, line by line *)

Lemma lineCell_spec d gs rc : lineCell d gs (lineOf d rc) (distance d gs rc) = rc.
Proof. destruct rc as [r c]. destruct d; unfold lineCell; simpl; f_equal; lia. Qed.

Lemma lineOf_lineCell d gs line j : lineOf d (lineCell d gs line j) = line.
Proof. now destruct d. Qed.

Lemma distance_lineCell d gs line j : distance d gs (lineCell d gs line j) = j.
Proof. destruct d; simpl; lia. Qed.

Lemma lineCell_inj d gs line j line' j' :
  lineCell d gs line j = lineCell d gs line' j' -> line = line' /\ j = j'.
Proof. destruct d; unfold lineCell; intros H; inversion H; lia. Qed.

Lemma lineOf_step d r c k : lineOf d (r + k * dRow d, c + k * dCol d) = lineOf d (r, c).
Proof. destruct d; simpl; lia. Qed.

Lemma distance_step d gs r c k :
  distance d gs (r + k * dRow d, c + k * dCol d) = distance d gs (r, c) - k.
Proof. destruct d; simpl; lia. Qed.

Lemma distance_key d gs rc rc' :
  distance d gs rc - distance d gs rc' = key d rc - key d rc'.
Proof. destruct d; unfold distance, key; lia. Qed.

Lemma distance_onGrid d gs rc :
  onGrid gs (fst rc) (snd rc) -> 0 <= distance d gs rc < gs.
Proof. unfold onGrid. destruct d; simpl; lia. Qed.

(** [arrive] one tile after the other is [collapse]. *)
Lemma arrive_collapse xs : forall settled,
  map fst (rev (fold_left arrive xs settled))
  = match settled with
    | (y, false) :: before => map fst (rev before) ++ collapse (y :: xs)
    | _ => map fst (rev settled) ++ collapse xs
    end.
Proof.
  induction xs as [| x xs IH]; intros settled.
  - destruct settled as [| [y [|]] before]; simpl; rewrite ?app_nil_r; try reflexivity.
    now rewrite map_app.
  - cbn [fold_left]. rewrite IH. unfold arrive.
    destruct settled as [| [y [|]] before].
    + reflexivity.
    + cbn [collapse]. reflexivity.
    + destruct (Z.eqb_spec y x) as [-> | Hne].
      * cbn [rev map fst]. rewrite map_app. cbn [map fst].
        rewrite <- app_assoc. cbn [app collapse]. rewrite Z.eqb_refl.
        destruct xs; reflexivity.
      * cbn [rev]. rewrite map_app. cbn [map fst]. rewrite <- app_assoc.
        cbn [app]. f_equal. cbn [collapse].
        apply Z.eqb_neq in Hne. rewrite Hne. reflexivity.
Qed.

Lemma atRest_collapse s d line done :
  map fst (atRest s d line done)
  = collapse (map (fun r => value (copies (board s) r)) (filter (onLine s d line) done)).
Proof. unfold atRest. now rewrite arrive_collapse. Qed.

Lemma atRest_snoc_other s d line done t :
  onLine s d line t = false -> atRest s d line (done ++ [t]) = atRest s d line done.
Proof. intros H. unfold atRest. rewrite filter_app. simpl. rewrite H. now rewrite app_nil_r. Qed.

Lemma atRest_snoc s d line done t :
  onLine s d line t = true ->
  atRest s d line (done ++ [t])
  = rev (arrive (rev (atRest s d line done)) (value (copies (board s) t))).
Proof.
  intros H. unfold atRest. rewrite filter_app. simpl. rewrite H.
  rewrite map_app, fold_left_app. simpl. now rewrite rev_involutive.
Qed.

Lemma walk_passed fuel h refs d gs x : forall r c halt,
  walk fuel h refs d gs x r c = Some halt -> passed h refs d r c halt.
Proof.
  induction fuel as [| fuel IH]; intros r c halt H; simpl in H; [discriminate |].
  assert (Hback : key d (r + dRow d - dRow d, c + dCol d - dCol d) = key d (r, c)).
  { f_equal. f_equal; lia. }
  assert (Hnext : key d (r + dRow d, c + dCol d) = key d (r, c) - 1).
  { rewrite <- (key_step d r c 1). f_equal. f_equal; lia. }
  destruct (outside gs (r + dRow d) (c + dCol d)) eqn:Eout.
  - inversion H; subst. intros i Hi Hkey. rewrite Hback in Hkey. lia.
  - destruct (findAt h refs (r + dRow d) (c + dCol d)) as [target |] eqn:Efind.
    + destruct ((value (h target) =? x) && negb (truthy (justMerged (h target)))).
      * inversion H; subst. intros i Hi Hkey. rewrite Hnext in Hkey. lia.
      * inversion H; subst. intros i Hi Hkey. rewrite Hback in Hkey. lia.
    + apply IH in H. intros i Hi Hkey.
      destruct (Z.eq_dec i 1) as [-> | Hne].
      * rewrite <- Efind. f_equal; lia.
      * replace (r + i * dRow d) with (r + dRow d + (i - 1) * dRow d) by lia.
        replace (c + i * dCol d) with (c + dCol d + (i - 1) * dCol d) by lia.
        apply H; [lia |]. rewrite Hnext.
        destruct halt; lia.
Qed.

Lemma moveTile_trace s d fuel v t v' :
  moveTile s d fuel v t = Some v' ->
  exists halt,
    halted (heap v) (newBoard v) d (gridSize s) (value (heap v t))
           (row (heap v t)) (col (heap v t)) halt
    /\ passed (heap v) (newBoard v) d (row (heap v t)) (col (heap v t)) halt
    /\ match halt with
       | Rest r' c' =>
         v' = settle t (row (heap v t)) (col (heap v t)) r' c' v
       | Merge target r' c' =>
         v' = settle t (row (heap v t)) (col (heap v t)) r' c'
                (mergeInto s t target r' c' v)
       end.
Proof.
  unfold moveTile. intros H.
  destruct (walk fuel (heap v) (newBoard v) d (gridSize s) (value (heap v t))
                 (row (heap v t)) (col (heap v t))) as [halt |] eqn:W; [| discriminate].
  exists halt. split; [now apply walk_halted in W |].
  split; [now apply walk_passed in W |].
  destruct halt; now inversion H.
Qed.

Lemma nth_error_snoc {A : Type} (l : list A) (a b : A) j :
  nth_error (l ++ [a]) j = Some b ->
  ((j < length l)%nat /\ nth_error l j = Some b) \/ (j = length l /\ a = b).
Proof.
  intros H. destruct (Nat.lt_ge_cases j (length l)) as [Hlt | Hge].
  - left. split; [assumption |]. now rewrite nth_error_app1 in H.
  - right. rewrite nth_error_app2 in H by assumption.
    destruct (j - length l)%nat as [| i] eqn:E; simpl in H.
    + split; [lia | congruence].
    + destruct i; discriminate.
Qed.

Lemma nth_error_last {A : Type} (l : list A) (a : A) :
  nth_error (l ++ [a]) (length l) = Some a.
Proof. rewrite nth_error_app2 by lia. now rewrite Nat.sub_diag. Qed.

Lemma wall_distance d gs r c :
  onGrid gs r c -> outside gs (r + dRow d) (c + dCol d) = true ->
  distance d gs (r, c) = 0.
Proof.
  intros Hon Hout. destruct (Z.eq_dec (distance d gs (r, c)) 0) as [E | Hne];
    [assumption | exfalso].
  assert (Hin : onGrid gs (r + dRow d) (c + dCol d)).
  { unfold onGrid, distance in *. destruct d; simpl in *; lia. }
  apply outside_false in Hin. congruence.
Qed.

Lemma cells_distinct s v u w :
  wfInv s v -> In u (newBoard v) -> In w (newBoard v) ->
  cell (heap v u) = cell (heap v w) -> u = w.
Proof.
  intros [[Hcells _] _] Hu Hw E.
  apply (NoDup_map_eq (fun r => cell (heap v r)) (newBoard v)); auto.
  unfold resolvedBoard, tilesOf in Hcells. now rewrite map_map in Hcells.
Qed.

Lemma sortsTo_keys s d order :
  sortsTo s d order ->
  StronglySorted
    (fun a b => key d (cell (copies (board s) a)) <= key d (cell (copies (board s) b)))
    order.
Proof.
  intros [_ H]. induction H as [| a l _ IH Hall]; constructor; [assumption |].
  rewrite Forall_forall in *. intros b Hb. specialize (Hall b Hb).
  rewrite compareTiles_key in Hall. lia.
Qed.

(** The sort of the model is one such sort. *)
Lemma sortedTiles_sortsTo s d : sortsTo s d (sortedTiles s d).
Proof.
  split; [apply sortedTiles_perm |].
  pose proof (sortedTiles_sorted s d) as H.
  induction H as [| a l _ IH Hall]; constructor; [assumption |].
  rewrite Forall_forall in *. intros b Hb. specialize (Hall b Hb).
  rewrite compareTiles_key. lia.
Qed.

Lemma loopInv_sorted s d order : sortsTo s d order -> loopInv s d (enter s) order.
Proof.
  intros Hsorts. pose proof Hsorts as [Hperm _].
  split; [| split; [apply tilesInv_enter |
                    split; [apply mergersInv_enter | apply wfInv_enter]]].
  unfold refsInv, enter. simpl.
  split; [now apply sortsTo_keys |].
  split; [apply (Permutation_NoDup Hperm), seq_NoDup |].
  split.
  - intros u Hu. apply (Permutation_in _ (Permutation_sym Hperm)) in Hu.
    split; [apply in_seq in Hu; lia | auto].
  - split; [lia |]. split; [| apply seq_NoDup].
    intros t Ht. apply in_seq in Ht. lia.
Qed.

Lemma linesInv_enter s d order :
  sortsTo s d order -> linesInv s d order (enter s) order.
Proof.
  intros [Hperm _].
  exists []. split; [reflexivity |]. intros line. split.
  - intros j y f H. unfold atRest in H. simpl in H. now destruct j.
  - intros u Hu Hnot. exfalso. apply Hnot.
    apply (Permutation_in _ Hperm). exact Hu.
Qed.

Lemma tile_onGrid s v u :
  wfInv s v -> In u (newBoard v) -> onGrid (gridSize s) (row (heap v u)) (col (heap v u)).
Proof.
  intros [[_ Hgrid] _] Hu. rewrite Forall_forall in Hgrid. apply Hgrid.
  unfold resolvedBoard, tilesOf. now apply in_map.
Qed.

(** Where a tile comes to rest: on the first cell of its line past the
    tiles at rest, the last of which does not merge with it. *)
Lemma rest_lands s d v t rest out r' c' :
  refsInv s d v (t :: rest) -> wfInv s v ->
  lineAt s d v (t :: rest) (lineOf d (cell (heap v t))) out ->
  halted (heap v) (newBoard v) d (gridSize s) (value (heap v t))
         (row (heap v t)) (col (heap v t)) (Rest r' c') ->
  (r', c') = lineCell d (gridSize s) (lineOf d (cell (heap v t))) (Z.of_nat (length out))
  /\ arrive (rev out) (value (heap v t)) = (value (heap v t), false) :: rev out.
Proof.
  intros Hrefs Hwf [Hin Hout] [k [Hk [Hr [Hc [Hfree Hahead]]]]].
  pose proof Hrefs as [_ [Hnd [Hrest _]]].
  destruct (Hrest t (or_introl eq_refl)) as [_ [Htin _]].
  apply NoDup_cons_iff in Hnd. destruct Hnd as [Hnotin _].
  set (line := lineOf d (cell (heap v t))) in *.
  assert (Hline : lineOf d (r', c') = line).
  { rewrite Hr, Hc. apply lineOf_step. }
  assert (Hon : onGrid (gridSize s) r' c').
  { destruct (Z.eq_dec k 0) as [-> | Hne].
    - replace r' with (row (heap v t)) by lia. replace c' with (col (heap v t)) by lia.
      now apply tile_onGrid.
    - apply Hfree. lia. }
  pose proof (distance_onGrid d (gridSize s) (r', c') Hon) as Hdist.
  assert (Hfreecell : forall u, In u (newBoard v) -> ~ In u (t :: rest) ->
                        cell (heap v u) <> (r', c')).
  { intros u Hu Hnot E. destruct (Z.eq_dec k 0) as [-> | Hne].
    - apply Hnot. left. symmetry.
      apply (cells_distinct s v u t Hwf Hu Htin). rewrite E. unfold cell. f_equal; lia.
    - destruct Hfree as [_ Hnone]; [lia |].
      exact (findAt_none _ _ _ _ Hnone u Hu E). }
  assert (Hlow : Z.of_nat (length out) <= distance d (gridSize s) (r', c')).
  { destruct (Z_le_gt_dec (Z.of_nat (length out)) (distance d (gridSize s) (r', c')))
      as [Hle | Hgt]; [assumption | exfalso].
    destruct (nth_error out (Z.to_nat (distance d (gridSize s) (r', c'))))
      as [[y f] |] eqn:E.
    - destruct (Hin _ _ _ E) as [u [Hu [Hnot [Hcell _]]]].
      apply (Hfreecell u Hu Hnot). rewrite Hcell, Z2Nat.id by lia.
      rewrite <- Hline. apply lineCell_spec.
    - apply nth_error_None in E. lia. }
  assert (Hhigh : distance d (gridSize s) (r', c') <= Z.of_nat (length out)
                  /\ arrive (rev out) (value (heap v t))
                     = (value (heap v t), false) :: rev out).
  { destruct Hahead as [Hwall | [Hnext [target [Hfind Hblocks]]]].
    - pose proof (wall_distance d (gridSize s) r' c' Hon Hwall) as Hzero.
      split; [lia |].
      assert (Hnil : out = []).
      { destruct out as [| a out']; [reflexivity |]. simpl in Hlow. lia. }
      rewrite Hnil. reflexivity.
    - apply findAt_some in Hfind. destruct Hfind as [Htarget Hcell].
      destruct (target_settled s d v t rest target (r' + dRow d) (c' + dCol d)
                  (k + 1) Hrefs ltac:(lia) ltac:(lia) ltac:(lia) Hcell)
        as [Hneq Hnotrest].
      assert (Hnot : ~ In target (t :: rest)).
      { intros [E | E]; [congruence | contradiction]. }
      assert (Htline : lineOf d (cell (heap v target)) = line).
      { rewrite Hcell. rewrite <- Hline.
        replace (r' + dRow d) with (r' + 1 * dRow d) by lia.
        replace (c' + dCol d) with (c' + 1 * dCol d) by lia.
        apply lineOf_step. }
      destruct (Hout target Htarget Hnot Htline) as [j [Hj Hjcell]].
      assert (Hjdist : distance d (gridSize s) (r', c') - 1 = Z.of_nat j).
      { rewrite <- (distance_lineCell d (gridSize s) line (Z.of_nat j)).
        rewrite <- Hjcell, Hcell.
        replace (r' + dRow d) with (r' + 1 * dRow d) by lia.
        replace (c' + dCol d) with (c' + 1 * dCol d) by lia.
        now rewrite distance_step. }
      split; [lia |].
      assert (Hm : distance d (gridSize s) (r', c') = Z.of_nat (length out)) by lia.
      assert (Hjlast : S j = length out) by lia.
      destruct (rev out) as [| [y f] before] eqn:Erev.
      + reflexivity.
      + assert (Eout : out = rev before ++ [(y, f)]).
        { rewrite <- (rev_involutive out), Erev. reflexivity. }
        assert (Hnth : nth_error out j = Some (y, f)).
        { rewrite Eout. rewrite Eout, length_app, length_rev in Hjlast.
          simpl in Hjlast. replace j with (length (rev before)).
          - apply nth_error_last.
          - rewrite length_rev. lia. }
        destruct (Hin _ _ _ Hnth) as [u [Hu [_ [Hucell [Hval Hflag]]]]].
        assert (u = target).
        { apply (cells_distinct s v u target Hwf Hu Htarget). congruence. }
        subst u. unfold blocks in Hblocks. rewrite Hval, Hflag in Hblocks.
        unfold arrive. destruct f; [reflexivity |].
        simpl in Hblocks. rewrite andb_true_r in Hblocks. now rewrite Hblocks. }
  destruct Hhigh as [Hhigh Harrive]. split; [| assumption].
  replace (Z.of_nat (length out)) with (distance d (gridSize s) (r', c')) by lia.
  rewrite <- Hline. symmetry. apply lineCell_spec.
Qed.

(** Where a tile merges: into the last of the tiles at rest on its
    line, which has its value and has not merged. *)
Lemma merge_lands s d v t rest out target r' c' :
  refsInv s d v (t :: rest) -> wfInv s v ->
  lineAt s d v (t :: rest) (lineOf d (cell (heap v t))) out ->
  halted (heap v) (newBoard v) d (gridSize s) (value (heap v t))
         (row (heap v t)) (col (heap v t)) (Merge target r' c') ->
  passed (heap v) (newBoard v) d (row (heap v t)) (col (heap v t))
         (Merge target r' c') ->
  exists before,
    out = rev before ++ [(value (heap v t), false)]
    /\ (r', c') = lineCell d (gridSize s) (lineOf d (cell (heap v t)))
                    (Z.of_nat (length before)).
Proof.
  intros Hrefs Hwf [Hin Hout] [k [Hk [Hr [Hc [Hon [Hfind [Hval Hflag]]]]]]] Hpassed.
  pose proof Hrefs as [_ [Hnd [Hrest _]]].
  destruct (Hrest t (or_introl eq_refl)) as [_ [Htin _]].
  set (line := lineOf d (cell (heap v t))) in *.
  assert (Hline : lineOf d (r', c') = line).
  { rewrite Hr, Hc. apply lineOf_step. }
  apply findAt_some in Hfind. destruct Hfind as [Htarget Hcell].
  destruct (target_settled s d v t rest target r' c' k Hrefs Hk Hr Hc Hcell)
    as [Hneq Hnotrest].
  assert (Hnot : ~ In target (t :: rest)).
  { intros [E | E]; [congruence | contradiction]. }
  assert (Htline : lineOf d (cell (heap v target)) = line) by now rewrite Hcell.
  destruct (Hout target Htarget Hnot Htline) as [j [Hj Hjcell]].
  assert (Hjdist : distance d (gridSize s) (r', c') = Z.of_nat j).
  { rewrite <- (distance_lineCell d (gridSize s) line (Z.of_nat j)).
    now rewrite <- Hjcell, Hcell. }
  assert (Hlast : S j = length out).
  { destruct (Nat.eq_dec (S j) (length out)) as [E | Hne]; [assumption | exfalso].
    destruct (nth_error out (S j)) as [[y f] |] eqn:E.
    - destruct (Hin _ _ _ E) as [u [Hu [Hunot [Hucell _]]]].
      assert (Hback : cell (heap v u)
                      = (row (heap v t) + (k - 1) * dRow d,
                         col (heap v t) + (k - 1) * dCol d)).
      { rewrite Hucell.
        rewrite <- (lineCell_spec d (gridSize s)
                      (row (heap v t) + (k - 1) * dRow d,
                       col (heap v t) + (k - 1) * dCol d)).
        rewrite lineOf_step, distance_step. f_equal.
        rewrite Hr, Hc, distance_step in Hjdist. lia. }
      destruct (Z.eq_dec k 1) as [-> | Hk1].
      + apply Hunot. left. symmetry.
        apply (cells_distinct s v u t Hwf Hu Htin). rewrite Hback.
        unfold cell. f_equal; lia.
      + assert (Hnone : findAt (heap v) (newBoard v)
                          (row (heap v t) + (k - 1) * dRow d)
                          (col (heap v t) + (k - 1) * dCol d) = None).
        { apply Hpassed; [lia |]. rewrite Hr, Hc, key_step. lia. }
        exact (findAt_none _ _ _ _ Hnone u Hu Hback).
    - apply nth_error_None in E. lia. }
  destruct (rev out) as [| [y f] before] eqn:Erev.
  { destruct out; [simpl in Hlast; lia |].
    apply (f_equal (@length _)) in Erev. rewrite length_rev in Erev. discriminate. }
  assert (Eout : out = rev before ++ [(y, f)]).
  { rewrite <- (rev_involutive out), Erev. reflexivity. }
  assert (Hlen : length (rev before) = j).
  { rewrite Eout, length_app in Hlast. simpl in Hlast. lia. }
  assert (Hnth : nth_error out j = Some (y, f)).
  { rewrite Eout, <- Hlen. apply nth_error_last. }
  destruct (Hin _ _ _ Hnth) as [u [Hu [_ [Hucell [Hy Hf]]]]].
  assert (u = target).
  { apply (cells_distinct s v u target Hwf Hu Htarget). congruence. }
  subst u. exists before. split.
  - rewrite Eout. now rewrite <- Hy, <- Hf, Hval, Hflag.
  - rewrite length_rev in Hlen. rewrite Hlen, <- Hjdist, <- Hline.
    symmetry. apply lineCell_spec.
Qed.

Lemma linesInv_step s d order fuel v t rest v' :
  refsInv s d v (t :: rest) -> wfInv s v -> linesInv s d order v (t :: rest) ->
  moveTile s d fuel v t = Some v' -> linesInv s d order v' rest.
Proof.
  intros Hrefs Hwf [done [Hsorted Hlines]] Hmove.
  apply moveTile_trace in Hmove. destruct Hmove as [halt [Hhalt [Hpassed Hv']]].
  pose proof Hrefs as [_ [Hnd [Hrest [Hnext [Hbound _]]]]].
  destruct (Hrest t (or_introl eq_refl)) as [Htn [Htin Et]].
  apply NoDup_cons_iff in Hnd. destruct Hnd as [Hnotin _].
  assert (Hfresh : ~ In (next v) rest).
  { intros F. destruct (Hrest _ (or_intror F)) as [F' _]. lia. }
  exists (done ++ [t]). split; [rewrite Hsorted, <- app_assoc; reflexivity |].
  assert (Honline : forall line,
            onLine s d line t = true <-> line = lineOf d (cell (heap v t))).
  { intros line. unfold onLine. rewrite <- Et, Z.eqb_eq. split; congruence. }
  assert (Hflag : truthy (justMerged (heap v t)) = false).
  { rewrite Et, (copies_flag s t Htn). reflexivity. }
  pose proof (Hlines (lineOf d (cell (heap v t)))) as Hmine.
  intros line.
  destruct halt as [target r' c' | r' c']; subst v'.
  - (* the tile merges *)
    destruct (merge_lands s d v t rest _ target r' c' Hrefs Hwf Hmine Hhalt Hpassed)
      as [before [Eout Hcell']].
    destruct Hhalt as [k [Hk [Hr [Hc [Hon [Hfind [Hval Htflag]]]]]]].
    apply findAt_some in Hfind. destruct Hfind as [Htarget Hcell].
    destruct (target_settled s d v t rest target r' c' k Hrefs Hk Hr Hc Hcell)
      as [Hneq Hnotrest].
    assert (Hnt : next v <> t) by lia.
    assert (Hpushed :
              In (next v)
                 (newBoard (settle t (row (heap v t)) (col (heap v t)) r' c'
                              (mergeInto s t target r' c' v)))
              /\ heap (settle t (row (heap v t)) (col (heap v t)) r' c'
                         (mergeInto s t target r' c' v)) (next v)
                 = {| value := value (heap v t) * 2; id := id (heap v t);
                      justMerged := Some true; isNew := None;
                      row := r'; col := c' |}).
    { split.
      - rewrite settle_newBoard, mergeInto_newBoard. apply in_or_app. right. now left.
      - rewrite settle_heap_other by assumption.
        now rewrite mergeInto_heap, store_same. }
    destruct Hpushed as [Hpushed Hmerged].
    assert (Hkeep : forall w, In w (newBoard v) -> w <> target -> w <> t ->
              In w (newBoard (settle t (row (heap v t)) (col (heap v t)) r' c'
                                (mergeInto s t target r' c' v)))
              /\ heap (settle t (row (heap v t)) (col (heap v t)) r' c'
                         (mergeInto s t target r' c' v)) w = heap v w).
    { intros w Hw Hwtarget Hwt. split.
      - rewrite settle_newBoard, mergeInto_newBoard. apply in_or_app. left.
        apply filter_In. split; [assumption |].
        apply Nat.eqb_neq in Hwtarget, Hwt. now rewrite Hwtarget, Hwt.
      - rewrite settle_heap_other by assumption.
        rewrite mergeInto_heap. apply store_other.
        specialize (Hbound w Hw). lia. }
    assert (Hwas : forall u,
              In u (newBoard (settle t (row (heap v t)) (col (heap v t)) r' c'
                                (mergeInto s t target r' c' v))) ->
              u = next v \/ (In u (newBoard v) /\ u <> target /\ u <> t)).
    { intros u Hu. rewrite settle_newBoard, mergeInto_newBoard in Hu.
      apply in_app_or in Hu. destruct Hu as [Hu | [<- | []]]; [right | now left].
      apply filter_In in Hu. destruct Hu as [Hu Hkept].
      apply andb_true_iff in Hkept. destruct Hkept as [Hut Hutile].
      apply negb_true_iff, Nat.eqb_neq in Hut, Hutile. auto. }
    destruct (Z.eq_dec line (lineOf d (cell (heap v t)))) as [-> | Hother].
    + rewrite atRest_snoc by now apply Honline.
      rewrite Eout, rev_app_distr, rev_involutive, <- Et. cbn [rev app arrive].
      rewrite Z.eqb_refl. cbn [rev].
      destruct Hmine as [Hin Hout]. rewrite Eout in Hin, Hout. split.
      * intros j y f Hnth. apply nth_error_snoc in Hnth.
        destruct Hnth as [[Hj Hnth] | [-> E]].
        -- destruct (Hin j y f) as [u [Hu [Hunot [Hucell [Hy Hf]]]]].
           { now rewrite nth_error_app1. }
           assert (Hut : u <> t) by (intros E; apply Hunot; now left).
           assert (Hutarget : u <> target).
           { intros E. subst u. rewrite Hcell, Hcell' in Hucell.
             apply lineCell_inj in Hucell. rewrite length_rev in Hj. lia. }
           destruct (Hkeep u Hu Hutarget Hut) as [Hu' Eu].
           exists u. rewrite Eu. repeat split; try assumption.
           intros F. apply Hunot. now right.
        -- inversion E; subst y f. exists (next v). rewrite Hmerged.
           split; [assumption |]. split; [assumption |].
           rewrite length_rev. unfold cell. simpl. auto.
      * intros u Hu Hunot Hline. destruct (Hwas u Hu) as [-> | [Hu' [Hutarget Hut]]].
        -- exists (length (rev before)). rewrite length_app. simpl.
           split; [lia |]. rewrite Hmerged, length_rev. unfold cell. simpl. auto.
        -- destruct (Hkeep u Hu' Hutarget Hut) as [_ Eu]. rewrite Eu in *.
           destruct (Hout u Hu') as [j [Hj Hjcell]]; [| assumption |].
           { intros [E | E]; [congruence | contradiction]. }
           exists j. rewrite length_app in *. simpl in *. auto.
    + assert (E : onLine s d line t = false).
      { destruct (onLine s d line t) eqn:E; [| reflexivity].
        apply Honline in E. contradiction. }
      rewrite (atRest_snoc_other s d line done t E).
      destruct (Hlines line) as [Hin Hout]. split.
      * intros j y f Hnth.
        destruct (Hin j y f Hnth) as [u [Hu [Hunot [Hucell [Hy Hf]]]]].
        assert (Hut : u <> t) by (intros F; apply Hunot; now left).
        assert (Hutarget : u <> target).
        { intros F. subst u. apply Hother.
          rewrite <- (lineOf_lineCell d (gridSize s) line (Z.of_nat j)).
          rewrite <- Hucell, Hcell, Hr, Hc. apply lineOf_step. }
        destruct (Hkeep u Hu Hutarget Hut) as [Hu' Eu].
        exists u. rewrite Eu. repeat split; try assumption.
        intros F. apply Hunot. now right.
      * intros u Hu Hunot Hline. destruct (Hwas u Hu) as [-> | [Hu' [Hutarget Hut]]].
        -- exfalso. apply Hother. rewrite <- Hline, Hmerged. unfold cell. simpl.
           rewrite Hr, Hc. apply lineOf_step.
        -- destruct (Hkeep u Hu' Hutarget Hut) as [_ Eu]. rewrite Eu in *.
           apply (Hout u Hu'); [| assumption].
           intros [F | F]; [congruence | contradiction].
  - (* the tile comes to rest *)
    destruct (rest_lands s d v t rest _ r' c' Hrefs Hwf Hmine Hhalt)
      as [Hcell' Harrive].
    destruct Hhalt as [k [Hk [Hr [Hc _]]]].
    assert (Hself : heap (settle t (row (heap v t)) (col (heap v t)) r' c' v) t
                    = setPosition (heap v t) r' c') by apply settle_heap_self.
    destruct (Z.eq_dec line (lineOf d (cell (heap v t)))) as [-> | Hother].
    + rewrite atRest_snoc by now apply Honline.
      rewrite <- Et, Harrive. cbn [rev]. rewrite rev_involutive.
      destruct Hmine as [Hin Hout]. split.
      * intros j y f Hnth. apply nth_error_snoc in Hnth.
        destruct Hnth as [[Hj Hnth] | [-> E]].
        -- destruct (Hin j y f Hnth) as [u [Hu [Hunot [Hucell [Hy Hf]]]]].
           assert (Hut : u <> t) by (intros E; apply Hunot; now left).
           exists u. rewrite settle_newBoard, settle_heap_other by assumption.
           repeat split; try assumption. intros F. apply Hunot. now right.
        -- inversion E; subst y f. exists t. rewrite settle_newBoard, Hself.
           split; [assumption |]. split; [assumption |].
           unfold cell. simpl. auto.
      * intros u Hu Hunot Hline. rewrite settle_newBoard in Hu.
        rewrite length_app. simpl.
        destruct (Nat.eq_dec u t) as [-> | Hut].
        -- exists (length (atRest s d (lineOf d (cell (heap v t))) done)).
           split; [lia |]. rewrite Hself. unfold cell. simpl. auto.
        -- rewrite settle_heap_other in * by assumption.
           destruct (Hout u Hu) as [j [Hj Hjcell]]; [| assumption |].
           { intros [E | E]; [congruence | contradiction]. }
           exists j. split; [lia | assumption].
    + assert (E : onLine s d line t = false).
      { destruct (onLine s d line t) eqn:E; [| reflexivity].
        apply Honline in E. contradiction. }
      rewrite (atRest_snoc_other s d line done t E).
      destruct (Hlines line) as [Hin Hout]. split.
      * intros j y f Hnth.
        destruct (Hin j y f Hnth) as [u [Hu [Hunot [Hucell [Hy Hf]]]]].
        assert (Hut : u <> t) by (intros F; apply Hunot; now left).
        exists u. rewrite settle_newBoard, settle_heap_other by assumption.
        repeat split; try assumption. intros F. apply Hunot. now right.
      * intros u Hu Hunot Hline. rewrite settle_newBoard in Hu.
        destruct (Nat.eq_dec u t) as [-> | Hut].
        -- exfalso. apply Hother. rewrite <- Hline, Hself. unfold cell. simpl.
           rewrite Hr, Hc. apply lineOf_step.
        -- rewrite settle_heap_other in * by assumption.
           apply (Hout u Hu); [| assumption].
           intros [F | F]; [congruence | contradiction].
Qed.

Lemma loop_linesInv s d order fuel v :
  wellFormed (gridSize s) (board s) -> sortsTo s d order ->
  forEachTile s d fuel (enter s) order = Some v ->
  loopInv s d v []
  /\ wfInv s v /\ forall line, lineAt s d v [] line (atRest s d line order).
Proof.
  intros Hwf Hsorts H.
  assert (Hinv : loopInv s d v [] /\ linesInv s d order v []).
  { refine (forEachTile_inv s d _
              (fun v rest => loopInv s d v rest /\ linesInv s d order v rest)
              _ order (enter s) v _ H).
    - intros v0 t rest v' [Hloop Hlines] Hmove. split.
      + eapply loopInv_step; eauto.
      + destruct Hloop as [Hrefs [_ [_ Hboard]]].
        eapply linesInv_step; eauto.
    - split; [now apply loopInv_sorted | now apply linesInv_enter]. }
  destruct Hinv as [Hloop [done [Hsorted Hlines]]].
  split; [assumption |].
  destruct Hloop as [_ [_ [_ Hboard]]].
  split; [now apply Hboard |].
  rewrite app_nil_r in Hsorted. now rewrite Hsorted.
Qed.

Lemma resolve_linesInv s d v :
  wellFormed (gridSize s) (board s) -> resolve s d = Some v ->
  wfInv s v /\ forall line, lineAt s d v [] line (atRest s d line (sortedTiles s d)).
Proof.
  intros Hwf H.
  exact (proj2 (loop_linesInv s d _ _ v Hwf (sortedTiles_sortsTo s d) H)).
Qed.

(** The only tile on its cell. *)
Lemma filter_cell board c x :
  NoDup (map cell board) -> In x board -> cell x = c ->
  filter (cellIs c) board = [x].
Proof.
  intros Hnd Hx Hc. induction board as [| y board IH]; [contradiction |].
  simpl in Hnd. apply NoDup_cons_iff in Hnd. destruct Hnd as [Hy Hnd]. simpl.
  assert (Hnone : forall l, (forall z, In z l -> cell z <> c) -> filter (cellIs c) l = []).
  { induction l as [| z l IHl]; intros H; simpl; [reflexivity |].
    destruct (cellIs c z) eqn:E.
    - apply cellIs_true in E. exfalso. apply (H z); [now left | assumption].
    - apply IHl. intros w Hw. apply H. now right. }
  destruct Hx as [-> | Hx].
  - assert (E : cellIs c x = true) by now apply cellIs_true.
    rewrite E. f_equal. apply Hnone. intros z Hz Hzc. apply Hy.
    rewrite Hc, <- Hzc. now apply in_map.
  - assert (E : cellIs c y = false).
    { destruct (cellIs c y) eqn:E; [| reflexivity]. apply cellIs_true in E.
      exfalso. apply Hy. rewrite E, <- Hc. now apply in_map. }
    rewrite E. now apply IH.
Qed.

Lemma filter_no_cell board c :
  (forall x, In x board -> cell x <> c) -> filter (cellIs c) board = [].
Proof.
  induction board as [| z l IHl]; intros H; simpl; [reflexivity |].
  destruct (cellIs c z) eqn:E.
  - apply cellIs_true in E. exfalso. apply (H z); [now left | assumption].
  - apply IHl. intros w Hw. apply H. now right.
Qed.

(** The tile of the resolved board at a distance from the wall. *)
Lemma lineAt_cell s d v line out j :
  wfInv s v -> lineAt s d v [] line out ->
  map value (filter (cellIs (lineCell d (gridSize s) line (Z.of_nat j)))
                    (resolvedBoard v))
  = match nth_error (map fst out) j with
    | Some x => [x]
    | None => []
    end.
Proof.
  intros Hwf [Hin Hout]. rewrite nth_error_map.
  destruct (nth_error out j) as [[y f] |] eqn:E; simpl.
  - destruct (Hin j y f E) as [u [Hu [_ [Hcell [Hy _]]]]].
    rewrite (filter_cell _ _ (heap v u)); [simpl; now rewrite Hy | | | assumption].
    + now destruct Hwf as [[Hcells _] _].
    + unfold resolvedBoard, tilesOf. now apply in_map.
  - rewrite filter_no_cell; [reflexivity |].
    intros x Hx Hcell. unfold resolvedBoard, tilesOf in Hx.
    apply in_map_iff in Hx. destruct Hx as [u [<- Hu]].
    destruct (Hout u Hu (fun F => F)) as [j' [Hj' Hcell']].
    { rewrite Hcell. apply lineOf_lineCell. }
    rewrite Hcell in Hcell'. apply lineCell_inj in Hcell'.
    apply nth_error_None in E. lia.
Qed.

Lemma firstn_next {A : Type} (l : list A) k :
  firstn (S k) l
  = firstn k l ++ match nth_error l k with Some x => [x] | None => [] end.
Proof.
  revert l. induction k as [| k IH]; intros [| a l]; simpl; try reflexivity.
  - f_equal. specialize (IH l). simpl in IH. exact IH.
Qed.

(** A list read entry by entry. *)
Lemma read_entries {A : Type} (l : list A) (n : Z) :
  Z.of_nat (length l) <= n ->
  flat_map (fun j => match nth_error l (Z.to_nat j) with
                     | Some x => [x]
                     | None => []
                     end) (upto n) = l.
Proof.
  intros Hlen. unfold upto.
  assert (H : forall k,
            flat_map (fun j => match nth_error l (Z.to_nat j) with
                               | Some x => [x]
                               | None => []
                               end) (map Z.of_nat (seq 0 k)) = firstn k l).
  { induction k as [| k IH]; [reflexivity |].
    rewrite seq_S, map_app, flat_map_app, IH, firstn_next. simpl.
    now rewrite Nat2Z.id, app_nil_r. }
  rewrite H. apply firstn_all2. lia.
Qed.

Lemma flat_map_agree {A B : Type} (f g : A -> list B) (l : list A) :
  (forall a, In a l -> f a = g a) -> flat_map f l = flat_map g l.
Proof.
  induction l as [| a l IH]; intros H; simpl; [reflexivity |].
  rewrite (H a (or_introl eq_refl)), IH; [reflexivity |].
  intros b Hb. apply H. now right.
Qed.

Lemma lineValues_resolved s d v line out :
  wfInv s v -> lineAt s d v [] line out ->
  lineValues d (gridSize s) (resolvedBoard v) line = map fst out.
Proof.
  intros Hwf Hline. unfold lineValues.
  assert (Hlen : Z.of_nat (length (map fst out)) <= gridSize s \/ out = []).
  { destruct (rev out) as [| [y f] before] eqn:Erev.
    - right. rewrite <- (rev_involutive out), Erev. reflexivity.
    - left. assert (Eout : out = rev before ++ [(y, f)]).
      { rewrite <- (rev_involutive out), Erev. reflexivity. }
      destruct Hline as [Hin _].
      destruct (Hin (length (rev before)) y f) as [u [Hu [_ [Hcell _]]]].
      { rewrite Eout. apply nth_error_last. }
      pose proof (distance_onGrid d (gridSize s) (cell (heap v u))
                    (tile_onGrid s v u Hwf Hu)) as Hon.
      rewrite Hcell, distance_lineCell in Hon.
      rewrite length_map, Eout, length_app. simpl. lia. }
  rewrite <- (read_entries (map fst out) (Z.max (gridSize s) 0)) at 1.
  - unfold upto. replace (Z.to_nat (Z.max (gridSize s) 0)) with (Z.to_nat (gridSize s))
      by lia.
    apply flat_map_agree. intros j Hj. apply in_map_iff in Hj.
    destruct Hj as [i [<- _]]. rewrite Nat2Z.id. now apply lineAt_cell.
  - destruct Hlen as [Hlen | ->]; simpl; lia.
Qed.

Section Enumerate.
Context {A B : Type} (f : A -> Z) (g : A -> B).

Lemma filter_nothing (p : A -> bool) xs :
  (forall a, In a xs -> p a = false) -> filter p xs = [].
Proof.
  induction xs as [| a xs IH]; intros H; simpl; [reflexivity |].
  rewrite (H a (or_introl eq_refl)). apply IH. intros b Hb. apply H. now right.
Qed.

Lemma filter_everything (p : A -> bool) xs :
  (forall a, In a xs -> p a = true) -> filter p xs = xs.
Proof.
  induction xs as [| a xs IH]; intros H; simpl; [reflexivity |].
  rewrite (H a (or_introl eq_refl)). f_equal. apply IH. intros b Hb. apply H. now right.
Qed.

Lemma below_split xs k :
  StronglySorted (fun a b => f a <= f b) xs ->
  filter (fun a => f a <? k + 1) xs
  = filter (fun a => f a <? k) xs ++ filter (fun a => f a =? k) xs.
Proof.
  induction 1 as [| a xs Hs IH Hall]; simpl; [reflexivity |].
  rewrite Forall_forall in Hall.
  destruct (Z.ltb_spec (f a) k) as [Hlt | Hge].
  - replace (f a <? k + 1) with true by (symmetry; apply Z.ltb_lt; lia).
    replace (f a =? k) with false by (symmetry; apply Z.eqb_neq; lia).
    simpl. now rewrite IH.
  - destruct (Z.eqb_spec (f a) k) as [Heq | Hne].
    + replace (f a <? k + 1) with true by (symmetry; apply Z.ltb_lt; lia).
      rewrite IH. rewrite (filter_nothing (fun a => f a <? k) xs); [reflexivity |].
      intros b Hb. apply Z.ltb_ge. specialize (Hall b Hb). lia.
    + replace (f a <? k + 1) with false by (symmetry; apply Z.ltb_ge; lia).
      exact IH.
Qed.

(** A list that is sorted on [f] is read off by the values of [f]. *)
Lemma sorted_enumerate xs n :
  StronglySorted (fun a b => f a <= f b) xs ->
  (forall a, In a xs -> 0 <= f a < n) ->
  flat_map (fun j => map g (filter (fun a => f a =? j) xs)) (upto n) = map g xs.
Proof.
  intros Hsorted Hrange. unfold upto.
  assert (H : forall k,
            flat_map (fun j => map g (filter (fun a => f a =? j) xs))
                     (map Z.of_nat (seq 0 k))
            = map g (filter (fun a => f a <? Z.of_nat k) xs)).
  { induction k as [| k IH].
    - simpl. rewrite filter_nothing; [reflexivity |].
      intros a Ha. apply Z.ltb_ge. specialize (Hrange a Ha). lia.
    - rewrite seq_S, map_app, flat_map_app, IH. simpl. rewrite app_nil_r.
      rewrite <- map_app. f_equal.
      replace (fun a => f a <? Z.pos (Pos.of_succ_nat k))
        with (fun a => f a <? Z.of_nat k + 1).
      + symmetry. now apply below_split.
      + replace (Z.pos (Pos.of_succ_nat k)) with (Z.of_nat k + 1) by lia. reflexivity. }
  rewrite H. f_equal. apply filter_everything.
  intros a Ha. apply Z.ltb_lt. specialize (Hrange a Ha). lia.
Qed.

Lemma sorted_filter (p : A -> bool) xs :
  StronglySorted (fun a b => f a <= f b) xs ->
  StronglySorted (fun a b => f a <= f b) (filter p xs).
Proof.
  induction 1 as [| a xs Hs IH Hall]; simpl; [constructor |].
  destruct (p a); [| assumption]. constructor; [assumption |].
  rewrite Forall_forall in *. intros b Hb. apply filter_In in Hb. now apply Hall.
Qed.
End Enumerate.

Lemma cellIs_lineCell d gs line j u :
  cellIs (lineCell d gs line j) u
  = (lineOf d (cell u) =? line) && (distance d gs (cell u) =? j).
Proof.
  unfold cellIs, lineCell, lineOf, distance, cell. destruct d; simpl.
  - rewrite andb_comm. reflexivity.
  - rewrite andb_comm. f_equal.
    destruct (Z.eqb_spec (row u) (gs - 1 - j)), (Z.eqb_spec (gs - 1 - row u) j);
      reflexivity || lia.
  - reflexivity.
  - f_equal.
    destruct (Z.eqb_spec (col u) (gs - 1 - j)), (Z.eqb_spec (gs - 1 - col u) j);
      reflexivity || lia.
Qed.

Lemma filter_twice {A : Type} (p q : A -> bool) l :
  filter p (filter q l) = filter (fun a => q a && p a) l.
Proof.
  induction l as [| a l IH]; simpl; [reflexivity |].
  destruct (q a); simpl; [destruct (p a) |]; now rewrite IH.
Qed.

Lemma filter_perm {A : Type} (p : A -> bool) l l' :
  Permutation l l' -> Permutation (filter p l) (filter p l').
Proof.
  induction 1 as [| a l l' _ IH | a b l | l l' l'' _ IH1 _ IH2]; simpl.
  - constructor.
  - destruct (p a); [now constructor | assumption].
  - destruct (p a), (p b); try apply Permutation_refl. apply perm_swap.
  - eapply Permutation_trans; eauto.
Qed.

Lemma short_perm {A : Type} (l l' : list A) :
  Permutation l l' -> (length l <= 1)%nat -> l' = l.
Proof.
  intros H Hlen. destruct l as [| a [| b l]]; simpl in Hlen; try lia.
  - now apply Permutation_nil.
  - now apply Permutation_length_1_inv.
Qed.

Lemma one_to_a_cell board c :
  NoDup (map cell board) -> (length (filter (cellIs c) board) <= 1)%nat.
Proof.
  induction board as [| x board IH]; intros Hnd; simpl; [lia |].
  simpl in Hnd. apply NoDup_cons_iff in Hnd. destruct Hnd as [Hx Hnd].
  destruct (cellIs c x) eqn:E; [| now apply IH].
  apply cellIs_true in E. rewrite filter_no_cell; [simpl; lia |].
  intros y Hy Hc. apply Hx. rewrite E, <- Hc. now apply in_map.
Qed.

Lemma filter_freshCopy c board :
  map value (filter (cellIs c) (map freshCopy board))
  = map value (filter (cellIs c) board).
Proof.
  induction board as [| x board IH]; simpl; [reflexivity |].
  assert (E : cellIs c (freshCopy x) = cellIs c x) by reflexivity.
  rewrite E. destruct (cellIs c x); simpl; now rewrite IH.
Qed.

Lemma sorted_by_distance s d order :
  sortsTo s d order ->
  StronglySorted
    (fun a b => distance d (gridSize s) (cell (copies (board s) a))
                <= distance d (gridSize s) (cell (copies (board s) b)))
    order.
Proof.
  intros Hsorts. pose proof (sortsTo_keys s d order Hsorts) as H. clear Hsorts.
  induction H as [| a l _ IH Hall]; constructor; [assumption |].
  rewrite Forall_forall in *. intros b Hb. specialize (Hall b Hb).
  pose proof (distance_key d (gridSize s) (cell (copies (board s) a))
                (cell (copies (board s) b))). lia.
Qed.

(** The values of a line of the board that the loop is entered with,
    in the order in which the loop takes its tiles. *)
Lemma lineValues_entered s d order line :
  wellFormed (gridSize s) (board s) -> sortsTo s d order ->
  map (fun r => value (copies (board s) r)) (filter (onLine s d line) order)
  = lineValues d (gridSize s) (board s) line.
Proof.
  intros [Hcells Hgrid] Hsorts. pose proof Hsorts as [Hperm _].
  rewrite <- (sorted_enumerate
                (fun r => distance d (gridSize s) (cell (copies (board s) r)))
                (fun r => value (copies (board s) r))
                (filter (onLine s d line) order) (gridSize s)).
  - unfold lineValues. apply flat_map_agree. intros j _.
    rewrite filter_twice.
    rewrite (filter_ext _ (fun r => cellIs (lineCell d (gridSize s) line j)
                                      (copies (board s) r)))
      by (intros r; unfold onLine; now rewrite cellIs_lineCell).
    assert (Hseq : map (fun r => value (copies (board s) r))
                     (filter (fun r => cellIs (lineCell d (gridSize s) line j)
                                         (copies (board s) r))
                             (seq 0 (length (board s))))
                   = map value (filter (cellIs (lineCell d (gridSize s) line j))
                                       (board s))).
    { rewrite <- filter_freshCopy, <- tilesOf_copies. unfold tilesOf.
      rewrite filter_map_swap, map_map. reflexivity. }
    rewrite <- Hseq. apply short_perm.
    + apply Permutation_map, filter_perm. exact Hperm.
    + rewrite Hseq, length_map. now apply one_to_a_cell.
  - now apply sorted_filter, sorted_by_distance.
  - intros r Hr. apply filter_In in Hr. destruct Hr as [Hr _].
    apply (Permutation_in _ (Permutation_sym Hperm)) in Hr. apply in_seq in Hr.
    destruct (copies_In (board s) r ltac:(lia)) as [tile [Htile ->]].
    rewrite Forall_forall in Hgrid. specialize (Hgrid tile Htile).
    apply (distance_onGrid d (gridSize s) (cell (freshCopy tile))). exact Hgrid.
Qed.

(** X18.  The rule of the game, line by line.  On a board that keeps
    its invariants, the loop of [move] does to every line what the game
    prescribes: the values of the tiles on the line, read from the wall
    that the tiles move to, are afterwards the values before with each
    value merged with the next one when the two are equal, a merged value
    never merging again ([collapse]); and the tiles stand on the first
    cells of the line from the wall on, the tile at the distance [j]
    holding the value of index [j]. *)
Theorem resolve_collapse s d :
  wellFormed (gridSize s) (board s) ->
  exists v,
    resolve s d = Some v
    /\ forall line,
         lineValues d (gridSize s) (resolvedBoard v) line
         = collapse (lineValues d (gridSize s) (board s) line)
         /\ forall j,
              map value (filter (cellIs (lineCell d (gridSize s) line (Z.of_nat j)))
                                (resolvedBoard v))
              = match nth_error (collapse (lineValues d (gridSize s) (board s) line)) j
                with
                | Some x => [x]
                | None => []
                end.
Proof.
  intros Hwf. destruct (resolve_total s d) as [v Hv]. exists v.
  split; [assumption |]. intros line.
  destruct (resolve_linesInv s d v Hwf Hv) as [Hwfv Hlines].
  rewrite <- (lineValues_entered s d _ line Hwf (sortedTiles_sortsTo s d)),
    <- atRest_collapse.
  split.
  - now apply lineValues_resolved.
  - intros j. now apply lineAt_cell.
Qed.

Lemma resolve_collapse_witness :
  exists v,
    resolve (playingOn (picture [[2; 2; 4; 4]; [0; 2; 2; 2]; [4; 0; 4; 8]]) []) Right
    = Some v
    /\ lineValues Right 4 (picture [[2; 2; 4; 4]; [0; 2; 2; 2]; [4; 0; 4; 8]]) 1
       = [2; 2; 2]
    /\ lineValues Right 4 (resolvedBoard v) 0 = [8; 4]
    /\ lineValues Right 4 (resolvedBoard v) 1 = [4; 2]
    /\ lineValues Right 4 (resolvedBoard v) 2 = [8; 8].
Proof.
  destruct (resolve_collapse
              (playingOn (picture [[2; 2; 4; 4]; [0; 2; 2; 2]; [4; 0; 4; 8]]) []) Right)
    as [v [Hv Hlines]].
  { unfold playingOn, picture. simpl. concrete_wellFormed. }
  exists v. split; [assumption |]. split; [reflexivity |].
  split; [| split].
  - refine (eq_trans (proj1 (Hlines 0)) _). reflexivity.
  - refine (eq_trans (proj1 (Hlines 1)) _). reflexivity.
  - refine (eq_trans (proj1 (Hlines 2)) _). reflexivity.
Defined.

(* ------------------------------------------------------------------ *)
(** ** No two tiles with one identifier *)

Lemma noDash_uint d : noDash (NilEmpty.string_of_uint d) = true.
Proof. induction d; simpl; auto. Qed.

Lemma noDash_showZ z : 0 <= z -> noDash (showZ z) = true.
Proof.
  intros Hz. unfold showZ. destruct z as [| p | p]; [reflexivity | | lia].
  simpl. unfold NilZero.string_of_uint.
  destruct (Pos.to_uint p) eqn:E; try reflexivity; rewrite <- E; apply noDash_uint.
Qed.

Lemma dash_split (a a' x x' : string) :
  noDash a = true -> noDash a' = true ->
  (a ++ "-" ++ x)%string = (a' ++ "-" ++ x')%string -> a = a' /\ x = x'.
Proof.
  revert a'. induction a as [| ch a IH]; intros [| ch' a'] Ha Ha' H; simpl in *.
  - inversion H. auto.
  - inversion H; subst ch'. discriminate.
  - inversion H; subst ch. discriminate.
  - inversion H; subst ch'.
    apply andb_prop in Ha, Ha'. destruct Ha as [_ Ha]. destruct Ha' as [_ Ha'].
    destruct (IH a' Ha Ha' H2) as [-> ->]. auto.
Qed.

Lemma showZ_inj a b : 0 <= a -> 0 <= b -> showZ a = showZ b -> a = b.
Proof.
  intros Ha Hb H. rewrite <- (readNat_showZ a Ha), <- (readNat_showZ b Hb).
  now rewrite H.
Qed.

Lemma tileId_inj r c time r' c' time' :
  0 <= r -> 0 <= c -> 0 <= time -> 0 <= r' -> 0 <= c' -> 0 <= time' ->
  tileId r c time = tileId r' c' time' -> r = r' /\ c = c' /\ time = time'.
Proof.
  intros Hr Hc Ht Hr' Hc' Ht' H. unfold tileId in H.
  apply dash_split in H; try now apply noDash_showZ.
  destruct H as [H1 H]. apply dash_split in H; try now apply noDash_showZ.
  destruct H as [H2 H3].
  repeat split; now apply showZ_inj.
Qed.

Lemma spawnTile_id gs board dr t :
  spawnTile gs board dr = Some t ->
  id t = tileId (row t) (col t) (now dr) /\ 0 <= row t /\ 0 <= col t.
Proof.
  intros H. pose proof (spawnTile_emptyCell _ _ _ _ H) as [[Hr Hc] _].
  unfold spawnTile in H.
  destruct (emptyTiles gs board) as [| p l]; [discriminate |].
  destruct (nth_error (p :: l) (pickIndex (cellDraw dr) (length (p :: l))))
    as [[r c] |]; [| discriminate].
  inversion H; subst. simpl in *. repeat split; lia || reflexivity.
Qed.

Lemma idsLoopInv_enter s : NoDup (map id (board s)) -> idsLoopInv s (enter s).
Proof.
  intros Hnd. unfold idsLoopInv, enter. simpl.
  assert (E : map (fun r => id (copies (board s) r)) (seq 0 (length (board s)))
              = map id (board s)).
  { rewrite <- (map_map (copies (board s)) id).
    fold (tilesOf (copies (board s)) (seq 0 (length (board s)))).
    rewrite tilesOf_copies, map_map. reflexivity. }
  split; [now rewrite E |].
  intros u Hu. apply in_seq in Hu.
  destruct (copies_In (board s) u ltac:(lia)) as [tile [Htile ->]]. eauto.
Qed.

Lemma idsLoopInv_step s d fuel v t rest v' :
  refsInv s d v (t :: rest) -> idsLoopInv s v ->
  moveTile s d fuel v t = Some v' -> idsLoopInv s v'.
Proof.
  intros Hrefs [Hnd Hfrom] Hmove.
  apply moveTile_cases in Hmove. destruct Hmove as [halt [Hhalt Hv']].
  pose proof Hrefs as [_ [_ [Hrest [Hnext [Hbound _]]]]].
  destruct (Hrest t (or_introl eq_refl)) as [Htn [Htin Et]].
  assert (Hsettle : forall w r' c' u,
            id (heap (settle t (row (heap v t)) (col (heap v t)) r' c' w) u)
            = id (heap w u) \/ (u = t /\ heap w t <> heap v t)).
  { intros w r' c' u. destruct (Nat.eq_dec u t) as [-> | Hne].
    - unfold settle. destruct (negb (r' =? row (heap v t)) || negb (c' =? col (heap v t)));
        [| now left].
      simpl. rewrite store_same. now left.
    - left. now rewrite settle_heap_other. }
  assert (Hid : forall w r' c' u,
            id (heap (settle t (row (heap v t)) (col (heap v t)) r' c' w) u)
            = id (heap w u)).
  { intros w r' c' u. destruct (Nat.eq_dec u t) as [-> | Hne].
    - unfold settle. destruct (negb (r' =? row (heap v t)) || negb (c' =? col (heap v t)));
        [| reflexivity].
      simpl. now rewrite store_same.
    - now rewrite settle_heap_other. }
  clear Hsettle.
  destruct halt as [target r' c' | r' c']; subst v'; unfold idsLoopInv.
  - rewrite settle_newBoard, mergeInto_newBoard.
    assert (Hold : forall u, In u (newBoard v) ->
              id (heap (settle t (row (heap v t)) (col (heap v t)) r' c'
                          (mergeInto s t target r' c' v)) u) = id (heap v u)).
    { intros u Hu. rewrite Hid, mergeInto_heap. rewrite store_other; [reflexivity |].
      specialize (Hbound u Hu). lia. }
    assert (Hnew : id (heap (settle t (row (heap v t)) (col (heap v t)) r' c'
                               (mergeInto s t target r' c' v)) (next v))
                   = id (heap v t)).
    { rewrite Hid, mergeInto_heap, store_same. reflexivity. }
    split.
    + rewrite map_app. simpl. rewrite Hnew.
      rewrite (map_ext_in _ (fun r => id (heap v r)))
        by (intros u Hu; apply filter_In in Hu; now apply Hold).
      apply NoDup_snoc; [now apply filter_keeps_distinct |].
      intros Hin. apply in_map_iff in Hin. destruct Hin as [u [Hu Hf]].
      apply filter_In in Hf. destruct Hf as [Huin Hkept].
      apply andb_true_iff in Hkept. destruct Hkept as [_ Hut].
      apply negb_true_iff, Nat.eqb_neq in Hut. apply Hut.
      apply (NoDup_map_eq (fun r => id (heap v r)) (newBoard v)); auto.
    + intros u Hu. apply in_app_or in Hu. destruct Hu as [Hu | [<- | []]].
      * apply filter_In in Hu. destruct Hu as [Hu _]. rewrite (Hold u Hu). auto.
      * rewrite Hnew. auto.
  - rewrite settle_newBoard.
    rewrite (map_ext _ (fun r => id (heap v r))) by (intros u; apply Hid).
    split; [assumption |]. intros u Hu. rewrite Hid. auto.
Qed.

Lemma resolve_ids s d v :
  NoDup (map id (board s)) -> resolve s d = Some v ->
  NoDup (map id (resolvedBoard v))
  /\ forall x, In x (resolvedBoard v) -> exists t, In t (board s) /\ id x = id t.
Proof.
  intros Hnd H. unfold resolve in H.
  assert (Hinv : refsInv s d v [] /\ idsLoopInv s v).
  { refine (forEachTile_inv s d _ (fun v rest => refsInv s d v rest /\ idsLoopInv s v)
              _ (sortedTiles s d) (enter s) v _ H).
    - intros v0 t rest v' [Hrefs Hids] Hmove. split.
      + eapply refsInv_step; eauto.
      + eapply idsLoopInv_step; eauto.
    - split; [apply refsInv_enter | now apply idsLoopInv_enter]. }
  destruct Hinv as [_ [Hdistinct Hfrom]]. unfold resolvedBoard, tilesOf. split.
  - now rewrite map_map.
  - intros x Hx. apply in_map_iff in Hx. destruct Hx as [u [<- Hu]]. auto.
Qed.

Lemma addNewTile_ids clock gs board dr :
  0 <= clock ->
  NoDup (map id board) ->
  (forall t, In t board ->
     exists r c time,
       id t = tileId r c time /\ 0 <= r /\ 0 <= c /\ 0 <= time <= clock) ->
  clock < now dr ->
  NoDup (map id (addNewTile gs board dr))
  /\ forall t, In t (addNewTile gs board dr) ->
       exists r c time,
         id t = tileId r c time /\ 0 <= r /\ 0 <= c /\ 0 <= time <= now dr.
Proof.
  intros Hclock Hnd Hold Hlater. unfold addNewTile.
  assert (Hkeep : forall t, In t board ->
            exists r c time,
              id t = tileId r c time /\ 0 <= r /\ 0 <= c /\ 0 <= time <= now dr).
  { intros t Ht. destruct (Hold t Ht) as [r [c [time [E [Hr [Hc Htime]]]]]].
    exists r, c, time. repeat split; try assumption; lia. }
  destruct (spawnTile gs board dr) as [a |] eqn:E; [| auto].
  destruct (spawnTile_id _ _ _ _ E) as [Ea [Hra Hca]]. split.
  - rewrite map_app. simpl. apply NoDup_snoc; [assumption |].
    intros Hin. apply in_map_iff in Hin. destruct Hin as [t [Hid Ht]].
    destruct (Hold t Ht) as [r [c [time [Et [Hr [Hc Htime]]]]]].
    rewrite Ea, Et in Hid. apply tileId_inj in Hid; lia.
  - intros t Ht. apply in_app_or in Ht. destruct Ht as [Ht | [<- | []]]; [auto |].
    exists (row a), (col a), (now dr). repeat split; try assumption; lia.
Qed.

Lemma idsInv_later clock clock' s : idsInv clock s -> clock <= clock' -> idsInv clock' s.
Proof.
  intros [Hclock [Hnd Hold]] Hle. split; [lia |]. split; [assumption |].
  intros t Ht. destruct (Hold t Ht) as [r [c [time [E [Hr [Hc Htime]]]]]].
  exists r, c, time. repeat split; try assumption; lia.
Qed.

Lemma move_idsInv clock s d dr s' cs :
  idsInv clock s -> clock < now dr -> move s d dr = Some (s', cs) ->
  idsInv (now dr) s'.
Proof.
  intros Hinv Hlater Hmove. apply move_cases in Hmove.
  destruct Hmove as [[_ [-> _]] | [_ [v [Hv Hfin]]]].
  { apply (idsInv_later clock); [assumption | lia]. }
  assert (E : s' = fst (finish s v dr)) by now rewrite Hfin. subst s'.
  unfold idsInv. rewrite finish_board. destruct (changed v).
  - destruct Hinv as [Hclock [Hnd Hold]].
    destruct (resolve_ids s d v Hnd Hv) as [Hdistinct Hfrom].
    split; [lia |]. apply (addNewTile_ids clock); try assumption.
    intros x Hx. destruct (Hfrom x Hx) as [t [Ht ->]]. now apply Hold.
  - apply (idsInv_later clock); [assumption | lia].
Qed.

Lemma initializeGame_idsInv s d1 d2 :
  0 <= now d1 <= now d2 -> idsInv (now d2) (initializeGame s d1 d2).
Proof.
  intros Htimes. unfold idsInv, initializeGame. simpl. split; [lia |].
  unfold addNewTile.
  destruct (spawnTile (gridSize s) [] d1) as [a |] eqn:Ea.
  - destruct (spawnTile_id _ _ _ _ Ea) as [Eida [Hra Hca]].
    simpl app.
    destruct (spawnTile (gridSize s) [a] d2) as [b |] eqn:Eb.
    + destruct (spawnTile_id _ _ _ _ Eb) as [Eidb [Hrb Hcb]].
      pose proof (spawnTile_emptyCell _ _ _ _ Eb) as [_ Hfree].
      split.
      * simpl. constructor; [| constructor; [intros [] | constructor]].
        intros [E | []]. rewrite Eida, Eidb in E.
        apply tileId_inj in E; try lia. destruct E as [Hr [Hc _]].
        apply (Hfree a (or_introl eq_refl)). unfold cell. f_equal; lia.
      * intros t Ht. simpl in Ht. destruct Ht as [<- | [<- | []]].
        -- exists (row a), (col a), (now d1). repeat split; try assumption; lia.
        -- exists (row b), (col b), (now d2). repeat split; try assumption; lia.
    + split; [repeat constructor; intros [] |].
      intros t Ht. simpl in Ht. destruct Ht as [<- | []].
      exists (row a), (col a), (now d1). repeat split; try assumption; lia.
  - apply spawnTile_none in Ea.
    assert (Eb : spawnTile (gridSize s) [] d2 = None) by now apply spawnTile_none.
    rewrite Eb. split; [constructor | intros t []].
Qed.

Lemma step_idsInv clock s c s' cs :
  idsInv clock s -> inTime clock [c] -> step s c = Some (s', cs) ->
  exists clock', idsInv clock' s' /\ forall rest, inTime clock (c :: rest) -> inTime clock' rest.
Proof.
  intros Hinv Htime Hstep. destruct c; simpl in Hstep, Htime.
  - exists (now dr). split; [| intros rest H; apply H].
    apply (move_idsInv clock s d dr s' cs); tauto.
  - exists (now d2). inversion Hstep; subst. split; [| intros rest H; apply H].
    apply initializeGame_idsInv. tauto.
  - exists clock. inversion Hstep; subst. split; [exact Hinv | auto].
  - exists clock. inversion Hstep; subst. split; [exact Hinv | auto].
  - exists clock. inversion Hstep; subst. split; [exact Hinv | auto].
  - exists clock. inversion Hstep; subst. split; [| auto].
    destruct Hinv as [Hclock _]. split; [assumption |].
    split; [constructor | intros t []].
  - exists clock. inversion Hstep; subst. split; [exact Hinv | auto].
  - exists clock. inversion Hstep as [E].
    assert (E' : s' = fst (scoreEffect s)) by now rewrite E.
    rewrite scoreEffect_fields in E'. subst s'. split; [exact Hinv | auto].
Qed.

(** X19.  No two tiles with one identifier.  The identifier of a tile is
    made of the cell it was spawned on and of the time of the spawn, and
    a merged tile takes the identifier of the tile that moved into the
    merger.  When the clock goes on between the commands that spawn a
    tile (see [inTime]), a board whose tiles have identifiers of their
    own, made at times up to the clock, is left so by every sequence of
    commands: the keys that the tiles are drawn with are never the same
    for two tiles.  A new game starts with such a board. *)
Theorem run_ids cmds : forall clock s,
  idsInv clock s -> inTime clock cmds ->
  exists s' log,
    run s cmds = Some (s', log)
    /\ NoDup (map id (board s'))
    /\ exists clock', idsInv clock' s'.
Proof.
  induction cmds as [| c cmds IH]; intros clock s Hinv Htime; simpl.
  - exists s, []. split; [reflexivity |]. split; [apply Hinv | eauto].
  - destruct (step_total s c) as [[s1 cs] E]. rewrite E.
    assert (Hone : inTime clock [c]).
    { destruct c; simpl in *; tauto. }
    destruct (step_idsInv clock s c s1 cs Hinv Hone E) as [clock1 [Hinv1 Hrest]].
    destruct (IH clock1 s1 Hinv1 (Hrest cmds Htime)) as [s2 [log [Hrun H2]]].
    rewrite Hrun. eauto.
Qed.

Lemma run_ids_witness :
  exists s' log,
    run freshGame
        [Move Left (mkDraws (mkDraw 0 1) (mkDraw 1 3) 19);
         Move Up (mkDraws (mkDraw 0 1) (mkDraw 1 3) 20);
         Move Right (mkDraws (mkDraw 1 2) (mkDraw 1 3) 21)] = Some (s', log)
    /\ NoDup (map id (board s'))
    /\ map id (board s') = ["3-0-18"; "1-1-17"; "0-1-20"; "1-2-21"]%string.
Proof.
  destruct (run_ids
              [Move Left (mkDraws (mkDraw 0 1) (mkDraw 1 3) 19);
               Move Up (mkDraws (mkDraw 0 1) (mkDraw 1 3) 20);
               Move Right (mkDraws (mkDraw 1 2) (mkDraw 1 3) 21)] 18 freshGame)
    as [s' [log [Hrun [Hnd _]]]].
  - apply (initializeGame_idsInv (playingOn [] []) someDraws
             (mkDraws (mkDraw 3 1) (mkDraw 19 1) 18)). simpl. lia.
  - simpl. lia.
  - exists s', log. split; [assumption |]. split; [assumption |].
    vm_compute in Hrun. inversion Hrun. reflexivity.
Defined.

(** Two moves within one millisecond: the tile spawned by the first
    leaves its cell in the second, which spawns a tile on that cell with
    the same identifier. *)
Example ids_within_a_millisecond :
  exists s' log,
    run (playingOn [] [])
        [NewGame (mkDraws (mkDraw 0 1) (mkDraw 0 1) 7)
                 (mkDraws (mkDraw 0 1) (mkDraw 19 1) 7);
         Move Right (mkDraws (mkDraw 0 1) (mkDraw 0 1) 8);
         Move Down (mkDraws (mkDraw 0 1) (mkDraw 0 1) 8)] = Some (s', log)
    /\ map id (board s') = ["0-0-7"; "0-1-7"; "0-0-8"; "0-0-8"]%string.
Proof. eexists. eexists. split; [vm_compute; reflexivity | reflexivity]. Qed.

(* ------------------------------------------------------------------ *)
(** ** What the screen shows after a command *)

Lemma mergedValues_positive h ms m :
  In m ms -> (forall m', In m' ms -> 0 < value (h (pushed m'))) ->
  0 < mergedValues h ms.
Proof.
  unfold mergedValues. induction ms as [| m0 ms IH]; intros Hin Hpos; [contradiction |].
  simpl. pose proof (Hpos m0 (or_introl eq_refl)) as H0.
  assert (Hrest : 0 <= fold_right Z.add 0 (map (fun m => value (h (pushed m))) ms)).
  { clear - Hpos. induction ms as [| m1 ms IH]; simpl; [lia |].
    pose proof (Hpos m1 (or_intror (or_introl eq_refl))).
    assert (0 <= fold_right Z.add 0 (map (fun m => value (h (pushed m))) ms)).
    { apply IH. intros m' [E | Hm']; apply Hpos; [now left | right; now right]. }
    lia. }
  lia.
Qed.

(** A move that leaves the score as it was has merged nothing: the
    values of its board are values of the board before, or of the tile
    spawned. *)
Lemma quiet_move_values s d dr s' cs x :
  valuesInv s -> move s d dr = Some (s', cs) -> score s' = score s ->
  In x (board s') ->
  (exists t, In t (board s) /\ value x = value t) \/ value x = 2 \/ value x = 4.
Proof.
  intros [Hvals _] Hmove Hscore Hx. apply move_cases in Hmove.
  destruct Hmove as [[_ [-> _]] | [_ [v [Hv Hfin]]]]; [eauto |].
  assert (E : s' = fst (finish s v dr)) by now rewrite Hfin. subst s'.
  rewrite finish_board in Hx. rewrite finish_score in Hscore.
  destruct (changed v); [| eauto].
  apply addNewTile_In in Hx. destruct Hx as [Hx | Hx]; [| now right].
  left. destruct (resolve_values s d v x Hv Hx) as [t [Ht [E | [_ [m [Hm _]]]]]]; [eauto |].
  exfalso.
  destruct (resolve_loopInv _ _ _ Hv) as [_ [_ [[Hms [_ [_ [Hsum _]]]] _]]].
  assert (Hpos : 0 < mergedValues (heap v) (mergers v)).
  { apply (mergedValues_positive _ _ m Hm). intros m' Hm'.
    destruct (Hms m' Hm') as [_ [Hmoved [_ [_ [_ [_ [_ [Hval _]]]]]]]].
    destruct (copies_In (board s) (moved m') Hmoved) as [tile [Htile Ec]].
    rewrite Hval, Ec. simpl. rewrite Forall_forall in Hvals.
    destruct (tileValue_even _ (Hvals tile Htile)). lia. }
  lia.
Qed.

Lemma step_maxTile s c s' cs bound :
  valuesInv s -> step s c = Some (s', cs) -> score s' = score s ->
  4 < bound -> bound <= maxTile (board s') -> bound <= maxTile (board s).
Proof.
  intros Hinv Hstep Hscore Hbound Hmax.
  apply maxTile_ge in Hmax; [| lia]. destruct Hmax as [x [Hx Hbig]].
  apply maxTile_ge; [lia |].
  destruct c; simpl in Hstep; try (inversion Hstep; subst; eauto; fail).
  - destruct (quiet_move_values s d dr s' cs x Hinv Hstep Hscore Hx)
      as [[t [Ht E]] | E]; [| lia].
    exists t. split; [assumption | lia].
  - inversion Hstep; subst. simpl in Hx.
    apply addNewTile_In in Hx. destruct Hx as [Hx | Hx]; [| lia].
    apply addNewTile_In in Hx. destruct Hx as [[] | Hx]. lia.
  - inversion Hstep; subst. contradiction.
  - inversion Hstep as [E].
    assert (E' : s' = fst (scoreEffect s)) by now rewrite E.
    rewrite scoreEffect_fields in E'. subst s'. simpl in Hx. eauto.
Qed.

(** X20.  What the screen shows.  With the effect run as React runs it,
    after every render in which [score] or [bestScore] has changed: in a
    state whose tiles hold powers of two, where the best score is not
    below the score and the achievements for a score of 1000 and of 10000
    and for a tile of 512 and of 1024 are unlocked when they are earned,
    this is so again after every command and its effect.  (The
    achievement for 100 moves is left out with reason: a move that merges
    nothing leaves the score as it is, so the effect does not run after
    it, see [moves100_waits].) *)
Theorem render_shown s c :
  valuesInv s -> shownInv s ->
  exists s' cs,
    render s c = Some (s', cs)
    /\ valuesInv s'
    /\ score s' <= bestScore s'
    /\ (1000 <= score s' -> In "score1000"%string (achievements s'))
    /\ (10000 <= score s' -> In "score10000"%string (achievements s'))
    /\ (512 <= maxTile (board s') -> In "tile512"%string (achievements s'))
    /\ (1024 <= maxTile (board s') -> In "tile1024"%string (achievements s')).
Proof.
  intros Hvals [Hbest [H1000 [H10000 [H512 H1024]]]].
  destruct (step_total s c) as [[s1 cs] Hstep]. unfold render. rewrite Hstep.
  pose proof (step_valuesInv s c s1 cs Hvals Hstep) as Hvals1.
  destruct (step_keeps s c s1 cs Hstep) as [_ [_ [Hincl _]]].
  destruct ((score s1 =? score s) && (bestScore s1 =? bestScore s)) eqn:E.
  - apply andb_prop in E. destruct E as [Es Eb]. apply Z.eqb_eq in Es, Eb.
    exists s1, cs. split; [reflexivity |]. split; [assumption |].
    split; [lia |].
    split; [intros H; apply Hincl, H1000; lia |].
    split; [intros H; apply Hincl, H10000; lia |].
    split; intros H; apply Hincl.
    + apply H512. apply (step_maxTile s c s1 cs 512 Hvals Hstep Es); [lia | assumption].
    + apply H1024. apply (step_maxTile s c s1 cs 1024 Hvals Hstep Es); [lia | assumption].
  - exists (fst (scoreEffect s1)), (cs ++ snd (scoreEffect s1)).
    split; [reflexivity |]. rewrite scoreEffect_fields.
    split; [exact Hvals1 |]. simpl.
    assert (Hearn : forall a,
              earned (score s1) (moveCount s1) (maxTile (board s1)) a ->
              In a (achievements s1
                    ++ newAchievements (score s1) (moveCount s1) (maxTile (board s1))
                         (achievements s1))).
    { intros a Ha. apply in_or_app.
      destruct (includes (achievements s1) a) eqn:Ei.
      - left. now apply includes_In.
      - right. apply newAchievements_In. split; [assumption |].
        now apply includes_false. }
    split.
    { destruct (bestScore s1 <? score s1) eqn:Hlt;
        [lia | apply Z.ltb_ge in Hlt; lia]. }
    unfold earned in Hearn.
    split; [intros H; apply Hearn; auto |].
    split; [intros H; apply Hearn; auto |].
    split; intros H; apply Hearn; auto 10.
Qed.

Lemma render_shown_witness :
  exists s' cs,
    render (mkSession (picture [[512; 256; 256; 0]]) 996 996 7 playing ["tile512"%string] 4)
           (Move Left someDraws) = Some (s', cs)
    /\ score s' = 1508 /\ bestScore s' = 1508
    /\ In "score1000"%string (achievements s')
    /\ In "tile512"%string (achievements s').
Proof.
  destruct (render_shown (mkSession (picture [[512; 256; 256; 0]]) 996 996 7 playing ["tile512"%string] 4)
              (Move Left someDraws))
    as [s' [cs [Hrender [_ [_ [H1000 [_ [H512 _]]]]]]]].
  { unfold valuesInv, picture. simpl.
    split; [| split; [lia | split; [exists 249; reflexivity | lia]]].
    repeat constructor;
      first [exists 9; split; [lia | reflexivity]
            | exists 8; split; [lia | reflexivity]]. }
  { unfold shownInv. simpl. split; [lia |].
    split; [lia |]. split; [lia |]. split; [auto |].
    intros H. vm_compute in H. now elim H. }
  assert (Hs : score s' = 1508 /\ bestScore s' = 1508 /\ maxTile (board s') = 512).
  { vm_compute in Hrender. inversion Hrender. repeat split. }
  destruct Hs as [Hscore [Hbest Hmax]].
  exists s', cs. split; [assumption |]. split; [assumption |]. split; [assumption |].
  split; [apply H1000 | apply H512]; lia.
Defined.

(** The hundredth move of a game, which merges nothing: the effect does
    not run, and moves100 stays locked until a move changes the score. *)
Example moves100_waits :
  exists s' cs,
    render (mkSession (picture [[0; 2; 4; 0]]) 0 0 99 playing [] 4)
           (Move Left someDraws) = Some (s', cs)
    /\ moveCount s' = 100
    /\ cs = []
    /\ achievements s' = [].
Proof. eexists. eexists. split; [vm_compute; reflexivity | repeat split]. Qed.

(* ------------------------------------------------------------------ *)
(** ** The flags of the tiles *)

Lemma isNewInv_step s d fuel v t rest v' :
  refsInv s d v (t :: rest) -> isNewInv v ->
  moveTile s d fuel v t = Some v' -> isNewInv v'.
Proof.
  intros Hrefs Hinv Hmove. unfold isNewInv in *.
  apply moveTile_cases in Hmove. destruct Hmove as [halt [_ Hv']].
  pose proof Hrefs as [_ [_ [Hrest [_ [Hbound _]]]]].
  destruct (Hrest t (or_introl eq_refl)) as [_ [Htin _]].
  assert (Hflag : forall w r' c' u,
            isNew (heap (settle t (row (heap v t)) (col (heap v t)) r' c' w) u)
            = isNew (heap w u)).
  { intros w r' c' u. destruct (Nat.eq_dec u t) as [-> | Hne].
    - unfold settle.
      destruct (negb (r' =? row (heap v t)) || negb (c' =? col (heap v t)));
        [| reflexivity].
      simpl. now rewrite store_same.
    - now rewrite settle_heap_other. }
  destruct halt as [target r' c' | r' c']; subst v'.
  - intros u Hu. rewrite settle_newBoard, mergeInto_newBoard in Hu.
    rewrite Hflag, mergeInto_heap.
    apply in_app_or in Hu. destruct Hu as [Hu | [<- | []]].
    + apply filter_In in Hu. destruct Hu as [Hu _].
      rewrite store_other; [now apply Hinv |]. specialize (Hbound u Hu). lia.
    + now rewrite store_same.
  - intros u Hu. rewrite settle_newBoard in Hu. rewrite Hflag. now apply Hinv.
Qed.

Lemma resolve_isNewInv s d v : resolve s d = Some v -> isNewInv v.
Proof.
  unfold resolve. intros H.
  refine (proj2 (forEachTile_inv s d _ (fun v rest => refsInv s d v rest /\ isNewInv v)
                   _ (sortedTiles s d) (enter s) v _ H)).
  - intros v0 t rest v' [Hrefs Hinv] Hmove. split.
    + eapply refsInv_step; eauto.
    + eapply isNewInv_step; eauto.
  - split; [apply refsInv_enter |].
    intros u Hu. unfold enter in *. simpl in *. apply in_seq in Hu.
    destruct (copies_In (board s) u ltac:(lia)) as [tile [_ ->]]. reflexivity.
Qed.

Lemma spawnTile_justMerged gs board dr t :
  spawnTile gs board dr = Some t -> justMerged t = None.
Proof.
  unfold spawnTile. destruct (emptyTiles gs board) as [| p l]; [discriminate |].
  destruct (nth_error (p :: l) (pickIndex (cellDraw dr) (length (p :: l))))
    as [[r c] |]; [| discriminate].
  intros H. inversion H. reflexivity.
Qed.

(** X21.  The flags do not outlive a move.  After an effective move of
    a game in play on a board that keeps its invariants, whatever flags
    the tiles had before: the tile spawned is the last of the board and
    the only one flagged [isNew], and a tile is flagged [justMerged]
    exactly when a merger of this move pushed it. *)
Theorem move_flags s d dr :
  wellFormed (gridSize s) (board s) -> gameState s = playing ->
  exists v s' cs,
    resolve s d = Some v
    /\ move s d dr = Some (s', cs)
    /\ (changed v = true ->
        exists t,
          board s' = resolvedBoard v ++ [t]
          /\ isNew t = Some true
          /\ filter (fun x => truthy (isNew x)) (board s') = [t]
          /\ truthy (justMerged t) = false
          /\ forall u, In u (newBoard v) ->
               truthy (justMerged (heap v u)) = true <->
               exists m, In m (mergers v) /\ pushed m = u).
Proof.
  intros Hwf Hplay. destruct (resolve_total s d) as [v Hv].
  exists v, (fst (finish s v dr)), (snd (finish s v dr)).
  split; [assumption |]. split.
  { unfold move. rewrite Hplay, Hv. simpl. now destruct (finish s v dr). }
  intros Hch. rewrite finish_board, Hch.
  destruct (spawn_after_change s d v dr Hwf Hv Hch) as [t [Hspawn ->]].
  pose proof (spawnTile_justMerged _ _ _ _ Hspawn) as Hplain.
  apply spawnTile_some in Hspawn. destruct Hspawn as [_ [_ Hnew]].
  exists t. split; [reflexivity |]. split; [assumption |].
  pose proof (resolve_isNewInv s d v Hv) as Hflags.
  split; [| split].
  - rewrite filter_app. simpl. rewrite Hnew. simpl.
    rewrite (filter_nothing (fun x => truthy (isNew x)) (resolvedBoard v));
      [reflexivity |].
    intros x Hx. unfold resolvedBoard, tilesOf in Hx. apply in_map_iff in Hx.
    destruct Hx as [u [<- Hu]]. now apply Hflags.
  - now rewrite Hplain.
  - intros u Hu.
    destruct (resolve_loopInv _ _ _ Hv) as [_ [[Htiles _] [[Hms [_ [Hpushed _]]] _]]].
    destruct (Htiles u Hu) as [Hold Hnewer]. split.
    + intros Hflag. destruct (Nat.lt_ge_cases u (length (board s))) as [Hlt | Hge].
      * destruct (Hold Hlt) as [E _]. rewrite E in Hflag. discriminate.
      * now apply Hpushed.
    + intros [m [Hm <-]]. destruct (Hms m Hm) as [_ [_ [Hge _]]].
      destruct (Htiles (pushed m) Hu) as [_ Hyes]. now rewrite (Hyes Hge).
Qed.

Lemma move_flags_witness :
  exists v s' cs t,
    resolve (playingOn [mkTile 2 "a" (Some true) (Some true) 0 1;
                        mkTile 2 "b" (Some true) (Some false) 0 3;
                        mkTile 4 "c" None (Some true) 1 0] []) Left = Some v
    /\ move (playingOn [mkTile 2 "a" (Some true) (Some true) 0 1;
                        mkTile 2 "b" (Some true) (Some false) 0 3;
                        mkTile 4 "c" None (Some true) 1 0] []) Left someDraws
       = Some (s', cs)
    /\ board s' = resolvedBoard v ++ [t]
    /\ filter (fun x => truthy (isNew x)) (board s') = [t]
    /\ map (fun x => (value x, truthy (justMerged x))) (board s')
       = [(4, false); (4, true); (2, false)].
Proof.
  destruct (move_flags (playingOn [mkTile 2 "a" (Some true) (Some true) 0 1;
                                   mkTile 2 "b" (Some true) (Some false) 0 3;
                                   mkTile 4 "c" None (Some true) 1 0] [])
              Left someDraws) as [v [s' [cs [Hv [Hmove Hflags]]]]].
  { unfold playingOn. simpl. concrete_wellFormed. }
  { reflexivity. }
  assert (Hch : changed v = true).
  { vm_compute in Hv. inversion Hv. reflexivity. }
  destruct (Hflags Hch) as [t [Hboard [_ [Honly _]]]].
  exists v, s', cs, t. split; [assumption |]. split; [assumption |].
  split; [assumption |]. split; [assumption |].
  vm_compute in Hmove. inversion Hmove. reflexivity.
Defined.

(* ------------------------------------------------------------------ *)
(** ** The order of the tiles that compare equal *)

Lemma filter_new_without (n a b : nat) l :
  (a < n)%nat -> (b < n)%nat ->
  filter (fun u => (n <=? u)%nat)
         (filter (fun u => negb (Nat.eqb u a) && negb (Nat.eqb u b)) l)
  = filter (fun u => (n <=? u)%nat) l.
Proof.
  intros Ha Hb. induction l as [| u l IH]; simpl; [reflexivity |].
  destruct (Nat.eqb_spec u a) as [-> | Hua]; simpl.
  - replace (n <=? a)%nat with false by (symmetry; apply Nat.leb_gt; lia).
    exact IH.
  - destruct (Nat.eqb_spec u b) as [-> | Hub]; simpl.
    + replace (n <=? b)%nat with false by (symmetry; apply Nat.leb_gt; lia).
      exact IH.
    + now rewrite IH.
Qed.

Lemma pushedInv_step s d fuel v t rest v' :
  refsInv s d v (t :: rest) -> tilesInv s d v -> pushedInv s v ->
  moveTile s d fuel v t = Some v' -> pushedInv s v'.
Proof.
  intros Hrefs [Htiles _] Hinv Hmove. unfold pushedInv in *.
  apply moveTile_cases in Hmove. destruct Hmove as [halt [Hhalt Hv']].
  pose proof Hrefs as [_ [_ [Hrest [Hnext _]]]].
  destruct (Hrest t (or_introl eq_refl)) as [Htn _].
  destruct halt as [target r' c' | r' c']; subst v';
    rewrite settle_mergers, settle_newBoard; [| assumption].
  rewrite mergeInto_mergers, mergeInto_newBoard, map_app, filter_app, Hinv.
  destruct Hhalt as [k [_ [_ [_ [_ [Hfind [_ Hflag]]]]]]].
  apply findAt_some in Hfind. destruct Hfind as [Htarget _].
  assert (Htarget' : (target < length (board s))%nat).
  { destruct (Nat.lt_ge_cases target (length (board s))) as [H | H]; [assumption |].
    destruct (Htiles target Htarget) as [_ Hp]. rewrite (Hp H) in Hflag.
    discriminate. }
  rewrite filter_new_without by assumption. simpl.
  replace (length (board s) <=? next v)%nat with true
    by (symmetry; apply Nat.leb_le; lia).
  reflexivity.
Qed.

(** The values that the mergers pushed are the values of the flagged
    tiles of the board. *)
Lemma pushed_values s d v :
  tilesInv s d v -> pushedInv s v ->
  map (fun m => value (heap v (pushed m))) (mergers v) = mergedNow (resolvedBoard v).
Proof.
  intros [Htiles _] Hinv. unfold mergedNow, resolvedBoard, tilesOf.
  rewrite filter_map_swap, map_map.
  transitivity (map (fun u => value (heap v u)) (map pushed (mergers v)));
    [now rewrite map_map |].
  rewrite Hinv. f_equal. apply filter_ext_in. intros u Hu.
  destruct (Htiles u Hu) as [Hold Hnew].
  destruct (Nat.leb_spec (length (board s)) u) as [H | H].
  - now rewrite (Hnew H).
  - destruct (Hold H) as [-> _]. reflexivity.
Qed.

Lemma callsLogInv_step s d fuel v t rest v' :
  refsInv s d v (t :: rest) -> callsLogInv s v ->
  moveTile s d fuel v t = Some v' -> callsLogInv s v'.
Proof.
  intros Hrefs Hinv Hmove. unfold callsLogInv in *.
  apply moveTile_cases in Hmove. destruct Hmove as [halt [_ Hv']].
  destruct Hrefs as [_ [_ [Hrest _]]].
  destruct (Hrest t (or_introl eq_refl)) as [_ [_ Et]].
  destruct halt as [target r' c' | r' c']; subst v';
    rewrite settle_calls, settle_mergers; [| assumption].
  rewrite mergeInto_mergers, flat_map_app, <- Hinv. simpl. rewrite app_nil_r.
  unfold victoryCalls. rewrite <- Et.
  destruct ((value (heap v t) * 2 =? 2048)
            && negb (includes (achievements s) "reach2048")) eqn:E.
  - now destruct (mergeInto_victory s t target r' c' v E) as [-> _].
  - destruct (mergeInto_quiet s t target r' c' v E) as [-> _].
    now rewrite app_nil_r.
Qed.

(** What the loop has established when it is left, in whatever order
    [sort] has put the tiles that compare equal. *)
Lemma loop_left s d order fuel v :
  sortsTo s d order ->
  forEachTile s d fuel (enter s) order = Some v ->
  loopInv s d v [] /\ settledInv s d v [] /\ callsInv s v
  /\ pushedInv s v /\ callsLogInv s v.
Proof.
  intros Hsorts H.
  refine (forEachTile_inv s d _
            (fun v rest => loopInv s d v rest /\ settledInv s d v rest
                           /\ callsInv s v /\ pushedInv s v /\ callsLogInv s v)
            _ order (enter s) v _ H).
  - intros v0 t rest v' [Hloop [Hsettled [Hcalls [Hpushed Hlog]]]] Hmove.
    pose proof Hloop as [Hrefs [Htiles _]].
    split; [eapply loopInv_step; eauto |].
    split; [eapply settledInv_step; eauto |].
    split; [eapply callsInv_step; eauto |].
    split; [eapply pushedInv_step; eauto | eapply callsLogInv_step; eauto].
  - split; [now apply loopInv_sorted |].
    split.
    { intros _ u Hu Hnot. exfalso. apply Hnot.
      destruct Hsorts as [Hperm _]. apply (Permutation_in _ Hperm). exact Hu. }
    split; [apply callsInv_enter |].
    split; [| reflexivity].
    unfold pushedInv, enter. simpl.
    symmetry. apply filter_nothing. intros a Ha. apply in_seq in Ha.
    apply Nat.leb_gt. lia.
Qed.

(** The faces of the resolved board, read off the lines. *)
Lemma faces_lines s d v (out : Z -> list (Z * bool)) :
  wfInv s v -> (forall line, lineAt s d v [] line (out line)) ->
  forall r c y f,
    In (r, c, y, f) (faces (resolvedBoard v)) <->
    exists j, nth_error (out (lineOf d (r, c))) j = Some (y, f)
              /\ lineCell d (gridSize s) (lineOf d (r, c)) (Z.of_nat j) = (r, c).
Proof.
  intros Hwf Hlines r c y f. split.
  - intros H. unfold faces, resolvedBoard, tilesOf in H. rewrite map_map in H.
    apply in_map_iff in H. destruct H as [u [E Hu]].
    assert (Ecell : cell (heap v u) = (r, c)) by (unfold face in E; unfold cell; congruence).
    assert (Ey : value (heap v u) = y) by (unfold face in E; congruence).
    assert (Ef : truthy (justMerged (heap v u)) = f) by (unfold face in E; congruence).
    destruct (Hlines (lineOf d (r, c))) as [Hin Hout].
    destruct (Hout u Hu (fun F => F)) as [j [Hj Hcell]]; [now rewrite Ecell |].
    exists j. split; [| congruence].
    destruct (nth_error (out (lineOf d (r, c))) j) as [[y' f'] |] eqn:En;
      [| apply nth_error_None in En; lia].
    destruct (Hin j y' f' En) as [u' [Hu' [_ [Hcell' [Hy' Hf']]]]].
    assert (u' = u) by (apply (cells_distinct s v); congruence).
    subst u'. congruence.
  - intros [j [En Hcell]]. destruct (Hlines (lineOf d (r, c))) as [Hin _].
    destruct (Hin j y f En) as [u [Hu [_ [Hc [Hy Hf]]]]].
    unfold faces, resolvedBoard, tilesOf. rewrite map_map. apply in_map_iff.
    exists u. split; [| assumption].
    rewrite Hcell in Hc. unfold cell in Hc. unfold face. congruence.
Qed.

Lemma faces_NoDup s v : wfInv s v -> NoDup (faces (resolvedBoard v)).
Proof.
  intros [[Hcells _] _].
  apply (NoDup_map_inv (fun x : Z * Z * Z * bool => fst (fst x))).
  unfold faces. rewrite map_map. exact Hcells.
Qed.

Lemma mergedNow_faces board :
  mergedNow board = map (fun x : Z * Z * Z * bool => snd (fst x)) (filter snd (faces board)).
Proof.
  unfold mergedNow, faces. rewrite filter_map_swap, map_map. reflexivity.
Qed.

Lemma sum_perm (l l' : list Z) :
  Permutation l l' -> fold_right Z.add 0 l = fold_right Z.add 0 l'.
Proof.
  induction 1 as [| a l l' _ IH | a b l | l l' l'' _ IH1 _ IH2]; simpl; lia.
Qed.

Lemma victoryCalls_perm s (l l' : list Z) :
  Permutation l l' -> flat_map (victoryCalls s) l = flat_map (victoryCalls s) l'.
Proof.
  induction 1 as [| a l l' _ IH | a b l | l l' l'' _ IH1 _ IH2]; simpl.
  - reflexivity.
  - now rewrite IH.
  - rewrite !app_assoc. f_equal. unfold victoryCalls.
    destruct ((a =? 2048) && negb (includes (achievements s) "reach2048")),
             ((b =? 2048) && negb (includes (achievements s) "reach2048"));
      reflexivity.
  - congruence.
Qed.

(** A board without mergers on which the loop is done with every tile
    has no legal slide. *)
Lemma settled_noLegalSlide s d v :
  wfInv s v -> settledInv s d v [] -> mergers v = [] ->
  noLegalSlide (gridSize s) (resolvedBoard v) d.
Proof.
  intros Hwf Hsettled Hnone. specialize (Hsettled Hnone).
  intros x Hx. unfold resolvedBoard, tilesOf in Hx.
  apply in_map_iff in Hx. destruct Hx as [u [<- Hu]].
  destruct (Hsettled u Hu (fun F => F)) as [Hout | [w [Hw [_ [Hcell Hval]]]]];
    [now left | right].
  split.
  - exists (heap v w). split; [| assumption].
    unfold resolvedBoard, tilesOf. now apply in_map.
  - intros y Hy Hycell. unfold resolvedBoard, tilesOf in Hy.
    apply in_map_iff in Hy. destruct Hy as [w' [<- Hw']].
    assert (w' = w); [| now subst].
    apply (cells_distinct s v); congruence.
Qed.

(** In whatever order the loop takes the tiles that compare equal, it
    reports [changed] false exactly when no tile can slide or merge. *)
Lemma loop_changed s d order v :
  wellFormed (gridSize s) (board s) -> sortsTo s d order ->
  forEachTile s d (rounds (gridSize s)) (enter s) order = Some v ->
  changed v = false <-> noLegalSlide (gridSize s) (board s) d.
Proof.
  intros Hwf Hsorts Hv. split.
  - intros Hch.
    assert (E : v = enter s) by (eapply forEachTile_unchanged; eauto).
    subst v.
    destruct (loop_left s d order _ _ Hsorts Hv) as [[_ [_ [_ Hboard]]] [Hsettled _]].
    pose proof (settled_noLegalSlide s d (enter s) (Hboard Hwf) Hsettled eq_refl) as H.
    rewrite enter_board in H.
    intros t Ht. apply blockedTile_freshCopy. apply H. now apply in_map.
  - intros Hblocked.
    assert (H : forall l, (forall t, In t l -> (t < length (board s))%nat) ->
              forEachTile s d (rounds (gridSize s)) (enter s) l = Some (enter s)).
    { unfold rounds.
      induction l as [| t l IH]; intros Hl; [reflexivity |].
      simpl forEachTile.
      destruct (nth_error (board s) t) as [b |] eqn:E.
      - rewrite (moveTile_blocked s d _ t b E).
        + apply IH. intros; apply Hl; now right.
        + apply Hblocked. eapply nth_error_In; eauto.
      - apply nth_error_None in E. specialize (Hl t (or_introl eq_refl)). lia. }
    rewrite H in Hv.
    + now inversion Hv.
    + intros t Ht. destruct Hsorts as [Hperm _].
      apply (Permutation_in _ (Permutation_sym Hperm)) in Ht.
      apply in_seq in Ht. lia.
Qed.

(** What the loop hands on, in terms of the faces of the board. *)
Lemma loop_handed_on s d order v :
  sortsTo s d order ->
  forEachTile s d (rounds (gridSize s)) (enter s) order = Some v ->
  newScore v = score s + fold_right Z.add 0 (mergedNow (resolvedBoard v))
  /\ mergeHappened v
     = negb (match mergedNow (resolvedBoard v) with [] => true | _ :: _ => false end)
  /\ calls v = flat_map (victoryCalls s) (mergedNow (resolvedBoard v))
  /\ (In 2048 (mergedNow (resolvedBoard v))
      /\ ~ In "reach2048"%string (achievements s) ->
      nextGameState v = victory
      /\ nextAchievements v = achievements s ++ ["reach2048"%string])
  /\ (~ (In 2048 (mergedNow (resolvedBoard v))
         /\ ~ In "reach2048"%string (achievements s)) ->
      nextGameState v = gameState s /\ nextAchievements v = achievements s).
Proof.
  intros Hsorts Hv.
  destruct (loop_left s d order _ _ Hsorts Hv)
    as [[_ [Htiles [Hms _]]] [_ [Hcalls [Hpushed Hlog]]]].
  pose proof (pushed_values s d v Htiles Hpushed) as Hvalues.
  destruct Hms as [Hmergers [_ [_ [Hscore [Hhappened _]]]]].
  assert (Hmoved : map (fun m => value (copies (board s) (moved m)) * 2) (mergers v)
                   = mergedNow (resolvedBoard v)).
  { rewrite <- Hvalues. apply map_ext_in. intros m Hm.
    destruct (Hmergers m Hm) as [_ [_ [_ [_ [_ [_ [_ [E _]]]]]]]]. now rewrite E. }
  split; [| split; [| split; [| split]]].
  - rewrite Hscore. unfold mergedValues. now rewrite Hvalues.
  - rewrite Hhappened, <- Hvalues. now destruct (mergers v).
  - unfold callsLogInv in Hlog. rewrite Hlog, <- Hmoved.
    rewrite flat_map_concat_map, flat_map_concat_map, map_map. reflexivity.
  - intros [H2048 Hlocked].
    destruct Hcalls as [[_ [_ [_ Hnone]]] | [_ [Ha [Hg _]]]]; [| now split].
    exfalso. rewrite <- Hmoved in H2048. apply in_map_iff in H2048.
    destruct H2048 as [m [E Hm]]. exact (Hlocked (Hnone m Hm E)).
  - intros Hnot.
    destruct Hcalls as [[_ [Ha [Hg _]]] | [_ [_ [_ [Hlocked [m [Hm E]]]]]]];
      [now split |].
    exfalso. apply Hnot. split; [| assumption].
    rewrite <- Hmoved. apply in_map_iff. exists m. now split.
Qed.

(** X22.  The order that [sort] leaves tiles that compare equal in does
    not matter.  The comparison of [move] sees the column of a tile in a
    move to the left or right and the row in a move up or down, so tiles
    of different lines compare equal, and [sort] may return them in any
    order.  On a board that keeps its invariants, for every order that
    [sort] may return the loop hands on the same result as for the order
    of the model: the same tiles by cell, value and [justMerged], the
    same [changed], score and [mergeHappened], the same calls, the same
    game state and the same achievements. *)
Theorem sort_order_immaterial s d order :
  wellFormed (gridSize s) (board s) ->
  sortsTo s d order ->
  exists v v0,
    forEachTile s d (rounds (gridSize s)) (enter s) order = Some v
    /\ resolve s d = Some v0
    /\ Permutation (faces (resolvedBoard v)) (faces (resolvedBoard v0))
    /\ changed v = changed v0
    /\ newScore v = newScore v0
    /\ mergeHappened v = mergeHappened v0
    /\ calls v = calls v0
    /\ nextGameState v = nextGameState v0
    /\ nextAchievements v = nextAchievements v0.
Proof.
  intros Hwf Hsorts.
  pose proof (sortedTiles_sortsTo s d) as Hsorts0.
  destruct (forEachTile_total s d (enter s) order) as [v Hv].
  destruct (resolve_total s d) as [v0 Hv0].
  exists v, v0. split; [assumption |]. split; [assumption |].
  unfold resolve in Hv0.
  destruct (loop_linesInv s d order _ v Hwf Hsorts Hv) as [_ [Hwfv Hlines]].
  destruct (loop_linesInv s d _ _ v0 Hwf Hsorts0 Hv0) as [_ [Hwfv0 Hlines0]].
  assert (Hrest : forall line,
            atRest s d line order = atRest s d line (sortedTiles s d)).
  { intros line. unfold atRest.
    now rewrite (lineValues_entered s d order line Hwf Hsorts),
      (lineValues_entered s d _ line Hwf Hsorts0). }
  assert (Hfaces : Permutation (faces (resolvedBoard v)) (faces (resolvedBoard v0))).
  { apply NoDup_Permutation; [exact (faces_NoDup s v Hwfv) | exact (faces_NoDup s v0 Hwfv0) |].
    intros [[[r c] y] f].
    rewrite (faces_lines s d v (fun line => atRest s d line order) Hwfv Hlines).
    rewrite (faces_lines s d v0 (fun line => atRest s d line (sortedTiles s d))
               Hwfv0 Hlines0).
    rewrite Hrest. reflexivity. }
  assert (Hmerged : Permutation (mergedNow (resolvedBoard v))
                                (mergedNow (resolvedBoard v0))).
  { rewrite !mergedNow_faces. now apply Permutation_map, filter_perm. }
  destruct (loop_handed_on s d order v Hsorts Hv)
    as [Hscore [Hhappened [Hcalls [Hwon Hquiet]]]].
  destruct (loop_handed_on s d _ v0 Hsorts0 Hv0)
    as [Hscore0 [Hhappened0 [Hcalls0 [Hwon0 Hquiet0]]]].
  split; [assumption |].
  split.
  { pose proof (loop_changed s d order v Hwf Hsorts Hv) as H.
    pose proof (loop_changed s d _ v0 Hwf Hsorts0 Hv0) as H0.
    destruct (changed v), (changed v0); try reflexivity.
    - apply (proj2 H), (proj1 H0). reflexivity.
    - symmetry. apply (proj2 H0), (proj1 H). reflexivity. }
  split; [rewrite Hscore, Hscore0; f_equal; now apply sum_perm |].
  split.
  { rewrite Hhappened, Hhappened0. apply Permutation_length in Hmerged.
    destruct (mergedNow (resolvedBoard v)), (mergedNow (resolvedBoard v0));
      simpl in Hmerged; try discriminate; reflexivity. }
  split; [rewrite Hcalls, Hcalls0; now apply victoryCalls_perm |].
  destruct (in_dec Z.eq_dec 2048 (mergedNow (resolvedBoard v))) as [H2048 | H2048].
  - destruct (in_dec string_dec "reach2048"%string (achievements s))
      as [Hheld | Hlocked].
    + destruct Hquiet as [-> ->]; [intros [_ F]; now apply F |].
      destruct Hquiet0 as [-> ->]; [intros [_ F]; now apply F |].
      now split.
    + destruct Hwon as [-> ->]; [now split |].
      destruct Hwon0 as [-> ->]; [| now split].
      split; [| assumption]. exact (Permutation_in _ Hmerged H2048).
  - destruct Hquiet as [-> ->]; [intros [F _]; now apply H2048 |].
    destruct Hquiet0 as [-> ->]; [| now split].
    intros [F _]. apply H2048.
    exact (Permutation_in _ (Permutation_sym Hmerged) F).
Qed.

(** Two rows 2 2 moved left.  [sort] may take the tiles of the second
    row before the tiles of the first. *)
Lemma sort_order_immaterial_witness :
  exists v v0,
    forEachTile (playingOn (picture [[2; 2; 0; 0]; [2; 2; 0; 0]]) []) Left
                (rounds 4)
                (enter (playingOn (picture [[2; 2; 0; 0]; [2; 2; 0; 0]]) []))
                [2; 0; 3; 1]%nat
    = Some v
    /\ resolve (playingOn (picture [[2; 2; 0; 0]; [2; 2; 0; 0]]) []) Left = Some v0
    /\ sortedTiles (playingOn (picture [[2; 2; 0; 0]; [2; 2; 0; 0]]) []) Left
       = [0; 2; 1; 3]%nat
    /\ Permutation (faces (resolvedBoard v)) (faces (resolvedBoard v0))
    /\ newScore v = newScore v0.
Proof.
  destruct (sort_order_immaterial
              (playingOn (picture [[2; 2; 0; 0]; [2; 2; 0; 0]]) []) Left
              [2; 0; 3; 1]%nat)
    as [v [v0 [Hv [Hv0 [Hfaces [_ [Hscore _]]]]]]].
  { unfold playingOn, picture. simpl. concrete_wellFormed. }
  { split.
    - apply NoDup_Permutation.
      + apply seq_NoDup.
      + repeat constructor; simpl; intuition discriminate.
      + intros x. simpl. intuition.
    - repeat constructor; vm_compute; discriminate. }
  exists v, v0. split; [exact Hv |]. split; [exact Hv0 |].
  split; [reflexivity |]. split; assumption.
Defined.

(* ------------------------------------------------------------------ *)
(** ** A game in play has a move *)

Lemma GameState_eqb_eq a b : GameState_eqb a b = true <-> a = b.
Proof. destruct a, b; simpl; split; congruence. Qed.

Lemma initializeGame_liveInv s d1 d2 :
  2 <= gridSize s -> liveInv (initializeGame s d1 d2).
Proof.
  intros Hgs. unfold liveInv. simpl.
  split; [assumption |].
  split; [apply addNewTile_wellFormed, addNewTile_wellFormed, wellFormed_nil |].
  destruct (spawn_room (gridSize s) [] d1) as [a [_ Ea]]; [lia | simpl; nia |].
  rewrite Ea.
  destruct (spawn_room (gridSize s) ([] ++ [a]) d2) as [b [_ Eb]];
    [lia | simpl; nia |].
  rewrite Eb. simpl.
  split; [| discriminate].
  intros _. split; [discriminate |].
  unfold isGameOverState. simpl length.
  replace (Z.of_nat 2 <? gridSize s * gridSize s) with true; [reflexivity |].
  symmetry. apply Z.ltb_lt. nia.
Qed.

Lemma move_liveInv s d dr s' cs :
  liveInv s -> move s d dr = Some (s', cs) -> liveInv s'.
Proof.
  intros [Hgs [Hwf [Hon Hover]]] Hmove.
  destruct (move_wellFormed s d dr s' cs Hwf Hmove) as [Egs Hwf'].
  revert Hmove. unfold move.
  destruct (GameState_eqb (gameState s) playing) eqn:Eplay; simpl.
  2:{ intros H. inversion H; subst. exact (conj Hgs (conj Hwf (conj Hon Hover))). }
  apply GameState_eqb_eq in Eplay.
  destruct (resolve s d) as [v |] eqn:Hv; [| discriminate].
  intros H. inversion H as [Hfin]. clear H.
  assert (Es' : s' = fst (finish s v dr)) by now rewrite Hfin.
  destruct (Hon (or_introl Eplay)) as [Hsome Hnot].
  assert (Hnext : nextGameState v = playing \/ nextGameState v = victory).
  { destruct (resolve_nextGameState s d v Hv) as [E | E]; [left | right]; congruence. }
  assert (Hboard : board s' <> []
                   /\ (isGameOverState (gridSize s) (board s') = true ->
                       gameState s' = gameOver)
                   /\ (isGameOverState (gridSize s) (board s') = false ->
                       gameState s' = nextGameState v)).
  { rewrite Es'. unfold finish. destruct (changed v) eqn:Ech; simpl.
    - destruct (spawn_after_change s d v dr Hwf Hv Ech) as [t [_ Et]].
      split; [rewrite Et; now destruct (resolvedBoard v) |].
      destruct (isGameOverState (gridSize s)
                  (addNewTile (gridSize s) (resolvedBoard v) dr));
        split; congruence.
    - assert (E : v = enter s) by (eapply forEachTile_unchanged; eauto).
      rewrite E, enter_board, isGameOverState_freshCopy, Hnot.
      split; [assumption |]. split; congruence. }
  destruct Hboard as [Hsome' [Hyes Hno]].
  unfold liveInv. rewrite Egs.
  split; [assumption |]. split; [now rewrite <- Egs |].
  destruct (isGameOverState (gridSize s) (board s')) eqn:E.
  - specialize (Hyes eq_refl). split.
    + intros [F | [F | F]]; congruence.
    + intros _. now split.
  - specialize (Hno eq_refl). split.
    + intros _. now split.
    + intros F. destruct Hnext; congruence.
Qed.

Lemma step_liveInv s c s' cs :
  liveInv s -> offered s c = true -> step s c = Some (s', cs) -> liveInv s'.
Proof.
  intros Hinv Hoffered Hstep. pose proof Hinv as [Hgs [Hwf [Hon Hover]]].
  destruct c; simpl in Hstep, Hoffered.
  - eapply move_liveInv; eauto.
  - inversion Hstep; subst. now apply initializeGame_liveInv.
  - inversion Hstep; subst. apply GameState_eqb_eq in Hoffered.
    unfold liveInv, continueAfterVictory, withGameState. simpl.
    split; [assumption |]. split; [assumption |].
    split; [intros _; apply Hon; auto | discriminate].
  - inversion Hstep; subst. apply GameState_eqb_eq in Hoffered.
    unfold liveInv, withGameState. simpl.
    split; [assumption |]. split; [assumption |].
    split; [intros _; apply Hon; auto | discriminate].
  - inversion Hstep; subst. apply GameState_eqb_eq in Hoffered.
    unfold liveInv, withGameState. simpl.
    split; [assumption |]. split; [assumption |].
    split; [intros _; apply Hon; auto | discriminate].
  - inversion Hstep; subst. unfold liveInv, returnToMenu. simpl.
    split; [assumption |]. split; [apply wellFormed_nil |].
    split; [intros [F | [F | F]]; discriminate | discriminate].
  - inversion Hstep; subst. unfold liveInv, withGameState. simpl.
    split; [assumption |]. split; [assumption |].
    split; [intros [F | [F | F]]; discriminate | discriminate].
  - inversion Hstep as [E]. pose proof (scoreEffect_fields s) as Hf.
    rewrite E in Hf. simpl in Hf. subst s'. exact Hinv.
Qed.

Lemma run_liveInv cmds : forall s,
  liveInv s -> offeredAll s cmds = true ->
  exists s' log, run s cmds = Some (s', log) /\ liveInv s'.
Proof.
  induction cmds as [| c cmds IH]; intros s Hs Hall; simpl in *.
  - eauto.
  - apply andb_prop in Hall. destruct Hall as [Hc Hall].
    destruct (step s c) as [[s1 cs] |] eqn:E; [| discriminate].
    destruct (IH s1 (step_liveInv _ _ _ _ Hs Hc E) Hall) as [s2 [log [Hrun Hs2]]].
    rewrite Hrun. eauto.
Qed.

(** X23.  A game in play has a move, and a game that is over has none.
    On a grid of size 2 or more, start a new game from any state and go
    on with commands that the screen offers when their turn comes (the
    pause button and the keys in play only, the buttons of a dialog in
    the state that opens it only).  Then, whenever the game is in play,
    paused or won, the move in one of the four directions at least would
    change the board; and whenever the game is over, no move would. *)
Theorem play_never_stuck s0 d1 d2 cmds :
  2 <= gridSize s0 ->
  offeredAll s0 (NewGame d1 d2 :: cmds) = true ->
  exists s log,
    run s0 (NewGame d1 d2 :: cmds) = Some (s, log)
    /\ (gameState s = playing \/ gameState s = paused \/ gameState s = victory ->
        exists d v, resolve s d = Some v /\ changed v = true)
    /\ (gameState s = gameOver ->
        forall d, exists v, resolve s d = Some v /\ changed v = false).
Proof.
  intros Hgs Hall. simpl in Hall. simpl run.
  destruct (run_liveInv cmds (resetGame s0 d1 d2)
              (initializeGame_liveInv s0 d1 d2 Hgs) Hall)
    as [s [log [Hrun [_ [Hwf [Hon Hover]]]]]].
  rewrite Hrun. exists s, ([] :: log). split; [reflexivity |].
  split.
  - intros Hstate. destruct (Hon Hstate) as [Hsome Hnot].
    destruct (resolve_total s Up) as [vu Hu].
    destruct (resolve_total s Down) as [vd Hd].
    destruct (resolve_total s Left) as [vl Hl].
    destruct (resolve_total s Right) as [vr Hr].
    destruct (changed vu) eqn:Eu; [now exists Up, vu |].
    destruct (changed vd) eqn:Ed; [now exists Down, vd |].
    destruct (changed vl) eqn:El; [now exists Left, vl |].
    destruct (changed vr) eqn:Er; [now exists Right, vr |].
    exfalso.
    assert (Hblocked : forall d, noLegalSlide (gridSize s) (board s) d).
    { intros d. apply (noLegalSlide_iff s d Hwf). destruct d; eauto. }
    apply (isGameOverState_noLegalSlide _ _ Hwf Hsome) in Hblocked. congruence.
  - intros Hstate d. destruct (Hover Hstate) as [Hsome Hyes].
    apply (noLegalSlide_iff s d Hwf).
    now apply (isGameOverState_noLegalSlide _ _ Hwf Hsome).
Qed.

(** A new game on the 4x4 grid, a move to the left, a pause and the
    game resumed. *)
Lemma play_never_stuck_witness :
  exists s log,
    run (playingOn [] [])
        [NewGame someDraws (mkDraws (mkDraw 3 1) (mkDraw 19 1) 18);
         Move Left (mkDraws (mkDraw 0 1) (mkDraw 1 3) 19); Pause; Resume]
    = Some (s, log)
    /\ gameState s = playing
    /\ exists d v, resolve s d = Some v /\ changed v = true.
Proof.
  destruct (play_never_stuck (playingOn [] [])
              someDraws (mkDraws (mkDraw 3 1) (mkDraw 19 1) 18)
              [Move Left (mkDraws (mkDraw 0 1) (mkDraw 1 3) 19); Pause; Resume])
    as [s [log [Hrun [Hon _]]]]; [simpl; lia | reflexivity |].
  exists s, log. split; [exact Hrun |].
  assert (Hstate : gameState s = playing).
  { vm_compute in Hrun. inversion Hrun. reflexivity. }
  split; [exact Hstate | apply Hon; now left].
Defined.

(** The screen matters: [Resume] is not offered when the game is over.
    Were it called then, the full checkerboard would be in play without
    a move. *)
Example resume_when_over :
  offered (withGameState (playingOn checkerboard []) gameOver) Resume = false
  /\ exists s,
       step (withGameState (playingOn checkerboard []) gameOver) Resume = Some (s, [])
       /\ gameState s = playing
       /\ isGameOverState (gridSize s) (board s) = true.
Proof. split; [reflexivity |]. eexists. repeat split; reflexivity. Qed.
